(** * StackMapStream: the stack-map stream encoder of the optimizing compiler

    A shallow embedding of [compiler/optimizing/stack_map_stream.cc].  The
    encoder is a C++ object mutated by a sequence of calls; it is modelled
    here as a record [StackMapStream] threaded through functions in the
    [option] monad, where [None] stands for a failed [DCHECK] (a debug build
    aborts).  Unsigned 32-bit integers are [Z] with the wrap-around written
    out, [size_t] indices and sizes are [nat], vectors are lists, hash maps
    are [gmap]s. *)

From Stdlib Require Import ZArith Lia.
From stdpp Require Import base option numbers list functions gmap.

Local Open Scope Z_scope.

(** ** Machine integers *)

Definition kBitsPerByte : nat := 8.
Definition uint32_modulus : Z := 2 ^ 32.
Definition uint32_max : Z := uint32_modulus - 1.

(** [static_cast<uint32_t>] of a mathematical integer. *)
Definition to_uint32 (z : Z) : Z := z mod uint32_modulus.

Definition is_uint32 (z : Z) : Prop := 0 ≤ z < uint32_modulus.

(** [RoundUp(x, n) / n] for [size_t] arguments. *)
Definition RoundUp (x n : nat) : nat := (((x + n - 1) / n) * n)%nat.

(** A failed [DCHECK] aborts: the computation has no result. *)
Definition DCHECK (b : bool) : option unit := if b then Some () else None.

(** ** Bit vectors

    Modelled from the spec: the expandable bit-vector collaborator
    ([BitVector], [ArenaBitVector]) is declared outside this file.  The spec
    lists its operations: set-bit, is-bit-set, highest-set-bit, popcount and
    equality.  A vector is the list of the bits of its storage, which is a
    whole number of 32-bit words. *)

Definition kWordBits : nat := 32.

Abbreviation BitVector := (list bool).

Definition BitsToWords (bits : nat) : nat := ((bits + 31) / 32)%nat.

(** [ArenaBitVector::Create(allocator, start_bits, expandable = true)]:
    zeroed storage covering [start_bits]. *)
Definition BitVector_Create (start_bits : nat) : BitVector :=
  replicate (kWordBits * BitsToWords start_bits) false.

(** [SetBit(idx)]: an expandable vector grows to cover [idx] first. *)
Definition BitVector_SetBit (bv : BitVector) (idx : nat) : BitVector :=
  if decide (idx < length bv)%nat then <[idx := true]> bv
  else <[idx := true]>
         (bv ++ replicate (kWordBits * BitsToWords (idx + 1) - length bv) false).

(** [IsBitSet(idx)]: bits beyond the storage read as clear. *)
Definition BitVector_IsBitSet (bv : BitVector) (idx : nat) : bool :=
  default false (bv !! idx).

Definition BitVector_NumSetBits (bv : BitVector) : nat :=
  length (filter (λ b, b = true) bv).

(** [Equal]: same storage size and same storage content. *)
Definition BitVector_Equal (a b : BitVector) : bool := bool_decide (a = b).

(** [GetHighestBitSet]: the index of the highest set bit, -1 for none. *)
Fixpoint highest_from (bv : list bool) (i : Z) (acc : Z) : Z :=
  match bv with
  | [] => acc
  | b :: bv' => highest_from bv' (i + 1) (if b then i else acc)
  end.

Definition BitVector_GetHighestBitSet (bv : BitVector) : Z :=
  highest_from bv 0 (-1).

(** ** Dex register locations *)

(** Modelled from the spec: the closed enum [DexRegisterLocation::Kind] is
    declared outside this file.  The spec names the short kinds and says
    that there are long-form variants besides, which are not interned by the
    stream. *)
Inductive Kind : Set :=
  | kInStack
  | kInRegister
  | kInFpuRegister
  | kConstant
  | kInStackLargeOffset
  | kConstantLargeValue
  | kNone.

Global Instance Kind_eq_dec : EqDecision Kind.
Proof. solve_decision. Defined.

Definition Kind_to_nat (k : Kind) : nat :=
  match k with
  | kInStack => 0 | kInRegister => 1 | kInFpuRegister => 2 | kConstant => 3
  | kInStackLargeOffset => 4 | kConstantLargeValue => 5 | kNone => 6
  end%nat.

Definition Kind_of_nat (n : nat) : Kind :=
  match n with
  | 0 => kInStack | 1 => kInRegister | 2 => kInFpuRegister | 3 => kConstant
  | 4 => kInStackLargeOffset | 5 => kConstantLargeValue | _ => kNone
  end%nat.

Global Instance Kind_countable : Countable Kind.
Proof.
  apply (inj_countable' Kind_to_nat Kind_of_nat).
  intros []; reflexivity.
Defined.

(** [DexRegisterLocation::IsShortLocationKind]. *)
Definition IsShortLocationKind (k : Kind) : bool :=
  match k with
  | kInStack | kInRegister | kInFpuRegister | kConstant => true
  | _ => false
  end.

(** [DexRegisterLocation(kind, value)], [value] an [int32_t]. *)
Abbreviation DexRegisterLocation := (Kind * Z)%type.

(** ** The encoding descriptor

    Modelled from the spec: the encoding descriptor ([CodeInfoEncoding] and
    the encodings of its tables) is declared with the reader, outside this
    file.  The spec gives the policy [SetFromSizes]: each field of a record
    is as wide as the minimum number of bits needed to represent the
    observed maximum, plus the sentinel where the field has one. *)

(** [MinimumBitsToStore(value)]: ceil(log2(value + 1)), 0 for 0. *)
Definition MinimumBitsToStore (value : Z) : nat := Z.to_nat (Z.log2_up (value + 1)).

Record StackMapEncoding := {
  sme_native_pc_bits : nat;
  sme_dex_pc_bits : nat;
  sme_dex_register_map_bits : nat;
  sme_inline_info_bits : nat;
  sme_register_mask_index_bits : nat;
  sme_stack_mask_index_bits : nat;
}.

(** The dex PC field also encodes the sentinel -1; the dex register map
    offset and the inline info index encode a sentinel too, but the size of
    the region (the number of records) is already greater than every offset
    (index) stored. *)
Definition StackMapEncoding_SetFromSizes
    (native_pc_max dex_pc_max dex_register_map_size number_of_inline_info
     number_of_register_masks number_of_stack_masks : Z) : StackMapEncoding := {|
  sme_native_pc_bits := MinimumBitsToStore native_pc_max;
  sme_dex_pc_bits := MinimumBitsToStore (1 + dex_pc_max);
  sme_dex_register_map_bits := MinimumBitsToStore dex_register_map_size;
  sme_inline_info_bits := MinimumBitsToStore number_of_inline_info;
  sme_register_mask_index_bits := MinimumBitsToStore number_of_register_masks;
  sme_stack_mask_index_bits := MinimumBitsToStore number_of_stack_masks;
|}.

Record InlineInfoEncoding := {
  iie_method_index_bits : nat;
  iie_dex_pc_bits : nat;
  iie_extra_data_bits : nat;
  iie_dex_register_map_bits : nat;
}.

(** No dex PC is encoded when no frame has one ([dex_pc_max] is still the
    sentinel [kDexNoIndex], 0xFFFFFFFF). *)
Definition InlineInfoEncoding_SetFromSizes
    (method_index_max dex_pc_max extra_data_max dex_register_map_size : Z)
    : InlineInfoEncoding := {|
  iie_method_index_bits := MinimumBitsToStore method_index_max;
  iie_dex_pc_bits :=
    if bool_decide (dex_pc_max ≠ 0xFFFFFFFF)
    then MinimumBitsToStore (1 + dex_pc_max) else 0%nat;
  iie_extra_data_bits := MinimumBitsToStore extra_data_max;
  iie_dex_register_map_bits := MinimumBitsToStore dex_register_map_size;
|}.

Record CodeInfoEncoding := {
  cie_dex_register_map_num_bytes : nat;
  cie_location_catalog_num_entries : nat;
  cie_location_catalog_num_bytes : nat;
  cie_inline_info_num_entries : nat;
  cie_inline_info_encoding : InlineInfoEncoding;
  cie_stack_mask_num_bits : nat;
  cie_stack_mask_num_entries : nat;
  cie_register_mask_num_bits : nat;
  cie_register_mask_num_entries : nat;
  cie_stack_map_num_entries : nat;
  cie_stack_map_encoding : StackMapEncoding;
}.

(** ** The memory region

    Modelled from the spec: the bit-addressable memory region and the
    records that the reader lays over it ([StackMap], [InlineInfo],
    [DexRegisterMap], the catalog and the mask tables) are declared outside
    this file.  The spec says which tables the region holds and that a field
    is stored in the number of bits of its encoding; the reader is symmetric
    to the writer.

    The offsets of the tables in the region are computed outside this file
    ([ComputeTableOffsets]); the tables of records of a fixed width are kept
    record by record and field by field, a field holding the bits stored in
    it.  The sub-region of the dex register maps, in which this file
    computes the offset and the size of every map, is kept bit by bit: a
    map is [FixedHeader || LiveBitMask || packed catalog indices], the maps
    are laid one after the other, and a write into a map is checked against
    the size of the map.  The size of the region in bytes is passed along
    with it to [FillIn], which checks against it the header that it copies
    and the two sub-regions that it takes at the byte offsets of the
    descriptor.  A region that was never written holds arbitrary bits. *)

(** [StoreBits(offset, value, bits)] for a [uint32_t] value keeps the low
    bits, [LoadBits] reads them. *)
Definition StoreBits (bits : nat) (value : Z) : Z :=
  to_uint32 value mod 2 ^ Z.of_nat bits.

Definition LoadBits (bits : nat) (raw : Z) : Z := raw mod 2 ^ Z.of_nat bits.

(** A field with a minimum value stores the distance to it. *)
Definition FieldEncoding_Store (bits : nat) (min_value value : Z) : Z :=
  StoreBits bits (value - min_value).

Definition FieldEncoding_Load (bits : nat) (min_value raw : Z) : Z :=
  to_uint32 (LoadBits bits raw + min_value).

(** The fields of a [StackMap] record and of an [InlineInfo] record. *)
Inductive StackMapField :=
  | kNativePc | kDexPc | kDexRegisterMapOffset | kInlineInfoIndex
  | kRegisterMaskIndex | kStackMaskIndex.

Inductive InlineInfoField :=
  | kIsLast | kMethodIndex | kInlineDexPc | kExtraData | kInlineDexRegisterMapOffset.

Global Instance StackMapField_eq_dec : EqDecision StackMapField.
Proof. solve_decision. Defined.

Global Instance InlineInfoField_eq_dec : EqDecision InlineInfoField.
Proof. solve_decision. Defined.

(** The width and the minimum value of each field: the dex PC, the dex
    register map offset and the inline info index have the sentinel -1. *)
Definition StackMapEncoding_bits (e : StackMapEncoding) (f : StackMapField) : nat :=
  match f with
  | kNativePc => sme_native_pc_bits e
  | kDexPc => sme_dex_pc_bits e
  | kDexRegisterMapOffset => sme_dex_register_map_bits e
  | kInlineInfoIndex => sme_inline_info_bits e
  | kRegisterMaskIndex => sme_register_mask_index_bits e
  | kStackMaskIndex => sme_stack_mask_index_bits e
  end.

Definition StackMapField_min_value (f : StackMapField) : Z :=
  match f with
  | kDexPc | kDexRegisterMapOffset | kInlineInfoIndex => -1
  | _ => 0
  end.

Definition InlineInfoEncoding_bits (e : InlineInfoEncoding) (f : InlineInfoField) : nat :=
  match f with
  | kIsLast => 1
  | kMethodIndex => iie_method_index_bits e
  | kInlineDexPc => iie_dex_pc_bits e
  | kExtraData => iie_extra_data_bits e
  | kInlineDexRegisterMapOffset => iie_dex_register_map_bits e
  end.

Definition InlineInfoField_min_value (f : InlineInfoField) : Z :=
  match f with
  | kInlineDexPc | kInlineDexRegisterMapOffset => -1
  | _ => 0
  end.

(** [LoadBits(bit_offset, length)] on a store of bits: the bit at
    [bit_offset + i] is the bit [i] of the value. *)
Definition load_bits (bits : nat → bool) (bit_offset length : nat) : Z :=
  foldl (λ value i,
           Z.lor value (Z.shiftl (Z.b2z (bits (bit_offset + i)%nat)) (Z.of_nat i)))
        0 (seq 0 length).

(** A dex register map as the reader sees it: its live bit mask, bit by
    bit, and its packed catalog indices in order. *)
Record DexRegisterMapRecord := {
  drm_live_bit_mask : nat → bool;
  drm_entries : nat → Z;
}.

(** [region_dex_register_maps] holds the bits of the sub-region of the dex
    register maps, from its first byte on. *)
Record MemoryRegion := {
  region_header : list Z;
  region_location_catalog : nat → DexRegisterLocation;
  region_dex_register_maps : nat → bool;
  region_stack_maps : nat * StackMapField → Z;
  region_inline_infos : nat * InlineInfoField → Z;
  region_stack_masks : nat * nat → bool;
  region_register_masks : nat → Z;
}.

Definition MemoryRegion_set_header (header : list Z) (r : MemoryRegion)
    : MemoryRegion := {|
  region_header := header;
  region_location_catalog := region_location_catalog r;
  region_dex_register_maps := region_dex_register_maps r;
  region_stack_maps := region_stack_maps r;
  region_inline_infos := region_inline_infos r;
  region_stack_masks := region_stack_masks r;
  region_register_masks := region_register_masks r;
|}.

Definition MemoryRegion_set_location (index : nat) (location : DexRegisterLocation)
    (r : MemoryRegion) : MemoryRegion := {|
  region_header := region_header r;
  region_location_catalog := <[index := location]> (region_location_catalog r);
  region_dex_register_maps := region_dex_register_maps r;
  region_stack_maps := region_stack_maps r;
  region_inline_infos := region_inline_infos r;
  region_stack_masks := region_stack_masks r;
  region_register_masks := region_register_masks r;
|}.

Definition MemoryRegion_set_dex_register_map_bit (position : nat)
    (bit : bool) (r : MemoryRegion) : MemoryRegion := {|
  region_header := region_header r;
  region_location_catalog := region_location_catalog r;
  region_dex_register_maps := <[position := bit]> (region_dex_register_maps r);
  region_stack_maps := region_stack_maps r;
  region_inline_infos := region_inline_infos r;
  region_stack_masks := region_stack_masks r;
  region_register_masks := region_register_masks r;
|}.

Definition MemoryRegion_set_stack_map (index : nat) (field : StackMapField)
    (raw : Z) (r : MemoryRegion) : MemoryRegion := {|
  region_header := region_header r;
  region_location_catalog := region_location_catalog r;
  region_dex_register_maps := region_dex_register_maps r;
  region_stack_maps := <[(index, field) := raw]> (region_stack_maps r);
  region_inline_infos := region_inline_infos r;
  region_stack_masks := region_stack_masks r;
  region_register_masks := region_register_masks r;
|}.

Definition MemoryRegion_set_inline_info (index : nat) (field : InlineInfoField)
    (raw : Z) (r : MemoryRegion) : MemoryRegion := {|
  region_header := region_header r;
  region_location_catalog := region_location_catalog r;
  region_dex_register_maps := region_dex_register_maps r;
  region_stack_maps := region_stack_maps r;
  region_inline_infos := <[(index, field) := raw]> (region_inline_infos r);
  region_stack_masks := region_stack_masks r;
  region_register_masks := region_register_masks r;
|}.

Definition MemoryRegion_set_stack_mask_bit (index bit_index : nat) (bit : bool)
    (r : MemoryRegion) : MemoryRegion := {|
  region_header := region_header r;
  region_location_catalog := region_location_catalog r;
  region_dex_register_maps := region_dex_register_maps r;
  region_stack_maps := region_stack_maps r;
  region_inline_infos := region_inline_infos r;
  region_stack_masks := <[(index, bit_index) := bit]> (region_stack_masks r);
  region_register_masks := region_register_masks r;
|}.

Definition MemoryRegion_set_register_mask (index : nat) (raw : Z)
    (r : MemoryRegion) : MemoryRegion := {|
  region_header := region_header r;
  region_location_catalog := region_location_catalog r;
  region_dex_register_maps := region_dex_register_maps r;
  region_stack_maps := region_stack_maps r;
  region_inline_infos := region_inline_infos r;
  region_stack_masks := region_stack_masks r;
  region_register_masks := <[index := raw]> (region_register_masks r);
|}.

(** The accessors of a [StackMap] record and of an [InlineInfo] record. *)
Definition StackMap_Set (encoding : StackMapEncoding) (index : nat)
    (field : StackMapField) (value : Z) (r : MemoryRegion) : MemoryRegion :=
  MemoryRegion_set_stack_map index field
    (FieldEncoding_Store (StackMapEncoding_bits encoding field)
       (StackMapField_min_value field) value) r.

Definition StackMap_Get (encoding : StackMapEncoding) (index : nat)
    (field : StackMapField) (r : MemoryRegion) : Z :=
  FieldEncoding_Load (StackMapEncoding_bits encoding field)
    (StackMapField_min_value field) (region_stack_maps r (index, field)).

Definition InlineInfo_Set (encoding : InlineInfoEncoding) (index : nat)
    (field : InlineInfoField) (value : Z) (r : MemoryRegion) : MemoryRegion :=
  MemoryRegion_set_inline_info index field
    (FieldEncoding_Store (InlineInfoEncoding_bits encoding field)
       (InlineInfoField_min_value field) value) r.

Definition InlineInfo_Get (encoding : InlineInfoEncoding) (index : nat)
    (field : InlineInfoField) (r : MemoryRegion) : Z :=
  FieldEncoding_Load (InlineInfoEncoding_bits encoding field)
    (InlineInfoField_min_value field) (region_inline_infos r (index, field)).

(** [StackMap::kNoDexRegisterMap], [StackMap::kNoInlineInfo] and
    [DexRegisterLocationCatalog::kNoLocationEntryIndex], all [-1]. *)
Definition kNoDexRegisterMap : Z := to_uint32 (-1).
Definition kNoInlineInfo : Z := to_uint32 (-1).

(** ** Collaborators

    The stream calls into code declared elsewhere (the runtime, the reader
    side of the format); what the stream needs from it is collected here. *)

Class Collaborators := {
  (** the instruction sets and the alignment of their instructions, by
      which [CodeOffset] compresses native PC offsets *)
  InstructionSet : Type;
  GetInstructionSetInstructionAlignment : InstructionSet → Z;
  (** [static_cast<uint32_t>(kind)] *)
  Kind_value : Kind → Z;
  (** the policy [EncodeArtMethodInInlineInfo(method)], on the address of
      the method *)
  EncodeArtMethodInInlineInfo : Z → bool;
  (** [method->GetDexMethodIndexUnchecked()] *)
  GetDexMethodIndexUnchecked : Z → Z;
  (** [IsSameDexFile] of the outer dex file and the dex file of the
      method, on the address of the outer dex file and of the method *)
  IsSameDexFile : Z → Z → bool;
  (** [DexRegisterMap::kFixedSize] *)
  DexRegisterMap_kFixedSize : nat;
  (** [DexRegisterMap::SingleEntrySizeInBits(number_of_catalog_entries)] *)
  SingleEntrySizeInBits : nat → nat;
  (** [DexRegisterLocationCatalog::kFixedSize] and [EntrySize(location)] *)
  DexRegisterLocationCatalog_kFixedSize : nat;
  DexRegisterLocationCatalog_EntrySize : DexRegisterLocation → nat;
  (** [CodeInfoEncoding::Compress]: the bytes of the header; the reader's
      [ExtractEncoding] decodes them; [NonHeaderSize] is the size in bytes
      of the tables laid out after the header *)
  CodeInfoEncoding_Compress : CodeInfoEncoding → list Z;
  CodeInfo_ExtractEncoding : list Z → option CodeInfoEncoding;
  CodeInfoEncoding_NonHeaderSize : CodeInfoEncoding → nat;
  (** [encoding.dex_register_map.byte_offset] and
      [encoding.location_catalog.byte_offset]: where [ComputeTableOffsets]
      puts the two tables of bytes in the region *)
  CodeInfoEncoding_dex_register_map_byte_offset : CodeInfoEncoding → nat;
  CodeInfoEncoding_location_catalog_byte_offset : CodeInfoEncoding → nat;
}.

(** ** The entries collected by the stream *)

Record StackMapEntry := {
  sm_dex_pc : Z;
  sm_native_pc_code_offset : Z;
  sm_register_mask : Z;
  sm_sp_mask : option BitVector;
  sm_num_dex_registers : Z;
  sm_inlining_depth : Z;
  sm_dex_register_locations_start_index : nat;
  sm_inline_infos_start_index : nat;
  sm_live_dex_registers_mask : option BitVector;
  sm_dex_register_map_hash : Z;
  sm_same_dex_register_map_as_ : option nat;
  sm_stack_mask_index : nat;
  sm_register_mask_index : nat;
}.

Record InlineInfoEntry := {
  ii_dex_pc : Z;
  ii_method : Z;
  ii_method_index : Z;
  ii_num_dex_registers : Z;
  ii_live_dex_registers_mask : option BitVector;
  ii_dex_register_locations_start_index : nat;
}.

(** [kNoSameDexMapFound] is [static_cast<size_t>(-1)], which is no index of
    a vector: the back-reference is an [option], [None] for the sentinel. *)
Definition kNoSameDexMapFound : option nat := None.

(** [DexFile::kDexNoIndex]. *)
Definition kDexNoIndex : Z := 0xFFFFFFFF.

(** [StackMapEntry()] and [InlineInfoEntry()]: value-initialised, every
    member zero or null. *)
Definition StackMapEntry_zero : StackMapEntry := {|
  sm_dex_pc := 0;
  sm_native_pc_code_offset := 0;
  sm_register_mask := 0;
  sm_sp_mask := None;
  sm_num_dex_registers := 0;
  sm_inlining_depth := 0;
  sm_dex_register_locations_start_index := 0;
  sm_inline_infos_start_index := 0;
  sm_live_dex_registers_mask := None;
  sm_dex_register_map_hash := 0;
  sm_same_dex_register_map_as_ := Some 0%nat;
  sm_stack_mask_index := 0;
  sm_register_mask_index := 0;
|}.

Definition InlineInfoEntry_zero : InlineInfoEntry := {|
  ii_dex_pc := 0;
  ii_method := 0;
  ii_method_index := 0;
  ii_num_dex_registers := 0;
  ii_live_dex_registers_mask := None;
  ii_dex_register_locations_start_index := 0;
|}.

(** ** The stream *)

Record StackMapStream `{Collaborators} := {
  instruction_set_ : InstructionSet;
  stack_maps_ : list StackMapEntry;
  location_catalog_entries_ : list DexRegisterLocation;
  location_catalog_entries_indices_ : gmap DexRegisterLocation nat;
  dex_register_locations_ : list nat;
  inline_infos_ : list InlineInfoEntry;
  stack_masks_ : list bool;
  register_masks_ : list Z;
  stack_mask_max_ : Z;
  dex_pc_max_ : Z;
  register_mask_max_ : Z;
  number_of_stack_maps_with_inline_info_ : nat;
  dex_map_hash_to_stack_map_indices_ : gmap Z (list nat);
  current_entry_ : StackMapEntry;
  current_inline_info_ : InlineInfoEntry;
  code_info_encoding_ : list Z;
  needed_size_ : nat;
  current_dex_register_ : Z;
  in_inline_frame_ : bool;
}.

Section Stream.
Context `{Collaborators}.

(** Modelled from the spec: [CodeOffset] is declared outside this file.  A
    native PC offset is stored compressed by the alignment of the
    instruction set (1, 2 or 4), and read back decompressed. *)
Definition CodeOffset_FromOffset (offset : Z) (isa : InstructionSet) : Z :=
  offset / GetInstructionSetInstructionAlignment isa.

Definition CodeOffset_Uint32Value (value : Z) (isa : InstructionSet) : Z :=
  to_uint32 (value * GetInstructionSetInstructionAlignment isa).

(** Modelled from the spec: the constructor is declared in the header of
    the class.  A fresh encoder has empty tables, no entry open, zero maxima
    and a stack-mask maximum of -1, so that the stack-mask width
    [stack_mask_max_ + 1] is the highest bit seen plus one. *)
Definition StackMapStream_new (isa : InstructionSet) : StackMapStream := {|
  instruction_set_ := isa;
  stack_maps_ := [];
  location_catalog_entries_ := [];
  location_catalog_entries_indices_ := ∅;
  dex_register_locations_ := [];
  inline_infos_ := [];
  stack_masks_ := [];
  register_masks_ := [];
  stack_mask_max_ := -1;
  dex_pc_max_ := 0;
  register_mask_max_ := 0;
  number_of_stack_maps_with_inline_info_ := 0;
  dex_map_hash_to_stack_map_indices_ := ∅;
  current_entry_ := StackMapEntry_zero;
  current_inline_info_ := InlineInfoEntry_zero;
  code_info_encoding_ := [];
  needed_size_ := 0;
  current_dex_register_ := 0;
  in_inline_frame_ := false;
|}.

(** *** BeginStackMapEntry *)

Definition BeginStackMapEntry
    (dex_pc native_pc_offset register_mask : Z) (sp_mask : option BitVector)
    (num_dex_registers inlining_depth : Z)
    (s : StackMapStream) : option StackMapStream :=
  DCHECK (bool_decide (0 = sm_dex_pc (current_entry_ s)));;
  DCHECK (bool_decide (dex_pc ≠ to_uint32 (-1)));;
  Some {|
    instruction_set_ := instruction_set_ s;
    stack_maps_ := stack_maps_ s;
    location_catalog_entries_ := location_catalog_entries_ s;
    location_catalog_entries_indices_ := location_catalog_entries_indices_ s;
    dex_register_locations_ := dex_register_locations_ s;
    inline_infos_ := inline_infos_ s;
    stack_masks_ := stack_masks_ s;
    register_masks_ := register_masks_ s;
    stack_mask_max_ :=
      match sp_mask with
      | Some m => Z.max (stack_mask_max_ s) (BitVector_GetHighestBitSet m)
      | None => stack_mask_max_ s
      end;
    dex_pc_max_ := Z.max (dex_pc_max_ s) dex_pc;
    register_mask_max_ := Z.max (register_mask_max_ s) register_mask;
    number_of_stack_maps_with_inline_info_ :=
      if bool_decide (inlining_depth > 0)
      then S (number_of_stack_maps_with_inline_info_ s)
      else number_of_stack_maps_with_inline_info_ s;
    dex_map_hash_to_stack_map_indices_ := dex_map_hash_to_stack_map_indices_ s;
    current_entry_ := {|
      sm_dex_pc := dex_pc;
      sm_native_pc_code_offset :=
        CodeOffset_FromOffset native_pc_offset (instruction_set_ s);
      sm_register_mask := register_mask;
      sm_sp_mask := sp_mask;
      sm_num_dex_registers := num_dex_registers;
      sm_inlining_depth := inlining_depth;
      sm_dex_register_locations_start_index := length (dex_register_locations_ s);
      sm_inline_infos_start_index := length (inline_infos_ s);
      sm_live_dex_registers_mask :=
        if bool_decide (num_dex_registers ≠ 0)
        then Some (BitVector_Create (Z.to_nat num_dex_registers))
        else None;
      sm_dex_register_map_hash := 0;
      sm_same_dex_register_map_as_ := kNoSameDexMapFound;
      sm_stack_mask_index := 0;
      sm_register_mask_index := sm_register_mask_index (current_entry_ s);
    |};
    current_inline_info_ := current_inline_info_ s;
    code_info_encoding_ := code_info_encoding_ s;
    needed_size_ := needed_size_ s;
    current_dex_register_ := 0;
    in_inline_frame_ := in_inline_frame_ s;
  |}.

(** *** AddDexRegisterEntry *)

(** The interning of a location: the index it gets, the catalog and its
    companion map afterwards. *)
Definition intern_location (location : DexRegisterLocation) (s : StackMapStream)
    : nat * list DexRegisterLocation * gmap DexRegisterLocation nat :=
  match location_catalog_entries_indices_ s !! location with
  | Some index =>
      (index, location_catalog_entries_ s, location_catalog_entries_indices_ s)
  | None =>
      let index := length (location_catalog_entries_ s) in
      (index, location_catalog_entries_ s ++ [location],
       <[location := index]> (location_catalog_entries_indices_ s))
  end.

Definition StackMapEntry_set_live (e : StackMapEntry)
    (mask : option BitVector) (hash : Z) : StackMapEntry := {|
  sm_dex_pc := sm_dex_pc e;
  sm_native_pc_code_offset := sm_native_pc_code_offset e;
  sm_register_mask := sm_register_mask e;
  sm_sp_mask := sm_sp_mask e;
  sm_num_dex_registers := sm_num_dex_registers e;
  sm_inlining_depth := sm_inlining_depth e;
  sm_dex_register_locations_start_index := sm_dex_register_locations_start_index e;
  sm_inline_infos_start_index := sm_inline_infos_start_index e;
  sm_live_dex_registers_mask := mask;
  sm_dex_register_map_hash := hash;
  sm_same_dex_register_map_as_ := sm_same_dex_register_map_as_ e;
  sm_stack_mask_index := sm_stack_mask_index e;
  sm_register_mask_index := sm_register_mask_index e;
|}.

Definition InlineInfoEntry_set_live (e : InlineInfoEntry)
    (mask : option BitVector) : InlineInfoEntry := {|
  ii_dex_pc := ii_dex_pc e;
  ii_method := ii_method e;
  ii_method_index := ii_method_index e;
  ii_num_dex_registers := ii_num_dex_registers e;
  ii_live_dex_registers_mask := mask;
  ii_dex_register_locations_start_index := ii_dex_register_locations_start_index e;
|}.

(** The rolling hash of the entry after one more live register. *)
Definition hash_step (hash cursor : Z) (kind : Kind) (value : Z) : Z :=
  let h1 := to_uint32 (hash + to_uint32 (2 ^ (cursor mod 32))) in
  let h2 := to_uint32 (h1 + to_uint32 value) in
  to_uint32 (h2 + to_uint32 (Kind_value kind)).

Definition set_current_dex_register_ (c : Z) (s : StackMapStream)
    : StackMapStream := {|
  instruction_set_ := instruction_set_ s;
  stack_maps_ := stack_maps_ s;
  location_catalog_entries_ := location_catalog_entries_ s;
  location_catalog_entries_indices_ := location_catalog_entries_indices_ s;
  dex_register_locations_ := dex_register_locations_ s;
  inline_infos_ := inline_infos_ s;
  stack_masks_ := stack_masks_ s;
  register_masks_ := register_masks_ s;
  stack_mask_max_ := stack_mask_max_ s;
  dex_pc_max_ := dex_pc_max_ s;
  register_mask_max_ := register_mask_max_ s;
  number_of_stack_maps_with_inline_info_ := number_of_stack_maps_with_inline_info_ s;
  dex_map_hash_to_stack_map_indices_ := dex_map_hash_to_stack_map_indices_ s;
  current_entry_ := current_entry_ s;
  current_inline_info_ := current_inline_info_ s;
  code_info_encoding_ := code_info_encoding_ s;
  needed_size_ := needed_size_ s;
  current_dex_register_ := c;
  in_inline_frame_ := in_inline_frame_ s;
|}.

(** The part of [AddDexRegisterEntry] under [kind != kNone]. *)
Definition add_live_location (kind : Kind) (value : Z) (s : StackMapStream)
    : option StackMapStream :=
  DCHECK (IsShortLocationKind kind);;
  let '(index, catalog, indices) := intern_location (kind, value) s in
  let cursor := current_dex_register_ s in
  '(entry, inline_info) ←
    (if in_inline_frame_ s then
       DCHECK (bool_decide (cursor < ii_num_dex_registers (current_inline_info_ s)));;
       mask ← ii_live_dex_registers_mask (current_inline_info_ s);
       Some (current_entry_ s,
             InlineInfoEntry_set_live (current_inline_info_ s)
               (Some (BitVector_SetBit mask (Z.to_nat cursor))))
     else
       DCHECK (bool_decide (cursor < sm_num_dex_registers (current_entry_ s)));;
       mask ← sm_live_dex_registers_mask (current_entry_ s);
       Some (StackMapEntry_set_live (current_entry_ s)
               (Some (BitVector_SetBit mask (Z.to_nat cursor)))
               (hash_step (sm_dex_register_map_hash (current_entry_ s))
                  cursor kind value),
             current_inline_info_ s));
  Some {|
    instruction_set_ := instruction_set_ s;
    stack_maps_ := stack_maps_ s;
    location_catalog_entries_ := catalog;
    location_catalog_entries_indices_ := indices;
    dex_register_locations_ := dex_register_locations_ s ++ [index];
    inline_infos_ := inline_infos_ s;
    stack_masks_ := stack_masks_ s;
    register_masks_ := register_masks_ s;
    stack_mask_max_ := stack_mask_max_ s;
    dex_pc_max_ := dex_pc_max_ s;
    register_mask_max_ := register_mask_max_ s;
    number_of_stack_maps_with_inline_info_ := number_of_stack_maps_with_inline_info_ s;
    dex_map_hash_to_stack_map_indices_ := dex_map_hash_to_stack_map_indices_ s;
    current_entry_ := entry;
    current_inline_info_ := inline_info;
    code_info_encoding_ := code_info_encoding_ s;
    needed_size_ := needed_size_ s;
    current_dex_register_ := cursor;
    in_inline_frame_ := in_inline_frame_ s;
  |}.

Definition AddDexRegisterEntry (kind : Kind) (value : Z) (s : StackMapStream)
    : option StackMapStream :=
  s1 ← (if bool_decide (kind ≠ kNone) then add_live_location kind value s
        else Some s);
  Some (set_current_dex_register_ (to_uint32 (current_dex_register_ s1 + 1)) s1).

(** *** BeginInlineInfoEntry and EndInlineInfoEntry *)

Definition BeginInlineInfoEntry
    (method dex_pc num_dex_registers outer_dex_file : Z)
    (s : StackMapStream) : option StackMapStream :=
  DCHECK (negb (in_inline_frame_ s));;
  '(method_field, method_index_field) ←
    (if EncodeArtMethodInInlineInfo method then
       Some (method, ii_method_index (current_inline_info_ s))
     else
       (if bool_decide (dex_pc ≠ to_uint32 (-1))
        then DCHECK (IsSameDexFile outer_dex_file method)
        else Some ());;
       Some (ii_method (current_inline_info_ s),
             GetDexMethodIndexUnchecked method));
  Some {|
    instruction_set_ := instruction_set_ s;
    stack_maps_ := stack_maps_ s;
    location_catalog_entries_ := location_catalog_entries_ s;
    location_catalog_entries_indices_ := location_catalog_entries_indices_ s;
    dex_register_locations_ := dex_register_locations_ s;
    inline_infos_ := inline_infos_ s;
    stack_masks_ := stack_masks_ s;
    register_masks_ := register_masks_ s;
    stack_mask_max_ := stack_mask_max_ s;
    dex_pc_max_ := dex_pc_max_ s;
    register_mask_max_ := register_mask_max_ s;
    number_of_stack_maps_with_inline_info_ := number_of_stack_maps_with_inline_info_ s;
    dex_map_hash_to_stack_map_indices_ := dex_map_hash_to_stack_map_indices_ s;
    current_entry_ := current_entry_ s;
    current_inline_info_ := {|
      ii_dex_pc := dex_pc;
      ii_method := method_field;
      ii_method_index := method_index_field;
      ii_num_dex_registers := num_dex_registers;
      ii_live_dex_registers_mask :=
        if bool_decide (num_dex_registers ≠ 0)
        then Some (BitVector_Create (Z.to_nat num_dex_registers))
        else None;
      ii_dex_register_locations_start_index := length (dex_register_locations_ s);
    |};
    code_info_encoding_ := code_info_encoding_ s;
    needed_size_ := needed_size_ s;
    current_dex_register_ := 0;
    in_inline_frame_ := true;
  |}.

Definition EndInlineInfoEntry (s : StackMapStream) : option StackMapStream :=
  DCHECK (in_inline_frame_ s);;
  DCHECK (bool_decide
            (current_dex_register_ s = ii_num_dex_registers (current_inline_info_ s)));;
  Some {|
    instruction_set_ := instruction_set_ s;
    stack_maps_ := stack_maps_ s;
    location_catalog_entries_ := location_catalog_entries_ s;
    location_catalog_entries_indices_ := location_catalog_entries_indices_ s;
    dex_register_locations_ := dex_register_locations_ s;
    inline_infos_ := inline_infos_ s ++ [current_inline_info_ s];
    stack_masks_ := stack_masks_ s;
    register_masks_ := register_masks_ s;
    stack_mask_max_ := stack_mask_max_ s;
    dex_pc_max_ := dex_pc_max_ s;
    register_mask_max_ := register_mask_max_ s;
    number_of_stack_maps_with_inline_info_ := number_of_stack_maps_with_inline_info_ s;
    dex_map_hash_to_stack_map_indices_ := dex_map_hash_to_stack_map_indices_ s;
    current_entry_ := current_entry_ s;
    current_inline_info_ := InlineInfoEntry_zero;
    code_info_encoding_ := code_info_encoding_ s;
    needed_size_ := needed_size_ s;
    current_dex_register_ := current_dex_register_ s;
    in_inline_frame_ := false;
  |}.

(** *** The similarity index of dex register maps *)

(** The slice of the shared index array that a map with [n] live registers
    starting at [start] consumes. *)
Definition locations_slice (locations : list nat) (start n : nat) : list nat :=
  take n (drop start locations).

Definition HaveTheSameDexMaps (locations : list nat) (a b : StackMapEntry)
    : option bool :=
  match sm_live_dex_registers_mask a, sm_live_dex_registers_mask b with
  | None, None => Some true
  | None, Some _ | Some _, None => Some false
  | Some mask_a, Some mask_b =>
      if bool_decide (sm_num_dex_registers a ≠ sm_num_dex_registers b) then Some false
      else if bool_decide (sm_num_dex_registers a ≠ 0) then
        if negb (BitVector_Equal mask_a mask_b) then Some false
        else
          let number_of_live_dex_registers := BitVector_NumSetBits mask_a in
          DCHECK (bool_decide
                    (number_of_live_dex_registers ≤ length locations)%nat);;
          DCHECK (bool_decide
                    (sm_dex_register_locations_start_index a
                     ≤ length locations - number_of_live_dex_registers)%nat);;
          DCHECK (bool_decide
                    (sm_dex_register_locations_start_index b
                     ≤ length locations - number_of_live_dex_registers)%nat);;
          Some (bool_decide
                  (locations_slice locations
                     (sm_dex_register_locations_start_index a)
                     number_of_live_dex_registers
                   = locations_slice locations
                     (sm_dex_register_locations_start_index b)
                     number_of_live_dex_registers))
      else Some true
  end.

(** The loop over the candidates of a bucket: the first one with the same
    map as the current entry wins. *)
Fixpoint find_same_in_bucket (s : StackMapStream) (bucket : list nat)
    : option (option nat) :=
  match bucket with
  | [] => Some None
  | test_entry_index :: bucket' =>
      a ← stack_maps_ s !! test_entry_index;
      same ← HaveTheSameDexMaps (dex_register_locations_ s) a (current_entry_ s);
      if same : bool then Some (Some test_entry_index)
      else find_same_in_bucket s bucket'
  end.

(** [FindEntryWithTheSameDexMap]: the back-reference of the current entry
    and the similarity index afterwards. *)
Definition FindEntryWithTheSameDexMap (s : StackMapStream)
    : option (option nat * gmap Z (list nat)) :=
  let current_entry_index := length (stack_maps_ s) in
  let hash := sm_dex_register_map_hash (current_entry_ s) in
  match dex_map_hash_to_stack_map_indices_ s !! hash with
  | None =>
      Some (kNoSameDexMapFound,
            <[hash := [current_entry_index]]> (dex_map_hash_to_stack_map_indices_ s))
  | Some bucket =>
      found ← find_same_in_bucket s bucket;
      match found with
      | Some test_entry_index =>
          Some (Some test_entry_index, dex_map_hash_to_stack_map_indices_ s)
      | None =>
          Some (kNoSameDexMapFound,
                <[hash := bucket ++ [current_entry_index]]>
                  (dex_map_hash_to_stack_map_indices_ s))
      end
  end.

Definition StackMapEntry_set_same_as (e : StackMapEntry) (same_as : option nat)
    : StackMapEntry := {|
  sm_dex_pc := sm_dex_pc e;
  sm_native_pc_code_offset := sm_native_pc_code_offset e;
  sm_register_mask := sm_register_mask e;
  sm_sp_mask := sm_sp_mask e;
  sm_num_dex_registers := sm_num_dex_registers e;
  sm_inlining_depth := sm_inlining_depth e;
  sm_dex_register_locations_start_index := sm_dex_register_locations_start_index e;
  sm_inline_infos_start_index := sm_inline_infos_start_index e;
  sm_live_dex_registers_mask := sm_live_dex_registers_mask e;
  sm_dex_register_map_hash := sm_dex_register_map_hash e;
  sm_same_dex_register_map_as_ := same_as;
  sm_stack_mask_index := sm_stack_mask_index e;
  sm_register_mask_index := sm_register_mask_index e;
|}.

(** *** EndStackMapEntry *)

Definition EndStackMapEntry (s : StackMapStream) : option StackMapStream :=
  '(same_as, index) ← FindEntryWithTheSameDexMap s;
  Some {|
    instruction_set_ := instruction_set_ s;
    stack_maps_ :=
      stack_maps_ s ++ [StackMapEntry_set_same_as (current_entry_ s) same_as];
    location_catalog_entries_ := location_catalog_entries_ s;
    location_catalog_entries_indices_ := location_catalog_entries_indices_ s;
    dex_register_locations_ := dex_register_locations_ s;
    inline_infos_ := inline_infos_ s;
    stack_masks_ := stack_masks_ s;
    register_masks_ := register_masks_ s;
    stack_mask_max_ := stack_mask_max_ s;
    dex_pc_max_ := dex_pc_max_ s;
    register_mask_max_ := register_mask_max_ s;
    number_of_stack_maps_with_inline_info_ := number_of_stack_maps_with_inline_info_ s;
    dex_map_hash_to_stack_map_indices_ := index;
    current_entry_ := StackMapEntry_zero;
    current_inline_info_ := current_inline_info_ s;
    code_info_encoding_ := code_info_encoding_ s;
    needed_size_ := needed_size_ s;
    current_dex_register_ := current_dex_register_ s;
    in_inline_frame_ := in_inline_frame_ s;
  |}.

(** *** Sequences of streaming calls *)

Inductive StreamCall :=
  | CallBeginStackMapEntry
      (dex_pc native_pc_offset register_mask : Z) (sp_mask : option BitVector)
      (num_dex_registers inlining_depth : Z)
  | CallAddDexRegisterEntry (kind : Kind) (value : Z)
  | CallBeginInlineInfoEntry (method dex_pc num_dex_registers outer_dex_file : Z)
  | CallEndInlineInfoEntry
  | CallEndStackMapEntry.

Definition call (c : StreamCall) (s : StackMapStream) : option StackMapStream :=
  match c with
  | CallBeginStackMapEntry dex_pc native_pc_offset register_mask sp_mask
      num_dex_registers inlining_depth =>
      BeginStackMapEntry dex_pc native_pc_offset register_mask sp_mask
        num_dex_registers inlining_depth s
  | CallAddDexRegisterEntry kind value => AddDexRegisterEntry kind value s
  | CallBeginInlineInfoEntry method dex_pc num_dex_registers outer_dex_file =>
      BeginInlineInfoEntry method dex_pc num_dex_registers outer_dex_file s
  | CallEndInlineInfoEntry => EndInlineInfoEntry s
  | CallEndStackMapEntry => EndStackMapEntry s
  end.

Fixpoint calls (cs : list StreamCall) (s : StackMapStream)
    : option StackMapStream :=
  match cs with
  | [] => Some s
  | c :: cs' => s' ← call c s; calls cs' s'
  end.

(** *** The encoding sizer *)

Definition ComputeMaxNativePcCodeOffset (s : StackMapStream) : Z :=
  foldl (λ max_native_pc_offset entry,
           Z.max max_native_pc_offset (sm_native_pc_code_offset entry))
        0 (stack_maps_ s).

Definition ComputeDexRegisterLocationCatalogSize (s : StackMapStream) : nat :=
  foldl (λ size dex_register_location,
           (size + DexRegisterLocationCatalog_EntrySize dex_register_location)%nat)
        DexRegisterLocationCatalog_kFixedSize (location_catalog_entries_ s).

(** Modelled from the spec: [DexRegisterMap::GetLiveBitMaskSize] is declared
    with the reader; the live bit mask of [N] registers takes ceil(N/8)
    bytes. *)
Definition GetLiveBitMaskSize (number_of_dex_registers : nat) : nat :=
  (RoundUp number_of_dex_registers kBitsPerByte / kBitsPerByte)%nat.

Definition ComputeDexRegisterMapSize (s : StackMapStream)
    (num_dex_registers : Z) (live_dex_registers_mask : option BitVector)
    : option nat :=
  if bool_decide (num_dex_registers = 0) then Some 0%nat
  else
    mask ← live_dex_registers_mask;
    let size := DexRegisterMap_kFixedSize in
    let size := (size + GetLiveBitMaskSize (Z.to_nat num_dex_registers))%nat in
    let number_of_live_dex_registers := BitVector_NumSetBits mask in
    let map_entries_size_in_bits :=
      (SingleEntrySizeInBits (length (location_catalog_entries_ s))
       * number_of_live_dex_registers)%nat in
    let map_entries_size_in_bytes :=
      (RoundUp map_entries_size_in_bits kBitsPerByte / kBitsPerByte)%nat in
    Some (size + map_entries_size_in_bytes)%nat.

(** The inner loop of [ComputeDexRegisterMapsSize] over the [depth] inline
    frames of an entry; [inline_infos_[inline_info_index++]] has no value
    beyond the end of the vector. *)
Fixpoint inline_maps_size (s : StackMapStream) (depth : nat)
    (size inline_info_index : nat) : option (nat * nat) :=
  match depth with
  | O => Some (size, inline_info_index)
  | S depth' =>
      inline_entry ← inline_infos_ s !! inline_info_index;
      map_size ← ComputeDexRegisterMapSize s (ii_num_dex_registers inline_entry)
                   (ii_live_dex_registers_mask inline_entry);
      inline_maps_size s depth' (size + map_size)%nat (S inline_info_index)
  end.

Fixpoint maps_size_loop (s : StackMapStream) (entries : list StackMapEntry)
    (size inline_info_index : nat) : option (nat * nat) :=
  match entries with
  | [] => Some (size, inline_info_index)
  | entry :: entries' =>
      size1 ←
        (if bool_decide (sm_same_dex_register_map_as_ entry = kNoSameDexMapFound)
         then
           map_size ← ComputeDexRegisterMapSize s (sm_num_dex_registers entry)
                        (sm_live_dex_registers_mask entry);
           Some (size + map_size)%nat
         else Some size);
      '(size2, index2) ←
        inline_maps_size s (Z.to_nat (sm_inlining_depth entry)) size1
          inline_info_index;
      maps_size_loop s entries' size2 index2
  end.

Definition ComputeDexRegisterMapsSize (s : StackMapStream) : option nat :=
  fst <$> maps_size_loop s (stack_maps_ s) 0 0.

Definition High32Bits (value : Z) : Z := to_uint32 (Z.shiftr value 32).
Definition Low32Bits (value : Z) : Z := to_uint32 value.

(** The three maxima that [ComputeInlineInfoEncoding] accumulates. *)
Record InlineInfoMaxima := {
  method_index_max : Z;
  dex_pc_max : Z;
  extra_data_max : Z;
}.

Definition inline_maxima_step (m : InlineInfoMaxima) (inline_entry : InlineInfoEntry)
    : InlineInfoMaxima := {|
  method_index_max :=
    if bool_decide (ii_method inline_entry = 0)
    then Z.max (method_index_max m) (ii_method_index inline_entry)
    else Z.max (method_index_max m) (High32Bits (ii_method inline_entry));
  dex_pc_max :=
    if bool_decide (ii_dex_pc inline_entry ≠ kDexNoIndex)
       && (bool_decide (dex_pc_max m = kDexNoIndex)
           || bool_decide (dex_pc_max m < ii_dex_pc inline_entry))
    then ii_dex_pc inline_entry
    else dex_pc_max m;
  extra_data_max :=
    if bool_decide (ii_method inline_entry = 0)
    then Z.max (extra_data_max m) 1
    else Z.max (extra_data_max m) (Low32Bits (ii_method inline_entry));
|}.

Fixpoint inline_maxima_frames (s : StackMapStream) (depth : nat)
    (m : InlineInfoMaxima) (inline_info_index : nat)
    : option (InlineInfoMaxima * nat) :=
  match depth with
  | O => Some (m, inline_info_index)
  | S depth' =>
      inline_entry ← inline_infos_ s !! inline_info_index;
      inline_maxima_frames s depth' (inline_maxima_step m inline_entry)
        (S inline_info_index)
  end.

Fixpoint inline_maxima_loop (s : StackMapStream) (entries : list StackMapEntry)
    (m : InlineInfoMaxima) (inline_info_index : nat)
    : option (InlineInfoMaxima * nat) :=
  match entries with
  | [] => Some (m, inline_info_index)
  | entry :: entries' =>
      '(m', index') ←
        inline_maxima_frames s (Z.to_nat (sm_inlining_depth entry)) m
          inline_info_index;
      inline_maxima_loop s entries' m' index'
  end.

(** The maxima computed by [ComputeInlineInfoEncoding], as they are passed
    to [SetFromSizes]. *)
Definition ComputeInlineInfoMaxima (s : StackMapStream) : option InlineInfoMaxima :=
  '(m, inline_info_index) ←
    inline_maxima_loop s (stack_maps_ s)
      {| method_index_max := 0; dex_pc_max := kDexNoIndex; extra_data_max := 0 |} 0;
  DCHECK (bool_decide (inline_info_index = length (inline_infos_ s)));;
  Some m.

Definition ComputeInlineInfoEncoding (s : StackMapStream)
    (dex_register_maps_bytes : nat) : option InlineInfoEncoding :=
  m ← ComputeInlineInfoMaxima s;
  Some (InlineInfoEncoding_SetFromSizes (method_index_max m) (dex_pc_max m)
          (extra_data_max m) (Z.of_nat dex_register_maps_bytes)).

(** *** The mask interners *)

Definition StackMapEntry_set_register_mask_index (e : StackMapEntry) (index : nat)
    : StackMapEntry := {|
  sm_dex_pc := sm_dex_pc e;
  sm_native_pc_code_offset := sm_native_pc_code_offset e;
  sm_register_mask := sm_register_mask e;
  sm_sp_mask := sm_sp_mask e;
  sm_num_dex_registers := sm_num_dex_registers e;
  sm_inlining_depth := sm_inlining_depth e;
  sm_dex_register_locations_start_index := sm_dex_register_locations_start_index e;
  sm_inline_infos_start_index := sm_inline_infos_start_index e;
  sm_live_dex_registers_mask := sm_live_dex_registers_mask e;
  sm_dex_register_map_hash := sm_dex_register_map_hash e;
  sm_same_dex_register_map_as_ := sm_same_dex_register_map_as_ e;
  sm_stack_mask_index := sm_stack_mask_index e;
  sm_register_mask_index := index;
|}.

Definition StackMapEntry_set_stack_mask_index (e : StackMapEntry) (index : nat)
    : StackMapEntry := {|
  sm_dex_pc := sm_dex_pc e;
  sm_native_pc_code_offset := sm_native_pc_code_offset e;
  sm_register_mask := sm_register_mask e;
  sm_sp_mask := sm_sp_mask e;
  sm_num_dex_registers := sm_num_dex_registers e;
  sm_inlining_depth := sm_inlining_depth e;
  sm_dex_register_locations_start_index := sm_dex_register_locations_start_index e;
  sm_inline_infos_start_index := sm_inline_infos_start_index e;
  sm_live_dex_registers_mask := sm_live_dex_registers_mask e;
  sm_dex_register_map_hash := sm_dex_register_map_hash e;
  sm_same_dex_register_map_as_ := sm_same_dex_register_map_as_ e;
  sm_stack_mask_index := index;
  sm_register_mask_index := sm_register_mask_index e;
|}.

(** [dedupe.emplace(key, index).first->second]: the index already recorded
    for the key, or [index] recorded now. *)
Definition emplace `{Countable K} (key : K) (index : nat) (dedupe : gmap K nat)
    : nat * gmap K nat :=
  match dedupe !! key with
  | Some found => (found, dedupe)
  | None => (index, <[key := index]> dedupe)
  end.

(** The loop of [PrepareRegisterMasks] over the stack maps: the entries with
    their indices assigned, the dedupe map and the table afterwards. *)
Fixpoint register_masks_loop (entries : list StackMapEntry)
    (dedupe : gmap Z nat) (register_masks : list Z)
    : list StackMapEntry * gmap Z nat * list Z :=
  match entries with
  | [] => ([], dedupe, register_masks)
  | stack_map :: entries' =>
      let index := size dedupe in
      let '(found, dedupe') := emplace (sm_register_mask stack_map) index dedupe in
      let '(entries'', dedupe'', register_masks'') :=
        register_masks_loop entries' dedupe'
          (<[index := sm_register_mask stack_map]> register_masks) in
      (StackMapEntry_set_register_mask_index stack_map found :: entries'',
       dedupe'', register_masks'')
  end.

Definition set_masks (entries : list StackMapEntry) (stack_masks : list bool)
    (register_masks : list Z) (s : StackMapStream) : StackMapStream := {|
  instruction_set_ := instruction_set_ s;
  stack_maps_ := entries;
  location_catalog_entries_ := location_catalog_entries_ s;
  location_catalog_entries_indices_ := location_catalog_entries_indices_ s;
  dex_register_locations_ := dex_register_locations_ s;
  inline_infos_ := inline_infos_ s;
  stack_masks_ := stack_masks;
  register_masks_ := register_masks;
  stack_mask_max_ := stack_mask_max_ s;
  dex_pc_max_ := dex_pc_max_ s;
  register_mask_max_ := register_mask_max_ s;
  number_of_stack_maps_with_inline_info_ := number_of_stack_maps_with_inline_info_ s;
  dex_map_hash_to_stack_map_indices_ := dex_map_hash_to_stack_map_indices_ s;
  current_entry_ := current_entry_ s;
  current_inline_info_ := current_inline_info_ s;
  code_info_encoding_ := code_info_encoding_ s;
  needed_size_ := needed_size_ s;
  current_dex_register_ := current_dex_register_ s;
  in_inline_frame_ := in_inline_frame_ s;
|}.

Definition PrepareRegisterMasks (s : StackMapStream) : nat * StackMapStream :=
  let register_masks := resize (length (stack_maps_ s)) 0 (register_masks_ s) in
  let '(entries, dedupe, register_masks') :=
    register_masks_loop (stack_maps_ s) ∅ register_masks in
  (size dedupe, set_masks entries (stack_masks_ s) register_masks' s).

(** The byte buffer [stack_masks_] is kept bit by bit: byte [k] is the bits
    [8k .. 8k+7], least significant first, so that [StoreBit(i, b)] on the
    region of the bytes from [first_byte] on writes bit [8 first_byte + i]. *)
Definition store_stack_mask (sp_mask : option BitVector)
    (entry_size_in_bits first_byte : nat) (stack_masks : list bool) : list bool :=
  foldl (λ buffer i,
           <[(kBitsPerByte * first_byte + i)%nat :=
               match sp_mask with
               | Some m => BitVector_IsBitSet m i
               | None => false
               end]> buffer)
        stack_masks (seq 0 entry_size_in_bits).

(** The content of the [byte_entry_size] bytes from [first_byte] on, by
    which [MemoryRegion::ContentEquals] and the hash compare regions. *)
Definition region_content (stack_masks : list bool)
    (first_byte byte_entry_size : nat) : list bool :=
  take (kBitsPerByte * byte_entry_size) (drop (kBitsPerByte * first_byte) stack_masks).

Fixpoint stack_masks_loop (entry_size_in_bits byte_entry_size : nat)
    (entries : list StackMapEntry)
    (dedup : gmap (list bool) nat) (stack_masks : list bool)
    : list StackMapEntry * gmap (list bool) nat * list bool :=
  match entries with
  | [] => ([], dedup, stack_masks)
  | stack_map :: entries' =>
      let index := size dedup in
      let stack_masks' :=
        store_stack_mask (sm_sp_mask stack_map) entry_size_in_bits
          (index * byte_entry_size) stack_masks in
      let stack_mask :=
        region_content stack_masks' (index * byte_entry_size) byte_entry_size in
      let '(found, dedup') := emplace stack_mask index dedup in
      let '(entries'', dedup'', stack_masks'') :=
        stack_masks_loop entry_size_in_bits byte_entry_size entries' dedup'
          stack_masks' in
      (StackMapEntry_set_stack_mask_index stack_map found :: entries'',
       dedup'', stack_masks'')
  end.

Definition PrepareStackMasks (entry_size_in_bits : nat) (s : StackMapStream)
    : nat * StackMapStream :=
  let byte_entry_size :=
    (RoundUp entry_size_in_bits kBitsPerByte / kBitsPerByte)%nat in
  let stack_masks :=
    resize (kBitsPerByte * (byte_entry_size * length (stack_maps_ s))) false
      (stack_masks_ s) in
  let '(entries, dedup, stack_masks') :=
    stack_masks_loop entry_size_in_bits byte_entry_size (stack_maps_ s) ∅
      stack_masks in
  (size dedup, set_masks entries stack_masks' (register_masks_ s) s).

(** *** PrepareForFillIn *)

Definition set_header (header : list Z) (needed_size : nat) (s : StackMapStream)
    : StackMapStream := {|
  instruction_set_ := instruction_set_ s;
  stack_maps_ := stack_maps_ s;
  location_catalog_entries_ := location_catalog_entries_ s;
  location_catalog_entries_indices_ := location_catalog_entries_indices_ s;
  dex_register_locations_ := dex_register_locations_ s;
  inline_infos_ := inline_infos_ s;
  stack_masks_ := stack_masks_ s;
  register_masks_ := register_masks_ s;
  stack_mask_max_ := stack_mask_max_ s;
  dex_pc_max_ := dex_pc_max_ s;
  register_mask_max_ := register_mask_max_ s;
  number_of_stack_maps_with_inline_info_ := number_of_stack_maps_with_inline_info_ s;
  dex_map_hash_to_stack_map_indices_ := dex_map_hash_to_stack_map_indices_ s;
  current_entry_ := current_entry_ s;
  current_inline_info_ := current_inline_info_ s;
  code_info_encoding_ := header;
  needed_size_ := needed_size;
  current_dex_register_ := current_dex_register_ s;
  in_inline_frame_ := in_inline_frame_ s;
|}.

(** The encoding descriptor that [PrepareForFillIn] computes, with the
    stream after the two mask interners ran. *)
Definition ComputeEncoding (s : StackMapStream)
    : option (CodeInfoEncoding * StackMapStream) :=
  dex_register_map_num_bytes ← ComputeDexRegisterMapsSize s;
  inline_info_encoding ← ComputeInlineInfoEncoding s dex_register_map_num_bytes;
  let max_native_pc_offset := ComputeMaxNativePcCodeOffset s in
  let stack_mask_num_bits := Z.to_nat (stack_mask_max_ s + 1) in
  let '(stack_mask_num_entries, s1) := PrepareStackMasks stack_mask_num_bits s in
  let '(register_mask_num_entries, s2) := PrepareRegisterMasks s1 in
  Some ({|
    cie_dex_register_map_num_bytes := dex_register_map_num_bytes;
    cie_location_catalog_num_entries := length (location_catalog_entries_ s);
    cie_location_catalog_num_bytes := ComputeDexRegisterLocationCatalogSize s;
    cie_inline_info_num_entries := length (inline_infos_ s);
    cie_inline_info_encoding := inline_info_encoding;
    cie_stack_mask_num_bits := stack_mask_num_bits;
    cie_stack_mask_num_entries := stack_mask_num_entries;
    cie_register_mask_num_bits := MinimumBitsToStore (register_mask_max_ s);
    cie_register_mask_num_entries := register_mask_num_entries;
    cie_stack_map_num_entries := length (stack_maps_ s2);
    cie_stack_map_encoding :=
      StackMapEncoding_SetFromSizes
        max_native_pc_offset
        (dex_pc_max_ s)
        (Z.of_nat dex_register_map_num_bytes)
        (Z.of_nat (length (inline_infos_ s)))
        (Z.of_nat register_mask_num_entries)
        (Z.of_nat stack_mask_num_entries);
  |}, s2).

(** [encoding.HeaderSize()] is the size of the buffer that [Compress] left,
    so the second size check compares the buffer with itself. *)
Definition PrepareForFillIn (s : StackMapStream) : option (nat * StackMapStream) :=
  '(encoding, s2) ← ComputeEncoding s;
  DCHECK (bool_decide (length (code_info_encoding_ s2) = 0%nat));;
  let header := code_info_encoding_ s2 ++ CodeInfoEncoding_Compress encoding in
  let header_size := length header in
  DCHECK (bool_decide (header_size = length header));;
  let needed_size := (length header + CodeInfoEncoding_NonHeaderSize encoding)%nat in
  Some (needed_size, set_header header needed_size s2).

(** *** FillIn *)

(** The bits of a dex register map that lies at the byte [offset] of the
    sub-region of the maps: the live bit of a register after the fixed
    header, and the packed catalog index [index_in_map] after the live bit
    mask. *)
Definition live_bit_position (offset dex_register_number : nat) : nat :=
  (kBitsPerByte * (offset + DexRegisterMap_kFixedSize) + dex_register_number)%nat.

Definition GetLocationMappingDataOffset (number_of_dex_registers : nat) : nat :=
  (DexRegisterMap_kFixedSize + GetLiveBitMaskSize number_of_dex_registers)%nat.

Definition entry_position (offset number_of_dex_registers entry_size_in_bits
    index_in_map : nat) : nat :=
  (kBitsPerByte * (offset + GetLocationMappingDataOffset number_of_dex_registers)
   + index_in_map * entry_size_in_bits)%nat.

(** [StoreBit] on the region of a map, of [size] bytes from [offset] on:
    the bit must lie in that region. *)
Definition DexRegisterMap_StoreBit (offset size : nat) (bit_offset : nat)
    (value : bool) (r : MemoryRegion) : option MemoryRegion :=
  DCHECK (bool_decide (bit_offset < kBitsPerByte * size)%nat);;
  Some (MemoryRegion_set_dex_register_map_bit
          (kBitsPerByte * offset + bit_offset) value r).

(** [StoreBits(bit_offset, value, length)] of a [uint32_t] value, bit by
    bit from the least significant one. *)
Fixpoint DexRegisterMap_StoreBits (offset size : nat) (bit_offset : nat)
    (value : Z) (bit_indices : list nat) (r : MemoryRegion) : option MemoryRegion :=
  match bit_indices with
  | [] => Some r
  | i :: bit_indices' =>
      r' ← DexRegisterMap_StoreBit offset size (bit_offset + i)
             (Z.testbit (to_uint32 value) (Z.of_nat i)) r;
      DexRegisterMap_StoreBits offset size bit_offset value bit_indices' r'
  end.

(** [DexRegisterMap::SetLiveBitMask] and [SetLocationCatalogEntryIndex],
    the writers of a dex register map, and [FillInDexRegisterMap] on the
    map of [size] bytes at [offset] of the sub-region of the maps. *)
Fixpoint SetLiveBitMask (offset size : nat) (mask : BitVector)
    (dex_register_numbers : list nat) (r : MemoryRegion) : option MemoryRegion :=
  match dex_register_numbers with
  | [] => Some r
  | i :: dex_register_numbers' =>
      r' ← DexRegisterMap_StoreBit offset size
             (kBitsPerByte * DexRegisterMap_kFixedSize + i)
             (BitVector_IsBitSet mask i) r;
      SetLiveBitMask offset size mask dex_register_numbers' r'
  end.

Definition SetLocationCatalogEntryIndex (offset size : nat) (index_in_map : nat)
    (location_catalog_entry_index : nat)
    (number_of_dex_registers number_of_catalog_entries : nat)
    (r : MemoryRegion) : option MemoryRegion :=
  let entry_size_in_bits := SingleEntrySizeInBits number_of_catalog_entries in
  DexRegisterMap_StoreBits offset size
    (kBitsPerByte * GetLocationMappingDataOffset number_of_dex_registers
     + index_in_map * entry_size_in_bits)
    (Z.of_nat location_catalog_entry_index) (seq 0 entry_size_in_bits) r.

Fixpoint fill_map_entries (s : StackMapStream) (offset size : nat)
    (num_dex_registers : nat) (start_index : nat)
    (indices : list nat) (r : MemoryRegion) : option MemoryRegion :=
  match indices with
  | [] => Some r
  | index_in_dex_register_locations :: indices' =>
      location_catalog_entry_index ←
        dex_register_locations_ s !! (start_index + index_in_dex_register_locations)%nat;
      r' ← SetLocationCatalogEntryIndex offset size index_in_dex_register_locations
             location_catalog_entry_index num_dex_registers
             (length (location_catalog_entries_ s)) r;
      fill_map_entries s offset size num_dex_registers start_index indices' r'
  end.

Definition FillInDexRegisterMap (s : StackMapStream) (offset size : nat)
    (num_dex_registers : Z) (live_dex_registers_mask : BitVector)
    (start_index_in_dex_register_locations : nat) (r : MemoryRegion)
    : option MemoryRegion :=
  r1 ← SetLiveBitMask offset size live_dex_registers_mask
         (seq 0 (Z.to_nat num_dex_registers)) r;
  let number_of_live_dex_registers := BitVector_NumSetBits live_dex_registers_mask in
  DCHECK (bool_decide
            (number_of_live_dex_registers ≤ length (dex_register_locations_ s))%nat);;
  DCHECK (bool_decide
            (start_index_in_dex_register_locations
             ≤ length (dex_register_locations_ s) - number_of_live_dex_registers)%nat);;
  fill_map_entries s offset size (Z.to_nat num_dex_registers)
    start_index_in_dex_register_locations
    (seq 0 number_of_live_dex_registers) r1.

(** The cursors of the loop of [FillIn] over the stack maps. *)
Record FillCursor := {
  fc_region : MemoryRegion;
  next_dex_register_map_offset : nat;
  next_inline_info_index : nat;
}.

(** [dex_register_locations_region.Subregion(offset, size)] checks that the
    range lies in the sub-region of the maps, of [num_bytes] bytes; a new
    map is laid there and the cursor advances past it. *)
Definition materialize_map (s : StackMapStream) (encoding : CodeInfoEncoding)
    (num_dex_registers : Z) (live_dex_registers_mask : option BitVector)
    (start_index : nat) (c : FillCursor) : option (nat * FillCursor) :=
  size ← ComputeDexRegisterMapSize s num_dex_registers live_dex_registers_mask;
  let num_bytes := cie_dex_register_map_num_bytes encoding in
  DCHECK (bool_decide (size ≤ num_bytes)%nat);;
  DCHECK (bool_decide (next_dex_register_map_offset c ≤ num_bytes - size)%nat);;
  mask ← live_dex_registers_mask;
  let offset := next_dex_register_map_offset c in
  r ← FillInDexRegisterMap s offset size num_dex_registers mask start_index
        (fc_region c);
  Some (offset,
        {| fc_region := r;
           next_dex_register_map_offset := (offset + size)%nat;
           next_inline_info_index := next_inline_info_index c |}).

Definition FillCursor_set_region (r : MemoryRegion) (c : FillCursor) : FillCursor := {|
  fc_region := r;
  next_dex_register_map_offset := next_dex_register_map_offset c;
  next_inline_info_index := next_inline_info_index c;
|}.

(** The loop over the inline frames of one entry; the records of its frames
    start at [first_index] of the table. *)
Fixpoint fill_inline_frames (s : StackMapStream) (encoding : CodeInfoEncoding)
    (entry : StackMapEntry) (first_index : nat) (depths : list nat)
    (c : FillCursor) : option FillCursor :=
  match depths with
  | [] => Some c
  | depth :: depths' =>
      let ie := cie_inline_info_encoding encoding in
      inline_entry ←
        inline_infos_ s !! (depth + sm_inline_infos_start_index entry)%nat;
      let r := fc_region c in
      let r :=
        if bool_decide (ii_method inline_entry ≠ 0) then
          InlineInfo_Set ie (first_index + depth) kExtraData
            (Low32Bits (ii_method inline_entry))
            (InlineInfo_Set ie (first_index + depth) kMethodIndex
               (High32Bits (ii_method inline_entry)) r)
        else
          InlineInfo_Set ie (first_index + depth) kExtraData 1
            (InlineInfo_Set ie (first_index + depth) kMethodIndex
               (ii_method_index inline_entry) r) in
      let r := InlineInfo_Set ie (first_index + depth) kInlineDexPc
                 (ii_dex_pc inline_entry) r in
      c' ←
        (if bool_decide (ii_num_dex_registers inline_entry = 0) then
           DCHECK (bool_decide (ii_live_dex_registers_mask inline_entry = None));;
           Some (FillCursor_set_region
                   (InlineInfo_Set ie (first_index + depth)
                      kInlineDexRegisterMapOffset kNoDexRegisterMap r) c)
         else
           '(offset, c1) ←
             materialize_map s encoding (ii_num_dex_registers inline_entry)
               (ii_live_dex_registers_mask inline_entry)
               (ii_dex_register_locations_start_index inline_entry)
               (FillCursor_set_region
                  (InlineInfo_Set ie (first_index + depth)
                     kInlineDexRegisterMapOffset
                     (Z.of_nat (next_dex_register_map_offset c)) r) c);
           Some c1);
      fill_inline_frames s encoding entry first_index depths' c'
  end.

(** [InlineInfo::SetDepth]: the last of the [depth] records is marked. *)
Definition InlineInfo_SetDepth (ie : InlineInfoEncoding) (first_index depth : nat)
    (r : MemoryRegion) : MemoryRegion :=
  foldl (λ r d, InlineInfo_Set ie (first_index + d) kIsLast
                  (if bool_decide (d = depth - 1)%nat then 1 else 0) r)
        r (seq 0 depth).

(** The body of the loop for the stack map [i], in its three parts: the
    fixed fields, the dex register map and the inline info. *)
Definition fill_dex_register_map (s : StackMapStream) (encoding : CodeInfoEncoding)
    (i : nat) (entry : StackMapEntry) (c : FillCursor) : option FillCursor :=
  let se := cie_stack_map_encoding encoding in
  let r := fc_region c in
  no_map ←
    (if bool_decide (sm_num_dex_registers entry = 0) then Some true
     else mask ← sm_live_dex_registers_mask entry;
          Some (bool_decide (BitVector_NumSetBits mask = 0%nat)));
  if no_map : bool then
    Some (FillCursor_set_region
            (StackMap_Set se i kDexRegisterMapOffset kNoDexRegisterMap r) c)
  else
    match sm_same_dex_register_map_as_ entry with
    | Some same_as =>
        Some (FillCursor_set_region
                (StackMap_Set se i kDexRegisterMapOffset
                   (StackMap_Get se same_as kDexRegisterMapOffset r) r) c)
    | None =>
        '(offset, c1) ←
          materialize_map s encoding (sm_num_dex_registers entry)
            (sm_live_dex_registers_mask entry)
            (sm_dex_register_locations_start_index entry)
            (FillCursor_set_region
               (StackMap_Set se i kDexRegisterMapOffset
                  (Z.of_nat (next_dex_register_map_offset c)) r) c);
        Some c1
    end.

Definition fill_inline_info (s : StackMapStream) (encoding : CodeInfoEncoding)
    (i : nat) (entry : StackMapEntry) (c : FillCursor) : option FillCursor :=
  let se := cie_stack_map_encoding encoding in
  if bool_decide (sm_inlining_depth entry ≠ 0) then
    let first_index := next_inline_info_index c in
    let r1 := StackMap_Set se i kInlineInfoIndex (Z.of_nat first_index)
                (fc_region c) in
    DCHECK (bool_decide (first_index = sm_inline_infos_start_index entry));;
    let depth := Z.to_nat (sm_inlining_depth entry) in
    DCHECK (bool_decide (0 < depth)%nat);;
    let r2 := InlineInfo_SetDepth (cie_inline_info_encoding encoding)
                first_index depth r1 in
    DCHECK (bool_decide
              (sm_inline_infos_start_index entry + depth
               ≤ length (inline_infos_ s))%nat);;
    fill_inline_frames s encoding entry first_index (seq 0 depth)
      {| fc_region := r2;
         next_dex_register_map_offset := next_dex_register_map_offset c;
         next_inline_info_index := (first_index + depth)%nat |}
  else if bool_decide (0 < sme_inline_info_bits se)%nat then
    Some (FillCursor_set_region
            (StackMap_Set se i kInlineInfoIndex kNoInlineInfo (fc_region c)) c)
  else Some c.

Definition fill_stack_map (s : StackMapStream) (encoding : CodeInfoEncoding)
    (i : nat) (entry : StackMapEntry) (c : FillCursor) : option FillCursor :=
  let se := cie_stack_map_encoding encoding in
  let r := fc_region c in
  let r := StackMap_Set se i kDexPc (sm_dex_pc entry) r in
  let r := StackMap_Set se i kNativePc (sm_native_pc_code_offset entry) r in
  let r := StackMap_Set se i kRegisterMaskIndex
             (Z.of_nat (sm_register_mask_index entry)) r in
  let r := StackMap_Set se i kStackMaskIndex
             (Z.of_nat (sm_stack_mask_index entry)) r in
  c1 ← fill_dex_register_map s encoding i entry (FillCursor_set_region r c);
  fill_inline_info s encoding i entry c1.

Fixpoint fill_stack_maps (s : StackMapStream) (encoding : CodeInfoEncoding)
    (i : nat) (entries : list StackMapEntry) (c : FillCursor) : option FillCursor :=
  match entries with
  | [] => Some c
  | entry :: entries' =>
      c' ← fill_stack_map s encoding i entry c;
      fill_stack_maps s encoding (S i) entries' c'
  end.

(** The catalog: the entries are written one after the other; the reader
    finds entry [index] by skipping the entries before it. *)
Fixpoint fill_location_catalog (index : nat) (entries : list DexRegisterLocation)
    (location_catalog_offset : nat) (r : MemoryRegion) : MemoryRegion * nat :=
  match entries with
  | [] => (r, location_catalog_offset)
  | dex_register_location :: entries' =>
      fill_location_catalog (S index) entries'
        (location_catalog_offset
         + DexRegisterLocationCatalog_EntrySize dex_register_location)%nat
        (MemoryRegion_set_location index dex_register_location r)
  end.

(** The copy of one interned stack mask, bit by bit, from the byte buffer;
    [LoadBit] has no value beyond the buffer. *)
Fixpoint fill_stack_mask_bits (s : StackMapStream) (i stack_mask_bytes : nat)
    (bit_indices : list nat) (r : MemoryRegion) : option MemoryRegion :=
  match bit_indices with
  | [] => Some r
  | bit_index :: bit_indices' =>
      bit ← stack_masks_ s !! (kBitsPerByte * (i * stack_mask_bytes) + bit_index)%nat;
      fill_stack_mask_bits s i stack_mask_bytes bit_indices'
        (MemoryRegion_set_stack_mask_bit i bit_index bit r)
  end.

Fixpoint fill_stack_masks (s : StackMapStream) (stack_mask_bits : nat)
    (entries : list nat) (r : MemoryRegion) : option MemoryRegion :=
  match entries with
  | [] => Some r
  | i :: entries' =>
      let stack_mask_bytes :=
        (RoundUp stack_mask_bits kBitsPerByte / kBitsPerByte)%nat in
      r' ← fill_stack_mask_bits s i stack_mask_bytes (seq 0 stack_mask_bits) r;
      fill_stack_masks s stack_mask_bits entries' r'
  end.

Fixpoint fill_register_masks (s : StackMapStream) (bits : nat)
    (entries : list nat) (r : MemoryRegion) : option MemoryRegion :=
  match entries with
  | [] => Some r
  | i :: entries' =>
      register_mask ← register_masks_ s !! i;
      fill_register_masks s bits entries'
        (MemoryRegion_set_register_mask i (StoreBits bits register_mask) r)
  end.

(** *** The readback verifier *)

(** The reader's view of the map at the byte [offset] of the sub-region of
    the maps, for a number of dex registers and of catalog entries. *)
Definition DexRegisterMap_at (r : MemoryRegion) (offset : nat)
    (number_of_dex_registers number_of_catalog_entries : nat)
    : DexRegisterMapRecord := {|
  drm_live_bit_mask := λ dex_register_number,
    region_dex_register_maps r (live_bit_position offset dex_register_number);
  drm_entries := λ index_in_map,
    let entry_size_in_bits := SingleEntrySizeInBits number_of_catalog_entries in
    load_bits (region_dex_register_maps r)
      (entry_position offset number_of_dex_registers entry_size_in_bits index_in_map)
      entry_size_in_bits;
|}.

(** The reader's view of the dex register map of a stack map or of an inline
    frame: none when the offset read is the sentinel. *)
Definition GetDexRegisterMapAt (encoding : CodeInfoEncoding) (offset : Z)
    (number_of_dex_registers : nat) (r : MemoryRegion)
    : option DexRegisterMapRecord :=
  if bool_decide (offset = kNoDexRegisterMap) then None
  else Some (DexRegisterMap_at r (Z.to_nat offset) number_of_dex_registers
               (cie_location_catalog_num_entries encoding)).

(** [GetIndexInDexRegisterMap]: the number of live registers below. *)
Definition GetIndexInDexRegisterMap (map : DexRegisterMapRecord)
    (dex_register_number : nat) : nat :=
  length (filter (λ i, drm_live_bit_mask map i = true) (seq 0 dex_register_number)).

Definition GetDexRegisterLocation (encoding : CodeInfoEncoding)
    (map : DexRegisterMapRecord) (dex_register_number : nat) (r : MemoryRegion)
    : DexRegisterLocation :=
  if drm_live_bit_mask map dex_register_number then
    let number_of_catalog_entries := cie_location_catalog_num_entries encoding in
    let index :=
      LoadBits (SingleEntrySizeInBits number_of_catalog_entries)
        (drm_entries map (GetIndexInDexRegisterMap map dex_register_number)) in
    region_location_catalog r (Z.to_nat index)
  else (kNone, 0).

(** The loop of [CheckDexRegisterMap] over the registers from [reg] on. *)
Fixpoint check_dex_registers (s : StackMapStream) (encoding : CodeInfoEncoding)
    (r : MemoryRegion) (dex_register_map : option DexRegisterMapRecord)
    (live_dex_registers_mask : option BitVector) (regs : list nat)
    (dex_register_locations_index : nat) : option unit :=
  match regs with
  | [] => Some ()
  | reg :: regs' =>
      mask ← live_dex_registers_mask;
      '(expected, index') ←
        (if BitVector_IsBitSet mask reg then
           catalog_index ← dex_register_locations_ s !! dex_register_locations_index;
           expected ← location_catalog_entries_ s !! catalog_index;
           Some (expected, S dex_register_locations_index)
         else Some ((kNone, 0), dex_register_locations_index));
      (if bool_decide (fst expected = kNone) then
         DCHECK (match dex_register_map with
                 | None => true
                 | Some map => negb (drm_live_bit_mask map reg)
                 end)
       else
         map ← dex_register_map;
         DCHECK (drm_live_bit_mask map reg);;
         let seen := GetDexRegisterLocation encoding map reg r in
         DCHECK (bool_decide (fst expected = fst seen));;
         DCHECK (bool_decide (snd expected = snd seen)));;
      check_dex_registers s encoding r dex_register_map live_dex_registers_mask
        regs' index'
  end.

Definition CheckDexRegisterMap (s : StackMapStream) (encoding : CodeInfoEncoding)
    (r : MemoryRegion) (dex_register_map : option DexRegisterMapRecord)
    (num_dex_registers : Z) (live_dex_registers_mask : option BitVector)
    (dex_register_locations_index : nat) : option unit :=
  check_dex_registers s encoding r dex_register_map live_dex_registers_mask
    (seq 0 (Z.to_nat num_dex_registers)) dex_register_locations_index;;
  if bool_decide (num_dex_registers = 0)
  then DCHECK (match dex_register_map with None => true | Some _ => false end)
  else Some ().

(** [InlineInfo::GetDepth] scans the records from [first_index] on for the
    one marked last; the scan has no value beyond the table, of which
    [remaining] records are left. *)
Fixpoint InlineInfo_GetDepth (ie : InlineInfoEncoding) (r : MemoryRegion)
    (remaining first_index depth : nat) : option nat :=
  match remaining with
  | O => None
  | S remaining' =>
      if bool_decide (InlineInfo_Get ie (first_index + depth) kIsLast r ≠ 0)
      then Some (S depth)
      else InlineInfo_GetDepth ie r remaining' first_index (S depth)
  end.

(** The checks on the inline frames of one entry. *)
Fixpoint check_inline_frames (s : StackMapStream) (encoding : CodeInfoEncoding)
    (r : MemoryRegion) (entry : StackMapEntry) (first_index : nat)
    (depths : list nat) : option unit :=
  match depths with
  | [] => Some ()
  | d :: depths' =>
      let ie := cie_inline_info_encoding encoding in
      let inline_info_index := (sm_inline_infos_start_index entry + d)%nat in
      DCHECK (bool_decide (inline_info_index < length (inline_infos_ s))%nat);;
      inline_entry ← inline_infos_ s !! inline_info_index;
      DCHECK (bool_decide
                (InlineInfo_Get ie (first_index + d) kInlineDexPc r
                 = ii_dex_pc inline_entry));;
      let extra_data := InlineInfo_Get ie (first_index + d) kExtraData r in
      let method_index := InlineInfo_Get ie (first_index + d) kMethodIndex r in
      (if bool_decide (Z.land extra_data 1 = 0) then
         DCHECK (bool_decide
                   (Z.lor extra_data (Z.shiftl method_index 32)
                    = ii_method inline_entry))
       else
         DCHECK (bool_decide (method_index = ii_method_index inline_entry)));;
      CheckDexRegisterMap s encoding r
        (GetDexRegisterMapAt encoding
           (InlineInfo_Get ie (first_index + d) kInlineDexRegisterMapOffset r)
           (Z.to_nat (ii_num_dex_registers inline_entry)) r)
        (ii_num_dex_registers inline_entry)
        (ii_live_dex_registers_mask inline_entry)
        (ii_dex_register_locations_start_index inline_entry);;
      check_inline_frames s encoding r entry first_index depths'
  end.

(** The checks on the stack map [i].  [sp_mask->GetNumberOfBits()] of the
    bit vector, which is declared outside this file, is the number of bits
    that the vector needs: its highest set bit plus one. *)
Definition check_stack_map (s : StackMapStream) (encoding : CodeInfoEncoding)
    (r : MemoryRegion) (i : nat) (entry : StackMapEntry) : option unit :=
  let se := cie_stack_map_encoding encoding in
  DCHECK (bool_decide
            (CodeOffset_Uint32Value (StackMap_Get se i kNativePc r) (instruction_set_ s)
             = CodeOffset_Uint32Value (sm_native_pc_code_offset entry)
                 (instruction_set_ s)));;
  DCHECK (bool_decide (StackMap_Get se i kDexPc r = sm_dex_pc entry));;
  let register_mask_index := StackMap_Get se i kRegisterMaskIndex r in
  DCHECK (bool_decide
            (register_mask_index = Z.of_nat (sm_register_mask_index entry)));;
  DCHECK (bool_decide
            (LoadBits (cie_register_mask_num_bits encoding)
               (region_register_masks r (Z.to_nat register_mask_index))
             = sm_register_mask entry));;
  let num_stack_mask_bits := cie_stack_mask_num_bits encoding in
  let stack_mask_index := StackMap_Get se i kStackMaskIndex r in
  DCHECK (bool_decide (stack_mask_index = Z.of_nat (sm_stack_mask_index entry)));;
  (match sm_sp_mask entry with
   | Some sp_mask =>
       DCHECK (bool_decide
                 (BitVector_GetHighestBitSet sp_mask + 1
                  ≤ Z.of_nat num_stack_mask_bits));;
       DCHECK (forallb
                 (λ b, bool_decide
                         (region_stack_masks r (Z.to_nat stack_mask_index, b)
                          = BitVector_IsBitSet sp_mask b))
                 (seq 0 num_stack_mask_bits))
   | None =>
       DCHECK (forallb
                 (λ b, bool_decide
                         (region_stack_masks r (Z.to_nat stack_mask_index, b)
                          = false))
                 (seq 0 num_stack_mask_bits))
   end);;
  CheckDexRegisterMap s encoding r
    (GetDexRegisterMapAt encoding (StackMap_Get se i kDexRegisterMapOffset r)
       (Z.to_nat (sm_num_dex_registers entry)) r)
    (sm_num_dex_registers entry) (sm_live_dex_registers_mask entry)
    (sm_dex_register_locations_start_index entry);;
  let inline_info_index := StackMap_Get se i kInlineInfoIndex r in
  let has_inline_info := bool_decide (inline_info_index ≠ kNoInlineInfo) in
  DCHECK (bool_decide
            (has_inline_info = bool_decide (sm_inlining_depth entry ≠ 0)));;
  if bool_decide (sm_inlining_depth entry ≠ 0) then
    let first_index := Z.to_nat inline_info_index in
    depth ← InlineInfo_GetDepth (cie_inline_info_encoding encoding) r
               (cie_inline_info_num_entries encoding - first_index) first_index 0;
    DCHECK (bool_decide (Z.of_nat depth = sm_inlining_depth entry));;
    check_inline_frames s encoding r entry first_index
      (seq 0 (Z.to_nat (sm_inlining_depth entry)))
  else Some ().

Fixpoint check_stack_maps (s : StackMapStream) (encoding : CodeInfoEncoding)
    (r : MemoryRegion) (i : nat) (entries : list StackMapEntry) : option unit :=
  match entries with
  | [] => Some ()
  | entry :: entries' =>
      check_stack_map s encoding r i entry;;
      check_stack_maps s encoding r (S i) entries'
  end.

Definition CheckCodeInfo (s : StackMapStream) (r : MemoryRegion) : option unit :=
  encoding ← CodeInfo_ExtractEncoding (region_header r);
  DCHECK (bool_decide (cie_stack_map_num_entries encoding = length (stack_maps_ s)));;
  check_stack_maps s encoding r 0 (stack_maps_ s).

(** [FillIn(region)], on a region of [region_size] bytes.  [CopyFrom] and
    [Subregion] check that what they copy or cut out lies in the region. *)
Definition FillIn (s : StackMapStream) (region_size : nat) (region : MemoryRegion)
    : option MemoryRegion :=
  DCHECK (bool_decide (0 = sm_dex_pc (current_entry_ s)));;
  DCHECK (bool_decide (0%nat ≠ needed_size_ s));;
  DCHECK (bool_decide (region_size = needed_size_ s));;
  DCHECK (bool_decide (length (code_info_encoding_ s) ≤ region_size)%nat);;
  let r := MemoryRegion_set_header (code_info_encoding_ s) region in
  encoding ← CodeInfo_ExtractEncoding (region_header r);
  DCHECK (bool_decide (cie_stack_map_num_entries encoding = length (stack_maps_ s)));;
  DCHECK (bool_decide
            (CodeInfoEncoding_dex_register_map_byte_offset encoding
             + cie_dex_register_map_num_bytes encoding ≤ region_size)%nat);;
  DCHECK (bool_decide
            (CodeInfoEncoding_location_catalog_byte_offset encoding
             + cie_location_catalog_num_bytes encoding ≤ region_size)%nat);;
  let '(r, location_catalog_offset) :=
    fill_location_catalog 0 (location_catalog_entries_ s)
      DexRegisterLocationCatalog_kFixedSize r in
  DCHECK (bool_decide
            (location_catalog_offset = cie_location_catalog_num_bytes encoding));;
  c ← fill_stack_maps s encoding 0 (stack_maps_ s)
        {| fc_region := r;
           next_dex_register_map_offset := 0;
           next_inline_info_index := 0 |};
  let stack_mask_bits := cie_stack_mask_num_bits encoding in
  r ← (if bool_decide (0 < stack_mask_bits)%nat then
         fill_stack_masks s stack_mask_bits
           (seq 0 (cie_stack_mask_num_entries encoding)) (fc_region c)
       else Some (fc_region c));
  r ← fill_register_masks s (cie_register_mask_num_bits encoding)
        (seq 0 (cie_register_mask_num_entries encoding)) r;
  CheckCodeInfo s r;;
  Some r.

End Stream.

(** ** Specification vocabulary *)

(** The number of live registers of a map: the population count of its live
    mask, none for an absent mask. *)
Definition live_count (mask : option BitVector) : nat :=
  match mask with
  | Some m => BitVector_NumSetBits m
  | None => 0%nat
  end.

(** The catalog indices of the dex register map of an entry. *)
Definition slice_of (locations : list nat) (e : StackMapEntry) : list nat :=
  locations_slice locations (sm_dex_register_locations_start_index e)
    (live_count (sm_live_dex_registers_mask e)).

(** Two entries have bit-identical dex register maps: the same number of
    registers, the same live mask (or both absent), the same catalog
    indices in order. *)
Definition same_dex_map (locations : list nat) (a b : StackMapEntry) : Prop :=
  sm_num_dex_registers a = sm_num_dex_registers b
  ∧ sm_live_dex_registers_mask a = sm_live_dex_registers_mask b
  ∧ slice_of locations a = slice_of locations b.

(** The live mask of an entry is absent exactly for no register, and the
    slice of the entry lies in the shared index array. *)
Definition entry_wf (locations : list nat) (e : StackMapEntry) : Prop :=
  (sm_live_dex_registers_mask e = None ↔ sm_num_dex_registers e = 0)
  ∧ (sm_dex_register_locations_start_index e
     + live_count (sm_live_dex_registers_mask e) ≤ length locations)%nat.

(** What the back-references of the recorded entries satisfy: a
    back-reference names an earlier entry that has no back-reference itself,
    the same hash and the same map; two entries without back-reference and
    with the same hash have different maps. *)
Record back_references (locations : list nat) (maps : list StackMapEntry) : Prop := {
  br_wf : Forall (entry_wf locations) maps;
  br_earlier : ∀ i e r,
    maps !! i = Some e → sm_same_dex_register_map_as_ e = Some r →
    (r < i)%nat ∧ ∃ er, maps !! r = Some er
      ∧ sm_same_dex_register_map_as_ er = None
      ∧ sm_dex_register_map_hash er = sm_dex_register_map_hash e
      ∧ same_dex_map locations er e;
  br_distinct : ∀ i j ei ej,
    maps !! i = Some ei → maps !! j = Some ej → i ≠ j →
    sm_same_dex_register_map_as_ ei = None →
    sm_same_dex_register_map_as_ ej = None →
    sm_dex_register_map_hash ei = sm_dex_register_map_hash ej →
    ¬ same_dex_map locations ei ej;
}.

(** The maximum dex PC over the frames that carry one, and the sentinel
    when none does. *)
Definition max_dex_pc_of_frames (frames : list InlineInfoEntry) : Z :=
  match filter (λ pc, pc ≠ kDexNoIndex) (ii_dex_pc <$> frames) with
  | [] => kDexNoIndex
  | pc :: pcs => foldl Z.max pc pcs
  end.

(** The number of inline frames that the recorded entries declare. *)
Definition total_inlining_depth (entries : list StackMapEntry) : nat :=
  foldr (λ e n, (Z.to_nat (sm_inlining_depth e) + n)%nat) 0%nat entries.

Section Invariant.
Context `{Collaborators}.

(** The number of registers that bounds the cursor: of the open inline
    frame, or else of the open entry. *)
Definition applicable_num_dex_registers (s : StackMapStream) : Z :=
  if in_inline_frame_ s then ii_num_dex_registers (current_inline_info_ s)
  else sm_num_dex_registers (current_entry_ s).

(** The dex PC maximum of [ComputeInlineInfoEncoding] after [frames], from
    the maximum [acc] before them. *)
Definition dex_pc_fold (acc : Z) (frames : list InlineInfoEntry) : Z :=
  foldl (λ m e,
           dex_pc_max
             (inline_maxima_step
                {| method_index_max := 0; dex_pc_max := m; extra_data_max := 0 |} e))
        acc frames.

(** The invariant of the stream between two calls: the back-references,
    the open entry, the cursor, and the similarity index, whose bucket of a
    hash holds exactly the recorded entries of that hash without
    back-reference. *)
Record stream_invariant (s : StackMapStream) : Prop := {
  inv_refs : back_references (dex_register_locations_ s) (stack_maps_ s);
  inv_current : entry_wf (dex_register_locations_ s) (current_entry_ s);
  inv_cursor : 0 ≤ current_dex_register_ s;
  inv_bucket : ∀ hash r,
    r ∈ default [] (dex_map_hash_to_stack_map_indices_ s !! hash)
    ↔ ∃ er, stack_maps_ s !! r = Some er
        ∧ sm_dex_register_map_hash er = hash
        ∧ sm_same_dex_register_map_as_ er = None;
}.

End Invariant.

Section Defs.
Context `{Collaborators}.

(** An entry for which [FillIn] writes no dex register map. *)
Definition no_dex_map (e : StackMapEntry) : Prop :=
  sm_num_dex_registers e = 0 ∨ live_count (sm_live_dex_registers_mask e) = 0%nat.

(** The size of the map of an inline frame, 0 where the sizer has none. *)
Definition frame_map_size (s : StackMapStream) (ie : InlineInfoEntry) : nat :=
  default 0%nat
    (ComputeDexRegisterMapSize s (ii_num_dex_registers ie)
       (ii_live_dex_registers_mask ie)).

(** The bytes that the sizer counts for an entry and that [FillIn] never
    uses: the map of an entry with registers, none live and no
    back-reference. *)
Definition unused_map_bytes (e : StackMapEntry) : nat :=
  if bool_decide (sm_same_dex_register_map_as_ e = None
                  ∧ sm_num_dex_registers e ≠ 0
                  ∧ live_count (sm_live_dex_registers_mask e) = 0%nat)
  then (DexRegisterMap_kFixedSize
        + GetLiveBitMaskSize (Z.to_nat (sm_num_dex_registers e)))%nat
  else 0%nat.

(** The bytes of the maps of the inline frames at [indices] of the table. *)
Definition frames_size (s : StackMapStream) (indices : list nat) : nat :=
  sum_list_with
    (λ k, frame_map_size s (default InlineInfoEntry_zero (inline_infos_ s !! k)))
    indices.

(** The bytes of the map that [FillIn] lays for an entry itself. *)
Definition written_map_bytes (s : StackMapStream) (e : StackMapEntry) : nat :=
  if bool_decide (no_dex_map e) then 0%nat
  else match sm_same_dex_register_map_as_ e with
       | Some _ => 0%nat
       | None =>
           default 0%nat
             (ComputeDexRegisterMapSize s (sm_num_dex_registers e)
                (sm_live_dex_registers_mask e))
       end.

(** What [FillIn] leaves in the dex register map offset of the stack map
    [j], before the cursor [bound]. *)
Definition offset_written (s : StackMapStream) (encoding : CodeInfoEncoding)
    (r : MemoryRegion) (bound : nat) (j : nat) (e : StackMapEntry) : Prop :=
  let get j := StackMap_Get (cie_stack_map_encoding encoding) j
                 kDexRegisterMapOffset r in
  (no_dex_map e → get j = kNoDexRegisterMap)
  ∧ (¬ no_dex_map e → ∀ t, sm_same_dex_register_map_as_ e = Some t →
     (t < j)%nat → get j = get t)
  ∧ (¬ no_dex_map e → sm_same_dex_register_map_as_ e = None →
     0 ≤ sm_num_dex_registers e →
     ∃ offset, (offset < bound)%nat
       ∧ region_stack_maps r (j, kDexRegisterMapOffset)
         = FieldEncoding_Store
             (sme_dex_register_map_bits (cie_stack_map_encoding encoding)) (-1)
             (Z.of_nat offset)).

End Defs.

(** The arguments of a call lie in their C++ types. *)
Definition StreamCall_typed (c : StreamCall) : Prop :=
  match c with
  | CallBeginStackMapEntry dex_pc native_pc_offset register_mask sp_mask
      num_dex_registers inlining_depth =>
      is_uint32 dex_pc ∧ is_uint32 native_pc_offset ∧ is_uint32 register_mask
      ∧ is_uint32 num_dex_registers ∧ 0 ≤ inlining_depth < 256
  | CallAddDexRegisterEntry kind value => - 2 ^ 31 ≤ value < 2 ^ 31
  | CallBeginInlineInfoEntry method dex_pc num_dex_registers outer_dex_file =>
      0 ≤ method < 2 ^ 64 ∧ is_uint32 dex_pc ∧ is_uint32 num_dex_registers
  | CallEndInlineInfoEntry | CallEndStackMapEntry => True
  end.

Global Instance StreamCall_typed_dec c : Decision (StreamCall_typed c).
Proof. destruct c; unfold StreamCall_typed, is_uint32; apply _. Defined.

Definition entry_typed (e : StackMapEntry) : Prop :=
  is_uint32 (sm_dex_pc e) ∧ sm_dex_pc e ≠ to_uint32 (-1)
  ∧ is_uint32 (sm_register_mask e)
  ∧ is_uint32 (sm_num_dex_registers e)
  ∧ 0 ≤ sm_inlining_depth e < 256.

Definition inline_typed (ie : InlineInfoEntry) : Prop :=
  is_uint32 (ii_dex_pc ie) ∧ is_uint32 (ii_num_dex_registers ie)
  ∧ 0 ≤ ii_method ie < 2 ^ 64.

(** An entry with the indices that the mask interners assigned. *)
Definition with_mask_indices (e : StackMapEntry) (stack_mask_index register_mask_index : nat)
    : StackMapEntry :=
  StackMapEntry_set_register_mask_index
    (StackMapEntry_set_stack_mask_index e stack_mask_index) register_mask_index.

Section Typed.
Context `{Collaborators}.

Record stream_typed (s : StackMapStream) : Prop := {
  typed_maps : Forall entry_typed (stack_maps_ s);
  typed_current : entry_typed (current_entry_ s);
  typed_inline_infos : Forall inline_typed (inline_infos_ s);
  typed_current_inline : inline_typed (current_inline_info_ s);
}.

(** The header that the reader extracts is the descriptor that
    [PrepareForFillIn] computed and compressed. *)
Definition header_extracts (s s' : StackMapStream) : Prop :=
  CodeInfo_ExtractEncoding (code_info_encoding_ s') = fst <$> ComputeEncoding s.

(** The stream after [PrepareForFillIn]: the entries have their mask
    indices, the tables of the streaming phase are as they were. *)
Record prepared (s s' : StackMapStream) : Prop := {
  prep_maps : Forall2 (λ e e', ∃ a b, e' = with_mask_indices e a b)
                (stack_maps_ s) (stack_maps_ s');
  prep_locations : dex_register_locations_ s' = dex_register_locations_ s;
  prep_inline_infos : inline_infos_ s' = inline_infos_ s;
  prep_catalog : location_catalog_entries_ s' = location_catalog_entries_ s;
  prep_current : current_entry_ s' = current_entry_ s;
  prep_isa : instruction_set_ s' = instruction_set_ s;
}.

End Typed.

(** The distinct keys of a list in the order of their first occurrence. *)
Fixpoint first_occurrences `{EqDecision K} (keys : list K) : list K :=
  match keys with
  | [] => []
  | k :: keys' => k :: filter (λ x, x ≠ k) (first_occurrences keys')
  end.

(** A table of interned keys after more keys: a key that the table has not
    is appended. *)
Fixpoint intern_all `{EqDecision K} (table : list K) (keys : list K) : list K :=
  match keys with
  | [] => table
  | k :: keys' =>
      if decide (k ∈ table) then intern_all table keys'
      else intern_all (table ++ [k]) keys'
  end.

(** The dedupe map of an interner holds the positions of the table. *)
Definition dedupe_of `{Countable K} (dedupe : gmap K nat) (table : list K) : Prop :=
  size dedupe = length table
  ∧ ∀ k i, dedupe !! k = Some i ↔ table !! i = Some k.

(** The stack mask of an entry packed in [byte_entry_size] bytes. *)
Definition pack_stack_mask (entry_size_in_bits byte_entry_size : nat)
    (sp_mask : option BitVector) : list bool :=
  ((λ i, match sp_mask with
         | Some m => BitVector_IsBitSet m i
         | None => false
         end) <$> seq 0 entry_size_in_bits)
  ++ replicate (kBitsPerByte * byte_entry_size - entry_size_in_bits) false.

(** The padding bits of the slots of a buffer of masks are clear. *)
Definition padding_clear (bits bytes : nat) (buffer : list bool) : Prop :=
  ∀ slot i, (bits ≤ i < kBitsPerByte * bytes)%nat →
    (kBitsPerByte * (slot * bytes) + i < length buffer)%nat →
    buffer !! (kBitsPerByte * (slot * bytes) + i)%nat = Some false.

(** The region [r'] differs from [r] at most in the bits of the map of
    [size] bytes at the byte [offset] of the sub-region of the maps. *)
Definition only_map_written (offset size : nat) (r r' : MemoryRegion) : Prop :=
  region_header r' = region_header r
  ∧ region_location_catalog r' = region_location_catalog r
  ∧ region_stack_maps r' = region_stack_maps r
  ∧ region_inline_infos r' = region_inline_infos r
  ∧ region_stack_masks r' = region_stack_masks r
  ∧ region_register_masks r' = region_register_masks r
  ∧ ∀ p, ¬ (kBitsPerByte * offset ≤ p < kBitsPerByte * (offset + size))%nat →
      region_dex_register_maps r' p = region_dex_register_maps r p.


(** ** The round trip: what FillIn leaves in the region and what the reader sees *)

Section WrittenDefs.
Context `{Collaborators}.

(** The raw bits of a field of a stack map record, resp. of an inline info
    record, are those that the writer stores for [value]. *)
Definition stack_map_holds (encoding : CodeInfoEncoding) (r : MemoryRegion)
    (i : nat) (field : StackMapField) (value : Z) : Prop :=
  region_stack_maps r (i, field)
  = FieldEncoding_Store
      (StackMapEncoding_bits (cie_stack_map_encoding encoding) field)
      (StackMapField_min_value field) value.

Definition inline_info_holds (encoding : CodeInfoEncoding) (r : MemoryRegion)
    (k : nat) (field : InlineInfoField) (value : Z) : Prop :=
  region_inline_infos r (k, field)
  = FieldEncoding_Store
      (InlineInfoEncoding_bits (cie_inline_info_encoding encoding) field)
      (InlineInfoField_min_value field) value.

(** The map at [offset] of the sub-region of the maps holds the live bits of
    [mask] and, packed, the slice of the shared index array from [start]. *)
Definition map_written (s : StackMapStream) (r : MemoryRegion) (offset : nat)
    (num_dex_registers : Z) (mask : BitVector) (start : nat) : Prop :=
  let map := DexRegisterMap_at r offset (Z.to_nat num_dex_registers)
               (length (location_catalog_entries_ s)) in
  (∀ i, (i < Z.to_nat num_dex_registers)%nat →
     drm_live_bit_mask map i = BitVector_IsBitSet mask i)
  ∧ (∀ k, (k < BitVector_NumSetBits mask)%nat →
       ∃ index, dex_register_locations_ s !! (start + k)%nat = Some index
         ∧ drm_entries map k
           = StoreBits (SingleEntrySizeInBits (length (location_catalog_entries_ s)))
               (Z.of_nat index)).

(** The bytes that the sizer counts for a map of some registers at [offset]
    end by [bound]. *)
Definition map_extent_within (s : StackMapStream) (num_dex_registers : Z)
    (mask : BitVector) (offset bound : nat) : Prop :=
  num_dex_registers ≠ 0
  ∧ ∃ size,
      ComputeDexRegisterMapSize s num_dex_registers (Some mask) = Some size
      ∧ (offset + size ≤ bound)%nat.

(** A field of [bits] bits holds the offset of a map with the given
    content, which ends by the byte [bound] of the sub-region of the maps. *)
Definition map_laid (s : StackMapStream) (r : MemoryRegion) (bound : nat)
    (raw : Z) (bits : nat) (num_dex_registers : Z) (mask : option BitVector)
    (start : nat) : Prop :=
  ∃ offset m,
    mask = Some m ∧ (offset < bound)%nat
    ∧ map_extent_within s num_dex_registers m offset bound
    ∧ raw = FieldEncoding_Store bits (-1) (Z.of_nat offset)
    ∧ map_written s r offset num_dex_registers m start.

(** What the writer stores for the method of an inline frame. *)
Definition frame_method_index (f : InlineInfoEntry) : Z :=
  if bool_decide (ii_method f ≠ 0) then High32Bits (ii_method f)
  else ii_method_index f.

Definition frame_extra_data (f : InlineInfoEntry) : Z :=
  if bool_decide (ii_method f ≠ 0) then Low32Bits (ii_method f) else 1.

(** The record [k] of the inline info table holds the frame [f], its map
    below [bound]. *)
Definition frame_written (s : StackMapStream) (encoding : CodeInfoEncoding)
    (r : MemoryRegion) (bound : nat) (k : nat) (f : InlineInfoEntry) : Prop :=
  inline_info_holds encoding r k kMethodIndex (frame_method_index f)
  ∧ inline_info_holds encoding r k kExtraData (frame_extra_data f)
  ∧ inline_info_holds encoding r k kInlineDexPc (ii_dex_pc f)
  ∧ (if bool_decide (ii_num_dex_registers f = 0)
     then inline_info_holds encoding r k kInlineDexRegisterMapOffset kNoDexRegisterMap
     else map_laid s r bound
            (region_inline_infos r (k, kInlineDexRegisterMapOffset))
            (iie_dex_register_map_bits (cie_inline_info_encoding encoding))
            (ii_num_dex_registers f) (ii_live_dex_registers_mask f)
            (ii_dex_register_locations_start_index f)).

(** The dex register map of the stack map [i] is laid, below [bound], or
    the sentinel is stored for it. *)
Definition entry_map_written (s : StackMapStream) (encoding : CodeInfoEncoding)
    (r : MemoryRegion) (bound : nat) (i : nat) (e : StackMapEntry) : Prop :=
  if bool_decide (no_dex_map e)
  then stack_map_holds encoding r i kDexRegisterMapOffset kNoDexRegisterMap
  else map_laid s r bound
         (region_stack_maps r (i, kDexRegisterMapOffset))
         (sme_dex_register_map_bits (cie_stack_map_encoding encoding))
         (sm_num_dex_registers e) (sm_live_dex_registers_mask e)
         (sm_dex_register_locations_start_index e).

(** The inline info of the stack map [i]: no index is read for an entry
    without inline frames; else the index of the first record is stored, the
    last record is marked and every record holds its frame. *)
Definition entry_inline_written (s : StackMapStream) (encoding : CodeInfoEncoding)
    (r : MemoryRegion) (bound : nat) (i : nat) (e : StackMapEntry) : Prop :=
  if bool_decide (sm_inlining_depth e = 0)
  then StackMap_Get (cie_stack_map_encoding encoding) i kInlineInfoIndex r
       = kNoInlineInfo
  else
    let first := sm_inline_infos_start_index e in
    let depth := Z.to_nat (sm_inlining_depth e) in
    stack_map_holds encoding r i kInlineInfoIndex (Z.of_nat first)
    ∧ ∀ d, (d < depth)%nat →
        ∃ f, inline_infos_ s !! (first + d)%nat = Some f
          ∧ inline_info_holds encoding r (first + d) kIsLast
              (if bool_decide (d = depth - 1)%nat then 1 else 0)
          ∧ frame_written s encoding r bound (first + d) f.

(** What [FillIn] leaves for the stack map [i]. *)
Definition entry_written (s : StackMapStream) (encoding : CodeInfoEncoding)
    (r : MemoryRegion) (bound : nat) (i : nat) (e : StackMapEntry) : Prop :=
  stack_map_holds encoding r i kDexPc (sm_dex_pc e)
  ∧ stack_map_holds encoding r i kNativePc (sm_native_pc_code_offset e)
  ∧ stack_map_holds encoding r i kRegisterMaskIndex
      (Z.of_nat (sm_register_mask_index e))
  ∧ stack_map_holds encoding r i kStackMaskIndex
      (Z.of_nat (sm_stack_mask_index e))
  ∧ entry_map_written s encoding r bound i e
  ∧ entry_inline_written s encoding r bound i e.

(** The tables that the loop over the stack maps writes are the same in two
    regions: the stack maps below [i], the inline infos below [k], the bits
    of the maps below the byte [bound]. *)
Definition maps_agree (i k bound : nat) (r r' : MemoryRegion) : Prop :=
  (∀ j f, (j < i)%nat → region_stack_maps r' (j, f) = region_stack_maps r (j, f))
  ∧ (∀ j f, (j < k)%nat → region_inline_infos r' (j, f) = region_inline_infos r (j, f))
  ∧ (∀ p, (p < kBitsPerByte * bound)%nat →
       region_dex_register_maps r' p = region_dex_register_maps r p).

(** The tables that the loop over the stack maps leaves alone. *)
Definition other_tables_kept (r r' : MemoryRegion) : Prop :=
  region_header r' = region_header r
  ∧ region_location_catalog r' = region_location_catalog r
  ∧ region_stack_masks r' = region_stack_masks r
  ∧ region_register_masks r' = region_register_masks r.

(** The dex register map of an inline frame is well formed: the mask is
    absent exactly for no register and the slice lies in the shared index
    array. *)
Definition frame_wf (locations : list nat) (f : InlineInfoEntry) : Prop :=
  (ii_live_dex_registers_mask f = None ↔ ii_num_dex_registers f = 0)
  ∧ 0 ≤ ii_num_dex_registers f
  ∧ (ii_dex_register_locations_start_index f
     + live_count (ii_live_dex_registers_mask f) ≤ length locations)%nat.

End WrittenDefs.

(** The records of the inline frames of the entries lie one after the other
    in the table of the inline infos, from [index] on. *)
Fixpoint inline_starts_from (index : nat) (entries : list StackMapEntry) : Prop :=
  match entries with
  | [] => True
  | e :: entries' =>
      sm_inline_infos_start_index e = index
      ∧ inline_starts_from (index + Z.to_nat (sm_inlining_depth e)) entries'
  end.

Section EntryReadyDefs.
Context `{Collaborators}.

(** What the loop of [FillIn] needs of the entry at index [i]: a well-formed
    map, numbers of registers and frames that are not negative, and a
    back-reference to an earlier entry with the same map. *)
Definition entry_ready (s : StackMapStream) (i : nat) (e : StackMapEntry) : Prop :=
  entry_wf (dex_register_locations_ s) e
  ∧ 0 ≤ sm_num_dex_registers e
  ∧ 0 ≤ sm_inlining_depth e
  ∧ ∀ t, sm_same_dex_register_map_as_ e = Some t →
      (t < i)%nat
      ∧ ∃ et, stack_maps_ s !! t = Some et
          ∧ same_dex_map (dex_register_locations_ s) et e.

(** The tables that the two loops over the masks leave alone. *)
Definition maps_tables_kept (r r' : MemoryRegion) : Prop :=
  region_header r' = region_header r
  ∧ region_location_catalog r' = region_location_catalog r
  ∧ region_dex_register_maps r' = region_dex_register_maps r
  ∧ region_stack_maps r' = region_stack_maps r
  ∧ region_inline_infos r' = region_inline_infos r.

End EntryReadyDefs.

(** A value fits a field of [bits] bits with minimum value [min_value]. *)
Definition field_fits (bits : nat) (min_value value : Z) : Prop :=
  is_uint32 value ∧ to_uint32 (value - min_value) < 2 ^ Z.of_nat bits.

(** The bit [b] of a mask, clear for an absent mask. *)
Definition mask_bit (mask : option BitVector) (b : nat) : bool :=
  match mask with
  | Some m => BitVector_IsBitSet m b
  | None => false
  end.

(** The number of live registers below [reg]. *)
Definition live_below (mask : option BitVector) (reg : nat) : nat :=
  length (filter (λ i, mask_bit mask i = true) (seq 0 reg)).

Section ReadBackDefs.
Context `{Collaborators}.

(** The location that the stream recorded for the register [reg] of a map:
    none for a dead register, else the catalog entry named by the slice of
    the map in the shared index array. *)
Definition recorded_location (s : StackMapStream) (mask : option BitVector)
    (start : nat) (reg : nat) : option DexRegisterLocation :=
  if mask_bit mask reg then
    catalog_index ← dex_register_locations_ s !! (start + live_below mask reg)%nat;
    location_catalog_entries_ s !! catalog_index
  else Some (kNone, 0).

(** What the reader sees for the register [reg] of a map, which is absent
    for the sentinel offset. *)
Definition map_register_live (map : option DexRegisterMapRecord) (reg : nat) : bool :=
  match map with
  | Some m => drm_live_bit_mask m reg
  | None => false
  end.

Definition seen_location (encoding : CodeInfoEncoding) (r : MemoryRegion)
    (map : option DexRegisterMapRecord) (reg : nat) : DexRegisterLocation :=
  match map with
  | Some m => GetDexRegisterLocation encoding m reg r
  | None => (kNone, 0)
  end.

(** The dex register map read at [offset] is the recorded one: absent for
    no register, and register by register the same liveness and the same
    location. *)
Definition dex_register_map_reads_back (s : StackMapStream)
    (encoding : CodeInfoEncoding) (r : MemoryRegion) (offset : Z)
    (num_dex_registers : Z) (mask : option BitVector) (start : nat) : Prop :=
  let map := GetDexRegisterMapAt encoding offset (Z.to_nat num_dex_registers) r in
  (num_dex_registers = 0 → map = None)
  ∧ ∀ reg, (reg < Z.to_nat num_dex_registers)%nat →
      map_register_live map reg = mask_bit mask reg
      ∧ recorded_location s mask start reg
        = Some (seen_location encoding r map reg).

(** The catalog and the indices into it as the readback needs them: every
    index of the shared index array names a catalog entry, no catalog entry
    is of kind [kNone], and an index fits the bits of a map entry. *)
Definition catalog_ready (s : StackMapStream) (encoding : CodeInfoEncoding) : Prop :=
  cie_location_catalog_num_entries encoding = length (location_catalog_entries_ s)
  ∧ Forall (λ index, (index < length (location_catalog_entries_ s))%nat)
      (dex_register_locations_ s)
  ∧ Forall (λ location : DexRegisterLocation, location.1 ≠ kNone)
      (location_catalog_entries_ s)
  ∧ (∀ index, (index < length (location_catalog_entries_ s))%nat →
       Z.of_nat index
       < 2 ^ Z.of_nat (SingleEntrySizeInBits (length (location_catalog_entries_ s))))
  ∧ Z.of_nat (length (location_catalog_entries_ s)) ≤ uint32_modulus.

(** The catalog is laid in the region. *)
Definition catalog_written (s : StackMapStream) (r : MemoryRegion) : Prop :=
  ∀ k location, location_catalog_entries_ s !! k = Some location →
    region_location_catalog r k = location.

End ReadBackDefs.

Section FieldFitsDefs.
Context `{Collaborators}.

(** The values of an entry fit the fields of the stack map record. *)
Definition entry_fits (encoding : CodeInfoEncoding) (e : StackMapEntry) : Prop :=
  let se := cie_stack_map_encoding encoding in
  field_fits (sme_dex_pc_bits se) (-1) (sm_dex_pc e)
  ∧ field_fits (sme_native_pc_bits se) 0 (sm_native_pc_code_offset e)
  ∧ field_fits (sme_register_mask_index_bits se) 0
      (Z.of_nat (sm_register_mask_index e))
  ∧ field_fits (sme_stack_mask_index_bits se) 0
      (Z.of_nat (sm_stack_mask_index e))
  ∧ (sm_inlining_depth e ≠ 0 →
     field_fits (sme_inline_info_bits se) (-1)
       (Z.of_nat (sm_inline_infos_start_index e))
     ∧ Z.of_nat (sm_inline_infos_start_index e) ≠ kNoInlineInfo).

(** The values of an inline frame fit the fields of the inline info record;
    the method, when it is stored by address, is a 64-bit address with a
    clear low bit. *)
Definition frame_fits (encoding : CodeInfoEncoding) (f : InlineInfoEntry) : Prop :=
  let ie := cie_inline_info_encoding encoding in
  field_fits (iie_method_index_bits ie) 0 (frame_method_index f)
  ∧ field_fits (iie_extra_data_bits ie) 0 (frame_extra_data f)
  ∧ field_fits (iie_dex_pc_bits ie) (-1) (ii_dex_pc f)
  ∧ 0 ≤ ii_method f < 2 ^ 64
  ∧ Z.even (ii_method f) = true.

(** The masks of an entry are interned: its indices name slots of the two
    tables of the stream that hold its register mask and, bit by bit, its
    stack mask. *)
Definition masks_ready (s : StackMapStream) (encoding : CodeInfoEncoding)
    (e : StackMapEntry) : Prop :=
  let bits := cie_stack_mask_num_bits encoding in
  let bytes := (RoundUp bits kBitsPerByte / kBitsPerByte)%nat in
  (sm_register_mask_index e < cie_register_mask_num_entries encoding)%nat
  ∧ register_masks_ s !! sm_register_mask_index e = Some (sm_register_mask e)
  ∧ 0 ≤ sm_register_mask e < 2 ^ Z.of_nat (cie_register_mask_num_bits encoding)
  ∧ is_uint32 (sm_register_mask e)
  ∧ (sm_stack_mask_index e < cie_stack_mask_num_entries encoding)%nat
  ∧ (∀ b, (b < bits)%nat →
       stack_masks_ s !! (kBitsPerByte * (sm_stack_mask_index e * bytes) + b)%nat
       = Some (mask_bit (sm_sp_mask e) b))
  ∧ (∀ m, sm_sp_mask e = Some m →
       BitVector_GetHighestBitSet m + 1 ≤ Z.of_nat bits).

(** The two tables of the masks are laid in the region. *)
Definition masks_written (s : StackMapStream) (encoding : CodeInfoEncoding)
    (r : MemoryRegion) : Prop :=
  let bits := cie_stack_mask_num_bits encoding in
  let bytes := (RoundUp bits kBitsPerByte / kBitsPerByte)%nat in
  (∀ i, (i < cie_register_mask_num_entries encoding)%nat →
     ∃ register_mask,
       register_masks_ s !! i = Some register_mask
       ∧ region_register_masks r i
         = StoreBits (cie_register_mask_num_bits encoding) register_mask)
  ∧ (∀ i b, (i < cie_stack_mask_num_entries encoding)%nat → (b < bits)%nat →
       stack_masks_ s !! (kBitsPerByte * (i * bytes) + b)%nat
       = Some (region_stack_masks r (i, b))).

(** The record [k] of the inline info table reads back as the frame [f]:
    dex PC, method index and extra data as stored, the method or its index
    as the low bit of the extra data says, and the dex register map. *)
Definition frame_reads_back (s : StackMapStream) (encoding : CodeInfoEncoding)
    (r : MemoryRegion) (k : nat) (f : InlineInfoEntry) : Prop :=
  let ie := cie_inline_info_encoding encoding in
  let extra_data := InlineInfo_Get ie k kExtraData r in
  let method_index := InlineInfo_Get ie k kMethodIndex r in
  InlineInfo_Get ie k kInlineDexPc r = ii_dex_pc f
  ∧ method_index = frame_method_index f
  ∧ extra_data = frame_extra_data f
  ∧ (if bool_decide (Z.land extra_data 1 = 0)
     then Z.lor extra_data (Z.shiftl method_index 32) = ii_method f
     else method_index = ii_method_index f)
  ∧ dex_register_map_reads_back s encoding r
      (InlineInfo_Get ie k kInlineDexRegisterMapOffset r)
      (ii_num_dex_registers f) (ii_live_dex_registers_mask f)
      (ii_dex_register_locations_start_index f).

(** The stack map [i] of the region reads back as the entry [e]. *)
Definition stack_map_reads_back (s : StackMapStream) (encoding : CodeInfoEncoding)
    (r : MemoryRegion) (i : nat) (e : StackMapEntry) : Prop :=
  let se := cie_stack_map_encoding encoding in
  let ie := cie_inline_info_encoding encoding in
  let first := sm_inline_infos_start_index e in
  StackMap_Get se i kDexPc r = sm_dex_pc e
  ∧ StackMap_Get se i kNativePc r = sm_native_pc_code_offset e
  ∧ CodeOffset_Uint32Value (StackMap_Get se i kNativePc r) (instruction_set_ s)
    = CodeOffset_Uint32Value (sm_native_pc_code_offset e) (instruction_set_ s)
  ∧ StackMap_Get se i kRegisterMaskIndex r = Z.of_nat (sm_register_mask_index e)
  ∧ LoadBits (cie_register_mask_num_bits encoding)
      (region_register_masks r (sm_register_mask_index e))
    = sm_register_mask e
  ∧ StackMap_Get se i kStackMaskIndex r = Z.of_nat (sm_stack_mask_index e)
  ∧ (∀ b, (b < cie_stack_mask_num_bits encoding)%nat →
       region_stack_masks r (sm_stack_mask_index e, b) = mask_bit (sm_sp_mask e) b)
  ∧ dex_register_map_reads_back s encoding r
      (StackMap_Get se i kDexRegisterMapOffset r)
      (sm_num_dex_registers e) (sm_live_dex_registers_mask e)
      (sm_dex_register_locations_start_index e)
  ∧ (if bool_decide (sm_inlining_depth e = 0)
     then StackMap_Get se i kInlineInfoIndex r = kNoInlineInfo
     else
       StackMap_Get se i kInlineInfoIndex r = Z.of_nat first
       ∧ Z.of_nat first ≠ kNoInlineInfo
       ∧ InlineInfo_GetDepth ie r (cie_inline_info_num_entries encoding - first)
           first 0
         = Some (Z.to_nat (sm_inlining_depth e))
       ∧ ∀ d, (d < Z.to_nat (sm_inlining_depth e))%nat →
           ∃ f, inline_infos_ s !! (first + d)%nat = Some f
             ∧ frame_reads_back s encoding r (first + d) f).

(** The sizes that the fields of the offsets and of the indices hold. *)
Definition offsets_fit (s : StackMapStream) (encoding : CodeInfoEncoding) : Prop :=
  let num_bytes := Z.of_nat (cie_dex_register_map_num_bytes encoding) in
  num_bytes ≤ uint32_max
  ∧ num_bytes
    < 2 ^ Z.of_nat (sme_dex_register_map_bits (cie_stack_map_encoding encoding))
  ∧ num_bytes
    < 2 ^ Z.of_nat (iie_dex_register_map_bits (cie_inline_info_encoding encoding))
  ∧ cie_inline_info_num_entries encoding = length (inline_infos_ s).

End FieldFitsDefs.

Section FillReadyDefs.
Context `{Collaborators}.

(** What [FillIn] and its readback need of the stream that
    [PrepareForFillIn] left and of the encoding in its header. *)
Record fill_ready (s : StackMapStream) (encoding : CodeInfoEncoding) : Prop := {
  ready_closed : sm_dex_pc (current_entry_ s) = 0;
  ready_size : needed_size_ s ≠ 0%nat;
  ready_header : CodeInfo_ExtractEncoding (code_info_encoding_ s) = Some encoding;
  ready_stack_maps : cie_stack_map_num_entries encoding = length (stack_maps_ s);
  ready_catalog_bytes :
    cie_location_catalog_num_bytes encoding = ComputeDexRegisterLocationCatalogSize s;
  ready_entries : ∀ i e, stack_maps_ s !! i = Some e →
    entry_ready s i e ∧ entry_fits encoding e ∧ masks_ready s encoding e;
  ready_frames :
    Forall (λ f, frame_wf (dex_register_locations_ s) f ∧ frame_fits encoding f)
      (inline_infos_ s);
  ready_starts : inline_starts_from 0 (stack_maps_ s);
  ready_depth : total_inlining_depth (stack_maps_ s) = length (inline_infos_ s);
  ready_room :
    (sum_list_with (written_map_bytes s) (stack_maps_ s)
     + frames_size s (seq 0 (total_inlining_depth (stack_maps_ s)))
     ≤ cie_dex_register_map_num_bytes encoding)%nat;
  ready_offsets : offsets_fit s encoding;
  ready_catalog : catalog_ready s encoding;
  ready_stack_masks :
    (kBitsPerByte
     * (cie_stack_mask_num_entries encoding
        * (RoundUp (cie_stack_mask_num_bits encoding) kBitsPerByte / kBitsPerByte))
     ≤ length (stack_masks_ s))%nat;
  ready_register_masks :
    (cie_register_mask_num_entries encoding ≤ length (register_masks_ s))%nat;
  ready_header_room : (length (code_info_encoding_ s) ≤ needed_size_ s)%nat;
  ready_maps_room :
    (CodeInfoEncoding_dex_register_map_byte_offset encoding
     + cie_dex_register_map_num_bytes encoding ≤ needed_size_ s)%nat;
  ready_catalog_room :
    (CodeInfoEncoding_location_catalog_byte_offset encoding
     + cie_location_catalog_num_bytes encoding ≤ needed_size_ s)%nat;
}.

End FillReadyDefs.

(** ** Legal sequences of streaming calls *)

(** Where a sequence of calls stands: no entry open, an entry open that
    still expects [frames_left] inline frames, or an inline frame of such an
    entry open. *)
Inductive phase :=
  | Idle
  | InEntry (frames_left : nat)
  | InFrame (frames_left : nat).

Definition phase_after (p : phase) (c : StreamCall) : option phase :=
  match c, p with
  | CallBeginStackMapEntry _ _ _ _ _ inlining_depth, Idle =>
      Some (InEntry (Z.to_nat inlining_depth))
  | CallAddDexRegisterEntry _ _, InEntry k => Some (InEntry k)
  | CallAddDexRegisterEntry _ _, InFrame k => Some (InFrame k)
  | CallBeginInlineInfoEntry _ _ _ _, InEntry (S k) => Some (InFrame k)
  | CallEndInlineInfoEntry, InFrame k => Some (InEntry k)
  | CallEndStackMapEntry, InEntry O => Some Idle
  | _, _ => None
  end.

(** The Begin and End calls of a sequence are properly nested, every entry
    gets the inline frames it declares, and no entry is left open. *)
Fixpoint properly_nested (p : phase) (cs : list StreamCall) : bool :=
  match cs with
  | [] => match p with Idle => true | _ => false end
  | c :: cs' =>
      match phase_after p c with
      | Some p' => properly_nested p' cs'
      | None => false
      end
  end.

(** The maxima of the stream bound the entry. *)
Definition entry_bounded (dex_pc_max register_mask_max stack_mask_max : Z)
    (e : StackMapEntry) : Prop :=
  sm_dex_pc e ≤ dex_pc_max
  ∧ sm_register_mask e ≤ register_mask_max
  ∧ (∀ m, sm_sp_mask e = Some m → BitVector_GetHighestBitSet m ≤ stack_mask_max)
  ∧ 0 ≤ sm_native_pc_code_offset e < uint32_modulus.

(** An inline frame as the stream records it: a well-formed map, a method
    address with a clear low bit, and a 32-bit method index when the method
    is stored by index. *)
Definition frame_recorded (locations : list nat) (f : InlineInfoEntry) : Prop :=
  frame_wf locations f
  ∧ Z.even (ii_method f) = true
  ∧ (ii_method f = 0 → is_uint32 (ii_method_index f)).

Section LegalDefs.
Context `{Collaborators}.

(** A method that is stored by its address is aligned. *)
Definition StreamCall_method_aligned (c : StreamCall) : Prop :=
  match c with
  | CallBeginInlineInfoEntry method _ _ _ =>
      EncodeArtMethodInInlineInfo method = true → Z.even method = true
  | _ => True
  end.

Global Instance StreamCall_method_aligned_dec c :
  Decision (StreamCall_method_aligned c).
Proof. destruct c; unfold StreamCall_method_aligned; apply _. Defined.

(** The bookkeeping of the inline frames in a phase: the frames recorded so
    far are those of the recorded entries and of the open entry. *)
Definition phase_holds (p : phase) (s : StackMapStream) : Prop :=
  let recorded := total_inlining_depth (stack_maps_ s) in
  let declared := Z.to_nat (sm_inlining_depth (current_entry_ s)) in
  match p with
  | Idle =>
      current_entry_ s = StackMapEntry_zero
      ∧ in_inline_frame_ s = false
      ∧ length (inline_infos_ s) = recorded
  | InEntry k =>
      in_inline_frame_ s = false
      ∧ sm_inline_infos_start_index (current_entry_ s) = recorded
      ∧ (length (inline_infos_ s) + k = recorded + declared)%nat
  | InFrame k =>
      in_inline_frame_ s = true
      ∧ sm_inline_infos_start_index (current_entry_ s) = recorded
      ∧ (length (inline_infos_ s) + S k = recorded + declared)%nat
  end.

(** The invariant of the stream along a legal sequence of calls. *)
Record stream_legal (p : phase) (s : StackMapStream) : Prop := {
  legal_phase : phase_holds p s;
  legal_inline_zero :
    in_inline_frame_ s = false → current_inline_info_ s = InlineInfoEntry_zero;
  legal_starts : inline_starts_from 0 (stack_maps_ s);
  legal_frames :
    Forall (frame_recorded (dex_register_locations_ s)) (inline_infos_ s);
  legal_current_frame :
    frame_recorded (dex_register_locations_ s) (current_inline_info_ s);
  legal_locations :
    Forall (λ index, (index < length (location_catalog_entries_ s))%nat)
      (dex_register_locations_ s);
  legal_catalog :
    Forall (λ location : DexRegisterLocation, IsShortLocationKind location.1 = true)
      (location_catalog_entries_ s);
  legal_indices : ∀ location index,
    location_catalog_entries_indices_ s !! location = Some index →
    (index < length (location_catalog_entries_ s))%nat;
  legal_bounded :
    Forall (entry_bounded (dex_pc_max_ s) (register_mask_max_ s) (stack_mask_max_ s))
      (stack_maps_ s);
  legal_current_bounded :
    entry_bounded (dex_pc_max_ s) (register_mask_max_ s) (stack_mask_max_ s)
      (current_entry_ s);
  legal_maxima :
    0 ≤ dex_pc_max_ s ∧ 0 ≤ register_mask_max_ s ∧ -1 ≤ stack_mask_max_ s;
  legal_alignment : 0 < GetInstructionSetInstructionAlignment (instruction_set_ s);
  legal_tables :
    stack_masks_ s = [] ∧ register_masks_ s = [] ∧ code_info_encoding_ s = [];
}.

End LegalDefs.

(** The maxima bound the values that the writer stores for a frame; a frame
    with a dex PC has a maximum that is a dex PC. *)
Definition maxima_bound (m : InlineInfoMaxima) (f : InlineInfoEntry) : Prop :=
  frame_method_index f ≤ method_index_max m
  ∧ frame_extra_data f ≤ extra_data_max m
  ∧ (ii_dex_pc f ≠ kDexNoIndex →
     dex_pc_max m ≠ kDexNoIndex ∧ ii_dex_pc f ≤ dex_pc_max m).

Section PreparedDefs.
Context `{Collaborators}.

(** The sizes of the tables of the stream are numbers of 32 bits, as the
    fields that hold them or indices into them are. *)
Definition sizes_fit (s : StackMapStream) : Prop :=
  Z.of_nat (length (stack_maps_ s)) ≤ uint32_max
  ∧ Z.of_nat (length (inline_infos_ s)) ≤ uint32_max
  ∧ Z.of_nat (length (location_catalog_entries_ s)) ≤ uint32_modulus
  ∧ Z.of_nat (default 0%nat (ComputeDexRegisterMapsSize s)) ≤ uint32_max.

(** The header that [Compress] writes for the descriptor of the stream is
    not empty, and the reader extracts the descriptor from it. *)
Definition header_decodes (s : StackMapStream) : Prop :=
  ∀ encoding, fst <$> ComputeEncoding s = Some encoding →
    CodeInfoEncoding_Compress encoding ≠ []
    ∧ CodeInfo_ExtractEncoding (CodeInfoEncoding_Compress encoding) = Some encoding.

(** The tables of the dex register maps and of the location catalog, at the
    byte offsets that the descriptor gives them, lie in the bytes that
    [PrepareForFillIn] asks for: the header and [NonHeaderSize]. *)
Definition tables_within (s : StackMapStream) : Prop :=
  ∀ encoding, fst <$> ComputeEncoding s = Some encoding →
    let needed_size :=
      (length (CodeInfoEncoding_Compress encoding)
       + CodeInfoEncoding_NonHeaderSize encoding)%nat in
    (CodeInfoEncoding_dex_register_map_byte_offset encoding
     + cie_dex_register_map_num_bytes encoding ≤ needed_size)%nat
    ∧ (CodeInfoEncoding_location_catalog_byte_offset encoding
       + cie_location_catalog_num_bytes encoding ≤ needed_size)%nat.

End PreparedDefs.


(** ** What the stream keeps between two calls, and what the readback establishes *)

(** ** What every sequence of streaming calls keeps *)

(** An inline frame holds the address of its method or the index of its
    method, not both. *)
Definition method_or_index (f : InlineInfoEntry) : Prop :=
  ii_method f = 0 ∨ ii_method_index f = 0.

Section RecordedDefs.
Context `{Collaborators}.

(** The catalog of locations is interned: no location twice, the companion
    map is the inverse of the catalog, every index recorded for a live
    register names a catalog entry, and every entry is of a short kind. *)
Definition catalog_interned (s : StackMapStream) : Prop :=
  NoDup (location_catalog_entries_ s)
  ∧ (∀ location index,
       location_catalog_entries_indices_ s !! location = Some index
       ↔ location_catalog_entries_ s !! index = Some location)
  ∧ Forall (λ index, (index < length (location_catalog_entries_ s))%nat)
      (dex_register_locations_ s)
  ∧ Forall (λ location : DexRegisterLocation, IsShortLocationKind location.1 = true)
      (location_catalog_entries_ s).

(** The running maxima cover the entry: its dex PC, its register mask and
    the highest bit of its stack mask. *)
Definition maxima_cover_entry (s : StackMapStream) (e : StackMapEntry) : Prop :=
  sm_dex_pc e ≤ dex_pc_max_ s
  ∧ sm_register_mask e ≤ register_mask_max_ s
  ∧ ∀ m, sm_sp_mask e = Some m → BitVector_GetHighestBitSet m ≤ stack_mask_max_ s.

Definition maxima_cover (s : StackMapStream) : Prop :=
  0 ≤ dex_pc_max_ s ∧ 0 ≤ register_mask_max_ s ∧ -1 ≤ stack_mask_max_ s
  ∧ maxima_cover_entry s (current_entry_ s)
  ∧ Forall (maxima_cover_entry s) (stack_maps_ s).

(** [PrepareForFillIn] did not run: no size, no header, no table of masks. *)
Definition unprepared (s : StackMapStream) : Prop :=
  needed_size_ s = 0%nat ∧ code_info_encoding_ s = []
  ∧ stack_masks_ s = [] ∧ register_masks_ s = [].

(** The methods of the inline frames, of the open one and of the recorded
    ones; no frame is open exactly when the open one is blank. *)
Definition inline_methods_recorded (s : StackMapStream) : Prop :=
  (in_inline_frame_ s = false → current_inline_info_ s = InlineInfoEntry_zero)
  ∧ method_or_index (current_inline_info_ s)
  ∧ Forall method_or_index (inline_infos_ s).

(** The invariant of the stream along any sequence of streaming calls. *)
Record stream_recorded (s : StackMapStream) : Prop := {
  rec_catalog : catalog_interned s;
  rec_maxima : maxima_cover s;
  rec_unprepared : unprepared s;
  rec_methods : inline_methods_recorded s;
}.

(** The live mask that [AddDexRegisterEntry] works on: of the open inline
    frame, or else of the open entry. *)
Definition applicable_live_mask (s : StackMapStream) : option BitVector :=
  if in_inline_frame_ s then ii_live_dex_registers_mask (current_inline_info_ s)
  else sm_live_dex_registers_mask (current_entry_ s).

End RecordedDefs.

Section NestedDefs.
Context `{Collaborators}.

(** The counter of the stack maps with inline info counts the recorded
    entries that declare inline frames and, while an entry is open, the
    open entry if it declares some. *)
Definition inline_counted (p : phase) (s : StackMapStream) : Prop :=
  number_of_stack_maps_with_inline_info_ s
  = (length (filter (λ e, (sm_inlining_depth e > 0)%Z) (stack_maps_ s))
     + match p with
       | Idle => 0
       | _ =>
           if bool_decide (sm_inlining_depth (current_entry_ s) > 0)%Z then 1 else 0
       end)%nat.

(** The bookkeeping of the inline frames along a properly nested sequence
    of calls. *)
Record stream_nested (p : phase) (s : StackMapStream) : Prop := {
  nested_phase : phase_holds p s;
  nested_starts : inline_starts_from 0 (stack_maps_ s);
  nested_count : inline_counted p s;
}.

End NestedDefs.

Section CheckedDefs.
Context `{Collaborators}.

(** What the readback establishes for the record [k] of the inline info
    table against the frame [f]: the dex PC, the method or its index as the
    low bit of the extra data says, and the dex register map. *)
Definition frame_checked (s : StackMapStream) (encoding : CodeInfoEncoding)
    (r : MemoryRegion) (k : nat) (f : InlineInfoEntry) : Prop :=
  let ie := cie_inline_info_encoding encoding in
  let extra_data := InlineInfo_Get ie k kExtraData r in
  let method_index := InlineInfo_Get ie k kMethodIndex r in
  InlineInfo_Get ie k kInlineDexPc r = ii_dex_pc f
  ∧ (if bool_decide (Z.land extra_data 1 = 0)
     then Z.lor extra_data (Z.shiftl method_index 32) = ii_method f
     else method_index = ii_method_index f)
  ∧ dex_register_map_reads_back s encoding r
      (InlineInfo_Get ie k kInlineDexRegisterMapOffset r)
      (ii_num_dex_registers f) (ii_live_dex_registers_mask f)
      (ii_dex_register_locations_start_index f).

(** What the readback establishes for the stack map [i] against the entry
    [e]: the native PC offset under the compression of the instruction set,
    the dex PC, the two mask indices and the masks they lead to, the dex
    register map, the presence of inline info, its depth and its frames,
    which are read from the index that the stack map holds. *)
Definition stack_map_checked (s : StackMapStream) (encoding : CodeInfoEncoding)
    (r : MemoryRegion) (i : nat) (e : StackMapEntry) : Prop :=
  let se := cie_stack_map_encoding encoding in
  let ie := cie_inline_info_encoding encoding in
  CodeOffset_Uint32Value (StackMap_Get se i kNativePc r) (instruction_set_ s)
  = CodeOffset_Uint32Value (sm_native_pc_code_offset e) (instruction_set_ s)
  ∧ StackMap_Get se i kDexPc r = sm_dex_pc e
  ∧ StackMap_Get se i kRegisterMaskIndex r = Z.of_nat (sm_register_mask_index e)
  ∧ LoadBits (cie_register_mask_num_bits encoding)
      (region_register_masks r (sm_register_mask_index e))
    = sm_register_mask e
  ∧ StackMap_Get se i kStackMaskIndex r = Z.of_nat (sm_stack_mask_index e)
  ∧ (∀ b, (b < cie_stack_mask_num_bits encoding)%nat →
       region_stack_masks r (sm_stack_mask_index e, b) = mask_bit (sm_sp_mask e) b)
  ∧ dex_register_map_reads_back s encoding r
      (StackMap_Get se i kDexRegisterMapOffset r)
      (sm_num_dex_registers e) (sm_live_dex_registers_mask e)
      (sm_dex_register_locations_start_index e)
  ∧ (StackMap_Get se i kInlineInfoIndex r ≠ kNoInlineInfo ↔ sm_inlining_depth e ≠ 0)
  ∧ (sm_inlining_depth e ≠ 0 →
     let first := Z.to_nat (StackMap_Get se i kInlineInfoIndex r) in
     (∃ depth,
        InlineInfo_GetDepth ie r (cie_inline_info_num_entries encoding - first)
          first 0 = Some depth
        ∧ Z.of_nat depth = sm_inlining_depth e)
     ∧ ∀ d, (d < Z.to_nat (sm_inlining_depth e))%nat →
         ∃ f, inline_infos_ s !! (sm_inline_infos_start_index e + d)%nat = Some f
           ∧ frame_checked s encoding r (first + d) f).

End CheckedDefs.

(** No bit of [mask] at or beyond [num_dex_registers] is set. *)
Definition mask_within (num_dex_registers : Z) (mask : option BitVector) : Prop :=
  ∀ i, (Z.to_nat num_dex_registers ≤ i)%nat → mask_bit mask i = false.

Section WithinDefs.
Context `{Collaborators}.

Definition entry_mask_within (e : StackMapEntry) : Prop :=
  mask_within (sm_num_dex_registers e) (sm_live_dex_registers_mask e).

Definition frame_mask_within (f : InlineInfoEntry) : Prop :=
  mask_within (ii_num_dex_registers f) (ii_live_dex_registers_mask f).

(** The live masks of the stream between two calls: the cursor is not
    negative, and neither the open entry, the open frame, a recorded entry
    nor a recorded frame marks a register beyond its number of registers. *)
Record stream_masks_within (s : StackMapStream) : Prop := {
  within_cursor : 0 ≤ current_dex_register_ s;
  within_current : entry_mask_within (current_entry_ s);
  within_frame : frame_mask_within (current_inline_info_ s);
  within_entries : Forall entry_mask_within (stack_maps_ s);
  within_frames : Forall frame_mask_within (inline_infos_ s);
}.

End WithinDefs.


(** ** The logical content of a sequence of streaming calls

    What a sequence of calls says, read off the calls alone: the stack maps
    in order, each with the arguments of its [BeginStackMapEntry], the
    locations added for its dex registers in order, and its inline frames,
    each with the arguments of its [BeginInlineInfoEntry] and the locations
    added for its registers. *)

Record LogicalFrame := {
  lf_method : Z;
  lf_dex_pc : Z;
  lf_num_dex_registers : Z;
  lf_registers : list DexRegisterLocation;
}.

Record LogicalStackMap := {
  lm_dex_pc : Z;
  lm_native_pc_offset : Z;
  lm_register_mask : Z;
  lm_sp_mask : option BitVector;
  lm_num_dex_registers : Z;
  lm_inlining_depth : Z;
  lm_registers : list DexRegisterLocation;
  lm_frames : list LogicalFrame;
}.

Definition LogicalFrame_add (location : DexRegisterLocation) (f : LogicalFrame)
    : LogicalFrame := {|
  lf_method := lf_method f;
  lf_dex_pc := lf_dex_pc f;
  lf_num_dex_registers := lf_num_dex_registers f;
  lf_registers := lf_registers f ++ [location];
|}.

Definition LogicalStackMap_add (location : DexRegisterLocation) (m : LogicalStackMap)
    : LogicalStackMap := {|
  lm_dex_pc := lm_dex_pc m;
  lm_native_pc_offset := lm_native_pc_offset m;
  lm_register_mask := lm_register_mask m;
  lm_sp_mask := lm_sp_mask m;
  lm_num_dex_registers := lm_num_dex_registers m;
  lm_inlining_depth := lm_inlining_depth m;
  lm_registers := lm_registers m ++ [location];
  lm_frames := lm_frames m;
|}.

Definition LogicalStackMap_add_frame (f : LogicalFrame) (m : LogicalStackMap)
    : LogicalStackMap := {|
  lm_dex_pc := lm_dex_pc m;
  lm_native_pc_offset := lm_native_pc_offset m;
  lm_register_mask := lm_register_mask m;
  lm_sp_mask := lm_sp_mask m;
  lm_num_dex_registers := lm_num_dex_registers m;
  lm_inlining_depth := lm_inlining_depth m;
  lm_registers := lm_registers m;
  lm_frames := lm_frames m ++ [f];
|}.

(** The reading of a sequence of calls so far: the stack maps that were
    closed, the one that is open and its inline frame that is open. *)
Record Reading := {
  closed_maps : list LogicalStackMap;
  open_map : option LogicalStackMap;
  open_frame : option LogicalFrame;
}.

Definition Reading_empty : Reading :=
  {| closed_maps := []; open_map := None; open_frame := None |}.

Definition read_call (p : Reading) (c : StreamCall) : Reading :=
  match c with
  | CallBeginStackMapEntry dex_pc native_pc_offset register_mask sp_mask
      num_dex_registers inlining_depth =>
      {| closed_maps := closed_maps p;
         open_map := Some {| lm_dex_pc := dex_pc;
                             lm_native_pc_offset := native_pc_offset;
                             lm_register_mask := register_mask;
                             lm_sp_mask := sp_mask;
                             lm_num_dex_registers := num_dex_registers;
                             lm_inlining_depth := inlining_depth;
                             lm_registers := [];
                             lm_frames := [] |};
         open_frame := None |}
  | CallAddDexRegisterEntry kind value =>
      match open_frame p with
      | Some f =>
          {| closed_maps := closed_maps p;
             open_map := open_map p;
             open_frame := Some (LogicalFrame_add (kind, value) f) |}
      | None =>
          {| closed_maps := closed_maps p;
             open_map := LogicalStackMap_add (kind, value) <$> open_map p;
             open_frame := None |}
      end
  | CallBeginInlineInfoEntry method dex_pc num_dex_registers _ =>
      {| closed_maps := closed_maps p;
         open_map := open_map p;
         open_frame := Some {| lf_method := method;
                               lf_dex_pc := dex_pc;
                               lf_num_dex_registers := num_dex_registers;
                               lf_registers := [] |} |}
  | CallEndInlineInfoEntry =>
      match open_frame p with
      | Some f =>
          {| closed_maps := closed_maps p;
             open_map := LogicalStackMap_add_frame f <$> open_map p;
             open_frame := None |}
      | None => p
      end
  | CallEndStackMapEntry =>
      match open_map p with
      | Some m =>
          {| closed_maps := closed_maps p ++ [m];
             open_map := None;
             open_frame := open_frame p |}
      | None => p
      end
  end.

Definition read_calls (p : Reading) (cs : list StreamCall) : Reading :=
  foldl read_call p cs.

Definition logical_content (cs : list StreamCall) : list LogicalStackMap :=
  closed_maps (read_calls Reading_empty cs).

(** The location of the register at a position of a list of added
    locations: a register that was added with kind [kNone], or not added,
    is dead, and a dead register has the location [(kNone, 0)]. *)
Definition logical_location (location : option DexRegisterLocation)
    : DexRegisterLocation :=
  match location with
  | Some (kind, value) => if decide (kind = kNone) then (kNone, 0) else (kind, value)
  | None => (kNone, 0)
  end.

(** ** Registers before inline frames

    Where a sequence of calls stands when every entry gets its dex
    registers first, at most as many as it declares, and then its inline
    frames, as many as it declares, each with exactly the registers it
    declares. *)
Inductive stage :=
  | Closed
  | InMap (registers_left frames_left : nat)
  | InInline (registers_left frames_left : nat).

Definition stage_after (st : stage) (c : StreamCall) : option stage :=
  match c, st with
  | CallBeginStackMapEntry _ _ _ _ num_dex_registers inlining_depth, Closed =>
      Some (InMap (Z.to_nat num_dex_registers) (Z.to_nat inlining_depth))
  | CallAddDexRegisterEntry _ _, InMap (S n) k => Some (InMap n k)
  | CallAddDexRegisterEntry _ _, InInline (S n) k => Some (InInline n k)
  | CallBeginInlineInfoEntry _ _ num_dex_registers _, InMap _ (S k) =>
      Some (InInline (Z.to_nat num_dex_registers) k)
  | CallEndInlineInfoEntry, InInline O k => Some (InMap O k)
  | CallEndStackMapEntry, InMap _ O => Some Closed
  | _, _ => None
  end.

Fixpoint registers_first (st : stage) (cs : list StreamCall) : bool :=
  match cs with
  | [] => match st with Closed => true | _ => false end
  | c :: cs' =>
      match stage_after st c with
      | Some st' => registers_first st' cs'
      | None => false
      end
  end.

Section RecordsDefs.
Context `{Collaborators}.

(** The rolling hash of the locations added for the registers of an entry,
    from [position] on. *)
Fixpoint hash_from (position : Z) (hash : Z) (registers : list DexRegisterLocation)
    : Z :=
  match registers with
  | [] => hash
  | (kind, value) :: registers' =>
      hash_from (position + 1)
        (if decide (kind = kNone) then hash else hash_step hash position kind value)
        registers'
  end.

(** A method that is stored by its address is not null and is aligned. *)
Definition StreamCall_method_valid (c : StreamCall) : Prop :=
  match c with
  | CallBeginInlineInfoEntry method _ _ _ =>
      EncodeArtMethodInInlineInfo method = true →
      method ≠ 0 ∧ Z.even method = true
  | _ => True
  end.

Global Instance StreamCall_method_valid_dec c : Decision (StreamCall_method_valid c).
Proof. destruct c; unfold StreamCall_method_valid; apply _. Defined.

(** The tables of the stream hold the registers of a map: register by
    register the location that was added, and a live bit exactly for the
    registers that are not dead. *)
Definition registers_recorded (s : StackMapStream) (mask : option BitVector)
    (start : nat) (registers : list DexRegisterLocation) : Prop :=
  ∀ reg,
    recorded_location s mask start reg
    = Some (logical_location (registers !! reg))
    ∧ mask_bit mask reg
      = bool_decide ((logical_location (registers !! reg)).1 ≠ kNone).

(** An inline frame of the stream holds a frame of the calls. *)
Definition frame_records (s : StackMapStream) (f : InlineInfoEntry)
    (lf : LogicalFrame) : Prop :=
  ii_dex_pc f = lf_dex_pc lf
  ∧ ii_num_dex_registers f = lf_num_dex_registers lf
  ∧ (if EncodeArtMethodInInlineInfo (lf_method lf)
     then ii_method f = lf_method lf ∧ ii_method_index f = 0
     else ii_method f = 0
          ∧ ii_method_index f = GetDexMethodIndexUnchecked (lf_method lf))
  ∧ registers_recorded s (ii_live_dex_registers_mask f)
      (ii_dex_register_locations_start_index f) (lf_registers lf).

(** An entry of the stream holds a stack map of the calls: the arguments,
    the registers, the rolling hash of the registers, and the frames that
    were closed so far, from the start index of the entry on. *)
Definition entry_records (s : StackMapStream) (e : StackMapEntry)
    (m : LogicalStackMap) : Prop :=
  sm_dex_pc e = lm_dex_pc m
  ∧ sm_native_pc_code_offset e
    = CodeOffset_FromOffset (lm_native_pc_offset m) (instruction_set_ s)
  ∧ sm_register_mask e = lm_register_mask m
  ∧ sm_sp_mask e = lm_sp_mask m
  ∧ sm_num_dex_registers e = lm_num_dex_registers m
  ∧ sm_inlining_depth e = lm_inlining_depth m
  ∧ registers_recorded s (sm_live_dex_registers_mask e)
      (sm_dex_register_locations_start_index e) (lm_registers m)
  ∧ sm_dex_register_map_hash e = hash_from 0 0 (lm_registers m)
  ∧ ∀ d lf, lm_frames m !! d = Some lf →
      ∃ f, inline_infos_ s !! (sm_inline_infos_start_index e + d)%nat = Some f
        ∧ frame_records s f lf.

(** A closed entry has all the frames it declares. *)
Definition closed_entry_records (s : StackMapStream) (e : StackMapEntry)
    (m : LogicalStackMap) : Prop :=
  entry_records s e m
  ∧ length (lm_frames m) = Z.to_nat (sm_inlining_depth e).

(** What holds of the open entry and of the open frame at a stage. *)
Definition stage_holds (st : stage) (p : Reading) (s : StackMapStream) : Prop :=
  match st with
  | Closed =>
      open_map p = None ∧ open_frame p = None ∧ in_inline_frame_ s = false
  | InMap registers_left frames_left =>
      ∃ m, open_map p = Some m ∧ open_frame p = None
        ∧ in_inline_frame_ s = false
        ∧ entry_records s (current_entry_ s) m
        ∧ (length (lm_frames m) + frames_left
           = Z.to_nat (sm_inlining_depth (current_entry_ s)))%nat
        ∧ (sm_inline_infos_start_index (current_entry_ s) + length (lm_frames m)
           = length (inline_infos_ s))%nat
        ∧ ((0 < registers_left)%nat →
           (length (lm_registers m) + registers_left
            ≤ Z.to_nat (sm_num_dex_registers (current_entry_ s)))%nat
           ∧ current_dex_register_ s = Z.of_nat (length (lm_registers m))
           ∧ (sm_dex_register_locations_start_index (current_entry_ s)
              + live_count (sm_live_dex_registers_mask (current_entry_ s))
              = length (dex_register_locations_ s))%nat)
  | InInline registers_left frames_left =>
      ∃ m f, open_map p = Some m ∧ open_frame p = Some f
        ∧ in_inline_frame_ s = true
        ∧ entry_records s (current_entry_ s) m
        ∧ (length (lm_frames m) + S frames_left
           = Z.to_nat (sm_inlining_depth (current_entry_ s)))%nat
        ∧ (sm_inline_infos_start_index (current_entry_ s) + length (lm_frames m)
           = length (inline_infos_ s))%nat
        ∧ frame_records s (current_inline_info_ s) f
        ∧ (length (lf_registers f) + registers_left
           = Z.to_nat (ii_num_dex_registers (current_inline_info_ s)))%nat
        ∧ current_dex_register_ s = Z.of_nat (length (lf_registers f))
        ∧ (ii_dex_register_locations_start_index (current_inline_info_ s)
           + live_count (ii_live_dex_registers_mask (current_inline_info_ s))
           = length (dex_register_locations_ s))%nat
  end.

(** The stream holds what the calls so far say. *)
Record stream_records (st : stage) (p : Reading) (s : StackMapStream) : Prop := {
  records_closed : Forall2 (closed_entry_records s) (stack_maps_ s) (closed_maps p);
  records_stage : stage_holds st p s;
}.

End RecordsDefs.

Section GrowsDefs.
Context `{Collaborators}.

(** The tables of [s'] extend those of [s]. *)
Definition grows (s s' : StackMapStream) : Prop :=
  (∃ l, dex_register_locations_ s' = dex_register_locations_ s ++ l)
  ∧ (∃ c, location_catalog_entries_ s' = location_catalog_entries_ s ++ c)
  ∧ (∃ fs, inline_infos_ s' = inline_infos_ s ++ fs)
  ∧ instruction_set_ s' = instruction_set_ s.

End GrowsDefs.

(** ** The region decoded against the calls *)

(** The nesting that a stage stands for. *)
Definition stage_phase (st : stage) : phase :=
  match st with
  | Closed => Idle
  | InMap _ frames_left => InEntry frames_left
  | InInline _ frames_left => InFrame frames_left
  end.

Section DecodesDefs.
Context `{Collaborators}.

(** A method that is stored by its address is not null and is aligned. *)
Definition LogicalFrame_method_valid (lf : LogicalFrame) : Prop :=
  EncodeArtMethodInInlineInfo (lf_method lf) = true →
  lf_method lf ≠ 0 ∧ Z.even (lf_method lf) = true.

Definition Reading_methods_valid (p : Reading) : Prop :=
  Forall (λ m, Forall LogicalFrame_method_valid (lm_frames m)) (closed_maps p)
  ∧ (∀ m, open_map p = Some m → Forall LogicalFrame_method_valid (lm_frames m))
  ∧ (∀ f, open_frame p = Some f → LogicalFrame_method_valid f).

(** The dex register map that the reader finds at [offset], for the number
    of registers of a map of the calls, gives for every register position
    the location that was added there, and the register is live exactly
    when that location is not of kind [kNone]. *)
Definition map_decodes (encoding : CodeInfoEncoding) (r : MemoryRegion)
    (offset num_dex_registers : Z) (registers : list DexRegisterLocation) : Prop :=
  let map := GetDexRegisterMapAt encoding offset (Z.to_nat num_dex_registers) r in
  ∀ reg, (reg < Z.to_nat num_dex_registers)%nat →
    seen_location encoding r map reg = logical_location (registers !! reg)
    ∧ map_register_live map reg
      = bool_decide ((logical_location (registers !! reg)).1 ≠ kNone).

(** The record [k] of the inline info table decodes to a frame of the
    calls: the dex PC, the method by its address (the low bit of the extra
    data clear, the address in the two halves) or by its index (the extra
    data 1), as the policy says for the method, and the dex register map. *)
Definition frame_decodes (encoding : CodeInfoEncoding) (r : MemoryRegion)
    (k : nat) (lf : LogicalFrame) : Prop :=
  let ie := cie_inline_info_encoding encoding in
  let extra_data := InlineInfo_Get ie k kExtraData r in
  let method_index := InlineInfo_Get ie k kMethodIndex r in
  InlineInfo_Get ie k kInlineDexPc r = lf_dex_pc lf
  ∧ (if EncodeArtMethodInInlineInfo (lf_method lf)
     then Z.land extra_data 1 = 0
          ∧ Z.lor extra_data (Z.shiftl method_index 32) = lf_method lf
     else extra_data = 1
          ∧ Z.land extra_data 1 ≠ 0
          ∧ method_index = GetDexMethodIndexUnchecked (lf_method lf))
  ∧ map_decodes encoding r (InlineInfo_Get ie k kInlineDexRegisterMapOffset r)
      (lf_num_dex_registers lf) (lf_registers lf).

(** The stack map [i] of the region decodes to a stack map of the calls:
    the dex PC, the native PC offset under the compression of the
    instruction set, the register mask and bit by bit the stack mask at
    the indices that the stack map holds, the dex register map, no inline
    info for depth 0 and else the depth and, frame by frame, the frames. *)
Definition stack_map_decodes (isa : InstructionSet) (encoding : CodeInfoEncoding)
    (r : MemoryRegion) (i : nat) (m : LogicalStackMap) : Prop :=
  let se := cie_stack_map_encoding encoding in
  let ie := cie_inline_info_encoding encoding in
  StackMap_Get se i kDexPc r = lm_dex_pc m
  ∧ StackMap_Get se i kNativePc r = CodeOffset_FromOffset (lm_native_pc_offset m) isa
  ∧ CodeOffset_Uint32Value (StackMap_Get se i kNativePc r) isa
    = CodeOffset_Uint32Value (CodeOffset_FromOffset (lm_native_pc_offset m) isa) isa
  ∧ LoadBits (cie_register_mask_num_bits encoding)
      (region_register_masks r (Z.to_nat (StackMap_Get se i kRegisterMaskIndex r)))
    = lm_register_mask m
  ∧ (∀ b, (b < cie_stack_mask_num_bits encoding)%nat →
       region_stack_masks r (Z.to_nat (StackMap_Get se i kStackMaskIndex r), b)
       = mask_bit (lm_sp_mask m) b)
  ∧ map_decodes encoding r (StackMap_Get se i kDexRegisterMapOffset r)
      (lm_num_dex_registers m) (lm_registers m)
  ∧ (if bool_decide (lm_inlining_depth m = 0)
     then StackMap_Get se i kInlineInfoIndex r = kNoInlineInfo
     else
       let first := Z.to_nat (StackMap_Get se i kInlineInfoIndex r) in
       StackMap_Get se i kInlineInfoIndex r ≠ kNoInlineInfo
       ∧ InlineInfo_GetDepth ie r (cie_inline_info_num_entries encoding - first)
           first 0
         = Some (Z.to_nat (lm_inlining_depth m))
       ∧ ∀ d, (d < Z.to_nat (lm_inlining_depth m))%nat →
           ∃ lf, lm_frames m !! d = Some lf
             ∧ frame_decodes encoding r (first + d) lf).

End DecodesDefs.

(** ** A sample of collaborators

    An instance of the collaborators on which the model runs: instructions
    aligned on 2 bytes, methods encoded by address when it is even, a header
    of LEB128 numbers. *)

Module Sample.

Fixpoint EncodeUnsignedLeb128 (fuel : nat) (n : Z) : list Z :=
  match fuel with
  | O => []
  | S fuel' =>
      if bool_decide (n < 128) then [n]
      else (n mod 128 + 128) :: EncodeUnsignedLeb128 fuel' (n / 128)
  end.

Fixpoint DecodeUnsignedLeb128s (bytes : list Z) (acc shift : Z) : list Z :=
  match bytes with
  | [] => []
  | b :: bytes' =>
      if bool_decide (b < 128)
      then (acc + b * 2 ^ shift) :: DecodeUnsignedLeb128s bytes' 0 0
      else DecodeUnsignedLeb128s bytes' (acc + (b - 128) * 2 ^ shift) (shift + 7)
  end.

Definition leb (n : nat) : list Z := EncodeUnsignedLeb128 10 (Z.of_nat n).

Definition Compress (e : CodeInfoEncoding) : list Z :=
  leb (cie_dex_register_map_num_bytes e)
  ++ leb (cie_location_catalog_num_entries e)
  ++ leb (cie_location_catalog_num_bytes e)
  ++ leb (cie_inline_info_num_entries e)
  ++ leb (iie_method_index_bits (cie_inline_info_encoding e))
  ++ leb (iie_dex_pc_bits (cie_inline_info_encoding e))
  ++ leb (iie_extra_data_bits (cie_inline_info_encoding e))
  ++ leb (iie_dex_register_map_bits (cie_inline_info_encoding e))
  ++ leb (cie_stack_mask_num_bits e)
  ++ leb (cie_stack_mask_num_entries e)
  ++ leb (cie_register_mask_num_bits e)
  ++ leb (cie_register_mask_num_entries e)
  ++ leb (cie_stack_map_num_entries e)
  ++ leb (sme_native_pc_bits (cie_stack_map_encoding e))
  ++ leb (sme_dex_pc_bits (cie_stack_map_encoding e))
  ++ leb (sme_dex_register_map_bits (cie_stack_map_encoding e))
  ++ leb (sme_inline_info_bits (cie_stack_map_encoding e))
  ++ leb (sme_register_mask_index_bits (cie_stack_map_encoding e))
  ++ leb (sme_stack_mask_index_bits (cie_stack_map_encoding e)).

Definition ExtractEncoding (bytes : list Z) : option CodeInfoEncoding :=
  match Z.to_nat <$> DecodeUnsignedLeb128s bytes 0 0 with
  | [a; b; c; d; e; f; g; h; i; j; k; l; m; n; o; p; q; r; s] =>
      Some {|
        cie_dex_register_map_num_bytes := a;
        cie_location_catalog_num_entries := b;
        cie_location_catalog_num_bytes := c;
        cie_inline_info_num_entries := d;
        cie_inline_info_encoding := {|
          iie_method_index_bits := e;
          iie_dex_pc_bits := f;
          iie_extra_data_bits := g;
          iie_dex_register_map_bits := h |};
        cie_stack_mask_num_bits := i;
        cie_stack_mask_num_entries := j;
        cie_register_mask_num_bits := k;
        cie_register_mask_num_entries := l;
        cie_stack_map_num_entries := m;
        cie_stack_map_encoding := {|
          sme_native_pc_bits := n;
          sme_dex_pc_bits := o;
          sme_dex_register_map_bits := p;
          sme_inline_info_bits := q;
          sme_register_mask_index_bits := r;
          sme_stack_mask_index_bits := s |} |}
  | _ => None
  end.

(** The tables after the header: the two byte tables, then the bit tables
    rounded up to a byte. *)
Definition NonHeaderSize (e : CodeInfoEncoding) : nat :=
  (cie_dex_register_map_num_bytes e + cie_location_catalog_num_bytes e + 1)%nat.

Definition collaborators : Collaborators := {|
  InstructionSet := unit;
  GetInstructionSetInstructionAlignment := λ _, 2;
  Kind_value := λ k, Z.of_nat (Kind_to_nat k);
  EncodeArtMethodInInlineInfo := λ method, bool_decide (method mod 2 = 0);
  GetDexMethodIndexUnchecked := λ method, to_uint32 (method / 2);
  IsSameDexFile := λ _ _, true;
  DexRegisterMap_kFixedSize := 0;
  SingleEntrySizeInBits := λ n, Nat.log2_up n;
  DexRegisterLocationCatalog_kFixedSize := 0;
  DexRegisterLocationCatalog_EntrySize := λ _, 1%nat;
  CodeInfoEncoding_Compress := Compress;
  CodeInfo_ExtractEncoding := ExtractEncoding;
  CodeInfoEncoding_NonHeaderSize := NonHeaderSize;
  CodeInfoEncoding_dex_register_map_byte_offset := λ e, length (Compress e);
  CodeInfoEncoding_location_catalog_byte_offset :=
    λ e, (length (Compress e) + cie_dex_register_map_num_bytes e)%nat;
|}.

(** A region that was never written. *)
Definition garbage : MemoryRegion := {|
  region_header := [1; 2; 3];
  region_location_catalog := λ _, (kNone, 77);
  region_dex_register_maps := λ _, true;
  region_stack_maps := λ _, 987654321;
  region_inline_infos := λ _, 987654321;
  region_stack_masks := λ _, true;
  region_register_masks := λ _, 987654321;
|}.

#[local] Existing Instance collaborators.

(** The stream after a program of calls, after [PrepareForFillIn], and the
    region after [FillIn] on a region that was never written; each with a
    default where the model has no result. *)
Definition new_stream : StackMapStream := StackMapStream_new (tt : InstructionSet).

Definition recorded (program : list StreamCall) : StackMapStream :=
  default new_stream (calls program new_stream).

Definition prepared_of (program : list StreamCall) : nat * StackMapStream :=
  default (0%nat, new_stream) (PrepareForFillIn (recorded program)).

Definition filled (program : list StreamCall) : MemoryRegion :=
  default garbage (FillIn (prepared_of program).2 (prepared_of program).1 garbage).

Definition encoding_of (program : list StreamCall) : CodeInfoEncoding :=
  default
    {| cie_dex_register_map_num_bytes := 0;
       cie_location_catalog_num_entries := 0;
       cie_location_catalog_num_bytes := 0;
       cie_inline_info_num_entries := 0;
       cie_inline_info_encoding :=
         {| iie_method_index_bits := 0; iie_dex_pc_bits := 0;
            iie_extra_data_bits := 0; iie_dex_register_map_bits := 0 |};
       cie_stack_mask_num_bits := 0;
       cie_stack_mask_num_entries := 0;
       cie_register_mask_num_bits := 0;
       cie_register_mask_num_entries := 0;
       cie_stack_map_num_entries := 0;
       cie_stack_map_encoding :=
         {| sme_native_pc_bits := 0; sme_dex_pc_bits := 0;
            sme_dex_register_map_bits := 0; sme_inline_info_bits := 0;
            sme_register_mask_index_bits := 0; sme_stack_mask_index_bits := 0 |} |}
    (CodeInfo_ExtractEncoding (code_info_encoding_ (prepared_of program).2)).

Definition entry_of (program : list StreamCall) (i : nat) : StackMapEntry :=
  default StackMapEntry_zero (stack_maps_ (prepared_of program).2 !! i).

Definition recorded_entry (program : list StreamCall) (i : nat) : StackMapEntry :=
  default StackMapEntry_zero (stack_maps_ (recorded program) !! i).

(** The cursor of [FillIn] before its loop over the stack maps, and after
    it. *)
Definition cursor_before : FillCursor :=
  {| fc_region := garbage;
     next_dex_register_map_offset := 0;
     next_inline_info_index := 0 |}.

Definition cursor_after (program : list StreamCall) : FillCursor :=
  default cursor_before
    (fill_stack_maps (recorded program) (encoding_of program) 0
       (stack_maps_ (recorded program)) cursor_before).

(** A stack mask with the given bits set. *)
Definition sp_mask_of (bits : list nat) : BitVector :=
  foldl BitVector_SetBit (BitVector_Create 1) bits.

(** Four stack maps: one live register; three registers of which the
    second is dead, with two inline frames (one by method address, one by
    method index and without dex PC, its two registers dead); the map of
    the first entry again under another stack mask; two dead registers. *)
Definition sample_program : list StreamCall := [
  CallBeginStackMapEntry 10 4 3 (Some (sp_mask_of [1%nat])) 1 0;
  CallAddDexRegisterEntry kInRegister 5;
  CallEndStackMapEntry;
  CallBeginStackMapEntry 20 8 3 None 3 2;
  CallAddDexRegisterEntry kInRegister 2;
  CallAddDexRegisterEntry kNone 0;
  CallAddDexRegisterEntry kInStack 16;
  CallBeginInlineInfoEntry 0x1234567800 3 1 0;
  CallAddDexRegisterEntry kConstant 7;
  CallEndInlineInfoEntry;
  CallBeginInlineInfoEntry 7 kDexNoIndex 2 0;
  CallAddDexRegisterEntry kNone 0;
  CallAddDexRegisterEntry kNone 0;
  CallEndInlineInfoEntry;
  CallEndStackMapEntry;
  CallBeginStackMapEntry 30 12 7 (Some (sp_mask_of [1%nat; 4%nat])) 1 0;
  CallAddDexRegisterEntry kInRegister 5;
  CallEndStackMapEntry;
  CallBeginStackMapEntry 0 12 7 (Some (sp_mask_of [1%nat; 4%nat])) 2 0;
  CallEndStackMapEntry ].


(** An entry of two registers with one inline frame of one register; the
    second register of the entry is added after the frame, which left the
    cursor at 1. *)
Definition interleaved_program : list StreamCall := [
  CallBeginStackMapEntry 10 4 3 None 2 1;
  CallAddDexRegisterEntry kInRegister 1;
  CallBeginInlineInfoEntry 8 3 1 0;
  CallAddDexRegisterEntry kConstant 9;
  CallEndInlineInfoEntry;
  CallAddDexRegisterEntry kInStack 4;
  CallEndStackMapEntry ].

(** An entry of three registers is open and one register was added. *)
Definition open_program : list StreamCall := [
  CallBeginStackMapEntry 20 8 3 None 3 0;
  CallAddDexRegisterEntry kInRegister 2 ].

End Sample.

(** ** Properties *)

Section Properties.
Context `{Collaborators}.

Lemma DCHECK_bind_Some {A} (b : bool) (k : option A) (x : A) :
  (DCHECK b;; k) = Some x ↔ b = true ∧ k = Some x.
Proof. destruct b; simpl; intuition congruence. Qed.

Lemma to_uint32_small z : 0 ≤ z < uint32_modulus → to_uint32 z = z.
Proof. intros. unfold to_uint32. apply Z.mod_small. lia. Qed.


(** C8.  [AddDexRegisterEntry] with kind [kNone], the cursor below the
    number of registers of the open inline frame or else of the open entry:
    the call returns, the cursor is one more, and nothing else changes: not
    the catalog nor its index map, not the shared index array, not the live
    masks, not the rolling hash. *)
Theorem AddDexRegisterEntry_kNone_frame (s : StackMapStream) (value : Z) :
  0 ≤ current_dex_register_ s < applicable_num_dex_registers s →
  applicable_num_dex_registers s ≤ uint32_max →
  ∃ s', AddDexRegisterEntry kNone value s = Some s'
    ∧ current_dex_register_ s' = current_dex_register_ s + 1
    ∧ location_catalog_entries_ s' = location_catalog_entries_ s
    ∧ location_catalog_entries_indices_ s' = location_catalog_entries_indices_ s
    ∧ dex_register_locations_ s' = dex_register_locations_ s
    ∧ sm_live_dex_registers_mask (current_entry_ s')
      = sm_live_dex_registers_mask (current_entry_ s)
    ∧ ii_live_dex_registers_mask (current_inline_info_ s')
      = ii_live_dex_registers_mask (current_inline_info_ s)
    ∧ sm_dex_register_map_hash (current_entry_ s')
      = sm_dex_register_map_hash (current_entry_ s)
    ∧ s' = set_current_dex_register_ (current_dex_register_ s + 1) s.
Proof.
  intros Hc Hn. eexists. split.
  - unfold AddDexRegisterEntry. simpl. reflexivity.
  - rewrite to_uint32_small by (unfold uint32_max in *; lia).
    simpl. repeat split; reflexivity.
Qed.

Lemma NumSetBits_replicate_false n : BitVector_NumSetBits (replicate n false) = 0%nat.
Proof.
  unfold BitVector_NumSetBits. induction n as [|n IH]; [reflexivity|].
  change (replicate (S n) false) with (false :: replicate n false).
  rewrite filter_cons_False by discriminate. exact IH.
Qed.

Lemma NumSetBits_app a b :
  BitVector_NumSetBits (a ++ b) = (BitVector_NumSetBits a + BitVector_NumSetBits b)%nat.
Proof. unfold BitVector_NumSetBits. rewrite filter_app, length_app. reflexivity. Qed.

Lemma NumSetBits_insert_le (bv : list bool) : ∀ i,
  (BitVector_NumSetBits (<[i := true]> bv) ≤ S (BitVector_NumSetBits bv))%nat.
Proof.
  unfold BitVector_NumSetBits.
  induction bv as [|b bv IH]; intros i; [simpl; lia|].
  destruct i as [|i].
  - change (<[0%nat := true]> (b :: bv)) with (true :: bv).
    rewrite filter_cons_True by reflexivity. rewrite filter_cons.
    destruct (decide _); simpl; lia.
  - change (<[S i := true]> (b :: bv)) with (b :: <[i := true]> bv).
    rewrite !filter_cons. specialize (IH i). destruct (decide _); simpl; lia.
Qed.

Lemma NumSetBits_SetBit_le bv i :
  (BitVector_NumSetBits (BitVector_SetBit bv i) ≤ S (BitVector_NumSetBits bv))%nat.
Proof.
  unfold BitVector_SetBit. destruct (decide _).
  - apply NumSetBits_insert_le.
  - etrans; [apply NumSetBits_insert_le|].
    rewrite NumSetBits_app, NumSetBits_replicate_false. lia.
Qed.

Lemma locations_slice_app locations extra start n :
  (start + n ≤ length locations)%nat →
  locations_slice (locations ++ extra) start n = locations_slice locations start n.
Proof.
  intros Hle. unfold locations_slice.
  rewrite drop_app_le by lia. rewrite take_app_le; [reflexivity|].
  rewrite length_drop. lia.
Qed.

Lemma slice_of_app locations extra e :
  entry_wf locations e → slice_of (locations ++ extra) e = slice_of locations e.
Proof. intros [_ Hle]. apply locations_slice_app, Hle. Qed.

Lemma entry_wf_app locations extra e :
  entry_wf locations e → entry_wf (locations ++ extra) e.
Proof. intros [Hm Hle]. split; [exact Hm|]. rewrite length_app. lia. Qed.

Lemma same_dex_map_app locations extra a b :
  entry_wf locations a → entry_wf locations b →
  same_dex_map (locations ++ extra) a b ↔ same_dex_map locations a b.
Proof.
  intros Ha Hb. unfold same_dex_map.
  rewrite (slice_of_app _ _ _ Ha), (slice_of_app _ _ _ Hb). reflexivity.
Qed.

Lemma back_references_app locations extra maps :
  back_references locations maps → back_references (locations ++ extra) maps.
Proof.
  intros [Hwf He Hd].
  assert (Hl : ∀ i e, maps !! i = Some e → entry_wf locations e)
    by (intros i e; apply (proj1 (Forall_lookup _ _) Hwf)).
  split.
  - eapply Forall_impl; [exact Hwf|]. intros e. apply entry_wf_app.
  - intros i e r Hi Hr. destruct (He i e r Hi Hr) as (Hlt & er & Her & Hn & Hh & Hs).
    split; [exact Hlt|]. exists er. refine (conj Her (conj Hn (conj Hh _))).
    apply same_dex_map_app; eauto.
  - intros i j ei ej Hi Hj Hne Hni Hnj Hh Hs.
    apply (Hd i j ei ej Hi Hj Hne Hni Hnj Hh).
    exact (proj1 (same_dex_map_app locations extra ei ej (Hl _ _ Hi) (Hl _ _ Hj)) Hs).
Qed.

(* HaveTheSameDexMaps decides same_dex_map on well-formed entries *)
Lemma HaveTheSameDexMaps_spec locations a b (res : bool) :
  entry_wf locations a → entry_wf locations b →
  HaveTheSameDexMaps locations a b = Some res →
  (res = true ↔ same_dex_map locations a b).
Proof.
  intros [Hma Hla] [Hmb Hlb]. unfold HaveTheSameDexMaps, same_dex_map, slice_of.
  destruct (sm_live_dex_registers_mask a) as [ma|] eqn:Ea,
           (sm_live_dex_registers_mask b) as [mb|] eqn:Eb; simpl in *.
  - case_bool_decide as Hn; [intros [= <-]; split; [done|]; intros (? & _); congruence|].
    case_bool_decide as Hz.
    + unfold BitVector_Equal. case_bool_decide as Hm; simpl.
      * subst mb. intros Hr.
        apply DCHECK_bind_Some in Hr as [_ Hr].
        apply DCHECK_bind_Some in Hr as [_ Hr].
        apply DCHECK_bind_Some in Hr as [_ Hr].
        injection Hr as <-. rewrite bool_decide_eq_true. tauto.
      * intros [= <-]. split; [done|]. intros (_ & Hm' & _). congruence.
    + intros _. exfalso.
      assert (Hz' : sm_num_dex_registers a = 0) by (destruct (decide (sm_num_dex_registers a = 0)); tauto).
      apply Hma in Hz'. discriminate.
  - intros [= <-]. split; [done|]. intros (_ & ? & _). congruence.
  - intros [= <-]. split; [done|]. intros (_ & ? & _). congruence.
  - intros [= <-]. split; [|done]. intros _.
    rewrite (proj1 Hma), (proj1 Hmb) by reflexivity. unfold locations_slice. simpl. done.
Qed.


Lemma to_uint32_nonneg z : 0 ≤ to_uint32 z.
Proof. unfold to_uint32, uint32_modulus. apply Z.mod_pos_bound. lia. Qed.

Lemma stream_invariant_new isa : stream_invariant (StackMapStream_new isa).
Proof.
  split; simpl.
  - split.
    + constructor.
    + intros i e r Hi. rewrite lookup_nil in Hi. discriminate.
    + intros i j ei ej Hi. rewrite lookup_nil in Hi. discriminate.
  - split; simpl; [tauto|lia].
  - lia.
  - intros hash r. rewrite lookup_empty. simpl. split.
    + intros Hr. apply elem_of_nil in Hr. contradiction.
    + intros (er & Her & _). discriminate.
Qed.

Lemma BeginStackMapEntry_invariant dex_pc native_pc_offset register_mask sp_mask
    num_dex_registers inlining_depth s s' :
  stream_invariant s →
  BeginStackMapEntry dex_pc native_pc_offset register_mask sp_mask
    num_dex_registers inlining_depth s = Some s' →
  stream_invariant s'.
Proof.
  intros [Hr Hc Hcur Hb] Hcall. unfold BeginStackMapEntry in Hcall.
  apply DCHECK_bind_Some in Hcall as [_ Hcall].
  apply DCHECK_bind_Some in Hcall as [_ Hcall].
  injection Hcall as <-. split; simpl; try assumption; [|lia].
  split; simpl.
  - case_bool_decide; split; intros; congruence.
  - case_bool_decide; simpl; [|lia].
    unfold BitVector_Create. rewrite NumSetBits_replicate_false. lia.
Qed.

Lemma add_live_location_invariant kind value s s' :
  stream_invariant s →
  add_live_location kind value s = Some s' →
  stream_invariant s' ∧ current_dex_register_ s' = current_dex_register_ s.
Proof.
  intros [Hr Hc Hcur Hb] Hcall. unfold add_live_location in Hcall.
  apply DCHECK_bind_Some in Hcall as [_ Hcall].
  destruct (intern_location (kind, value) s) as [[index catalog] indices].
  destruct (in_inline_frame_ s).
  - simpl in Hcall.
    destruct (bool_decide _); simpl in Hcall; [|discriminate].
    destruct (ii_live_dex_registers_mask (current_inline_info_ s)); simpl in Hcall;
      [|discriminate].
    injection Hcall as <-. split; [|reflexivity]. split; simpl; try assumption.
    + apply back_references_app, Hr.
    + apply entry_wf_app, Hc.
  - simpl in Hcall.
    destruct (bool_decide _); simpl in Hcall; [|discriminate].
    destruct (sm_live_dex_registers_mask (current_entry_ s)) as [mask|] eqn:Em;
      simpl in Hcall; [|discriminate].
    injection Hcall as <-. split; [|reflexivity]. split; simpl; try assumption.
    + apply back_references_app, Hr.
    + destruct Hc as [Hm Hle]. split; simpl.
      * rewrite Em in Hm. split; [discriminate|]. intros Hz. apply Hm in Hz. discriminate.
      * rewrite Em in Hle. simpl in Hle. rewrite length_app. simpl.
        pose proof (NumSetBits_SetBit_le mask (Z.to_nat (current_dex_register_ s))). lia.
Qed.

Lemma AddDexRegisterEntry_invariant kind value s s' :
  stream_invariant s →
  AddDexRegisterEntry kind value s = Some s' →
  stream_invariant s'.
Proof.
  intros Hinv Hcall. unfold AddDexRegisterEntry in Hcall.
  assert (Hs1 : ∃ s1, stream_invariant s1
            ∧ s' = set_current_dex_register_ (to_uint32 (current_dex_register_ s1 + 1)) s1).
  { case_bool_decide.
    - destruct (add_live_location kind value s) as [s1|] eqn:E; [|discriminate].
      simpl in Hcall. injection Hcall as <-. exists s1. split; [|reflexivity].
      eapply add_live_location_invariant; eassumption.
    - simpl in Hcall. injection Hcall as <-. exists s. split; [assumption|reflexivity]. }
  destruct Hs1 as (s1 & [Hr Hc Hcur Hb] & ->).
  split; simpl; try assumption. apply to_uint32_nonneg.
Qed.

Lemma BeginInlineInfoEntry_invariant method dex_pc num_dex_registers outer_dex_file s s' :
  stream_invariant s →
  BeginInlineInfoEntry method dex_pc num_dex_registers outer_dex_file s = Some s' →
  stream_invariant s'.
Proof.
  intros [Hr Hc Hcur Hb] Hcall. unfold BeginInlineInfoEntry in Hcall.
  apply DCHECK_bind_Some in Hcall as [_ Hcall].
  destruct (EncodeArtMethodInInlineInfo method); simpl in Hcall.
  - injection Hcall as <-. split; simpl; try assumption. lia.
  - destruct (_ : option ()); simpl in Hcall; [|discriminate].
    injection Hcall as <-. split; simpl; try assumption. lia.
Qed.

Lemma EndInlineInfoEntry_invariant s s' :
  stream_invariant s → EndInlineInfoEntry s = Some s' → stream_invariant s'.
Proof.
  intros [Hr Hc Hcur Hb] Hcall. unfold EndInlineInfoEntry in Hcall.
  apply DCHECK_bind_Some in Hcall as [_ Hcall].
  apply DCHECK_bind_Some in Hcall as [_ Hcall].
  injection Hcall as <-. split; simpl; assumption.
Qed.


Lemma same_dex_map_sym locations a b :
  same_dex_map locations a b → same_dex_map locations b a.
Proof. intros (? & ? & ?). repeat split; congruence. Qed.


Lemma find_same_in_bucket_spec s bucket res :
  Forall (entry_wf (dex_register_locations_ s)) (stack_maps_ s) →
  entry_wf (dex_register_locations_ s) (current_entry_ s) →
  find_same_in_bucket s bucket = Some res →
  match res with
  | Some r =>
      r ∈ bucket ∧ ∃ er, stack_maps_ s !! r = Some er
        ∧ same_dex_map (dex_register_locations_ s) er (current_entry_ s)
  | None =>
      ∀ r er, r ∈ bucket → stack_maps_ s !! r = Some er →
        ¬ same_dex_map (dex_register_locations_ s) er (current_entry_ s)
  end.
Proof.
  intros Hwf Hc. induction bucket as [|t bucket IH]; simpl.
  - intros [= <-]. intros r er Hr. apply elem_of_nil in Hr. contradiction.
  - destruct (stack_maps_ s !! t) as [a|] eqn:Ea; simpl; [|discriminate].
    destruct (HaveTheSameDexMaps _ a _) as [same|] eqn:Es; simpl; [|discriminate].
    assert (Ha : entry_wf (dex_register_locations_ s) a)
      by (eapply (proj1 (Forall_lookup _ _) Hwf); eassumption).
    pose proof (HaveTheSameDexMaps_spec _ _ _ _ Ha Hc Es) as Hspec.
    destruct same.
    + intros [= <-]. split; [left|]. exists a. split; [assumption|]. apply Hspec. reflexivity.
    + intros Hres. specialize (IH Hres). destruct res as [r|].
      * destruct IH as [Hin Hex]. split; [right; exact Hin|exact Hex].
      * intros r er Hr Her. apply elem_of_cons in Hr as [->|Hr].
        -- rewrite Ea in Her. injection Her as <-. intros Hs. apply Hspec in Hs. discriminate.
        -- eapply IH; eassumption.
Qed.

Lemma EndStackMapEntry_invariant s s' :
  stream_invariant s → EndStackMapEntry s = Some s' → stream_invariant s'.
Proof.
  intros [[Hwf He Hd] Hc Hcur Hb] Hcall. unfold EndStackMapEntry in Hcall.
  destruct (FindEntryWithTheSameDexMap s) as [[same_as index]|] eqn:Ef;
    simpl in Hcall; [|discriminate].
  injection Hcall as <-.
  set (h := sm_dex_register_map_hash (current_entry_ s)) in *.
  set (n := length (stack_maps_ s)) in *.
  set (e' := StackMapEntry_set_same_as (current_entry_ s) same_as).
  assert (Hl : ∀ i e, stack_maps_ s !! i = Some e →
            entry_wf (dex_register_locations_ s) e)
    by (intros i e; apply (proj1 (Forall_lookup _ _) Hwf)).
  (* what the search found *)
  assert (Hfound :
    match same_as with
    | Some r => index = dex_map_hash_to_stack_map_indices_ s
        ∧ ∃ er, stack_maps_ s !! r = Some er
          ∧ sm_dex_register_map_hash er = h
          ∧ sm_same_dex_register_map_as_ er = None
          ∧ same_dex_map (dex_register_locations_ s) er (current_entry_ s)
    | None =>
        index = <[h := default [] (dex_map_hash_to_stack_map_indices_ s !! h) ++ [n]]>
                  (dex_map_hash_to_stack_map_indices_ s)
        ∧ ∀ r er, stack_maps_ s !! r = Some er →
            sm_dex_register_map_hash er = h →
            sm_same_dex_register_map_as_ er = None →
            ¬ same_dex_map (dex_register_locations_ s) er (current_entry_ s)
    end).
  { unfold FindEntryWithTheSameDexMap in Ef. fold h in Ef. fold n in Ef.
    destruct (dex_map_hash_to_stack_map_indices_ s !! h) as [bucket|] eqn:Eb.
    - destruct (find_same_in_bucket s bucket) as [found|] eqn:Efound;
        simpl in Ef; [|discriminate].
      pose proof (find_same_in_bucket_spec _ _ _ Hwf Hc Efound) as Hspec.
      destruct found as [r|]; injection Ef as <- <-.
      + split; [reflexivity|]. destruct Hspec as (Hin & er & Her & Hsame).
        exists er. split; [assumption|].
        destruct (proj1 (Hb h r)) as (er' & Her' & Hh & Hn).
        { rewrite Eb. exact Hin. }
        rewrite Her in Her'. injection Her' as <-. auto.
      + simpl. split; [reflexivity|]. intros r er Her Hh Hn.
        apply (Hspec r er); [|assumption].
        specialize (Hb h r). rewrite Eb in Hb. apply Hb. eauto.
    - injection Ef as <- <-. simpl. split; [reflexivity|].
      intros r er Her Hh Hn. exfalso.
      assert (Hin : r ∈ default [] (dex_map_hash_to_stack_map_indices_ s !! h))
        by (apply Hb; eauto).
      rewrite Eb in Hin. simpl in Hin. apply elem_of_nil in Hin. exact Hin. }
  assert (He'wf : entry_wf (dex_register_locations_ s) e') by exact Hc.
  split; simpl; try assumption.
  - split.
    + apply Forall_app. split; [assumption|]. constructor; [assumption|constructor].
    + intros i e r Hi Hr. apply lookup_snoc_Some in Hi as [[Hlt Hi]|[-> <-]].
      * destruct (He i e r Hi Hr) as (Hri & er & Her & Hrest).
        split; [exact Hri|]. exists er. split; [|exact Hrest].
        apply lookup_app_l_Some, Her.
      * simpl in Hr. subst same_as. destruct Hfound as (_ & er & Her & Hh & Hn & Hs).
        split; [apply lookup_lt_Some in Her; exact Her|].
        exists er. split; [apply lookup_app_l_Some, Her|].
        split; [exact Hn|]. split; [exact Hh|]. exact Hs.
    + intros i j ei ej Hi Hj Hne Hni Hnj Hh.
      apply lookup_snoc_Some in Hi as [[Hlti Hi]|[-> <-]];
      apply lookup_snoc_Some in Hj as [[Hltj Hj]|[-> <-]].
      * eapply Hd; eassumption.
      * simpl in Hnj. subst same_as. destruct Hfound as [_ Hnone].
        apply (Hnone i ei Hi); [exact Hh|exact Hni].
      * simpl in Hni. subst same_as. destruct Hfound as [_ Hnone].
        intros Hs. apply same_dex_map_sym in Hs.
        apply (Hnone j ej Hj); [symmetry; exact Hh|exact Hnj|exact Hs].
      * contradiction.
  - split; simpl; [tauto|lia].
  - intros hash r. destruct same_as as [r0|].
    + destruct Hfound as [-> _]. rewrite Hb. split.
      * intros (er & Her & Hrest). exists er. split; [|exact Hrest].
        apply lookup_app_l_Some, Her.
      * intros (er & Her & Hh & Hn).
        apply lookup_snoc_Some in Her as [[Hlt Her]|[-> <-]]; [eauto|].
        simpl in Hn. discriminate.
    + destruct Hfound as [-> _].
      destruct (decide (hash = h)) as [->|Hne].
      * rewrite lookup_insert_eq. simpl. rewrite elem_of_app, list_elem_of_singleton, Hb.
        split.
        -- intros [(er & Her & Hrest)| ->].
           ++ exists er. split; [|exact Hrest]. apply lookup_app_l_Some, Her.
           ++ exists e'. split; [|split; reflexivity].
              apply lookup_snoc_Some. right. split; reflexivity.
        -- intros (er & Her & Hh & Hn).
           apply lookup_snoc_Some in Her as [[Hlt Her]|[-> <-]]; [left; eauto|right; reflexivity].
      * rewrite lookup_insert_ne by congruence. rewrite Hb. split.
        -- intros (er & Her & Hrest). exists er. split; [|exact Hrest].
           apply lookup_app_l_Some, Her.
        -- intros (er & Her & Hh & Hn).
           apply lookup_snoc_Some in Her as [[Hlt Her]|[-> <-]]; [eauto|].
           unfold e' in Hh. simpl in Hh. fold h in Hh. congruence.
Qed.

Lemma call_invariant c s s' :
  stream_invariant s → call c s = Some s' → stream_invariant s'.
Proof.
  destruct c; simpl.
  - apply BeginStackMapEntry_invariant.
  - apply AddDexRegisterEntry_invariant.
  - apply BeginInlineInfoEntry_invariant.
  - apply EndInlineInfoEntry_invariant.
  - apply EndStackMapEntry_invariant.
Qed.

Lemma calls_invariant cs : ∀ s s',
  stream_invariant s → calls cs s = Some s' → stream_invariant s'.
Proof.
  induction cs as [|c cs IH]; intros s s' Hinv; simpl.
  - intros [= <-]. exact Hinv.
  - destruct (call c s) as [s1|] eqn:E; simpl; [|discriminate].
    apply IH. eapply call_invariant; eassumption.
Qed.

(** C3.  After any sequence of streaming calls that the debug build lets
    pass, the back-reference of a recorded entry is the sentinel, or the
    index of a strictly earlier entry with the same number of dex registers,
    the same live mask and the same slice of catalog indices, of the length
    of the population count of the live mask. *)
Theorem same_dex_map_back_reference
    (isa : InstructionSet) (cs : list StreamCall) (s : StackMapStream)
    (i : nat) (e : StackMapEntry) :
  calls cs (StackMapStream_new isa) = Some s →
  stack_maps_ s !! i = Some e →
  sm_same_dex_register_map_as_ e = kNoSameDexMapFound
  ∨ ∃ r er,
      sm_same_dex_register_map_as_ e = Some r
      ∧ (r < i)%nat
      ∧ stack_maps_ s !! r = Some er
      ∧ sm_num_dex_registers er = sm_num_dex_registers e
      ∧ sm_live_dex_registers_mask er = sm_live_dex_registers_mask e
      ∧ locations_slice (dex_register_locations_ s)
          (sm_dex_register_locations_start_index er)
          (live_count (sm_live_dex_registers_mask er))
        = locations_slice (dex_register_locations_ s)
            (sm_dex_register_locations_start_index e)
            (live_count (sm_live_dex_registers_mask e))
      ∧ length (locations_slice (dex_register_locations_ s)
                  (sm_dex_register_locations_start_index e)
                  (live_count (sm_live_dex_registers_mask e)))
        = live_count (sm_live_dex_registers_mask e).
Proof.
  intros Hcalls Hi.
  pose proof (calls_invariant _ _ _ (stream_invariant_new isa) Hcalls) as [[Hwf He Hd] _ _ _].
  destruct (sm_same_dex_register_map_as_ e) as [r|] eqn:Er; [right|left; reflexivity].
  destruct (He i e r Hi Er) as (Hlt & er & Her & _ & _ & Hn & Hm & Hs).
  exists r, er. repeat split; try assumption.
  pose proof (proj1 (Forall_lookup _ _) Hwf i e Hi) as [_ Hle].
  unfold locations_slice. rewrite length_take, length_drop. lia.
Qed.

(** C9.  With no entry open (the dex PC of the current entry is the
    sentinel 0), [BeginStackMapEntry] with dex PC 0 returns, and so does a
    second [BeginStackMapEntry] right after it, whatever its dex PC other
    than -1: the nested call is not detected, no entry was recorded and the
    open entry is now the one of the second call.  The dex PC -1 is
    rejected. *)
Theorem BeginStackMapEntry_nested_undetected
    (s : StackMapStream)
    (native_pc_offset1 register_mask1 : Z) (sp_mask1 : option BitVector)
    (num_dex_registers1 inlining_depth1 : Z)
    (dex_pc2 native_pc_offset2 register_mask2 : Z) (sp_mask2 : option BitVector)
    (num_dex_registers2 inlining_depth2 : Z) :
  sm_dex_pc (current_entry_ s) = 0 →
  dex_pc2 ≠ to_uint32 (-1) →
  ∃ s1 s2,
    BeginStackMapEntry 0 native_pc_offset1 register_mask1 sp_mask1
      num_dex_registers1 inlining_depth1 s = Some s1
    ∧ BeginStackMapEntry dex_pc2 native_pc_offset2 register_mask2 sp_mask2
        num_dex_registers2 inlining_depth2 s1 = Some s2
    ∧ stack_maps_ s2 = stack_maps_ s
    ∧ sm_dex_pc (current_entry_ s2) = dex_pc2
    ∧ sm_register_mask (current_entry_ s2) = register_mask2
    ∧ sm_sp_mask (current_entry_ s2) = sp_mask2
    ∧ sm_num_dex_registers (current_entry_ s2) = num_dex_registers2
    ∧ sm_inlining_depth (current_entry_ s2) = inlining_depth2
    ∧ BeginStackMapEntry (to_uint32 (-1)) native_pc_offset1 register_mask1 sp_mask1
        num_dex_registers1 inlining_depth1 s = None.
Proof.
  intros H0 H2. unfold BeginStackMapEntry. rewrite H0. simpl.
  rewrite (bool_decide_eq_true_2 _ H2). simpl.
  do 2 eexists. repeat split; reflexivity.
Qed.

Lemma inline_maxima_frames_spec s depth : ∀ m idx,
  (idx + depth ≤ length (inline_infos_ s))%nat →
  ∃ m', inline_maxima_frames s depth m idx = Some (m', (idx + depth)%nat)
    ∧ dex_pc_max m' = dex_pc_fold (dex_pc_max m) (take depth (drop idx (inline_infos_ s))).
Proof.
  induction depth as [|d IH]; intros m idx Hle.
  - simpl. eexists. rewrite Nat.add_0_r. split; reflexivity.
  - simpl. destruct (lookup_lt_is_Some_2 (inline_infos_ s) idx) as [e He]; [lia|].
    rewrite He. simpl.
    destruct (IH (inline_maxima_step m e) (S idx)) as (m' & Hm' & Hd); [lia|].
    exists m'. split.
    + rewrite Hm'. f_equal. f_equal. lia.
    + rewrite Hd. rewrite (drop_S _ _ _ He). simpl. reflexivity.
Qed.

Lemma dex_pc_fold_app acc l1 l2 :
  dex_pc_fold acc (l1 ++ l2) = dex_pc_fold (dex_pc_fold acc l1) l2.
Proof. unfold dex_pc_fold. apply foldl_app. Qed.

Lemma inline_maxima_loop_spec s entries : ∀ m idx,
  (idx + total_inlining_depth entries ≤ length (inline_infos_ s))%nat →
  ∃ m', inline_maxima_loop s entries m idx
        = Some (m', (idx + total_inlining_depth entries)%nat)
    ∧ dex_pc_max m' = dex_pc_fold (dex_pc_max m)
        (take (total_inlining_depth entries) (drop idx (inline_infos_ s))).
Proof.
  induction entries as [|e es IH]; intros m idx Hle; simpl in *.
  - eexists. rewrite Nat.add_0_r. split; reflexivity.
  - destruct (inline_maxima_frames_spec s (Z.to_nat (sm_inlining_depth e)) m idx)
      as (m1 & H1 & Hd1); [lia|].
    rewrite H1. simpl.
    destruct (IH m1 (idx + Z.to_nat (sm_inlining_depth e))%nat) as (m2 & H2 & Hd2); [lia|].
    exists m2. split.
    + rewrite H2. f_equal. f_equal. lia.
    + rewrite Hd2, Hd1, <- dex_pc_fold_app. f_equal.
      set (d := Z.to_nat (sm_inlining_depth e)).
      set (l := drop idx (inline_infos_ s)).
      assert (Hl : (d + total_inlining_depth es ≤ length l)%nat)
        by (subst l d; rewrite length_drop; lia).
      rewrite <- drop_drop. fold l. apply take_take_drop.
Qed.

(* the running maximum is the maximum of the frames that carry a dex pc *)
Lemma dex_pc_fold_cons acc f fs :
  dex_pc_fold acc (f :: fs)
  = dex_pc_fold
      (if bool_decide (ii_dex_pc f ≠ kDexNoIndex)
          && (bool_decide (acc = kDexNoIndex) || bool_decide (acc < ii_dex_pc f))
       then ii_dex_pc f else acc) fs.
Proof. reflexivity. Qed.

Lemma dex_pc_fold_seen fs : ∀ acc, acc ≠ kDexNoIndex →
  dex_pc_fold acc fs
  = foldl Z.max acc (filter (λ pc, pc ≠ kDexNoIndex) (ii_dex_pc <$> fs)).
Proof.
  induction fs as [|f fs IH]; intros acc Hacc; [reflexivity|].
  rewrite dex_pc_fold_cons, fmap_cons, filter_cons.
  destruct (decide (ii_dex_pc f ≠ kDexNoIndex)) as [Hf|Hf].
  - rewrite (bool_decide_eq_true_2 _ Hf), (bool_decide_eq_false_2 _ Hacc). simpl.
    destruct (decide (acc < ii_dex_pc f)) as [Hlt|Hlt].
    + rewrite (bool_decide_eq_true_2 _ Hlt), (IH _ Hf). f_equal. lia.
    + rewrite (bool_decide_eq_false_2 _ Hlt), (IH _ Hacc). f_equal. lia.
  - rewrite (bool_decide_eq_false_2 _ Hf). simpl. apply IH, Hacc.
Qed.

Lemma dex_pc_fold_none frames :
  dex_pc_fold kDexNoIndex frames = max_dex_pc_of_frames frames.
Proof.
  unfold max_dex_pc_of_frames.
  induction frames as [|f fs IH]; [reflexivity|].
  rewrite dex_pc_fold_cons, fmap_cons, filter_cons.
  destruct (decide (ii_dex_pc f ≠ kDexNoIndex)) as [Hf|Hf].
  - rewrite (bool_decide_eq_true_2 _ Hf). simpl. apply (dex_pc_fold_seen fs _ Hf).
  - rewrite (bool_decide_eq_false_2 _ Hf). simpl. apply IH.
Qed.

(** C6.  When the entries declare as many inline frames as were recorded,
    [ComputeInlineInfoEncoding] returns, and the dex PC maximum it passes
    to [SetFromSizes] is the maximum over the frames whose dex PC is not
    [kDexNoIndex], and [kDexNoIndex] when there is no such frame. *)
Theorem ComputeInlineInfoEncoding_max_dex_pc (s : StackMapStream) :
  total_inlining_depth (stack_maps_ s) = length (inline_infos_ s) →
  ∃ m, ComputeInlineInfoMaxima s = Some m
    ∧ dex_pc_max m = max_dex_pc_of_frames (inline_infos_ s)
    ∧ ∀ dex_register_maps_bytes,
        ComputeInlineInfoEncoding s dex_register_maps_bytes
        = Some (InlineInfoEncoding_SetFromSizes (method_index_max m)
                  (max_dex_pc_of_frames (inline_infos_ s)) (extra_data_max m)
                  (Z.of_nat dex_register_maps_bytes)).
Proof.
  intros Htot. unfold ComputeInlineInfoEncoding, ComputeInlineInfoMaxima.
  destruct (inline_maxima_loop_spec s (stack_maps_ s)
              {| method_index_max := 0; dex_pc_max := kDexNoIndex; extra_data_max := 0 |}
              0%nat) as (m & Hm & Hd); [lia|].
  rewrite Hm. simpl. rewrite Htot. rewrite bool_decide_eq_true_2 by reflexivity. simpl.
  simpl in Hd. rewrite Htot, drop_0, firstn_all in Hd. rewrite dex_pc_fold_none in Hd.
  exists m. split; [reflexivity|]. split; [exact Hd|].
  intros. rewrite Hd. reflexivity.
Qed.



Lemma bind_Some_inv {A B} (m : option A) (k : A → option B) (y : B) :
  m ≫= k = Some y → ∃ x, m = Some x ∧ k x = Some y.
Proof. destruct m; simpl; [eauto|discriminate]. Qed.

(** *** The cursors of FillIn *)

Lemma only_map_written_refl offset size r : only_map_written offset size r r.
Proof. repeat split. Qed.

Lemma only_map_written_trans offset size r1 r2 r3 :
  only_map_written offset size r1 r2 → only_map_written offset size r2 r3 →
  only_map_written offset size r1 r3.
Proof.
  intros (A1 & A2 & A3 & A4 & A5 & A6 & A7) (B1 & B2 & B3 & B4 & B5 & B6 & B7).
  split; [congruence|]. split; [congruence|]. split; [congruence|].
  split; [congruence|]. split; [congruence|]. split; [congruence|].
  intros p Hp. rewrite B7, A7 by exact Hp. reflexivity.
Qed.

Lemma DexRegisterMap_StoreBit_inv offset size bit_offset value r r' :
  DexRegisterMap_StoreBit offset size bit_offset value r = Some r' →
  (bit_offset < kBitsPerByte * size)%nat
  ∧ r' = MemoryRegion_set_dex_register_map_bit
           (kBitsPerByte * offset + bit_offset) value r.
Proof.
  unfold DexRegisterMap_StoreBit. intros Hs.
  apply DCHECK_bind_Some in Hs as [Hlt Hs]. apply bool_decide_eq_true in Hlt.
  injection Hs as <-. split; [exact Hlt|reflexivity].
Qed.

Lemma DexRegisterMap_StoreBit_only offset size bit_offset value r r' :
  DexRegisterMap_StoreBit offset size bit_offset value r = Some r' →
  only_map_written offset size r r'.
Proof.
  intros Hs. apply DexRegisterMap_StoreBit_inv in Hs as [Hlt ->].
  do 6 (split; [reflexivity|]). intros p Hp. simpl.
  apply fn_lookup_insert_ne. unfold kBitsPerByte in *. lia.
Qed.

Lemma DexRegisterMap_StoreBits_only offset size bit_offset value bit_indices :
  ∀ r r',
  DexRegisterMap_StoreBits offset size bit_offset value bit_indices r = Some r' →
  only_map_written offset size r r'.
Proof.
  induction bit_indices as [|i bit_indices IH]; intros r r' Hs; simpl in Hs.
  - injection Hs as <-. apply only_map_written_refl.
  - apply bind_Some_inv in Hs as (r1 & Hr1 & Hs).
    eapply only_map_written_trans;
      [eapply DexRegisterMap_StoreBit_only, Hr1|eapply IH, Hs].
Qed.

Lemma SetLiveBitMask_only offset size mask dex_register_numbers : ∀ r r',
  SetLiveBitMask offset size mask dex_register_numbers r = Some r' →
  only_map_written offset size r r'.
Proof.
  induction dex_register_numbers as [|i regs IH]; intros r r' Hs; simpl in Hs.
  - injection Hs as <-. apply only_map_written_refl.
  - apply bind_Some_inv in Hs as (r1 & Hr1 & Hs).
    eapply only_map_written_trans;
      [eapply DexRegisterMap_StoreBit_only, Hr1|eapply IH, Hs].
Qed.

Lemma fill_map_entries_only s offset size n start indices : ∀ r r',
  fill_map_entries s offset size n start indices r = Some r' →
  only_map_written offset size r r'.
Proof.
  induction indices as [|k indices IH]; intros r r' Hf; simpl in Hf.
  - injection Hf as <-. apply only_map_written_refl.
  - apply bind_Some_inv in Hf as (index & _ & Hf).
    apply bind_Some_inv in Hf as (r1 & Hr1 & Hf).
    eapply only_map_written_trans;
      [eapply DexRegisterMap_StoreBits_only, Hr1|eapply IH, Hf].
Qed.

Lemma FillInDexRegisterMap_only s offset size n mask start r r' :
  FillInDexRegisterMap s offset size n mask start r = Some r' →
  only_map_written offset size r r'.
Proof.
  unfold FillInDexRegisterMap. intros Hf.
  apply bind_Some_inv in Hf as (r1 & Hr1 & Hf).
  apply DCHECK_bind_Some in Hf as [_ Hf].
  apply DCHECK_bind_Some in Hf as [_ Hf].
  eapply only_map_written_trans;
    [eapply SetLiveBitMask_only, Hr1|eapply fill_map_entries_only, Hf].
Qed.

Lemma FillInDexRegisterMap_frame s offset size n mask start r r' :
  FillInDexRegisterMap s offset size n mask start r = Some r' →
  region_stack_maps r' = region_stack_maps r
  ∧ region_inline_infos r' = region_inline_infos r.
Proof.
  intros Hf. apply FillInDexRegisterMap_only in Hf as (_ & _ & Hs & Hi & _).
  split; assumption.
Qed.

Lemma materialize_map_cursor s encoding n mask start c offset c' :
  materialize_map s encoding n mask start c = Some (offset, c') →
  offset = next_dex_register_map_offset c
  ∧ next_inline_info_index c' = next_inline_info_index c
  ∧ region_stack_maps (fc_region c') = region_stack_maps (fc_region c)
  ∧ ∃ size, ComputeDexRegisterMapSize s n mask = Some size
      ∧ next_dex_register_map_offset c' = (offset + size)%nat
      ∧ (offset + size ≤ cie_dex_register_map_num_bytes encoding)%nat.
Proof.
  unfold materialize_map. intros Hm.
  apply bind_Some_inv in Hm as (size & Hsize & Hm).
  apply DCHECK_bind_Some in Hm as [Hs1 Hm].
  apply DCHECK_bind_Some in Hm as [Hs2 Hm].
  apply bind_Some_inv in Hm as (m & _ & Hm).
  apply bind_Some_inv in Hm as (r & Hr & Hm).
  injection Hm as <- <-. simpl.
  apply FillInDexRegisterMap_frame in Hr as [Hr _].
  apply bool_decide_eq_true in Hs1, Hs2.
  split; [reflexivity|]. split; [reflexivity|]. split; [exact Hr|].
  exists size. split; [exact Hsize|]. split; [reflexivity|]. lia.
Qed.

Lemma GetLiveBitMaskSize_pos n : (0 < n)%nat → (0 < GetLiveBitMaskSize n)%nat.
Proof.
  intros Hn. unfold GetLiveBitMaskSize, RoundUp, kBitsPerByte.
  apply Nat.div_str_pos. split; [lia|].
  assert (1 ≤ (n + 8 - 1) / 8)%nat by (apply Nat.div_le_lower_bound; lia).
  lia.
Qed.

Lemma ComputeDexRegisterMapSize_no_live s n mask :
  n ≠ 0 → BitVector_NumSetBits mask = 0%nat →
  ComputeDexRegisterMapSize s n (Some mask)
  = Some (DexRegisterMap_kFixedSize + GetLiveBitMaskSize (Z.to_nat n))%nat.
Proof.
  intros Hn Hz. unfold ComputeDexRegisterMapSize.
  rewrite bool_decide_eq_false_2 by exact Hn. simpl. rewrite Hz.
  rewrite Nat.mul_0_r. unfold RoundUp, kBitsPerByte. simpl. f_equal. lia.
Qed.

Lemma ComputeDexRegisterMapSize_pos s n mask size :
  0 < n → ComputeDexRegisterMapSize s n mask = Some size → (0 < size)%nat.
Proof.
  intros Hn. unfold ComputeDexRegisterMapSize.
  rewrite bool_decide_eq_false_2 by lia.
  destruct mask as [m|]; simpl; [|discriminate].
  intros [= <-]. pose proof (GetLiveBitMaskSize_pos (Z.to_nat n)). lia.
Qed.


Lemma fill_inline_frames_cursor s encoding entry first_index depths : ∀ c c',
  fill_inline_frames s encoding entry first_index depths c = Some c' →
  next_inline_info_index c' = next_inline_info_index c
  ∧ region_stack_maps (fc_region c') = region_stack_maps (fc_region c)
  ∧ next_dex_register_map_offset c'
    = (next_dex_register_map_offset c
       + frames_size s ((λ d, d + sm_inline_infos_start_index entry)%nat <$> depths))%nat.
Proof.
  induction depths as [|d depths IH]; intros c c' Hf.
  - simpl in Hf. injection Hf as <-. unfold frames_size. simpl. repeat split; lia.
  - simpl in Hf.
    apply bind_Some_inv in Hf as (ie & Hie & Hf).
    apply bind_Some_inv in Hf as (c1 & Hc1 & Hf).
    assert (Hstep : next_inline_info_index c1 = next_inline_info_index c
              ∧ region_stack_maps (fc_region c1) = region_stack_maps (fc_region c)
              ∧ next_dex_register_map_offset c1
                = (next_dex_register_map_offset c + frame_map_size s ie)%nat).
    { unfold frame_map_size. case_bool_decide as Hn.
      - apply DCHECK_bind_Some in Hc1 as [_ Hc1]. injection Hc1 as <-.
        unfold ComputeDexRegisterMapSize.
        rewrite (bool_decide_eq_true_2 (ii_num_dex_registers ie = 0) Hn).
        simpl. split; [reflexivity|]. split; [|lia].
        destruct (bool_decide (ii_method ie ≠ 0)); reflexivity.
      - apply bind_Some_inv in Hc1 as ([offset c2] & Hm & Hc1). injection Hc1 as <-.
        apply materialize_map_cursor in Hm as (-> & Hi1 & Hr1 & size & Hsize & Ho1 & _).
        rewrite Hsize. simpl in *. split; [exact Hi1|]. split; [|exact Ho1].
        rewrite Hr1. destruct (bool_decide (ii_method ie ≠ 0)); reflexivity. }
    apply IH in Hf as (Hi & Hr & Ho).
    destruct Hstep as (Hi1 & Hr1 & Ho1).
    split; [congruence|]. split; [congruence|].
    rewrite Ho, Ho1. unfold frames_size. rewrite fmap_cons. simpl.
    rewrite Hie. simpl. lia.
Qed.

Lemma InlineInfo_SetDepth_stack_maps ie first_index depth r :
  region_stack_maps (InlineInfo_SetDepth ie first_index depth r) = region_stack_maps r.
Proof.
  unfold InlineInfo_SetDepth. generalize (seq 0 depth). intros l. revert r.
  induction l as [|d l IH]; intros r; [reflexivity|]. simpl. rewrite IH. reflexivity.
Qed.

Lemma fill_inline_info_cursor s encoding i entry c c' :
  fill_inline_info s encoding i entry c = Some c' →
  next_inline_info_index c'
  = (next_inline_info_index c + Z.to_nat (sm_inlining_depth entry))%nat
  ∧ (∀ j f, (j, f) ≠ (i, kInlineInfoIndex) →
       region_stack_maps (fc_region c') (j, f) = region_stack_maps (fc_region c) (j, f))
  ∧ next_dex_register_map_offset c'
    = (next_dex_register_map_offset c
       + frames_size s (seq (next_inline_info_index c)
                          (Z.to_nat (sm_inlining_depth entry))))%nat.
Proof.
  unfold fill_inline_info. intros Hf. case_bool_decide as Hd.
  - apply DCHECK_bind_Some in Hf as [Hfirst Hf].
    apply DCHECK_bind_Some in Hf as [_ Hf].
    apply DCHECK_bind_Some in Hf as [_ Hf].
    apply bool_decide_eq_true in Hfirst.
    apply fill_inline_frames_cursor in Hf as (Hi & Hr & Ho). simpl in *.
    split; [exact Hi|]. split.
    + intros j f Hne. rewrite Hr, InlineInfo_SetDepth_stack_maps. simpl.
      unfold StackMap_Set. simpl. rewrite fn_lookup_insert_ne by congruence. reflexivity.
    + rewrite Ho. f_equal. f_equal. rewrite <- Hfirst.
      transitivity (Nat.add (next_inline_info_index c)
                      <$> seq 0 (Z.to_nat (sm_inlining_depth entry))).
      * apply list_fmap_ext. intros; lia.
      * rewrite fmap_add_seq, Nat.add_0_r. reflexivity.
  - assert (Hz : Z.to_nat (sm_inlining_depth entry) = 0%nat).
    { destruct (decide (sm_inlining_depth entry = 0)) as [->|]; [reflexivity|tauto]. }
    rewrite Hz. unfold frames_size. simpl.
    case_bool_decide; injection Hf as <-; simpl; (split; [lia|]); (split; [|lia]).
    + intros j f Hne. unfold StackMap_Set. simpl.
      rewrite fn_lookup_insert_ne by congruence. reflexivity.
    + reflexivity.
Qed.


Lemma FieldEncoding_Load_Store_sentinel bits :
  FieldEncoding_Load bits (-1) (FieldEncoding_Store bits (-1) (to_uint32 (-1)))
  = to_uint32 (-1).
Proof.
  unfold FieldEncoding_Load, FieldEncoding_Store, StoreBits, LoadBits.
  replace (to_uint32 (to_uint32 (-1) - -1)) with 0 by reflexivity.
  rewrite !Zmod_0_l. reflexivity.
Qed.

Lemma no_dex_map_dec (e : StackMapEntry) : Decision (no_dex_map e).
Proof. unfold no_dex_map. apply _. Qed.

Lemma fill_dex_register_map_spec s encoding i e c c' :
  fill_dex_register_map s encoding i e c = Some c' →
  let se := cie_stack_map_encoding encoding in
  let raw c := region_stack_maps (fc_region c) (i, kDexRegisterMapOffset) in
  next_inline_info_index c' = next_inline_info_index c
  ∧ (∀ j f, (j, f) ≠ (i, kDexRegisterMapOffset) →
       region_stack_maps (fc_region c') (j, f) = region_stack_maps (fc_region c) (j, f))
  ∧ next_dex_register_map_offset c'
    = (next_dex_register_map_offset c + written_map_bytes s e)%nat
  ∧ (no_dex_map e →
       raw c' = FieldEncoding_Store (sme_dex_register_map_bits se) (-1) kNoDexRegisterMap)
  ∧ (¬ no_dex_map e → ∀ t, sm_same_dex_register_map_as_ e = Some t →
       raw c' = FieldEncoding_Store (sme_dex_register_map_bits se) (-1)
                  (StackMap_Get se t kDexRegisterMapOffset (fc_region c)))
  ∧ (¬ no_dex_map e → sm_same_dex_register_map_as_ e = None →
       raw c' = FieldEncoding_Store (sme_dex_register_map_bits se) (-1)
                  (Z.of_nat (next_dex_register_map_offset c))
       ∧ (next_dex_register_map_offset c' ≤ cie_dex_register_map_num_bytes encoding)%nat
       ∧ (0 ≤ sm_num_dex_registers e →
          (next_dex_register_map_offset c < next_dex_register_map_offset c')%nat)).
Proof.
  intros Hf se raw. unfold fill_dex_register_map in Hf. fold se in Hf.
  apply bind_Some_inv in Hf as (no_map & Hno & Hf).
  assert (Hno' : no_map = true ↔ no_dex_map e).
  { unfold no_dex_map. case_bool_decide as Hz.
    - injection Hno as <-. tauto.
    - apply bind_Some_inv in Hno as (mask & Hmask & Hno). injection Hno as <-.
      rewrite Hmask. simpl. rewrite bool_decide_eq_true. tauto. }
  unfold written_map_bytes. destruct no_map.
  - assert (Hnd : no_dex_map e) by (apply Hno'; reflexivity).
    injection Hf as <-. rewrite (bool_decide_eq_true_2 _ Hnd). subst raw. simpl.
    split; [reflexivity|]. split.
    { intros j f Hne. unfold StackMap_Set. simpl.
      rewrite fn_lookup_insert_ne by congruence. reflexivity. }
    split; [lia|]. split.
    { intros _. unfold StackMap_Set. simpl. rewrite fn_lookup_insert. reflexivity. }
    split; intros Hc; contradiction.
  - assert (Hnd : ¬ no_dex_map e) by (intros Hc; apply Hno' in Hc; discriminate).
    rewrite (bool_decide_eq_false_2 _ Hnd).
    destruct (sm_same_dex_register_map_as_ e) as [t|] eqn:Et.
    + injection Hf as <-. subst raw. simpl.
      split; [reflexivity|]. split.
      { intros j f Hne. unfold StackMap_Set. simpl.
        rewrite fn_lookup_insert_ne by congruence. reflexivity. }
      split; [lia|]. split; [intros Hc; contradiction|]. split.
      { intros _ t' [= <-]. unfold StackMap_Set. simpl. rewrite fn_lookup_insert.
        reflexivity. }
      intros _ Hc. discriminate.
    + apply bind_Some_inv in Hf as ([offset c1] & Hm & Hf). injection Hf as <-.
      apply materialize_map_cursor in Hm as (-> & Hi1 & Hr1 & size & Hsize & Ho1 & Hle).
      simpl in *. rewrite Hsize. simpl.
      assert (Hpos : 0 ≤ sm_num_dex_registers e → (0 < size)%nat).
      { intros Hn0. eapply ComputeDexRegisterMapSize_pos; [|exact Hsize].
        unfold no_dex_map in Hnd. lia. }
      subst raw. simpl. rewrite Hr1.
      split; [exact Hi1|]. split.
      { intros j f Hne. unfold StackMap_Set. simpl.
        rewrite fn_lookup_insert_ne by congruence. reflexivity. }
      split; [exact Ho1|]. split; [intros Hc; contradiction|]. split.
      { intros _ t Hc. discriminate. }
      intros _ _. split.
      { unfold StackMap_Set. simpl. rewrite fn_lookup_insert. reflexivity. }
      split; [lia|]. intros Hn0. specialize (Hpos Hn0). lia.
Qed.


Lemma FieldEncoding_Load_Store_Load bits min_value raw :
  FieldEncoding_Load bits min_value
    (FieldEncoding_Store bits min_value (FieldEncoding_Load bits min_value raw))
  = FieldEncoding_Load bits min_value raw.
Proof.
  unfold FieldEncoding_Load, FieldEncoding_Store, StoreBits, LoadBits, to_uint32.
  set (m := 2 ^ Z.of_nat bits). set (x := raw `mod` m).
  assert (Hm : 0 < m) by (apply Z.pow_pos_nonneg; lia).
  assert (Hx : 0 ≤ x < m) by (apply Z.mod_pos_bound; lia).
  assert (Hu : 0 < uint32_modulus) by (unfold uint32_modulus; lia).
  rewrite Zminus_mod_idemp_l.
  replace (x + min_value - min_value) with x by lia.
  destruct (decide (Z.of_nat bits ≤ 32)) as [Hb|Hb].
  - assert (m ≤ uint32_modulus)
      by (unfold m, uint32_modulus; apply Z.pow_le_mono_r; lia).
    rewrite (Z.mod_small x uint32_modulus) by lia.
    rewrite !(Z.mod_small x m) by lia. reflexivity.
  - assert (uint32_modulus ≤ m)
      by (unfold m, uint32_modulus; apply Z.pow_le_mono_r; lia).
    assert (0 ≤ x `mod` uint32_modulus < uint32_modulus) by (apply Z.mod_pos_bound; lia).
    rewrite !(Z.mod_small (x `mod` uint32_modulus) m) by lia.
    rewrite Zplus_mod_idemp_l. reflexivity.
Qed.

Lemma fill_stack_map_spec s encoding i e c c' :
  fill_stack_map s encoding i e c = Some c' →
  let se := cie_stack_map_encoding encoding in
  let get r j := StackMap_Get se j kDexRegisterMapOffset r in
  next_inline_info_index c'
  = (next_inline_info_index c + Z.to_nat (sm_inlining_depth e))%nat
  ∧ (∀ j f, j ≠ i →
       region_stack_maps (fc_region c') (j, f) = region_stack_maps (fc_region c) (j, f))
  ∧ next_dex_register_map_offset c'
    = (next_dex_register_map_offset c + written_map_bytes s e
       + frames_size s (seq (next_inline_info_index c)
                          (Z.to_nat (sm_inlining_depth e))))%nat
  ∧ (no_dex_map e → get (fc_region c') i = kNoDexRegisterMap)
  ∧ (¬ no_dex_map e → ∀ t, sm_same_dex_register_map_as_ e = Some t → t ≠ i →
       get (fc_region c') i = get (fc_region c) t)
  ∧ (¬ no_dex_map e → sm_same_dex_register_map_as_ e = None →
       region_stack_maps (fc_region c') (i, kDexRegisterMapOffset)
       = FieldEncoding_Store (sme_dex_register_map_bits se) (-1)
           (Z.of_nat (next_dex_register_map_offset c))
       ∧ (0 ≤ sm_num_dex_registers e →
          (next_dex_register_map_offset c
           < cie_dex_register_map_num_bytes encoding)%nat)).
Proof.
  intros Hf se get. unfold fill_stack_map in Hf. fold se in Hf.
  apply bind_Some_inv in Hf as (c1 & Hd & Hf).
  apply fill_dex_register_map_spec in Hd
    as (Hi1 & Hr1 & Ho1 & Hno & Hsame & Hnew).
  apply fill_inline_info_cursor in Hf as (Hi2 & Hr2 & Ho2).
  simpl in *. fold se in Hno, Hsame, Hnew.
  assert (Hraw : region_stack_maps (fc_region c') (i, kDexRegisterMapOffset)
                 = region_stack_maps (fc_region c1) (i, kDexRegisterMapOffset))
    by (apply Hr2; congruence).
  split; [lia|]. split.
  { intros j f Hne. rewrite Hr2 by congruence. rewrite Hr1 by congruence.
    unfold StackMap_Set. simpl. rewrite !fn_lookup_insert_ne by congruence. reflexivity. }
  split; [rewrite Ho2, Ho1, Hi1; reflexivity|]. split.
  { intros Hnd. unfold get, StackMap_Get. rewrite Hraw, (Hno Hnd).
    apply FieldEncoding_Load_Store_sentinel. }
  split.
  { intros Hnd t Ht Hne. unfold get, StackMap_Get. rewrite Hraw, (Hsame Hnd t Ht).
    unfold StackMap_Get, StackMap_Set. simpl.
    rewrite !fn_lookup_insert_ne by congruence.
    apply FieldEncoding_Load_Store_Load. }
  intros Hnd Hnone. destruct (Hnew Hnd Hnone) as (Hraw1 & Hle & Hlt).
  split; [rewrite Hraw; exact Hraw1|]. intros Hn0. specialize (Hlt Hn0). lia.
Qed.


Lemma frames_size_app s l1 l2 :
  frames_size s (l1 ++ l2) = (frames_size s l1 + frames_size s l2)%nat.
Proof. unfold frames_size. apply sum_list_with_app. Qed.

Lemma frames_size_seq_add s a n m :
  frames_size s (seq a (n + m))
  = (frames_size s (seq a n) + frames_size s (seq (a + n) m))%nat.
Proof. rewrite seq_app. apply frames_size_app. Qed.

Lemma fill_stack_maps_spec s encoding entries : ∀ i c c',
  fill_stack_maps s encoding i entries c = Some c' →
  (∀ j f, (j < i)%nat →
     region_stack_maps (fc_region c') (j, f) = region_stack_maps (fc_region c) (j, f))
  ∧ next_inline_info_index c'
    = (next_inline_info_index c + total_inlining_depth entries)%nat
  ∧ next_dex_register_map_offset c'
    = (next_dex_register_map_offset c + sum_list_with (written_map_bytes s) entries
       + frames_size s (seq (next_inline_info_index c) (total_inlining_depth entries)))%nat
  ∧ ∀ k e, entries !! k = Some e →
      offset_written s encoding (fc_region c')
        (cie_dex_register_map_num_bytes encoding) (i + k) e.
Proof.
  induction entries as [|e entries IH]; intros i c c' Hf.
  - simpl in Hf. injection Hf as <-. unfold frames_size. simpl.
    split; [reflexivity|]. split; [lia|]. split; [lia|].
    intros k e Hk. rewrite lookup_nil in Hk. discriminate.
  - simpl in Hf. apply bind_Some_inv in Hf as (c1 & Hstep & Hf).
    apply fill_stack_map_spec in Hstep as (Hi1 & Hr1 & Ho1 & Hno & Hsame & Hnew).
    apply IH in Hf as (Hr2 & Hi2 & Ho2 & Hrest).
    split.
    { intros j f Hj. rewrite Hr2 by lia. apply Hr1. lia. }
    split; [simpl; lia|]. split.
    { rewrite Ho2, Ho1, Hi1. simpl total_inlining_depth.
      rewrite frames_size_seq_add. simpl. lia. }
    intros k e' Hk. destruct k as [|k].
    + injection Hk as <-. rewrite Nat.add_0_r.
      assert (Hget : ∀ j, (j ≤ i)%nat →
                StackMap_Get (cie_stack_map_encoding encoding) j kDexRegisterMapOffset
                  (fc_region c')
                = StackMap_Get (cie_stack_map_encoding encoding) j kDexRegisterMapOffset
                    (fc_region c1)).
      { intros j Hj. unfold StackMap_Get. rewrite Hr2 by lia. reflexivity. }
      unfold offset_written. split; [|split].
      * intros Hnd. rewrite Hget by lia. apply Hno, Hnd.
      * intros Hnd t Ht Hlt.
        rewrite !Hget by lia. rewrite (Hsame Hnd t Ht) by lia.
        unfold StackMap_Get. rewrite Hr1 by lia. reflexivity.
      * intros Hnd Hnone Hn0. destruct (Hnew Hnd Hnone) as (Hraw & Hlt).
        exists (next_dex_register_map_offset c). split; [exact (Hlt Hn0)|].
        rewrite Hr2 by lia. exact Hraw.
    + replace (i + S k)%nat with (S i + k)%nat by lia. apply Hrest. exact Hk.
Qed.

(** *** The sizer against the cursor of FillIn *)

Lemma inline_maps_size_spec s depth : ∀ size index size' index',
  inline_maps_size s depth size index = Some (size', index') →
  index' = (index + depth)%nat
  ∧ size' = (size + frames_size s (seq index depth))%nat.
Proof.
  induction depth as [|depth IH]; intros size index size' index' Hs.
  - simpl in Hs. injection Hs as <- <-. unfold frames_size. simpl. lia.
  - simpl in Hs. apply bind_Some_inv in Hs as (ie & Hie & Hs).
    apply bind_Some_inv in Hs as (map_size & Hm & Hs).
    apply IH in Hs as [-> ->]. split; [lia|].
    unfold frames_size. simpl. rewrite Hie. simpl. unfold frame_map_size at 2.
    rewrite Hm. simpl. lia.
Qed.

Lemma sized_map_bytes s e map_size :
  ComputeDexRegisterMapSize s (sm_num_dex_registers e)
    (sm_live_dex_registers_mask e) = Some map_size →
  sm_same_dex_register_map_as_ e = None →
  map_size = (written_map_bytes s e + unused_map_bytes e)%nat.
Proof.
  intros Hsize Hnone. unfold written_map_bytes, unused_map_bytes, no_dex_map.
  rewrite Hnone, Hsize. simpl.
  destruct (decide (sm_num_dex_registers e = 0)) as [Hz|Hz].
  - rewrite bool_decide_eq_true_2 by tauto. rewrite bool_decide_eq_false_2 by tauto.
    unfold ComputeDexRegisterMapSize in Hsize.
    rewrite bool_decide_eq_true_2 in Hsize by exact Hz. injection Hsize as <-. lia.
  - destruct (sm_live_dex_registers_mask e) as [m|] eqn:Em.
    2:{ unfold ComputeDexRegisterMapSize in Hsize.
        rewrite bool_decide_eq_false_2 in Hsize by exact Hz. discriminate. }
    destruct (decide (live_count (Some m) = 0%nat)) as [Hl|Hl].
    + rewrite bool_decide_eq_true_2 by tauto. rewrite bool_decide_eq_true_2 by tauto.
      rewrite ComputeDexRegisterMapSize_no_live in Hsize by assumption.
      injection Hsize as <-. lia.
    + rewrite bool_decide_eq_false_2 by tauto. rewrite bool_decide_eq_false_2 by tauto.
      lia.
Qed.

Lemma maps_size_loop_spec s entries : ∀ size index size' index',
  maps_size_loop s entries size index = Some (size', index') →
  index' = (index + total_inlining_depth entries)%nat
  ∧ size' = (size + sum_list_with (written_map_bytes s) entries
             + sum_list_with unused_map_bytes entries
             + frames_size s (seq index (total_inlining_depth entries)))%nat.
Proof.
  induction entries as [|e entries IH]; intros size index size' index' Hs.
  - simpl in Hs. injection Hs as <- <-. unfold frames_size. simpl. lia.
  - simpl in Hs. apply bind_Some_inv in Hs as (size1 & Hown & Hs).
    apply bind_Some_inv in Hs as ([size2 index2] & Hin & Hs).
    apply inline_maps_size_spec in Hin as [-> ->].
    apply IH in Hs as [-> ->]. split; [simpl; lia|].
    assert (Hsize1 : size1 = (size + written_map_bytes s e + unused_map_bytes e)%nat).
    { case_bool_decide as Hsame.
      - apply bind_Some_inv in Hown as (map_size & Hm & Hown). injection Hown as <-.
        rewrite (sized_map_bytes s e map_size Hm Hsame). lia.
      - injection Hown as <-. unfold written_map_bytes, unused_map_bytes.
        destruct (sm_same_dex_register_map_as_ e) as [t|]; [|contradiction].
        rewrite (bool_decide_eq_false_2 (Some t = None ∧ _))
          by (intros [? _]; discriminate).
        destruct (bool_decide _); lia. }
    rewrite Hsize1. simpl total_inlining_depth.
    rewrite frames_size_seq_add. simpl. lia.
Qed.

Lemma is_uint32_0 : is_uint32 0.
Proof. unfold is_uint32, uint32_modulus. lia. Qed.

Lemma stream_typed_new isa : stream_typed (StackMapStream_new isa).
Proof.
  pose proof is_uint32_0.
  split; simpl; try constructor; simpl; try assumption; try done.
Qed.

Lemma call_typed c s s' :
  StreamCall_typed c → stream_typed s → call c s = Some s' → stream_typed s'.
Proof.
  intros Hc [Hm Hcur Hi Hci] Hcall. destruct c; simpl in *.
  - unfold BeginStackMapEntry in Hcall.
    apply DCHECK_bind_Some in Hcall as [_ Hcall].
    apply DCHECK_bind_Some in Hcall as [Hne Hcall].
    apply bool_decide_eq_true in Hne.
    injection Hcall as <-. split; simpl; try assumption.
    unfold entry_typed. simpl. tauto.
  - unfold AddDexRegisterEntry in Hcall.
    apply bind_Some_inv in Hcall as (s1 & Hs1 & Hcall). injection Hcall as <-.
    assert (stream_typed s1) as [Hm1 Hcur1 Hi1 Hci1].
    { case_bool_decide; [|injection Hs1 as <-; split; assumption].
      unfold add_live_location in Hs1.
      apply DCHECK_bind_Some in Hs1 as [_ Hs1].
      destruct (intern_location (kind, value) s) as [[index catalog] indices].
      apply bind_Some_inv in Hs1 as ([entry inline_info] & Hei & Hs1).
      injection Hs1 as <-.
      destruct (in_inline_frame_ s).
      - apply DCHECK_bind_Some in Hei as [_ Hei].
        apply bind_Some_inv in Hei as (mask & _ & Hei). injection Hei as <- <-.
        split; simpl; assumption.
      - apply DCHECK_bind_Some in Hei as [_ Hei].
        apply bind_Some_inv in Hei as (mask & _ & Hei). injection Hei as <- <-.
        split; simpl; assumption. }
    split; simpl; assumption.
  - unfold BeginInlineInfoEntry in Hcall.
    apply DCHECK_bind_Some in Hcall as [_ Hcall].
    apply bind_Some_inv in Hcall as ([mf mif] & Hmm & Hcall). injection Hcall as <-.
    split; simpl; try assumption.
    unfold inline_typed. simpl. split; [tauto|]. split; [tauto|].
    destruct (EncodeArtMethodInInlineInfo method).
    + injection Hmm as <- _. tauto.
    + apply bind_Some_inv in Hmm as (? & _ & Hmm). injection Hmm as <- _.
      apply Hci.
  - unfold EndInlineInfoEntry in Hcall.
    apply DCHECK_bind_Some in Hcall as [_ Hcall].
    apply DCHECK_bind_Some in Hcall as [_ Hcall].
    injection Hcall as <-. split; simpl; try assumption.
    + apply Forall_app. split; [assumption|]. constructor; [assumption|constructor].
    + unfold inline_typed. simpl. pose proof is_uint32_0. repeat split; try apply H0; lia.
  - unfold EndStackMapEntry in Hcall.
    apply bind_Some_inv in Hcall as ([same_as index] & _ & Hcall). injection Hcall as <-.
    split; simpl; try assumption.
    + apply Forall_app. split; [assumption|]. constructor; [exact Hcur|constructor].
    + pose proof is_uint32_0. unfold entry_typed. simpl. repeat split; try apply H0; try lia.
      done.
Qed.

Lemma calls_typed cs : ∀ s s',
  Forall StreamCall_typed cs → stream_typed s → calls cs s = Some s' → stream_typed s'.
Proof.
  induction cs as [|c cs IH]; intros s s' Hcs Ht; simpl.
  - intros [= <-]. exact Ht.
  - apply Forall_cons in Hcs as [Hc Hcs].
    intros Hcall. apply bind_Some_inv in Hcall as (s1 & Hs1 & Hcall).
    eapply IH; [exact Hcs| |exact Hcall]. eapply call_typed; eassumption.
Qed.


(** *** What PrepareForFillIn changes *)

Lemma register_masks_loop_entries entries : ∀ dedupe table entries' dedupe' table',
  register_masks_loop entries dedupe table = (entries', dedupe', table') →
  Forall2 (λ e e', ∃ b, e' = StackMapEntry_set_register_mask_index e b)
    entries entries'.
Proof.
  induction entries as [|e entries IH]; intros dedupe table entries' dedupe' table' Hl.
  - simpl in Hl. injection Hl as <- _ _. constructor.
  - simpl in Hl. destruct (emplace _ _ _) as [found d1].
    destruct (register_masks_loop entries d1 _) as [[es d2] t2] eqn:E.
    injection Hl as <- _ _. constructor; [eauto|]. eapply IH, E.
Qed.

Lemma stack_masks_loop_entries bits bytes entries : ∀ dedup buffer entries' dedup' buffer',
  stack_masks_loop bits bytes entries dedup buffer = (entries', dedup', buffer') →
  Forall2 (λ e e', ∃ a, e' = StackMapEntry_set_stack_mask_index e a)
    entries entries'.
Proof.
  induction entries as [|e entries IH]; intros dedup buffer entries' dedup' buffer' Hl.
  - simpl in Hl. injection Hl as <- _ _. constructor.
  - simpl in Hl. destruct (emplace _ _ _) as [found d1].
    destruct (stack_masks_loop bits bytes entries d1 _) as [[es d2] t2] eqn:E.
    injection Hl as <- _ _. constructor; [eauto|]. eapply IH, E.
Qed.

Lemma ComputeEncoding_prepared s encoding s2 :
  ComputeEncoding s = Some (encoding, s2) → prepared s s2.
Proof.
  unfold ComputeEncoding. intros Hc.
  apply bind_Some_inv in Hc as (bytes & _ & Hc).
  apply bind_Some_inv in Hc as (ie & _ & Hc).
  destruct (PrepareStackMasks _ s) as [n1 s1] eqn:E1.
  destruct (PrepareRegisterMasks s1) as [n2 s3] eqn:E2.
  injection Hc as _ <-.
  unfold PrepareStackMasks in E1.
  destruct (stack_masks_loop _ _ _ _ _) as [[es1 d1] b1] eqn:L1. injection E1 as _ <-.
  unfold PrepareRegisterMasks in E2. simpl in E2.
  destruct (register_masks_loop _ _ _) as [[es2 d2] b2] eqn:L2. injection E2 as _ <-.
  apply stack_masks_loop_entries in L1. apply register_masks_loop_entries in L2.
  split; simpl; try reflexivity.
  clear -L1 L2. revert es2 L2. induction L1 as [|e e1 es es1 [a ->] _ IH]; intros es2 L2.
  - inversion L2. constructor.
  - inversion L2 as [|? e2 ? es2' [b ->] Hrest]; subst. constructor; [|apply IH, Hrest].
    exists a, b. reflexivity.
Qed.

Lemma PrepareForFillIn_inv s size s' :
  PrepareForFillIn s = Some (size, s') →
  ∃ encoding s2,
    ComputeEncoding s = Some (encoding, s2)
    ∧ code_info_encoding_ s' = code_info_encoding_ s2 ++ CodeInfoEncoding_Compress encoding
    ∧ code_info_encoding_ s2 = []
    ∧ needed_size_ s' = size
    ∧ size = (length (code_info_encoding_ s')
              + CodeInfoEncoding_NonHeaderSize encoding)%nat
    ∧ prepared s s'.
Proof.
  unfold PrepareForFillIn. intros Hp.
  apply bind_Some_inv in Hp as ([encoding s2] & Hc & Hp).
  apply DCHECK_bind_Some in Hp as [Hempty Hp].
  apply DCHECK_bind_Some in Hp as [_ Hp].
  injection Hp as <- <-. exists encoding, s2.
  apply bool_decide_eq_true in Hempty.
  split; [exact Hc|]. split; [reflexivity|].
  split; [destruct (code_info_encoding_ s2); [reflexivity|discriminate]|].
  split; [reflexivity|]. split; [reflexivity|].
  destruct (ComputeEncoding_prepared _ _ _ Hc). split; assumption.
Qed.

Lemma prepared_lookup s s' i e' :
  prepared s s' → stack_maps_ s' !! i = Some e' →
  ∃ e a b, stack_maps_ s !! i = Some e ∧ e' = with_mask_indices e a b.
Proof.
  intros [Hm _ _ _ _ _] Hi.
  destruct (Forall2_lookup_r _ _ _ _ _ Hm Hi) as (e & He & (a & b & ->)).
  exists e, a, b. split; [exact He|reflexivity].
Qed.

Lemma prepared_lookup_l s s' i e :
  prepared s s' → stack_maps_ s !! i = Some e →
  ∃ a b, stack_maps_ s' !! i = Some (with_mask_indices e a b).
Proof.
  intros [Hm _ _ _ _ _] Hi.
  destruct (Forall2_lookup_l _ _ _ _ _ Hm Hi) as (e' & He & (a & b & ->)).
  exists a, b. exact He.
Qed.

Lemma prepared_back_references s s' :
  prepared s s' →
  back_references (dex_register_locations_ s) (stack_maps_ s) →
  back_references (dex_register_locations_ s') (stack_maps_ s').
Proof.
  intros Hp [Hwf He Hd]. rewrite (prep_locations _ _ Hp). split.
  - apply Forall_lookup. intros i e' Hi.
    destruct (prepared_lookup _ _ _ _ Hp Hi) as (e & a & b & Hie & ->).
    exact (proj1 (Forall_lookup _ _) Hwf i e Hie).
  - intros i e' r Hi Hr.
    destruct (prepared_lookup _ _ _ _ Hp Hi) as (e & a & b & Hie & ->).
    destruct (He i e r Hie Hr) as (Hlt & er & Her & Hn & Hh & Hs).
    split; [exact Hlt|].
    destruct (prepared_lookup_l _ _ _ _ Hp Her) as (a' & b' & Her').
    exists (with_mask_indices er a' b'). split; [exact Her'|].
    split; [exact Hn|]. split; [exact Hh|exact Hs].
  - intros i j ei' ej' Hi Hj Hne Hni Hnj Hh Hs.
    destruct (prepared_lookup _ _ _ _ Hp Hi) as (ei & a & b & Hie & ->).
    destruct (prepared_lookup _ _ _ _ Hp Hj) as (ej & a' & b' & Hje & ->).
    exact (Hd i j ei ej Hie Hje Hne Hni Hnj Hh Hs).
Qed.

Lemma prepared_typed s s' :
  prepared s s' → Forall entry_typed (stack_maps_ s) →
  Forall entry_typed (stack_maps_ s').
Proof.
  intros Hp Ht. apply Forall_lookup. intros i e' Hi.
  destruct (prepared_lookup _ _ _ _ Hp Hi) as (e & a & b & Hie & ->).
  exact (proj1 (Forall_lookup _ _) Ht i e Hie).
Qed.

(** *** FillIn, taken apart *)

Lemma fill_location_catalog_stack_maps entries : ∀ index offset r,
  region_stack_maps (fill_location_catalog index entries offset r).1
  = region_stack_maps r.
Proof.
  induction entries as [|l entries IH]; intros index offset r; [reflexivity|].
  simpl. rewrite IH. reflexivity.
Qed.

Lemma fill_stack_mask_bits_stack_maps s i bytes bit_indices : ∀ r r',
  fill_stack_mask_bits s i bytes bit_indices r = Some r' →
  region_stack_maps r' = region_stack_maps r.
Proof.
  induction bit_indices as [|b bs IH]; intros r r' Hf; simpl in Hf.
  - injection Hf as <-. reflexivity.
  - apply bind_Some_inv in Hf as (bit & _ & Hf). apply IH in Hf. exact Hf.
Qed.

Lemma fill_stack_masks_stack_maps s bits entries : ∀ r r',
  fill_stack_masks s bits entries r = Some r' →
  region_stack_maps r' = region_stack_maps r.
Proof.
  induction entries as [|i entries IH]; intros r r' Hf; simpl in Hf.
  - injection Hf as <-. reflexivity.
  - apply bind_Some_inv in Hf as (r1 & Hr1 & Hf). apply IH in Hf.
    apply fill_stack_mask_bits_stack_maps in Hr1. congruence.
Qed.

Lemma fill_register_masks_stack_maps s bits entries : ∀ r r',
  fill_register_masks s bits entries r = Some r' →
  region_stack_maps r' = region_stack_maps r.
Proof.
  induction entries as [|i entries IH]; intros r r' Hf; simpl in Hf.
  - injection Hf as <-. reflexivity.
  - apply bind_Some_inv in Hf as (m & _ & Hf). apply IH in Hf. exact Hf.
Qed.

Lemma FillIn_inv s region_size region r :
  FillIn s region_size region = Some r →
  ∃ encoding c0 c,
    CodeInfo_ExtractEncoding (code_info_encoding_ s) = Some encoding
    ∧ next_dex_register_map_offset c0 = 0%nat
    ∧ next_inline_info_index c0 = 0%nat
    ∧ fill_stack_maps s encoding 0 (stack_maps_ s) c0 = Some c
    ∧ region_stack_maps r = region_stack_maps (fc_region c)
    ∧ region_size = needed_size_ s
    ∧ CheckCodeInfo s r = Some ().
Proof.
  unfold FillIn. intros Hf.
  apply DCHECK_bind_Some in Hf as [_ Hf].
  apply DCHECK_bind_Some in Hf as [_ Hf].
  apply DCHECK_bind_Some in Hf as [Hsize Hf].
  apply DCHECK_bind_Some in Hf as [_ Hf].
  apply bind_Some_inv in Hf as (encoding & Henc & Hf).
  apply DCHECK_bind_Some in Hf as [_ Hf].
  apply DCHECK_bind_Some in Hf as [_ Hf].
  apply DCHECK_bind_Some in Hf as [_ Hf].
  destruct (fill_location_catalog _ _ _ _) as [r0 offset] eqn:Ecat.
  apply DCHECK_bind_Some in Hf as [_ Hf].
  apply bind_Some_inv in Hf as (c & Hc & Hf).
  apply bind_Some_inv in Hf as (r1 & Hr1 & Hf).
  apply bind_Some_inv in Hf as (r2 & Hr2 & Hf).
  apply bind_Some_inv in Hf as ([] & Hcheck & Hf). injection Hf as <-.
  exists encoding,
    {| fc_region := r0; next_dex_register_map_offset := 0;
       next_inline_info_index := 0 |}, c.
  split; [exact Henc|]. split; [reflexivity|]. split; [reflexivity|].
  split; [exact Hc|]. split; [|split; [apply bool_decide_eq_true in Hsize; exact Hsize|exact Hcheck]].
  apply fill_register_masks_stack_maps in Hr2. rewrite Hr2.
  case_bool_decide.
  - apply fill_stack_masks_stack_maps in Hr1. exact Hr1.
  - injection Hr1 as <-. reflexivity.
Qed.

Lemma MinimumBitsToStore_bound n v :
  0 ≤ v ≤ n → v < 2 ^ Z.of_nat (MinimumBitsToStore n).
Proof.
  intros Hv. unfold MinimumBitsToStore.
  rewrite Z2Nat.id by apply Z.log2_up_nonneg.
  destruct (decide (n = 0)) as [->|Hn].
  - change (Z.log2_up (0 + 1)) with 0. lia.
  - pose proof (Z.log2_up_spec (n + 1)) as Hs. lia.
Qed.

(** C10.  For an entry with registers, none live, and no back-reference,
    the sizer counts [kFixedSize + GetLiveBitMaskSize(N)] bytes; [FillIn]
    writes the sentinel for it and does not advance its cursor: the size
    computed is the final cursor of [FillIn] plus the bytes counted for such
    entries, so the cursor ends strictly below the size. *)
Theorem ComputeDexRegisterMapsSize_counts_unused_map
    (s : StackMapStream) (encoding : CodeInfoEncoding) (c0 c : FillCursor)
    (total i : nat) (e : StackMapEntry) (mask : BitVector) :
  ComputeDexRegisterMapsSize s = Some total →
  next_dex_register_map_offset c0 = 0%nat →
  next_inline_info_index c0 = 0%nat →
  fill_stack_maps s encoding 0 (stack_maps_ s) c0 = Some c →
  stack_maps_ s !! i = Some e →
  0 < sm_num_dex_registers e →
  sm_live_dex_registers_mask e = Some mask →
  BitVector_NumSetBits mask = 0%nat →
  sm_same_dex_register_map_as_ e = kNoSameDexMapFound →
  let unused :=
    (DexRegisterMap_kFixedSize
     + GetLiveBitMaskSize (Z.to_nat (sm_num_dex_registers e)))%nat in
  ComputeDexRegisterMapSize s (sm_num_dex_registers e)
    (sm_live_dex_registers_mask e) = Some unused
  ∧ unused_map_bytes e = unused
  ∧ StackMap_Get (cie_stack_map_encoding encoding) i kDexRegisterMapOffset
      (fc_region c) = kNoDexRegisterMap
  ∧ total = (next_dex_register_map_offset c
             + sum_list_with unused_map_bytes (stack_maps_ s))%nat
  ∧ (next_dex_register_map_offset c + unused ≤ total)%nat
  ∧ (next_dex_register_map_offset c < total)%nat.
Proof.
  intros Htotal Ho0 Hi0 Hfill Hi Hn Hmask Hz Hnone unused.
  unfold ComputeDexRegisterMapsSize in Htotal.
  destruct (maps_size_loop s (stack_maps_ s) 0 0) as [[size index]|] eqn:Hloop;
    [|discriminate].
  injection Htotal as <-.
  apply maps_size_loop_spec in Hloop as [_ Hsize].
  apply fill_stack_maps_spec in Hfill as (_ & _ & Hoff & Hwritten).
  change (∀ k e, stack_maps_ s !! k = Some e →
            offset_written s encoding (fc_region c)
              (cie_dex_register_map_num_bytes encoding) k e) in Hwritten.
  rewrite Ho0, Hi0 in Hoff. simpl in Hsize, Hoff.
  assert (Hun : unused_map_bytes e = unused).
  { unfold unused_map_bytes. rewrite Hmask. simpl.
    rewrite bool_decide_eq_true_2; [reflexivity|]. split; [exact Hnone|]. lia. }
  assert (Hle : (unused_map_bytes e ≤ sum_list_with unused_map_bytes (stack_maps_ s))%nat).
  { apply sum_list_with_in. eapply list_elem_of_lookup_2, Hi. }
  assert (Hpos : (0 < unused)%nat).
  { unfold unused. pose proof (GetLiveBitMaskSize_pos (Z.to_nat (sm_num_dex_registers e))).
    lia. }
  split.
  { rewrite Hmask. apply ComputeDexRegisterMapSize_no_live; [lia|exact Hz]. }
  split; [exact Hun|]. split.
  { destruct (Hwritten i e Hi) as (Hno & _). apply Hno. right. rewrite Hmask. exact Hz. }
  split; [lia|]. split; lia.
Qed.

(** C4.  After any sequence of well-typed streaming calls, then
    [PrepareForFillIn] and [FillIn], with a region of dex register maps
    addressable in 32 bits: the dex register map offset read back from a
    stack map is [kNoDexRegisterMap] exactly when the entry has no dex
    register or no live one. *)
Theorem FillIn_no_dex_register_map_sentinel
    (isa : InstructionSet) (cs : list StreamCall) (s s' : StackMapStream)
    (size : nat) (region r : MemoryRegion) (encoding : CodeInfoEncoding)
    (i : nat) (e : StackMapEntry) :
  Forall StreamCall_typed cs →
  calls cs (StackMapStream_new isa) = Some s →
  PrepareForFillIn s = Some (size, s') →
  header_extracts s s' →
  CodeInfo_ExtractEncoding (code_info_encoding_ s') = Some encoding →
  Z.of_nat (cie_dex_register_map_num_bytes encoding) ≤ uint32_max →
  FillIn s' size region = Some r →
  stack_maps_ s' !! i = Some e →
  StackMap_Get (cie_stack_map_encoding encoding) i kDexRegisterMapOffset r
    = kNoDexRegisterMap
  ↔ sm_num_dex_registers e = 0
    ∨ live_count (sm_live_dex_registers_mask e) = 0%nat.
Proof.
  intros Htyped Hcalls Hprep Hheader Hextract Hsmall Hfill Hi.
  pose proof (calls_invariant _ _ _ (stream_invariant_new isa) Hcalls) as [Hrefs _ _ _].
  pose proof (calls_typed _ _ _ Htyped (stream_typed_new isa) Hcalls) as [Htm _ _ _].
  apply PrepareForFillIn_inv in Hprep as (enc & s2 & Henc & _ & _ & _ & _ & Hp).
  pose proof (prepared_back_references _ _ Hp Hrefs) as [Hwf Hearlier Hdistinct].
  pose proof (prepared_typed _ _ Hp Htm) as Htm'.
  (* the widths of the descriptor *)
  unfold header_extracts in Hheader. rewrite Hextract, Henc in Hheader.
  simpl in Hheader. injection Hheader as ->.
  assert (Hbits : sme_dex_register_map_bits (cie_stack_map_encoding enc)
                  = MinimumBitsToStore (Z.of_nat (cie_dex_register_map_num_bytes enc))).
  { unfold ComputeEncoding in Henc.
    apply bind_Some_inv in Henc as (bytes & _ & Henc).
    apply bind_Some_inv in Henc as (ie & _ & Henc).
    destruct (PrepareStackMasks _ s) as [n1 s1].
    destruct (PrepareRegisterMasks s1) as [n2 s3].
    injection Henc as <- _. reflexivity. }
  apply FillIn_inv in Hfill as (enc' & c0 & c & Hextract' & Ho0 & Hi0 & Hloop & Hr & _).
  rewrite Hextract in Hextract'. injection Hextract' as <-.
  apply fill_stack_maps_spec in Hloop as (_ & _ & _ & Hwritten).
  change (∀ k e, stack_maps_ s' !! k = Some e →
            offset_written s' enc (fc_region c)
              (cie_dex_register_map_num_bytes enc) k e) in Hwritten.
  (* the entries with a map have an offset below the size of the region *)
  assert (Hpresent : ∀ j ej, stack_maps_ s' !! j = Some ej →
            ¬ no_dex_map ej → sm_same_dex_register_map_as_ ej = None →
            StackMap_Get (cie_stack_map_encoding enc) j kDexRegisterMapOffset
              (fc_region c) ≠ kNoDexRegisterMap).
  { intros j ej Hj Hnd Hnone.
    destruct (Hwritten j ej Hj) as (_ & _ & Hnew).
    pose proof (proj1 (Forall_lookup _ _) Htm' j ej Hj) as (_ & _ & _ & [Hn0 _] & _).
    destruct (Hnew Hnd Hnone Hn0) as (offset & Hlt & Hraw).
    unfold StackMap_Get. simpl. rewrite Hraw, Hbits.
    unfold FieldEncoding_Load, FieldEncoding_Store, StoreBits, LoadBits.
    set (n := Z.of_nat (cie_dex_register_map_num_bytes enc)) in *.
    assert (Hb : Z.of_nat offset + 1 < 2 ^ Z.of_nat (MinimumBitsToStore n))
      by (apply MinimumBitsToStore_bound; lia).
    replace (Z.of_nat offset - -1) with (Z.of_nat offset + 1) by lia.
    assert (Hu : to_uint32 (Z.of_nat offset + 1) = Z.of_nat offset + 1).
    { apply to_uint32_small. unfold uint32_max in Hsmall. lia. }
    rewrite Hu. rewrite !(Z.mod_small (Z.of_nat offset + 1)) by lia.
    replace (Z.of_nat offset + 1 + -1) with (Z.of_nat offset) by lia.
    rewrite to_uint32_small by (unfold uint32_max in Hsmall; lia).
    unfold kNoDexRegisterMap. change (to_uint32 (-1)) with 4294967295.
    unfold uint32_max, uint32_modulus in Hsmall. lia. }
  unfold StackMap_Get. rewrite Hr. fold (StackMap_Get (cie_stack_map_encoding enc) i
    kDexRegisterMapOffset (fc_region c)).
  destruct (Hwritten i e Hi) as (Hno & Hsame & _).
  split; [|exact Hno].
  intros Hsent. destruct (decide (no_dex_map e)) as [Hnd|Hnd]; [exact Hnd|exfalso].
  destruct (sm_same_dex_register_map_as_ e) as [t|] eqn:Et.
  - destruct (Hearlier i e t Hi Et) as (Hlt & er & Her & Hnone & _ & Hn & Hm & _).
    rewrite (Hsame Hnd t eq_refl Hlt) in Hsent.
    apply (Hpresent t er Her); [|exact Hnone|exact Hsent].
    unfold no_dex_map in *. rewrite Hn, Hm. exact Hnd.
  - exact (Hpresent i e Hi Hnd Et Hsent).
Qed.



Section interner.
Context `{Countable K}.
Implicit Types (table keys : list K) (dedupe : gmap K nat).

Lemma first_occurrences_elem_of keys k :
  k ∈ first_occurrences keys ↔ k ∈ keys.
Proof.
  induction keys as [|k' keys IH]; cbn [first_occurrences]; [reflexivity|].
  rewrite !elem_of_cons, list_elem_of_filter, IH.
  destruct (decide (k = k')); tauto.
Qed.

Lemma first_occurrences_NoDup keys : NoDup (first_occurrences keys).
Proof.
  induction keys as [|k keys IH]; cbn [first_occurrences]; [constructor|].
  constructor.
  - rewrite list_elem_of_filter. tauto.
  - apply NoDup_filter, IH.
Qed.

Lemma intern_all_first_occurrences keys : ∀ table,
  intern_all table keys
  = table ++ filter (λ x, x ∉ table) (first_occurrences keys).
Proof.
  induction keys as [|k keys IH]; intros table; cbn [first_occurrences intern_all].
  - rewrite app_nil_r. reflexivity.
  - destruct (decide (k ∈ table)) as [Hin|Hin].
    + rewrite IH. f_equal. rewrite filter_cons_False by tauto.
      rewrite list_filter_filter. apply list_filter_iff.
      intros x. split; [|tauto]. intros Hx. split; [exact Hx|congruence].
    + rewrite IH, <- app_assoc. f_equal. cbn [app].
      rewrite filter_cons_True by exact Hin. f_equal.
      rewrite list_filter_filter. apply list_filter_iff.
      intros x. rewrite elem_of_app, list_elem_of_singleton. tauto.
Qed.

Lemma intern_all_nil keys : intern_all [] keys = first_occurrences keys.
Proof.
  rewrite intern_all_first_occurrences. simpl.
  induction (first_occurrences keys) as [|x l IH]; [reflexivity|].
  rewrite filter_cons_True by apply not_elem_of_nil. f_equal. exact IH.
Qed.

Lemma intern_all_prefix keys : ∀ table, table `prefix_of` intern_all table keys.
Proof.
  intros table. rewrite intern_all_first_occurrences. apply prefix_app_r. reflexivity.
Qed.

Lemma dedupe_of_empty : dedupe_of (∅ : gmap K nat) [].
Proof.
  split; [apply map_size_empty|]. intros k i. rewrite lookup_empty, lookup_nil. done.
Qed.

Lemma emplace_spec key dedupe table found dedupe' :
  dedupe_of dedupe table →
  emplace key (size dedupe) dedupe = (found, dedupe') →
  let table' := if decide (key ∈ table) then table else table ++ [key] in
  dedupe_of dedupe' table' ∧ table' !! found = Some key.
Proof.
  intros [Hsize Hd] He table'. unfold emplace in He.
  destruct (dedupe !! key) as [i|] eqn:Ek.
  - injection He as <- <-. apply Hd in Ek.
    assert (key ∈ table) by (eapply list_elem_of_lookup_2, Ek).
    subst table'. rewrite decide_True by assumption. split; [split; assumption|exact Ek].
  - injection He as <- <-.
    assert (Hnot : key ∉ table).
    { intros Hin. apply list_elem_of_lookup_1 in Hin as [i Hi].
      apply Hd in Hi. congruence. }
    subst table'. rewrite decide_False by assumption. split; [split|].
    + rewrite map_size_insert_None by exact Ek. rewrite length_app. simpl. lia.
    + intros k i. destruct (decide (k = key)) as [->|Hne].
      * rewrite lookup_insert_eq, Hsize. split.
        -- intros [= <-]. apply lookup_snoc_Some. right. done.
        -- intros Hi. apply lookup_snoc_Some in Hi as [[_ Hi]|[-> _]]; [|reflexivity].
           exfalso. apply Hnot. eapply list_elem_of_lookup_2, Hi.
      * rewrite lookup_insert_ne by congruence. rewrite Hd, lookup_snoc_Some.
        split; [intros Hi; left; split; [eapply lookup_lt_Some, Hi|exact Hi]|].
        intros [[_ Hi]|[_ Hk]]; [exact Hi|congruence].
    + rewrite Hsize. apply lookup_snoc_Some. right. done.
Qed.

End interner.


(** *** The register mask interner *)

Lemma register_masks_loop_spec entries :
  ∀ dedupe masks table entries' dedupe' masks',
  register_masks_loop entries dedupe masks = (entries', dedupe', masks') →
  dedupe_of dedupe table →
  take (length table) masks = table →
  (length table + length entries ≤ length masks)%nat →
  let table' := intern_all table (sm_register_mask <$> entries) in
  dedupe_of dedupe' table'
  ∧ take (length table') masks' = table'
  ∧ length masks' = length masks
  ∧ Forall2 (λ e e',
       e' = StackMapEntry_set_register_mask_index e (sm_register_mask_index e')
       ∧ table' !! sm_register_mask_index e' = Some (sm_register_mask e))
      entries entries'.
Proof.
  induction entries as [|e entries IH];
    intros dedupe masks table entries' dedupe' masks' Hl Hd Htake Hlen table'.
  - simpl in Hl. injection Hl as <- <- <-. subst table'. simpl.
    split; [exact Hd|]. split; [exact Htake|]. split; [reflexivity|constructor].
  - simpl in Hl.
    destruct (emplace (sm_register_mask e) (size dedupe) dedupe) as [found d1] eqn:Ee.
    destruct (register_masks_loop entries d1 _) as [[es d2] m2] eqn:El.
    injection Hl as <- <- <-.
    destruct (emplace_spec _ _ _ _ _ Hd Ee) as [Hd1 Hfound].
    set (table1 := if decide (sm_register_mask e ∈ table) then table
                   else table ++ [sm_register_mask e]) in *.
    assert (Hsize : size dedupe = length table) by apply Hd.
    simpl in Hlen.
    assert (Htake1 : take (length table1)
                       (<[size dedupe := sm_register_mask e]> masks) = table1).
    { subst table1. rewrite Hsize. destruct (decide _).
      - rewrite take_insert_ge by lia. exact Htake.
      - rewrite length_app. simpl.
        rewrite Nat.add_1_r. erewrite take_S_r.
        + rewrite take_insert_ge by lia. rewrite Htake. reflexivity.
        + apply list_lookup_insert_eq. lia. }
    assert (Hlen1 : (length table1 + length entries
                     ≤ length (<[size dedupe := sm_register_mask e]> masks))%nat).
    { rewrite length_insert. subst table1. destruct (decide _);
        [|rewrite length_app; simpl]; lia. }
    destruct (IH _ _ table1 _ _ _ El Hd1 Htake1 Hlen1) as (Hd2 & Htake2 & Hlen2 & Hall).
    assert (Htable' : table' = intern_all table1 (sm_register_mask <$> entries)).
    { subst table' table1. simpl. destruct (decide _); reflexivity. }
    rewrite Htable'. split; [exact Hd2|]. split; [exact Htake2|].
    split; [rewrite Hlen2, length_insert; reflexivity|].
    constructor; [|exact Hall]. simpl. split; [reflexivity|].
    destruct (intern_all_prefix (sm_register_mask <$> entries) table1) as [ext ->].
    apply lookup_app_l_Some. exact Hfound.
Qed.

(** *** The stack mask interner *)

Lemma store_bits_lookup (f : nat → bool) (base : nat) : ∀ n (buffer : list bool) p,
  foldl (λ buffer i, <[(base + i)%nat := f i]> buffer) buffer (seq 0 n) !! p
  = if decide (base ≤ p < base + n ∧ p < length buffer)%nat
    then Some (f (p - base)%nat) else buffer !! p.
Proof.
  induction n as [|n IH]; intros buffer p.
  - simpl. rewrite decide_False by lia. reflexivity.
  - rewrite seq_S, foldl_app. simpl.
    set (b := foldl _ buffer (seq 0 n)).
    assert (Hlen : length b = length buffer).
    { subst b. clear. generalize (seq 0 n). intros l. revert buffer.
      induction l as [|x l IHl]; intros buffer; [reflexivity|].
      simpl. rewrite IHl, length_insert. reflexivity. }
    destruct (decide (p = base + n)%nat) as [->|Hne].
    + destruct (decide (base + n < length buffer)%nat).
      * rewrite list_lookup_insert_eq by lia. rewrite decide_True by lia.
        f_equal. f_equal. lia.
      * rewrite list_insert_ge by lia. subst b. rewrite IH.
        rewrite !decide_False by lia. reflexivity.
    + rewrite list_lookup_insert_ne by lia. subst b. rewrite IH.
      destruct (decide (base ≤ p < base + n ∧ p < length buffer)%nat).
      * rewrite decide_True by lia. reflexivity.
      * rewrite decide_False by lia. reflexivity.
Qed.

Lemma store_bits_length (f : nat → bool) (base : nat) l : ∀ (buffer : list bool),
  length (foldl (λ buffer i, <[(base + i)%nat := f i]> buffer) buffer l)
  = length buffer.
Proof.
  induction l as [|x l IH]; intros buffer; [reflexivity|].
  simpl. rewrite IH, length_insert. reflexivity.
Qed.

Lemma store_stack_mask_spec sp_mask bits bytes slot buffer :
  (bits ≤ kBitsPerByte * bytes)%nat →
  (kBitsPerByte * (S slot * bytes) ≤ length buffer)%nat →
  padding_clear bits bytes buffer →
  let buffer' := store_stack_mask sp_mask bits (slot * bytes) buffer in
  length buffer' = length buffer
  ∧ padding_clear bits bytes buffer'
  ∧ region_content buffer' (slot * bytes) bytes = pack_stack_mask bits bytes sp_mask
  ∧ ∀ other, other ≠ slot →
      region_content buffer' (other * bytes) bytes
      = region_content buffer (other * bytes) bytes.
Proof.
  intros Hbits Hlen Hpad buffer'. unfold store_stack_mask in buffer'.
  set (f := λ i, match sp_mask with
                 | Some m => BitVector_IsBitSet m i
                 | None => false
                 end) in *.
  set (base := (kBitsPerByte * (slot * bytes))%nat) in *.
  assert (Hlookup : ∀ p, buffer' !! p
            = if decide (base ≤ p < base + bits ∧ p < length buffer)%nat
              then Some (f (p - base)%nat) else buffer !! p)
    by (intros p; apply store_bits_lookup).
  assert (Hlen' : length buffer' = length buffer) by apply store_bits_length.
  assert (Hbase : (base + kBitsPerByte * bytes ≤ length buffer)%nat)
    by (subst base; unfold kBitsPerByte in *; lia).
  split; [exact Hlen'|]. split; [|split].
  - intros sl i Hi Hin. rewrite Hlookup. rewrite Hlen' in Hin.
    destruct (decide _) as [[Hr _]|_]; [|apply Hpad; assumption].
    exfalso. subst base. unfold kBitsPerByte in *.
    destruct (decide (sl = slot)) as [->|Hne]; [lia|].
    destruct (decide (sl < slot)%nat); nia.
  - unfold region_content, pack_stack_mask. fold f. fold base.
    apply list_eq. intros i.
    destruct (decide (i < kBitsPerByte * bytes)%nat) as [Hi|Hi].
    + rewrite lookup_take_lt by lia. rewrite lookup_drop, Hlookup.
      destruct (decide (i < bits)%nat) as [Hib|Hib].
      * rewrite decide_True by lia. rewrite lookup_app_l by (rewrite length_fmap, length_seq; lia).
        rewrite list_lookup_fmap, lookup_seq_lt by lia. simpl.
        f_equal. f_equal. lia.
      * rewrite decide_False by lia.
        rewrite lookup_app_r by (rewrite length_fmap, length_seq; lia).
        rewrite length_fmap, length_seq.
        rewrite lookup_replicate_2 by lia.
        subst base. apply Hpad; lia.
    + rewrite lookup_take_ge by lia. symmetry. apply lookup_ge_None.
      rewrite length_app, length_fmap, length_seq, length_replicate. lia.
  - intros other Hne. unfold region_content. apply list_eq. intros i.
    destruct (decide (i < kBitsPerByte * bytes)%nat) as [Hi|Hi].
    + rewrite !lookup_take_lt by lia. rewrite !lookup_drop, Hlookup.
      rewrite decide_False; [reflexivity|].
      subst base. unfold kBitsPerByte in *.
      destruct (decide (other < slot)%nat); nia.
    + rewrite !lookup_take_ge by lia. reflexivity.
Qed.


Lemma stack_masks_loop_spec bits bytes entries :
  ∀ dedup buffer table entries' dedup' buffer',
  stack_masks_loop bits bytes entries dedup buffer = (entries', dedup', buffer') →
  (bits ≤ kBitsPerByte * bytes)%nat →
  dedupe_of dedup table →
  (∀ j k, table !! j = Some k → region_content buffer (j * bytes) bytes = k) →
  padding_clear bits bytes buffer →
  (kBitsPerByte * ((length table + length entries) * bytes) ≤ length buffer)%nat →
  let table' :=
    intern_all table ((λ e, pack_stack_mask bits bytes (sm_sp_mask e)) <$> entries) in
  dedupe_of dedup' table'
  ∧ (∀ j k, table' !! j = Some k → region_content buffer' (j * bytes) bytes = k)
  ∧ Forall2 (λ e e',
       e' = StackMapEntry_set_stack_mask_index e (sm_stack_mask_index e')
       ∧ table' !! sm_stack_mask_index e'
         = Some (pack_stack_mask bits bytes (sm_sp_mask e)))
      entries entries'.
Proof.
  induction entries as [|e entries IH];
    intros dedup buffer table entries' dedup' buffer' Hl Hbits Hd Hslots Hpad Hlen table'.
  - simpl in Hl. injection Hl as <- <- <-. subst table'. simpl.
    split; [exact Hd|]. split; [exact Hslots|constructor].
  - simpl in Hl.
    assert (Hsize : size dedup = length table) by apply Hd.
    rewrite Hsize in Hl.
    set (slot := length table) in *.
    simpl in Hlen.
    destruct (store_stack_mask_spec (sm_sp_mask e) bits bytes slot buffer Hbits)
      as (Hlen1 & Hpad1 & Hkey & Hothers); [unfold kBitsPerByte in *; nia|exact Hpad|].
    set (buffer1 := store_stack_mask (sm_sp_mask e) bits (slot * bytes) buffer) in *.
    rewrite Hkey in Hl.
    set (key := pack_stack_mask bits bytes (sm_sp_mask e)) in *.
    destruct (emplace key slot dedup) as [found d1] eqn:Ee.
    destruct (stack_masks_loop bits bytes entries d1 buffer1) as [[es d2] b2] eqn:El.
    injection Hl as <- <- <-.
    rewrite <- Hsize in Ee.
    destruct (emplace_spec _ _ _ _ _ Hd Ee) as [Hd1 Hfound].
    set (table1 := if decide (key ∈ table) then table else table ++ [key]) in *.
    assert (Hslots1 : ∀ j k, table1 !! j = Some k →
              region_content buffer1 (j * bytes) bytes = k).
    { intros j k Hj. subst table1. destruct (decide (key ∈ table)).
      - rewrite Hothers; [apply Hslots, Hj|].
        apply lookup_lt_Some in Hj. subst slot. lia.
      - apply lookup_snoc_Some in Hj as [[Hlt Hj]|[-> <-]].
        + rewrite Hothers; [apply Hslots, Hj|]. subst slot. lia.
        + exact Hkey. }
    assert (Hlen1' : (kBitsPerByte * ((length table1 + length entries) * bytes)
                      ≤ length buffer1)%nat).
    { rewrite Hlen1. subst table1. destruct (decide _);
        [|rewrite length_app; simpl]; unfold kBitsPerByte in *; subst slot; nia. }
    destruct (IH _ _ table1 _ _ _ El Hbits Hd1 Hslots1 Hpad1 Hlen1')
      as (Hd2 & Hslots2 & Hall).
    assert (Htable' : table'
              = intern_all table1
                  ((λ e, pack_stack_mask bits bytes (sm_sp_mask e)) <$> entries)).
    { subst table' table1. simpl. fold key. destruct (decide _); reflexivity. }
    rewrite Htable'. split; [exact Hd2|]. split; [exact Hslots2|].
    constructor; [|exact Hall]. simpl. split; [reflexivity|].
    destruct (intern_all_prefix
                ((λ e, pack_stack_mask bits bytes (sm_sp_mask e)) <$> entries) table1)
      as [ext ->].
    apply lookup_app_l_Some. exact Hfound.
Qed.

Lemma RoundUp_bytes bits :
  (bits ≤ kBitsPerByte * (RoundUp bits kBitsPerByte / kBitsPerByte))%nat.
Proof.
  unfold RoundUp, kBitsPerByte. rewrite Nat.div_mul by lia.
  pose proof (Nat.div_mod (bits + 8 - 1) 8). 
  pose proof (Nat.mod_upper_bound (bits + 8 - 1) 8). lia.
Qed.

Lemma padding_clear_replicate bits bytes n :
  padding_clear bits bytes (replicate n false).
Proof.
  intros slot i _ Hin. rewrite length_replicate in Hin.
  apply lookup_replicate_2. exact Hin.
Qed.

(** C5.  [PrepareRegisterMasks] and [PrepareStackMasks] (on a stream whose
    stack mask buffer is still empty) number the distinct keys, the register
    mask resp. the byte-packed stack mask, in the order of their first
    occurrence; each returns the number of distinct keys; the index of each
    entry leads to a slot of the table that holds its key. *)
Theorem mask_interners_insertion_ordered
    (s : StackMapStream) (entry_size_in_bits : nat) :
  stack_masks_ s = [] →
  (let keys := sm_register_mask <$> stack_maps_ s in
   let table := first_occurrences keys in
   let result := PrepareRegisterMasks s in
   NoDup table ∧ (∀ k, k ∈ table ↔ k ∈ keys)
   ∧ result.1 = length table
   ∧ take result.1 (register_masks_ result.2) = table
   ∧ Forall2 (λ e e',
        e' = StackMapEntry_set_register_mask_index e (sm_register_mask_index e')
        ∧ table !! sm_register_mask_index e' = Some (sm_register_mask e)
        ∧ register_masks_ result.2 !! sm_register_mask_index e'
          = Some (sm_register_mask e))
       (stack_maps_ s) (stack_maps_ result.2))
  ∧ (let bytes := (RoundUp entry_size_in_bits kBitsPerByte / kBitsPerByte)%nat in
     let key e := pack_stack_mask entry_size_in_bits bytes (sm_sp_mask e) in
     let keys := key <$> stack_maps_ s in
     let table := first_occurrences keys in
     let result := PrepareStackMasks entry_size_in_bits s in
     NoDup table ∧ (∀ k, k ∈ table ↔ k ∈ keys)
     ∧ result.1 = length table
     ∧ (∀ j k, table !! j = Some k →
          region_content (stack_masks_ result.2) (j * bytes) bytes = k)
     ∧ Forall2 (λ e e',
          e' = StackMapEntry_set_stack_mask_index e (sm_stack_mask_index e')
          ∧ table !! sm_stack_mask_index e' = Some (key e)
          ∧ region_content (stack_masks_ result.2)
              (sm_stack_mask_index e' * bytes) bytes = key e)
         (stack_maps_ s) (stack_maps_ result.2)).
Proof.
  intros Hempty. split.
  - intros keys table result.
    split; [apply first_occurrences_NoDup|].
    split; [intros k; apply first_occurrences_elem_of|].
    subst result. unfold PrepareRegisterMasks.
    destruct (register_masks_loop _ _ _) as [[entries dedupe] masks] eqn:El. simpl.
    destruct (register_masks_loop_spec _ _ _ [] _ _ _ El dedupe_of_empty)
      as ([Hsize _] & Htake & _ & Hall).
    { reflexivity. }
    { simpl. rewrite length_resize. lia. }
    rewrite intern_all_nil in Hsize, Htake, Hall. fold keys in Hsize, Htake, Hall.
    fold table in Hsize, Htake, Hall.
    split; [exact Hsize|]. split; [rewrite Hsize; exact Htake|].
    eapply Forall2_impl; [exact Hall|]. intros e e' [He Ht].
    split; [exact He|]. split; [exact Ht|].
    rewrite <- Htake in Ht. apply lookup_take_Some in Ht. apply Ht.
  - intros bytes key keys table result.
    split; [apply first_occurrences_NoDup|].
    split; [intros k; apply first_occurrences_elem_of|].
    subst result. unfold PrepareStackMasks. fold bytes. rewrite Hempty.
    destruct (stack_masks_loop _ _ _ _ _) as [[entries dedup] buffer] eqn:El. simpl.
    destruct (stack_masks_loop_spec _ _ _ _ _ [] _ _ _ El (RoundUp_bytes _) dedupe_of_empty)
      as ([Hsize _] & Hslots & Hall).
    { intros j k Hj. rewrite lookup_nil in Hj. discriminate. }
    { rewrite resize_nil. apply padding_clear_replicate. }
    { simpl. rewrite length_resize. fold bytes. unfold kBitsPerByte. lia. }
    rewrite intern_all_nil in Hsize, Hslots, Hall.
    fold bytes in Hall, Hslots, Hsize.
    split; [exact Hsize|]. split; [exact Hslots|].
    eapply Forall2_impl; [exact Hall|]. intros e e' [He Ht].
    split; [exact He|]. split; [exact Ht|]. apply Hslots, Ht.
Qed.

(** C7, amended.  [PrepareForFillIn] is one-shot: a header has at least
    one byte, so after a call that returned the header buffer is not empty
    and a second call fails the check that it is. *)
Theorem PrepareForFillIn_one_shot (s s' : StackMapStream) (size : nat) :
  (∀ encoding, CodeInfoEncoding_Compress encoding ≠ []) →
  PrepareForFillIn s = Some (size, s') →
  code_info_encoding_ s' ≠ [] ∧ PrepareForFillIn s' = None.
Proof.
  intros Hheader Hp.
  assert (Hne : code_info_encoding_ s' ≠ []).
  { apply PrepareForFillIn_inv in Hp as (e1 & s1 & _ & Hh & _).
    rewrite Hh. intros Happ.
    apply app_eq_nil in Happ as [_ Happ]. exact (Hheader _ Happ). }
  split; [exact Hne|]. unfold PrepareForFillIn.
  destruct (ComputeEncoding s') as [[e2 s2]|] eqn:He; [|reflexivity]. simpl.
  assert (code_info_encoding_ s2 = code_info_encoding_ s') as ->.
  { unfold ComputeEncoding in He.
    destruct (ComputeDexRegisterMapsSize s'); [|discriminate]. simpl in He.
    destruct (ComputeInlineInfoEncoding s' _); [|discriminate]. simpl in He.
    destruct (PrepareStackMasks _ s') as [n1 s1] eqn:H1.
    destruct (PrepareRegisterMasks s1) as [n2 s3] eqn:H2.
    injection He as _ <-.
    unfold PrepareRegisterMasks in H2.
    destruct (register_masks_loop _ _ _) as [[? ?] ?]. injection H2 as _ <-.
    unfold PrepareStackMasks in H1.
    destruct (stack_masks_loop _ _ _ _ _) as [[? ?] ?]. injection H1 as _ <-.
    reflexivity. }
  rewrite (bool_decide_eq_false_2 (length (code_info_encoding_ s') = 0%nat));
    [reflexivity|].
  destruct (code_info_encoding_ s'); [done|]. simpl. lia.
Qed.

End Properties.

Lemma Some_default {A} (d : A) (o : option A) :
  bool_decide (is_Some o) = true → o = Some (default d o).
Proof.
  intros Ho. apply bool_decide_eq_true in Ho as [x ->]. reflexivity.
Qed.

Lemma None_default {A} (o : option A) :
  bool_decide (is_Some o) = false → o = None.
Proof.
  intros Ho. apply bool_decide_eq_false in Ho.
  destruct o; [exfalso; apply Ho; eauto|reflexivity].
Qed.


(** ** The round trip of a legal sequence of calls *)

Section RoundTrip.
Context `{Collaborators}.

(** *** Fields *)

Lemma FieldEncoding_Load_Store bits min_value value :
  is_uint32 value →
  to_uint32 (value - min_value) < 2 ^ Z.of_nat bits →
  FieldEncoding_Load bits min_value (FieldEncoding_Store bits min_value value) = value.
Proof.
  intros Hv Hb. unfold FieldEncoding_Load, FieldEncoding_Store, StoreBits, LoadBits.
  pose proof (to_uint32_nonneg (value - min_value)).
  rewrite (Z.mod_small (to_uint32 _)) by lia. rewrite Z.mod_small by lia.
  unfold to_uint32. rewrite Zplus_mod_idemp_l.
  replace (value - min_value + min_value) with value by lia.
  apply Z.mod_small. exact Hv.
Qed.

Lemma foldl_fn_insert {A} (g : nat → A) (l : list nat) : ∀ (f : nat → A) i,
  foldl (λ bits i, <[i := g i]> bits) f l i = if decide (i ∈ l) then g i else f i.
Proof.
  induction l as [|x l IH]; intros f i; cbn [foldl].
  - rewrite decide_False by apply not_elem_of_nil. reflexivity.
  - rewrite IH. destruct (decide (i ∈ l)) as [Hi|Hi].
    + rewrite decide_True by (right; exact Hi). reflexivity.
    + destruct (decide (i = x)) as [->|Hne].
      * rewrite decide_True by left. apply fn_lookup_insert.
      * rewrite decide_False by (rewrite elem_of_cons; tauto).
        apply fn_lookup_insert_ne. congruence.
Qed.

(** *** The catalog *)

Lemma fill_location_catalog_spec entries : ∀ index offset r r' offset',
  fill_location_catalog index entries offset r = (r', offset') →
  offset' = foldl (λ size location,
                     (size + DexRegisterLocationCatalog_EntrySize location)%nat)
                  offset entries
  ∧ (∀ k location, entries !! k = Some location →
       region_location_catalog r' (index + k)%nat = location)
  ∧ (∀ k, (k < index)%nat → region_location_catalog r' k = region_location_catalog r k)
  ∧ region_header r' = region_header r
  ∧ region_dex_register_maps r' = region_dex_register_maps r
  ∧ region_stack_maps r' = region_stack_maps r
  ∧ region_inline_infos r' = region_inline_infos r
  ∧ region_stack_masks r' = region_stack_masks r
  ∧ region_register_masks r' = region_register_masks r.
Proof.
  induction entries as [|location entries IH]; intros index offset r r' offset' Hf.
  - simpl in Hf. injection Hf as <- <-. split; [reflexivity|].
    split; [intros k l Hk; rewrite lookup_nil in Hk; discriminate|].
    repeat split; reflexivity.
  - simpl in Hf. apply IH in Hf as (-> & Hin & Hout & Hh & Hm & Hs & Hi & Hsm & Hrm).
    simpl in *. split; [reflexivity|]. split.
    { intros k l Hk. destruct k as [|k].
      - injection Hk as <-. rewrite Nat.add_0_r. rewrite Hout by lia.
        apply fn_lookup_insert.
      - replace (index + S k)%nat with (S index + k)%nat by lia. apply Hin. exact Hk. }
    split.
    { intros k Hk. rewrite Hout by lia. apply fn_lookup_insert_ne. lia. }
    repeat split; assumption.
Qed.

(** *** A dex register map *)

Lemma load_bits_S bits bit_offset n :
  load_bits bits bit_offset (S n)
  = Z.lor (load_bits bits bit_offset n)
      (Z.shiftl (Z.b2z (bits (bit_offset + n)%nat)) (Z.of_nat n)).
Proof. unfold load_bits. rewrite seq_S, foldl_app. reflexivity. Qed.

Lemma b2z_shiftl_testbit (b : bool) (n j : nat) :
  Z.testbit (Z.shiftl (Z.b2z b) (Z.of_nat n)) (Z.of_nat j)
  = bool_decide (j = n) && b.
Proof.
  rewrite Z.shiftl_spec by lia. case_bool_decide as Hj.
  - subst j. rewrite Z.sub_diag. apply Z.b2z_bit0.
  - destruct (decide (j < n)%nat) as [Hlt|Hge].
    + apply Z.testbit_neg_r. lia.
    + destruct (Z.of_nat j - Z.of_nat n) as [|q|q] eqn:E; [lia| |lia].
      destruct b; reflexivity.
Qed.

Lemma load_bits_testbit bits bit_offset n j :
  Z.testbit (load_bits bits bit_offset n) (Z.of_nat j)
  = bool_decide (j < n)%nat && bits (bit_offset + j)%nat.
Proof.
  induction n as [|n IH].
  - unfold load_bits. cbn [seq foldl]. rewrite Z.bits_0.
    rewrite bool_decide_eq_false_2 by lia. reflexivity.
  - rewrite load_bits_S, Z.lor_spec, IH, b2z_shiftl_testbit.
    destruct (decide (j = n)) as [->|Hne].
    + rewrite (bool_decide_eq_false_2 (n < n)%nat) by lia.
      rewrite !bool_decide_eq_true_2 by lia. reflexivity.
    + rewrite (bool_decide_eq_false_2 (j = n)) by exact Hne.
      rewrite orb_false_r. f_equal. apply bool_decide_ext. lia.
Qed.

Lemma load_bits_stored bits bit_offset n value :
  (∀ i, (i < n)%nat →
     bits (bit_offset + i)%nat = Z.testbit (to_uint32 value) (Z.of_nat i)) →
  load_bits bits bit_offset n = StoreBits n value.
Proof.
  intros Hbits. apply Z.bits_inj'. intros j Hj.
  rewrite <- (Z2Nat.id j Hj). rewrite load_bits_testbit. unfold StoreBits.
  destruct (decide (Z.to_nat j < n)%nat) as [Hlt|Hge].
  - rewrite bool_decide_eq_true_2 by exact Hlt.
    rewrite Z.mod_pow2_bits_low by lia. simpl. apply Hbits, Hlt.
  - rewrite bool_decide_eq_false_2 by exact Hge.
    rewrite Z.mod_pow2_bits_high by lia. reflexivity.
Qed.

Lemma load_bits_ext bits bits' bit_offset n :
  (∀ i, (i < n)%nat → bits' (bit_offset + i)%nat = bits (bit_offset + i)%nat) →
  load_bits bits' bit_offset n = load_bits bits bit_offset n.
Proof.
  intros Hbits. apply Z.bits_inj'. intros j Hj.
  rewrite <- (Z2Nat.id j Hj). rewrite !load_bits_testbit.
  case_bool_decide as Hlt; [|reflexivity]. simpl. apply Hbits, Hlt.
Qed.

Lemma RoundUp_covers x :
  (x ≤ kBitsPerByte * (RoundUp x kBitsPerByte / kBitsPerByte))%nat.
Proof.
  unfold RoundUp, kBitsPerByte. rewrite Nat.div_mul by lia.
  pose proof (Nat.div_mod_eq (x + 8 - 1) 8) as Hd.
  pose proof (Nat.mod_upper_bound (x + 8 - 1) 8). lia.
Qed.

Lemma packed_entries_apart w k k' i i' :
  (i < w)%nat → (i' < w)%nat → (k * w + i = k' * w + i')%nat → k = k'.
Proof. intros Hi Hi' Heq. nia. Qed.


Lemma set_dex_register_map_bit_same position bit r :
  region_dex_register_maps (MemoryRegion_set_dex_register_map_bit position bit r)
    position = bit.
Proof. apply fn_lookup_insert. Qed.

Lemma set_dex_register_map_bit_other position bit r p :
  p ≠ position →
  region_dex_register_maps (MemoryRegion_set_dex_register_map_bit position bit r) p
  = region_dex_register_maps r p.
Proof. intros Hp. apply fn_lookup_insert_ne. congruence. Qed.

Lemma SetLiveBitMask_spec offset size mask dex_register_numbers : ∀ r,
  (∀ i, i ∈ dex_register_numbers →
     (kBitsPerByte * DexRegisterMap_kFixedSize + i < kBitsPerByte * size)%nat) →
  ∃ r',
    SetLiveBitMask offset size mask dex_register_numbers r = Some r'
    ∧ (∀ i, i ∈ dex_register_numbers →
         region_dex_register_maps r' (live_bit_position offset i)
         = BitVector_IsBitSet mask i)
    ∧ (∀ p, (∀ i, i ∈ dex_register_numbers → p ≠ live_bit_position offset i) →
         region_dex_register_maps r' p = region_dex_register_maps r p).
Proof.
  induction dex_register_numbers as [|i0 regs IH]; intros r Hin.
  - exists r. split; [reflexivity|].
    split; [intros i Hi; apply elem_of_nil in Hi; contradiction|reflexivity].
  - cbn [SetLiveBitMask]. unfold DexRegisterMap_StoreBit at 1.
    rewrite bool_decide_eq_true_2 by (apply Hin; left). cbn [DCHECK mbind option_bind].
    set (r1 := MemoryRegion_set_dex_register_map_bit _ _ r).
    destruct (IH r1) as (r' & Hr' & Hset & Hkeep).
    { intros i Hi. apply Hin. right. exact Hi. }
    assert (Hpos : (kBitsPerByte * offset + (kBitsPerByte * DexRegisterMap_kFixedSize + i0))%nat
                   = live_bit_position offset i0).
    { unfold live_bit_position, kBitsPerByte. lia. }
    exists r'. split; [exact Hr'|]. split.
    + intros i Hi. destruct (decide (i ∈ regs)) as [Hi'|Hi']; [apply Hset, Hi'|].
      apply elem_of_cons in Hi as [->|Hi]; [|contradiction].
      rewrite Hkeep.
      * subst r1. rewrite Hpos. apply set_dex_register_map_bit_same.
      * intros i Hi Heq. unfold live_bit_position in Heq.
        assert (i = i0) by lia. subst i. contradiction.
    + intros p Hp. rewrite Hkeep by (intros i Hi; apply Hp; right; exact Hi).
      subst r1. rewrite Hpos. apply set_dex_register_map_bit_other.
      apply Hp. left.
Qed.

Lemma DexRegisterMap_StoreBits_spec offset size bit_offset value bit_indices : ∀ r,
  (∀ i, i ∈ bit_indices → (bit_offset + i < kBitsPerByte * size)%nat) →
  ∃ r',
    DexRegisterMap_StoreBits offset size bit_offset value bit_indices r = Some r'
    ∧ (∀ i, i ∈ bit_indices →
         region_dex_register_maps r' (kBitsPerByte * offset + bit_offset + i)%nat
         = Z.testbit (to_uint32 value) (Z.of_nat i))
    ∧ (∀ p, (∀ i, i ∈ bit_indices → p ≠ (kBitsPerByte * offset + bit_offset + i)%nat) →
         region_dex_register_maps r' p = region_dex_register_maps r p).
Proof.
  induction bit_indices as [|i0 idx IH]; intros r Hin.
  - exists r. split; [reflexivity|].
    split; [intros i Hi; apply elem_of_nil in Hi; contradiction|reflexivity].
  - cbn [DexRegisterMap_StoreBits]. unfold DexRegisterMap_StoreBit at 1.
    rewrite bool_decide_eq_true_2 by (apply Hin; left). cbn [DCHECK mbind option_bind].
    set (r1 := MemoryRegion_set_dex_register_map_bit _ _ r).
    destruct (IH r1) as (r' & Hr' & Hset & Hkeep).
    { intros i Hi. apply Hin. right. exact Hi. }
    assert (Hpos : (kBitsPerByte * offset + (bit_offset + i0))%nat
                   = (kBitsPerByte * offset + bit_offset + i0)%nat) by lia.
    exists r'. split; [exact Hr'|]. split.
    + intros i Hi. destruct (decide (i ∈ idx)) as [Hi'|Hi']; [apply Hset, Hi'|].
      apply elem_of_cons in Hi as [->|Hi]; [|contradiction].
      rewrite Hkeep.
      * subst r1. rewrite Hpos. apply set_dex_register_map_bit_same.
      * intros i Hi Heq. assert (i = i0) by lia. subst i. contradiction.
    + intros p Hp. rewrite Hkeep by (intros i Hi; apply Hp; right; exact Hi).
      subst r1. rewrite Hpos. apply set_dex_register_map_bit_other.
      apply Hp. left.
Qed.

Lemma entry_position_bits offset n w k i :
  (kBitsPerByte * offset
   + (kBitsPerByte * GetLocationMappingDataOffset n + k * w) + i)%nat
  = (entry_position offset n w k + i)%nat.
Proof. unfold entry_position, kBitsPerByte. lia. Qed.

Lemma fill_map_entries_spec s offset size n start indices : ∀ r,
  let w := SingleEntrySizeInBits (length (location_catalog_entries_ s)) in
  (∀ k, k ∈ indices → (start + k < length (dex_register_locations_ s))%nat) →
  (∀ k, k ∈ indices →
     (kBitsPerByte * GetLocationMappingDataOffset n + k * w + w
      ≤ kBitsPerByte * size)%nat) →
  ∃ r',
    fill_map_entries s offset size n start indices r = Some r'
    ∧ (∀ k, k ∈ indices →
         ∃ index, dex_register_locations_ s !! (start + k)%nat = Some index
           ∧ ∀ i, (i < w)%nat →
               region_dex_register_maps r' (entry_position offset n w k + i)%nat
               = Z.testbit (to_uint32 (Z.of_nat index)) (Z.of_nat i))
    ∧ (∀ p, (∀ k i, k ∈ indices → (i < w)%nat →
               p ≠ (entry_position offset n w k + i)%nat) →
         region_dex_register_maps r' p = region_dex_register_maps r p).
Proof.
  induction indices as [|k0 indices IH]; intros r w Hin Hroom.
  - exists r. split; [reflexivity|].
    split; [intros k Hk; apply elem_of_nil in Hk; contradiction|reflexivity].
  - cbn [fill_map_entries].
    destruct (lookup_lt_is_Some_2 (dex_register_locations_ s) (start + k0)%nat)
      as [index0 Hindex0]; [apply Hin; left|].
    rewrite Hindex0. cbn [mbind option_bind]. unfold SetLocationCatalogEntryIndex.
    fold w.
    destruct (DexRegisterMap_StoreBits_spec offset size
                (kBitsPerByte * GetLocationMappingDataOffset n + k0 * w)
                (Z.of_nat index0) (seq 0 w) r) as (r1 & Hr1 & Hset1 & Hkeep1).
    { intros i Hi. apply elem_of_seq in Hi. specialize (Hroom k0 ltac:(left)). lia. }
    rewrite Hr1. cbn [mbind option_bind].
    destruct (IH r1) as (r' & Hr' & Hset & Hkeep).
    { intros k Hk. apply Hin. right. exact Hk. }
    { intros k Hk. apply Hroom. right. exact Hk. }
    exists r'. split; [exact Hr'|]. split.
    + intros k Hk. destruct (decide (k ∈ indices)) as [Hk'|Hk']; [apply Hset, Hk'|].
      apply elem_of_cons in Hk as [->|Hk]; [|contradiction].
      exists index0. split; [exact Hindex0|]. intros i Hi.
      rewrite Hkeep.
      * rewrite <- entry_position_bits. apply Hset1. apply elem_of_seq. lia.
      * intros k i' Hk Hi' Heq. unfold entry_position in Heq.
        assert (k0 = k); [|subst k; contradiction].
        apply (packed_entries_apart w k0 k i i' Hi Hi'). lia.
    + intros p Hp. rewrite Hkeep by (intros k i Hk Hi; apply Hp; [right; exact Hk|exact Hi]).
      apply Hkeep1. intros i Hi Heq. apply elem_of_seq in Hi.
      apply (Hp k0 i); [left|lia|]. rewrite <- entry_position_bits. exact Heq.
Qed.

Lemma ComputeDexRegisterMapSize_inv s num_dex_registers mask size :
  num_dex_registers ≠ 0 →
  ComputeDexRegisterMapSize s num_dex_registers (Some mask) = Some size →
  size
  = (GetLocationMappingDataOffset (Z.to_nat num_dex_registers)
     + RoundUp (SingleEntrySizeInBits (length (location_catalog_entries_ s))
                * BitVector_NumSetBits mask) kBitsPerByte / kBitsPerByte)%nat.
Proof.
  intros Hn. unfold ComputeDexRegisterMapSize.
  rewrite bool_decide_eq_false_2 by exact Hn. simpl. intros Hs.
  injection Hs as <-. reflexivity.
Qed.

Lemma mapping_data_within s num_dex_registers mask size :
  num_dex_registers ≠ 0 →
  ComputeDexRegisterMapSize s num_dex_registers (Some mask) = Some size →
  (GetLocationMappingDataOffset (Z.to_nat num_dex_registers) ≤ size)%nat.
Proof.
  intros Hn Hs. apply ComputeDexRegisterMapSize_inv in Hs; [|exact Hn]. lia.
Qed.

(** The bits of a map lie in the bytes that the sizer counts for it. *)
Lemma live_bit_within s num_dex_registers mask size offset i :
  num_dex_registers ≠ 0 →
  ComputeDexRegisterMapSize s num_dex_registers (Some mask) = Some size →
  (i < Z.to_nat num_dex_registers)%nat →
  (kBitsPerByte * offset ≤ live_bit_position offset i
   < kBitsPerByte * (offset + GetLocationMappingDataOffset (Z.to_nat num_dex_registers)))%nat
  ∧ (GetLocationMappingDataOffset (Z.to_nat num_dex_registers) ≤ size)%nat.
Proof.
  intros Hn Hs Hi. apply ComputeDexRegisterMapSize_inv in Hs; [|exact Hn].
  pose proof (RoundUp_covers (Z.to_nat num_dex_registers)) as Hc.
  unfold live_bit_position, GetLocationMappingDataOffset, GetLiveBitMaskSize in *.
  unfold kBitsPerByte in *. lia.
Qed.

Lemma entry_bit_within s num_dex_registers mask size offset k i :
  let w := SingleEntrySizeInBits (length (location_catalog_entries_ s)) in
  num_dex_registers ≠ 0 →
  ComputeDexRegisterMapSize s num_dex_registers (Some mask) = Some size →
  (k < BitVector_NumSetBits mask)%nat → (i < w)%nat →
  (kBitsPerByte * (offset + GetLocationMappingDataOffset (Z.to_nat num_dex_registers))
   ≤ entry_position offset (Z.to_nat num_dex_registers) w k + i
   < kBitsPerByte * (offset + size))%nat.
Proof.
  intros w Hn Hs Hk Hi. apply ComputeDexRegisterMapSize_inv in Hs; [|exact Hn].
  fold w in Hs.
  pose proof (RoundUp_covers (w * BitVector_NumSetBits mask)) as Hc.
  unfold entry_position. unfold kBitsPerByte in *.
  assert (k * w + i < w * BitVector_NumSetBits mask)%nat by nia. lia.
Qed.

Lemma FillInDexRegisterMap_spec s offset size num_dex_registers mask start r :
  num_dex_registers ≠ 0 →
  ComputeDexRegisterMapSize s num_dex_registers (Some mask) = Some size →
  (start + BitVector_NumSetBits mask ≤ length (dex_register_locations_ s))%nat →
  ∃ r',
    FillInDexRegisterMap s offset size num_dex_registers mask start r = Some r'
    ∧ only_map_written offset size r r'
    ∧ map_written s r' offset num_dex_registers mask start.
Proof.
  intros Hn Hsize Hwf.
  set (w := SingleEntrySizeInBits (length (location_catalog_entries_ s))).
  destruct (SetLiveBitMask_spec offset size mask (seq 0 (Z.to_nat num_dex_registers)) r)
    as (r1 & Hr1 & Hlive & _).
  { intros i Hi. apply elem_of_seq in Hi.
    destruct (live_bit_within s num_dex_registers mask size 0 i Hn Hsize) as [Hb Hle];
      [lia|].
    unfold live_bit_position, kBitsPerByte in *. lia. }
  destruct (fill_map_entries_spec s offset size (Z.to_nat num_dex_registers) start
              (seq 0 (BitVector_NumSetBits mask)) r1)
    as (r' & Hr' & Hentries & Hkeep).
  { intros k Hk. apply elem_of_seq in Hk. lia. }
  { intros k Hk. apply elem_of_seq in Hk. fold w.
    destruct (decide (w = 0%nat)) as [Hw|Hw].
    - rewrite Hw, Nat.mul_0_r, !Nat.add_0_r.
      pose proof (mapping_data_within s num_dex_registers mask size Hn Hsize).
      unfold kBitsPerByte. lia.
    - pose proof (entry_bit_within s num_dex_registers mask size 0 k (w - 1) Hn Hsize)
        as Hb. fold w in Hb. unfold entry_position, kBitsPerByte in *. lia. }
  assert (Hfill : FillInDexRegisterMap s offset size num_dex_registers mask start r
                  = Some r').
  { unfold FillInDexRegisterMap. rewrite Hr1. cbn [mbind option_bind].
    rewrite bool_decide_eq_true_2 by lia. cbn [DCHECK mbind option_bind].
    rewrite bool_decide_eq_true_2 by lia. cbn [DCHECK mbind option_bind].
    exact Hr'. }
  exists r'. split; [exact Hfill|].
  split; [eapply FillInDexRegisterMap_only, Hfill|].
  unfold map_written, DexRegisterMap_at. cbn [drm_live_bit_mask drm_entries]. fold w.
  split.
  - intros i Hi. rewrite Hkeep; [apply Hlive, elem_of_seq; lia|].
    intros k j Hk Hj Heq. apply elem_of_seq in Hk. fold w in Hj.
    pose proof (live_bit_within s num_dex_registers mask size offset i Hn Hsize Hi).
    pose proof (entry_bit_within s num_dex_registers mask size offset k j Hn Hsize
                  ltac:(lia) Hj) as Hb.
    cbv zeta in Hb. unfold w in *. lia.
  - intros k Hk. destruct (Hentries k) as (index & Hindex & Hbits);
      [apply elem_of_seq; lia|].
    exists index. split; [exact Hindex|]. apply load_bits_stored. exact Hbits.
Qed.

(** A map is read in the bytes that the sizer counts for it. *)
Lemma map_written_agree s r r' offset size num_dex_registers mask start :
  num_dex_registers ≠ 0 →
  ComputeDexRegisterMapSize s num_dex_registers (Some mask) = Some size →
  (∀ p, (kBitsPerByte * offset ≤ p < kBitsPerByte * (offset + size))%nat →
     region_dex_register_maps r' p = region_dex_register_maps r p) →
  map_written s r offset num_dex_registers mask start →
  map_written s r' offset num_dex_registers mask start.
Proof.
  intros Hn Hsize Hsame [Hlive Hentries].
  unfold map_written, DexRegisterMap_at in *.
  cbn [drm_live_bit_mask drm_entries] in *. split.
  - intros i Hi. rewrite <- (Hlive i Hi). apply Hsame.
    pose proof (live_bit_within s num_dex_registers mask size offset i Hn Hsize Hi).
    unfold kBitsPerByte in *. lia.
  - intros k Hk. destruct (Hentries k Hk) as (index & Hindex & Hload).
    exists index. split; [exact Hindex|]. rewrite <- Hload.
    apply load_bits_ext. intros i Hi. apply Hsame.
    pose proof (entry_bit_within s num_dex_registers mask size offset k i Hn Hsize Hk Hi).
    unfold kBitsPerByte in *. lia.
Qed.

Lemma map_laid_agree s r r' bound bound' raw bits num_dex_registers mask start :
  (∀ p, (p < kBitsPerByte * bound)%nat →
     region_dex_register_maps r' p = region_dex_register_maps r p) →
  (bound ≤ bound')%nat →
  map_laid s r bound raw bits num_dex_registers mask start →
  map_laid s r' bound' raw bits num_dex_registers mask start.
Proof.
  intros Hsame Hle (offset & m & Hm & Hlt & (Hn & size & Hsize & Hend) & Hraw & Hw).
  exists offset, m. split; [exact Hm|]. split; [lia|].
  split; [split; [exact Hn|]; exists size; split; [exact Hsize|lia]|].
  split; [exact Hraw|].
  eapply map_written_agree; [exact Hn|exact Hsize| |exact Hw].
  intros p Hp. apply Hsame. unfold kBitsPerByte in *. lia.
Qed.

Lemma materialize_map_spec s encoding num_dex_registers mask m start c size :
  mask = Some m →
  num_dex_registers ≠ 0 →
  ComputeDexRegisterMapSize s num_dex_registers mask = Some size →
  (next_dex_register_map_offset c + size
   ≤ cie_dex_register_map_num_bytes encoding)%nat →
  (start + BitVector_NumSetBits m ≤ length (dex_register_locations_ s))%nat →
  ∃ r',
    materialize_map s encoding num_dex_registers mask start c
    = Some (next_dex_register_map_offset c,
            {| fc_region := r';
               next_dex_register_map_offset :=
                 (next_dex_register_map_offset c + size)%nat;
               next_inline_info_index := next_inline_info_index c |})
    ∧ only_map_written (next_dex_register_map_offset c) size (fc_region c) r'
    ∧ map_written s r' (next_dex_register_map_offset c) num_dex_registers m start.
Proof.
  intros -> Hn Hsize Hroom Hwf. unfold materialize_map. rewrite Hsize.
  cbn [mbind option_bind].
  rewrite bool_decide_eq_true_2 by lia. cbn [DCHECK mbind option_bind].
  rewrite bool_decide_eq_true_2 by lia. cbn [DCHECK mbind option_bind].
  destruct (FillInDexRegisterMap_spec s (next_dex_register_map_offset c) size
              num_dex_registers m start (fc_region c) Hn Hsize Hwf)
    as (r' & Hfill & Honly & Hw).
  exists r'. rewrite Hfill. cbn [mbind option_bind].
  split; [reflexivity|]. split; [exact Honly|exact Hw].
Qed.

Lemma other_tables_kept_refl r : other_tables_kept r r.
Proof. repeat split. Qed.

Lemma other_tables_kept_trans r1 r2 r3 :
  other_tables_kept r1 r2 → other_tables_kept r2 r3 → other_tables_kept r1 r3.
Proof.
  intros (H1 & H2 & H3 & H4) (H1' & H2' & H3' & H4').
  repeat split; congruence.
Qed.

Lemma frame_map_size_wf s f :
  frame_wf (dex_register_locations_ s) f →
  ComputeDexRegisterMapSize s (ii_num_dex_registers f) (ii_live_dex_registers_mask f)
  = Some (frame_map_size s f).
Proof.
  intros (Hmask & _ & _). unfold frame_map_size, ComputeDexRegisterMapSize.
  case_bool_decide as Hn; [reflexivity|].
  destruct (ii_live_dex_registers_mask f) as [m|]; [reflexivity|].
  exfalso. apply Hn, Hmask. reflexivity.
Qed.

(** *** The inline frames of an entry *)

Lemma fill_inline_frames_ok s encoding entry first : ∀ depths c,
  NoDup depths →
  (∀ d, d ∈ depths →
     ∃ f, inline_infos_ s !! (d + sm_inline_infos_start_index entry)%nat = Some f
       ∧ frame_wf (dex_register_locations_ s) f) →
  (next_dex_register_map_offset c
   + frames_size s ((λ d, d + sm_inline_infos_start_index entry)%nat <$> depths)
   ≤ cie_dex_register_map_num_bytes encoding)%nat →
  ∃ c',
    fill_inline_frames s encoding entry first depths c = Some c'
    ∧ next_inline_info_index c' = next_inline_info_index c
    ∧ next_dex_register_map_offset c'
      = (next_dex_register_map_offset c
         + frames_size s ((λ d, d + sm_inline_infos_start_index entry)%nat <$> depths))%nat
    ∧ region_stack_maps (fc_region c') = region_stack_maps (fc_region c)
    ∧ other_tables_kept (fc_region c) (fc_region c')
    ∧ (∀ k f, (∀ d, d ∈ depths → k ≠ (first + d)%nat) ∨ f = kIsLast →
         region_inline_infos (fc_region c') (k, f)
         = region_inline_infos (fc_region c) (k, f))
    ∧ (∀ p, (p < kBitsPerByte * next_dex_register_map_offset c)%nat →
         region_dex_register_maps (fc_region c') p
         = region_dex_register_maps (fc_region c) p)
    ∧ (∀ d f, d ∈ depths →
         inline_infos_ s !! (d + sm_inline_infos_start_index entry)%nat = Some f →
         frame_written s encoding (fc_region c')
           (next_dex_register_map_offset c') (first + d) f).
Proof.
  induction depths as [|d depths IH]; intros c Hnodup Hframes Hroom.
  - exists c. simpl. unfold frames_size. simpl.
    split; [reflexivity|]. split; [reflexivity|]. split; [lia|].
    split; [reflexivity|]. split; [apply other_tables_kept_refl|].
    split; [reflexivity|]. split; [reflexivity|].
    intros d f Hd. apply elem_of_nil in Hd. contradiction.
  - apply NoDup_cons in Hnodup as [Hd Hnodup].
    destruct (Hframes d) as (fr & Hfr & Hwf); [left|].
    assert (Hsizes : frames_size s
                ((λ d, d + sm_inline_infos_start_index entry)%nat <$> d :: depths)
              = (frame_map_size s fr
                 + frames_size s
                     ((λ d, d + sm_inline_infos_start_index entry)%nat <$> depths))%nat).
    { unfold frames_size. rewrite fmap_cons. simpl. rewrite Hfr. reflexivity. }
    rewrite Hsizes in Hroom. rewrite Hsizes.
    cbn [fill_inline_frames]. rewrite Hfr. cbn [mbind option_bind].
    set (ie := cie_inline_info_encoding encoding).
    set (r1 := InlineInfo_Set ie (first + d) kInlineDexPc (ii_dex_pc fr)
                 (if bool_decide (ii_method fr ≠ 0)
                  then InlineInfo_Set ie (first + d) kExtraData
                         (Low32Bits (ii_method fr))
                         (InlineInfo_Set ie (first + d) kMethodIndex
                            (High32Bits (ii_method fr)) (fc_region c))
                  else InlineInfo_Set ie (first + d) kExtraData 1
                         (InlineInfo_Set ie (first + d) kMethodIndex
                            (ii_method_index fr) (fc_region c)))).
    (* the state after the frame [d] *)
    assert (Hstep : ∃ c1,
              (if bool_decide (ii_num_dex_registers fr = 0)
               then DCHECK (bool_decide (ii_live_dex_registers_mask fr = None));;
                    Some (FillCursor_set_region
                            (InlineInfo_Set ie (first + d) kInlineDexRegisterMapOffset
                               kNoDexRegisterMap r1) c)
               else '(offset, c1) ←
                      materialize_map s encoding (ii_num_dex_registers fr)
                        (ii_live_dex_registers_mask fr)
                        (ii_dex_register_locations_start_index fr)
                        (FillCursor_set_region
                           (InlineInfo_Set ie (first + d) kInlineDexRegisterMapOffset
                              (Z.of_nat (next_dex_register_map_offset c)) r1) c);
                    Some c1) = Some c1
              ∧ next_inline_info_index c1 = next_inline_info_index c
              ∧ next_dex_register_map_offset c1
                = (next_dex_register_map_offset c + frame_map_size s fr)%nat
              ∧ region_stack_maps (fc_region c1) = region_stack_maps (fc_region c)
              ∧ other_tables_kept (fc_region c) (fc_region c1)
              ∧ (∀ k f, k ≠ (first + d)%nat ∨ f = kIsLast →
                   region_inline_infos (fc_region c1) (k, f)
                   = region_inline_infos (fc_region c) (k, f))
              ∧ (∀ p, (p < kBitsPerByte * next_dex_register_map_offset c)%nat →
                   region_dex_register_maps (fc_region c1) p
                   = region_dex_register_maps (fc_region c) p)
              ∧ frame_written s encoding (fc_region c1)
                  (next_dex_register_map_offset c1) (first + d) fr).
    { pose proof (frame_map_size_wf s fr Hwf) as Hsize.
      destruct Hwf as (Hmask & Hn0 & Hslice).
      assert (Hkeep : ∀ k f v (r : MemoryRegion), k ≠ (first + d)%nat ∨ f = kIsLast →
                ∀ f', f' ≠ kIsLast →
                region_inline_infos (InlineInfo_Set ie (first + d) f' v r) (k, f)
                = region_inline_infos r (k, f)).
      { intros k f v r Hk f' Hf'. unfold InlineInfo_Set. simpl.
        apply fn_lookup_insert_ne. destruct Hk as [Hk| ->]; congruence. }
      assert (Hr1 : ∀ k f, k ≠ (first + d)%nat ∨ f = kIsLast →
                region_inline_infos r1 (k, f) = region_inline_infos (fc_region c) (k, f)).
      { intros k f Hk. subst r1. rewrite Hkeep by (done || congruence).
        destruct (bool_decide (ii_method fr ≠ 0));
          rewrite !Hkeep by (done || congruence); reflexivity. }
      assert (Hr1_fields :
                region_inline_infos r1 (first + d, kMethodIndex)%nat
                = FieldEncoding_Store (InlineInfoEncoding_bits ie kMethodIndex)
                    (InlineInfoField_min_value kMethodIndex) (frame_method_index fr)
                ∧ region_inline_infos r1 (first + d, kExtraData)%nat
                  = FieldEncoding_Store (InlineInfoEncoding_bits ie kExtraData)
                      (InlineInfoField_min_value kExtraData) (frame_extra_data fr)
                ∧ region_inline_infos r1 (first + d, kInlineDexPc)%nat
                  = FieldEncoding_Store (InlineInfoEncoding_bits ie kInlineDexPc)
                      (InlineInfoField_min_value kInlineDexPc) (ii_dex_pc fr)).
      { subst r1. unfold frame_method_index, frame_extra_data, InlineInfo_Set. simpl.
        destruct (bool_decide (ii_method fr ≠ 0)); simpl;
          rewrite ?fn_lookup_insert;
          repeat (rewrite fn_lookup_insert_ne by congruence; rewrite ?fn_lookup_insert);
          repeat split; reflexivity. }
      destruct Hr1_fields as (Hf1 & Hf2 & Hf3).
      assert (Hr1_other : other_tables_kept (fc_region c) r1
                ∧ region_stack_maps r1 = region_stack_maps (fc_region c)
                ∧ region_dex_register_maps r1 = region_dex_register_maps (fc_region c)).
      { subst r1. destruct (bool_decide (ii_method fr ≠ 0)); repeat split. }
      destruct Hr1_other as (Hk1 & Hs1 & Hm1).
      clearbody r1.
      case_bool_decide as Hn.
      - rewrite bool_decide_eq_true_2 by (apply Hmask, Hn). cbn [mbind option_bind DCHECK].
        eexists. split; [reflexivity|]. simpl.
        assert (Hz : frame_map_size s fr = 0%nat).
        { unfold frame_map_size, ComputeDexRegisterMapSize.
          rewrite bool_decide_eq_true_2 by exact Hn. reflexivity. }
        split; [reflexivity|]. split; [lia|]. split; [exact Hs1|].
        split; [exact Hk1|]. split.
        { intros k f Hk. rewrite fn_lookup_insert_ne
            by (destruct Hk as [Hk| ->]; congruence).
          apply Hr1, Hk. }
        split; [intros p _; rewrite Hm1; reflexivity|].
        unfold frame_written, inline_info_holds. fold ie. simpl.
        rewrite !fn_lookup_insert_ne by congruence.
        split; [exact Hf1|]. split; [exact Hf2|]. split; [exact Hf3|].
        rewrite bool_decide_eq_true_2 by exact Hn. apply fn_lookup_insert.
      - destruct (ii_live_dex_registers_mask fr) as [m|] eqn:Em;
          [|exfalso; apply Hn, Hmask; reflexivity].
        destruct (materialize_map_spec s encoding (ii_num_dex_registers fr) (Some m) m
                    (ii_dex_register_locations_start_index fr)
                    (FillCursor_set_region
                       (InlineInfo_Set ie (first + d) kInlineDexRegisterMapOffset
                          (Z.of_nat (next_dex_register_map_offset c)) r1) c)
                    (frame_map_size s fr) eq_refl Hn Hsize)
          as (r' & Hmat & Honly & Hw); [simpl; lia|exact Hslice|].
        simpl in Hmat. rewrite Hmat. cbn [mbind option_bind].
        eexists. split; [reflexivity|]. simpl.
        assert (Hpos : (0 < frame_map_size s fr)%nat).
        { eapply ComputeDexRegisterMapSize_pos; [|exact Hsize]. lia. }
        destruct Honly as (Oh & Oc & Os & Oi & Osm & Orm & Obits).
        cbn [FillCursor_set_region fc_region next_dex_register_map_offset] in *.
        split; [reflexivity|]. split; [reflexivity|].
        split; [rewrite Os; exact Hs1|].
        split.
        { destruct Hk1 as (K1 & K2 & K3 & K4).
          split; [rewrite Oh; exact K1|]. split; [rewrite Oc; exact K2|].
          split; [rewrite Osm; exact K3|rewrite Orm; exact K4]. }
        split.
        { intros k f Hk. rewrite Oi. simpl. rewrite fn_lookup_insert_ne
            by (destruct Hk as [Hk| ->]; congruence).
          apply Hr1, Hk. }
        split.
        { intros p Hp. rewrite Obits by (unfold kBitsPerByte in *; lia).
          simpl. rewrite Hm1. reflexivity. }
        unfold frame_written, inline_info_holds. fold ie. rewrite Oi. simpl.
        rewrite !fn_lookup_insert_ne by congruence.
        split; [exact Hf1|]. split; [exact Hf2|]. split; [exact Hf3|].
        rewrite bool_decide_eq_false_2 by exact Hn.
        exists (next_dex_register_map_offset c), m.
        split; [exact Em|]. split; [lia|].
        split; [split; [exact Hn|];
                exists (frame_map_size s fr); split; [exact Hsize|lia]|].
        split; [apply fn_lookup_insert|].
        exact Hw. }
    destruct Hstep as (c1 & Hc1 & Hi1 & Ho1 & Hs1 & Hk1 & Hin1 & Hm1 & Hw1).
    fold ie. fold r1. rewrite Hc1. cbn [mbind option_bind].
    destruct (IH c1 Hnodup) as (c' & Hc' & Hi' & Ho' & Hs' & Hk' & Hin' & Hm' & Hw').
    { intros d' Hd'. apply Hframes. right. exact Hd'. }
    { rewrite Ho1. lia. }
    exists c'. split; [exact Hc'|]. split; [congruence|]. split; [lia|].
    split; [congruence|]. split; [eapply other_tables_kept_trans; eassumption|].
    split.
    { intros k f Hk. rewrite Hin'.
      - apply Hin1. destruct Hk as [Hk|Hk]; [left; apply Hk; left|right; exact Hk].
      - destruct Hk as [Hk|Hk]; [left; intros d' Hd'; apply Hk; right; exact Hd'|].
        right. exact Hk. }
    split.
    { intros p Hp. rewrite Hm' by (unfold kBitsPerByte in *; lia). apply Hm1, Hp. }
    intros d' f Hd' Hf. apply elem_of_cons in Hd' as [->|Hd']; [|apply Hw'; assumption].
    rewrite Hfr in Hf. injection Hf as <-.
    (* the later frames leave the record and the map of this one alone *)
    assert (Hrec : ∀ f, region_inline_infos (fc_region c') (first + d, f)%nat
                        = region_inline_infos (fc_region c1) (first + d, f)%nat).
    { intros f. apply Hin'. left. intros d' Hd'. intros Heq.
      assert (d = d') by lia. subst d'. contradiction. }
    destruct Hw1 as (Hw1a & Hw1b & Hw1c & Hw1d).
    unfold frame_written, inline_info_holds in *. rewrite !Hrec.
    split; [exact Hw1a|]. split; [exact Hw1b|]. split; [exact Hw1c|].
    destruct (bool_decide (ii_num_dex_registers fr = 0)); [exact Hw1d|].
    eapply map_laid_agree; [exact Hm'|lia|exact Hw1d].
Qed.

(** *** The dex register map of a stack map *)

Lemma entry_wf_mask locations e :
  entry_wf locations e → sm_num_dex_registers e ≠ 0 →
  ∃ m, sm_live_dex_registers_mask e = Some m.
Proof.
  intros [Hmask _] Hn. destruct (sm_live_dex_registers_mask e) as [m|]; [eauto|].
  exfalso. apply Hn, Hmask. reflexivity.
Qed.

Lemma fill_dex_register_map_ok s encoding i e c :
  entry_wf (dex_register_locations_ s) e →
  0 ≤ sm_num_dex_registers e →
  (next_dex_register_map_offset c + written_map_bytes s e
   ≤ cie_dex_register_map_num_bytes encoding)%nat →
  (¬ no_dex_map e → ∀ t, sm_same_dex_register_map_as_ e = Some t →
     t ≠ i
     ∧ ∃ offset m,
         sm_live_dex_registers_mask e = Some m
         ∧ (offset < next_dex_register_map_offset c)%nat
         ∧ map_extent_within s (sm_num_dex_registers e) m offset
             (next_dex_register_map_offset c)
         ∧ StackMap_Get (cie_stack_map_encoding encoding) t kDexRegisterMapOffset
             (fc_region c) = Z.of_nat offset
         ∧ map_written s (fc_region c) offset (sm_num_dex_registers e) m
             (sm_dex_register_locations_start_index e)) →
  ∃ c',
    fill_dex_register_map s encoding i e c = Some c'
    ∧ next_inline_info_index c' = next_inline_info_index c
    ∧ next_dex_register_map_offset c'
      = (next_dex_register_map_offset c + written_map_bytes s e)%nat
    ∧ (∀ j f, (j, f) ≠ (i, kDexRegisterMapOffset) →
         region_stack_maps (fc_region c') (j, f)
         = region_stack_maps (fc_region c) (j, f))
    ∧ region_inline_infos (fc_region c') = region_inline_infos (fc_region c)
    ∧ (∀ p, (p < kBitsPerByte * next_dex_register_map_offset c)%nat →
         region_dex_register_maps (fc_region c') p
         = region_dex_register_maps (fc_region c) p)
    ∧ other_tables_kept (fc_region c) (fc_region c')
    ∧ entry_map_written s encoding (fc_region c')
        (next_dex_register_map_offset c') i e.
Proof.
  intros Hwf Hn0 Hroom Hsame. pose proof Hwf as (Hmask & Hslice).
  unfold fill_dex_register_map, entry_map_written, written_map_bytes in *.
  set (se := cie_stack_map_encoding encoding) in *.
  assert (Hno : (if bool_decide (sm_num_dex_registers e = 0) then Some true
                 else mask ← sm_live_dex_registers_mask e;
                      Some (bool_decide (BitVector_NumSetBits mask = 0%nat)))
                = Some (bool_decide (no_dex_map e))).
  { unfold no_dex_map. destruct (decide (sm_num_dex_registers e = 0)) as [Hn|Hn].
    - rewrite (bool_decide_eq_true_2 (sm_num_dex_registers e = 0)) by exact Hn.
      rewrite bool_decide_eq_true_2 by tauto. reflexivity.
    - rewrite (bool_decide_eq_false_2 (sm_num_dex_registers e = 0)) by exact Hn.
      destruct (entry_wf_mask _ _ Hwf Hn) as [m Em]. rewrite Em.
      simpl. f_equal. apply bool_decide_ext. tauto. }
  rewrite Hno. cbn [mbind option_bind].
  assert (Hset : ∀ j f v, (j, f) ≠ (i, kDexRegisterMapOffset) →
            region_stack_maps (StackMap_Set se i kDexRegisterMapOffset v (fc_region c)) (j, f)
            = region_stack_maps (fc_region c) (j, f)).
  { intros j f v Hne. unfold StackMap_Set. simpl.
    apply fn_lookup_insert_ne. congruence. }
  clear Hno.
  destruct (decide (no_dex_map e)) as [Hnd|Hnd];
    [rewrite !(bool_decide_eq_true_2 _ Hnd) in *
    |rewrite !(bool_decide_eq_false_2 _ Hnd) in *].
  - eexists. split; [reflexivity|]. simpl.
    split; [reflexivity|]. split; [lia|]. split; [intros j f; apply Hset|].
    split; [reflexivity|]. split; [reflexivity|].
    split; [repeat split|].
    unfold stack_map_holds. fold se. simpl. apply fn_lookup_insert.
  - destruct (sm_same_dex_register_map_as_ e) as [t|] eqn:Et.
    + destruct (Hsame Hnd t eq_refl)
        as (Hne & offset & m & Em & Hlt & (Hnz & size & Hsize & Hend) & Hget & Hw).
      eexists. split; [reflexivity|]. simpl.
      split; [reflexivity|]. split; [lia|]. split; [intros j f; apply Hset|].
      split; [reflexivity|]. split; [reflexivity|].
      split; [repeat split|].
      exists offset, m. split; [exact Em|]. split; [lia|].
      split; [split; [exact Hnz|]; exists size; split; [exact Hsize|lia]|]. split.
      * rewrite fn_lookup_insert. rewrite Hget. reflexivity.
      * exact Hw.
    + assert (Hnz : sm_num_dex_registers e ≠ 0).
      { intros Hz. apply Hnd. left. exact Hz. }
      destruct (entry_wf_mask _ _ Hwf Hnz) as [m Em]. rewrite Em in *.
      assert (Hsize : ∃ size,
                ComputeDexRegisterMapSize s (sm_num_dex_registers e) (Some m) = Some size).
      { unfold ComputeDexRegisterMapSize. rewrite bool_decide_eq_false_2 by exact Hnz.
        simpl. eauto. }
      destruct Hsize as [size Hsize]. rewrite Hsize in Hroom. simpl in Hroom.
      destruct (materialize_map_spec s encoding (sm_num_dex_registers e) (Some m) m
                  (sm_dex_register_locations_start_index e)
                  (FillCursor_set_region
                     (StackMap_Set se i kDexRegisterMapOffset
                        (Z.of_nat (next_dex_register_map_offset c)) (fc_region c)) c)
                  size eq_refl Hnz Hsize)
        as (r' & Hmat & Honly & Hw); [simpl; lia|exact Hslice|].
      simpl in Hmat. rewrite Hmat. cbn [mbind option_bind].
      eexists. split; [reflexivity|]. simpl. rewrite Hsize. simpl.
      assert (Hpos : (0 < size)%nat).
      { eapply ComputeDexRegisterMapSize_pos; [|exact Hsize]. lia. }
      destruct Honly as (Oh & Oc & Os & Oi & Osm & Orm & Obits).
      cbn [FillCursor_set_region fc_region next_dex_register_map_offset] in *.
      split; [reflexivity|]. split; [reflexivity|].
      split; [intros j f Hjf; rewrite Os; apply Hset, Hjf|].
      split; [rewrite Oi; reflexivity|]. split.
      { intros p Hp. rewrite Obits by (unfold kBitsPerByte in *; lia). reflexivity. }
      split; [split; [rewrite Oh; reflexivity|]; split; [rewrite Oc; reflexivity|];
              split; [rewrite Osm; reflexivity|rewrite Orm; reflexivity]|].
      exists (next_dex_register_map_offset c), m.
      split; [first [exact Em|reflexivity]|]. split; [lia|].
      split; [split; [exact Hnz|]; exists size; split; [exact Hsize|lia]|].
      split; [rewrite Os; apply fn_lookup_insert|].
      exact Hw.
Qed.

(** *** The inline info of a stack map *)

Lemma set_is_last_spec ie first (g : nat → Z) l : ∀ r,
  let r' := foldl (λ r d, InlineInfo_Set ie (first + d) kIsLast (g d) r) r l in
  region_stack_maps r' = region_stack_maps r
  ∧ region_dex_register_maps r' = region_dex_register_maps r
  ∧ other_tables_kept r r'
  ∧ (∀ k f, f ≠ kIsLast ∨ (∀ d, d ∈ l → k ≠ (first + d)%nat) →
       region_inline_infos r' (k, f) = region_inline_infos r (k, f))
  ∧ (∀ d, d ∈ l →
       region_inline_infos r' ((first + d)%nat, kIsLast)
       = FieldEncoding_Store 1 0 (g d)).
Proof.
  induction l as [|d0 l IH]; intros r; cbn [foldl].
  - split; [reflexivity|]. split; [reflexivity|]. split; [repeat split|].
    split; [reflexivity|]. intros d Hd. apply elem_of_nil in Hd. contradiction.
  - destruct (IH (InlineInfo_Set ie (first + d0) kIsLast (g d0) r))
      as (Hs & Hm & Hk & Hother & Hlast).
    split; [rewrite Hs; reflexivity|]. split; [rewrite Hm; reflexivity|].
    split; [eapply other_tables_kept_trans; [|exact Hk]; repeat split|].
    split.
    + intros k f Hkf. rewrite Hother.
      * unfold InlineInfo_Set. simpl. apply fn_lookup_insert_ne.
        destruct Hkf as [Hf|Hd]; [congruence|].
        specialize (Hd d0 ltac:(left)). congruence.
      * destruct Hkf as [Hf|Hd]; [left; exact Hf|].
        right. intros d Hd'. apply Hd. right. exact Hd'.
    + intros d Hd. destruct (decide (d ∈ l)) as [Hin|Hin]; [apply Hlast, Hin|].
      apply elem_of_cons in Hd as [->|Hd]; [|contradiction].
      rewrite Hother.
      * unfold InlineInfo_Set. simpl. apply fn_lookup_insert.
      * right. intros d Hd Heq. assert (d = d0) by lia. subst d. contradiction.
Qed.

Lemma fill_inline_info_ok s encoding i e c :
  0 ≤ sm_inlining_depth e →
  Forall (frame_wf (dex_register_locations_ s)) (inline_infos_ s) →
  (sm_inlining_depth e ≠ 0 →
     next_inline_info_index c = sm_inline_infos_start_index e
     ∧ (sm_inline_infos_start_index e + Z.to_nat (sm_inlining_depth e)
        ≤ length (inline_infos_ s))%nat) →
  (next_dex_register_map_offset c
   + frames_size s (seq (next_inline_info_index c) (Z.to_nat (sm_inlining_depth e)))
   ≤ cie_dex_register_map_num_bytes encoding)%nat →
  ∃ c',
    fill_inline_info s encoding i e c = Some c'
    ∧ next_inline_info_index c'
      = (next_inline_info_index c + Z.to_nat (sm_inlining_depth e))%nat
    ∧ next_dex_register_map_offset c'
      = (next_dex_register_map_offset c
         + frames_size s (seq (next_inline_info_index c)
                            (Z.to_nat (sm_inlining_depth e))))%nat
    ∧ (∀ j f, (j, f) ≠ (i, kInlineInfoIndex) →
         region_stack_maps (fc_region c') (j, f)
         = region_stack_maps (fc_region c) (j, f))
    ∧ (∀ k f, (k < next_inline_info_index c)%nat →
         region_inline_infos (fc_region c') (k, f)
         = region_inline_infos (fc_region c) (k, f))
    ∧ (∀ p, (p < kBitsPerByte * next_dex_register_map_offset c)%nat →
         region_dex_register_maps (fc_region c') p
         = region_dex_register_maps (fc_region c) p)
    ∧ other_tables_kept (fc_region c) (fc_region c')
    ∧ entry_inline_written s encoding (fc_region c')
        (next_dex_register_map_offset c') i e.
Proof.
  intros Hd0 Hframes Hstart Hroom.
  unfold fill_inline_info, entry_inline_written.
  set (se := cie_stack_map_encoding encoding).
  set (ie := cie_inline_info_encoding encoding).
  destruct (decide (sm_inlining_depth e = 0)) as [Hz|Hnz].
  - rewrite (bool_decide_eq_false_2 (sm_inlining_depth e ≠ 0)) by tauto.
    rewrite (bool_decide_eq_true_2 (sm_inlining_depth e = 0)) by exact Hz.
    rewrite Hz. unfold frames_size. simpl.
    case_bool_decide as Hbits.
    + eexists. split; [reflexivity|]. simpl.
      split; [lia|]. split; [lia|]. split.
      { intros j f Hne. apply fn_lookup_insert_ne. congruence. }
      split; [reflexivity|]. split; [reflexivity|]. split; [repeat split|].
      unfold StackMap_Get. simpl. rewrite fn_lookup_insert.
      apply FieldEncoding_Load_Store_sentinel.
    + exists c. split; [reflexivity|].
      split; [lia|]. split; [lia|]. split; [reflexivity|].
      split; [reflexivity|]. split; [reflexivity|]. split; [repeat split|].
      unfold StackMap_Get, FieldEncoding_Load, LoadBits. simpl.
      fold se. replace (sme_inline_info_bits se) with 0%nat by lia.
      simpl. rewrite Z.mod_1_r. reflexivity.
  - rewrite (bool_decide_eq_true_2 (sm_inlining_depth e ≠ 0)) by exact Hnz.
    rewrite (bool_decide_eq_false_2 (sm_inlining_depth e = 0)) by exact Hnz.
    destruct (Hstart Hnz) as [Hfirst Hlen].
    set (depth := Z.to_nat (sm_inlining_depth e)) in *.
    assert (Hdepth : (0 < depth)%nat) by (subst depth; lia).
    rewrite (bool_decide_eq_true_2 _ Hfirst). cbn [mbind option_bind DCHECK].
    rewrite (bool_decide_eq_true_2 _ Hdepth). cbn [mbind option_bind DCHECK].
    rewrite (bool_decide_eq_true_2 _ Hlen). cbn [mbind option_bind DCHECK].
    set (first := next_inline_info_index c) in *.
    set (r1 := StackMap_Set se i kInlineInfoIndex (Z.of_nat first) (fc_region c)).
    pose proof (set_is_last_spec ie first
                  (λ d, if bool_decide (d = depth - 1)%nat then 1 else 0)
                  (seq 0 depth) r1) as Hlast.
    cbn zeta in Hlast.
    set (r2 := InlineInfo_SetDepth ie first depth r1).
    change (foldl _ r1 (seq 0 depth)) with r2 in Hlast.
    destruct Hlast as (Hs2 & Hm2 & Hk2 & Hother2 & Hlast2).
    assert (Hsizes : frames_size s
                       ((λ d, d + sm_inline_infos_start_index e)%nat <$> seq 0 depth)
                     = frames_size s (seq first depth)).
    { f_equal. rewrite <- Hfirst.
      transitivity (Nat.add first <$> seq 0 depth).
      - apply list_fmap_ext. intros; lia.
      - rewrite fmap_add_seq, Nat.add_0_r. reflexivity. }
    destruct (fill_inline_frames_ok s encoding e first (seq 0 depth)
                {| fc_region := r2;
                   next_dex_register_map_offset := next_dex_register_map_offset c;
                   next_inline_info_index := (first + depth)%nat |})
      as (c' & Hc' & Hi' & Ho' & Hs' & Hk' & Hin' & Hm' & Hw').
    { apply NoDup_seq. }
    { intros d Hd. apply elem_of_seq in Hd.
      destruct (lookup_lt_is_Some_2 (inline_infos_ s)
                  (d + sm_inline_infos_start_index e)%nat) as [f Hf]; [lia|].
      exists f. split; [exact Hf|].
      eapply Forall_lookup_1; [exact Hframes|exact Hf]. }
    { simpl. rewrite Hsizes. exact Hroom. }
    simpl in Hi', Ho', Hs', Hk', Hin', Hm'. rewrite Hsizes in Ho'.
    exists c'. split; [exact Hc'|]. split; [exact Hi'|]. split; [exact Ho'|].
    split.
    { intros j f Hne. rewrite Hs', Hs2. subst r1. simpl.
      apply fn_lookup_insert_ne. congruence. }
    split.
    { intros k f Hk. rewrite Hin'.
      - rewrite Hother2; [reflexivity|]. right. intros d _. lia.
      - left. intros d _. lia. }
    split.
    { intros p Hp. rewrite Hm' by exact Hp. rewrite Hm2. reflexivity. }
    split.
    { eapply other_tables_kept_trans; [|exact Hk'].
      eapply other_tables_kept_trans; [|exact Hk2]. repeat split. }
    split.
    { unfold stack_map_holds. rewrite Hs', Hs2. subst r1. simpl.
      rewrite fn_lookup_insert. fold se. rewrite Hfirst. reflexivity. }
    intros d Hd. rewrite <- Hfirst.
    destruct (lookup_lt_is_Some_2 (inline_infos_ s) (first + d)%nat) as [f Hf]; [lia|].
    exists f. split; [exact Hf|]. split.
    + unfold inline_info_holds. rewrite Hin' by (right; reflexivity).
      rewrite Hlast2 by (apply elem_of_seq; lia). reflexivity.
    + apply Hw'; [apply elem_of_seq; lia|].
      rewrite <- Hfirst. rewrite Nat.add_comm. exact Hf.
Qed.

(** *** A stack map *)

Lemma entry_written_agree s encoding r r' bound bound' i e k :
  maps_agree (S i) k bound r r' →
  (bound ≤ bound')%nat →
  (sm_inlining_depth e ≠ 0 →
     (sm_inline_infos_start_index e + Z.to_nat (sm_inlining_depth e) ≤ k)%nat) →
  entry_written s encoding r bound i e →
  entry_written s encoding r' bound' i e.
Proof.
  intros (Hsm & Hii & Hmaps) Hle Hk (H1 & H2 & H3 & H4 & Hmap & Hinline).
  unfold entry_written, stack_map_holds in *.
  rewrite !Hsm by lia.
  split; [exact H1|]. split; [exact H2|]. split; [exact H3|]. split; [exact H4|].
  split.
  - unfold entry_map_written, stack_map_holds in *.
    destruct (bool_decide (no_dex_map e)).
    + rewrite Hsm by lia. exact Hmap.
    + rewrite Hsm by lia. eapply map_laid_agree; [exact Hmaps|exact Hle|exact Hmap].
  - unfold entry_inline_written, stack_map_holds, StackMap_Get in *.
    case_bool_decide as Hd.
    + rewrite Hsm by lia. exact Hinline.
    + specialize (Hk Hd). destruct Hinline as [Hindex Hrecords].
      rewrite Hsm by lia. split; [exact Hindex|].
      intros d Hlt. destruct (Hrecords d Hlt) as (f & Hf & Hlast & Hw).
      exists f. split; [exact Hf|].
      unfold inline_info_holds, frame_written, inline_info_holds in *.
      rewrite !Hii by lia. split; [exact Hlast|].
      destruct Hw as (Hw1 & Hw2 & Hw3 & Hw4).
      split; [exact Hw1|]. split; [exact Hw2|]. split; [exact Hw3|].
      destruct (bool_decide (ii_num_dex_registers f = 0)); [exact Hw4|].
      eapply map_laid_agree; [exact Hmaps|exact Hle|exact Hw4].
Qed.

Lemma fill_stack_map_ok s encoding i e c :
  entry_wf (dex_register_locations_ s) e →
  0 ≤ sm_num_dex_registers e →
  0 ≤ sm_inlining_depth e →
  Forall (frame_wf (dex_register_locations_ s)) (inline_infos_ s) →
  (sm_inlining_depth e ≠ 0 →
     next_inline_info_index c = sm_inline_infos_start_index e
     ∧ (sm_inline_infos_start_index e + Z.to_nat (sm_inlining_depth e)
        ≤ length (inline_infos_ s))%nat) →
  (next_dex_register_map_offset c + written_map_bytes s e
   + frames_size s (seq (next_inline_info_index c) (Z.to_nat (sm_inlining_depth e)))
   ≤ cie_dex_register_map_num_bytes encoding)%nat →
  (¬ no_dex_map e → ∀ t, sm_same_dex_register_map_as_ e = Some t →
     t ≠ i
     ∧ ∃ offset m,
         sm_live_dex_registers_mask e = Some m
         ∧ (offset < next_dex_register_map_offset c)%nat
         ∧ map_extent_within s (sm_num_dex_registers e) m offset
             (next_dex_register_map_offset c)
         ∧ StackMap_Get (cie_stack_map_encoding encoding) t kDexRegisterMapOffset
             (fc_region c) = Z.of_nat offset
         ∧ map_written s (fc_region c) offset (sm_num_dex_registers e) m
             (sm_dex_register_locations_start_index e)) →
  ∃ c',
    fill_stack_map s encoding i e c = Some c'
    ∧ next_inline_info_index c'
      = (next_inline_info_index c + Z.to_nat (sm_inlining_depth e))%nat
    ∧ next_dex_register_map_offset c'
      = (next_dex_register_map_offset c + written_map_bytes s e
         + frames_size s (seq (next_inline_info_index c)
                            (Z.to_nat (sm_inlining_depth e))))%nat
    ∧ maps_agree i (next_inline_info_index c) (next_dex_register_map_offset c)
        (fc_region c) (fc_region c')
    ∧ other_tables_kept (fc_region c) (fc_region c')
    ∧ entry_written s encoding (fc_region c') (next_dex_register_map_offset c') i e.
Proof.
  intros Hwf Hn0 Hd0 Hframes Hstart Hroom Hsame.
  unfold fill_stack_map. cbn zeta.
  set (se := cie_stack_map_encoding encoding) in *.
  set (r4 := StackMap_Set se i kStackMaskIndex (Z.of_nat (sm_stack_mask_index e))
               (StackMap_Set se i kRegisterMaskIndex
                  (Z.of_nat (sm_register_mask_index e))
                  (StackMap_Set se i kNativePc (sm_native_pc_code_offset e)
                     (StackMap_Set se i kDexPc (sm_dex_pc e) (fc_region c))))).
  assert (Hr4 : ∀ j f, j ≠ i → region_stack_maps r4 (j, f)
                               = region_stack_maps (fc_region c) (j, f)).
  { intros j f Hne. subst r4. unfold StackMap_Set. simpl.
    rewrite !fn_lookup_insert_ne by congruence. reflexivity. }
  assert (Hfields :
            region_stack_maps r4 (i, kDexPc)
            = FieldEncoding_Store (StackMapEncoding_bits se kDexPc)
                (StackMapField_min_value kDexPc) (sm_dex_pc e)
            ∧ region_stack_maps r4 (i, kNativePc)
              = FieldEncoding_Store (StackMapEncoding_bits se kNativePc)
                  (StackMapField_min_value kNativePc) (sm_native_pc_code_offset e)
            ∧ region_stack_maps r4 (i, kRegisterMaskIndex)
              = FieldEncoding_Store (StackMapEncoding_bits se kRegisterMaskIndex)
                  (StackMapField_min_value kRegisterMaskIndex)
                  (Z.of_nat (sm_register_mask_index e))
            ∧ region_stack_maps r4 (i, kStackMaskIndex)
              = FieldEncoding_Store (StackMapEncoding_bits se kStackMaskIndex)
                  (StackMapField_min_value kStackMaskIndex)
                  (Z.of_nat (sm_stack_mask_index e))).
  { subst r4. unfold StackMap_Set. simpl.
    rewrite ?fn_lookup_insert;
      repeat (rewrite fn_lookup_insert_ne by congruence; rewrite ?fn_lookup_insert).
    repeat split; reflexivity. }
  assert (Hr4_other : other_tables_kept (fc_region c) r4
            ∧ region_inline_infos r4 = region_inline_infos (fc_region c)
            ∧ region_dex_register_maps r4 = region_dex_register_maps (fc_region c))
    by (subst r4; repeat split).
  destruct Hr4_other as (Hk4 & Hi4 & Hm4).
  clearbody r4.
  destruct (fill_dex_register_map_ok s encoding i e (FillCursor_set_region r4 c)
              Hwf Hn0)
    as (c1 & Hc1 & Hi1 & Ho1 & Hs1 & Hin1 & Hm1 & Hk1 & Hw1).
  { simpl. lia. }
  { intros Hnd t Ht.
    destruct (Hsame Hnd t Ht)
      as (Hne & offset & m & Em & Hlt & (Hnz & size & Hsize & Hend) & Hget & Hw).
    split; [exact Hne|]. exists offset, m. simpl.
    split; [exact Em|]. split; [exact Hlt|].
    split; [split; [exact Hnz|]; exists size; split; [exact Hsize|exact Hend]|].
    split.
    - unfold StackMap_Get in *. rewrite Hr4 by exact Hne. exact Hget.
    - eapply map_written_agree; [exact Hnz|exact Hsize| |exact Hw].
      intros p _. rewrite Hm4. reflexivity. }
  simpl in Hi1, Ho1, Hs1, Hin1, Hm1, Hk1.
  rewrite Hc1. cbn [mbind option_bind].
  destruct (fill_inline_info_ok s encoding i e c1 Hd0 Hframes)
    as (c' & Hc' & Hi' & Ho' & Hs' & Hin' & Hm' & Hk' & Hw').
  { rewrite Hi1. exact Hstart. }
  { rewrite Hi1, Ho1. lia. }
  rewrite Hi1 in Hi', Ho', Hin'. rewrite Ho1 in Ho'.
  exists c'. split; [exact Hc'|]. split; [exact Hi'|]. split; [lia|].
  split.
  { split; [|split].
    - intros j f Hj. rewrite Hs' by (intros [= -> _]; lia).
      rewrite Hs1 by (intros [= -> _]; lia). apply Hr4. lia.
    - intros k f Hk. rewrite Hin' by exact Hk. rewrite Hin1, Hi4. reflexivity.
    - intros p Hp. rewrite Hm' by (unfold kBitsPerByte in *; lia).
      rewrite Hm1 by exact Hp. rewrite Hm4. reflexivity. }
  split.
  { eapply other_tables_kept_trans; [|exact Hk'].
    eapply other_tables_kept_trans; [exact Hk4|exact Hk1]. }
  destruct Hfields as (Hf1 & Hf2 & Hf3 & Hf4).
  unfold entry_written, stack_map_holds. fold se.
  rewrite !Hs' by congruence. rewrite !Hs1 by congruence.
  split; [exact Hf1|]. split; [exact Hf2|]. split; [exact Hf3|]. split; [exact Hf4|].
  split; [|exact Hw'].
  unfold entry_map_written, stack_map_holds in *. fold se in Hw1 |- *.
  rewrite Hs' by congruence.
  destruct (bool_decide (no_dex_map e)); [exact Hw1|].
  eapply map_laid_agree; [exact Hm'|lia|exact Hw1].
Qed.

(** *** The loop over the stack maps *)

Lemma map_written_same_map s r offset a b ma mb :
  same_dex_map (dex_register_locations_ s) a b →
  sm_live_dex_registers_mask a = Some ma →
  sm_live_dex_registers_mask b = Some mb →
  map_written s r offset (sm_num_dex_registers a) ma
    (sm_dex_register_locations_start_index a) →
  map_written s r offset (sm_num_dex_registers b) mb
    (sm_dex_register_locations_start_index b).
Proof.
  intros (Hn & Hmask & Hslice) Ha Hb (Hlive & Hentries).
  rewrite Ha, Hb in Hmask. injection Hmask as <-.
  unfold slice_of, locations_slice in Hslice. rewrite Ha, Hb in Hslice.
  simpl in Hslice. unfold map_written. rewrite <- Hn.
  split.
  - intros i Hi. apply Hlive. exact Hi.
  - intros k Hk. destruct (Hentries k Hk) as (index & Hindex & Hentry).
    exists index. split; [|exact Hentry].
    rewrite <- Hindex.
    transitivity (take (BitVector_NumSetBits ma)
                    (drop (sm_dex_register_locations_start_index b)
                       (dex_register_locations_ s)) !! k).
    + rewrite lookup_take_lt by exact Hk. rewrite lookup_drop. reflexivity.
    + rewrite <- Hslice. rewrite lookup_take_lt by exact Hk.
      rewrite lookup_drop. reflexivity.
Qed.

Lemma map_extent_same_map s offset bound a b ma mb :
  same_dex_map (dex_register_locations_ s) a b →
  sm_live_dex_registers_mask a = Some ma →
  sm_live_dex_registers_mask b = Some mb →
  map_extent_within s (sm_num_dex_registers a) ma offset bound →
  map_extent_within s (sm_num_dex_registers b) mb offset bound.
Proof.
  intros (Hn & Hmask & _) Ha Hb Hext.
  rewrite Ha, Hb in Hmask. injection Hmask as <-. rewrite <- Hn. exact Hext.
Qed.

Lemma no_dex_map_same_map locations a b :
  same_dex_map locations a b → no_dex_map a ↔ no_dex_map b.
Proof. intros (Hn & Hmask & _). unfold no_dex_map. rewrite Hn, Hmask. tauto. Qed.

Lemma map_laid_decode s r bound raw bits num_dex_registers mask start num_bytes :
  map_laid s r bound raw bits num_dex_registers mask start →
  (bound ≤ num_bytes)%nat →
  Z.of_nat num_bytes < 2 ^ Z.of_nat bits →
  Z.of_nat num_bytes ≤ uint32_max →
  ∃ offset m,
    mask = Some m ∧ (offset < bound)%nat
    ∧ map_extent_within s num_dex_registers m offset bound
    ∧ FieldEncoding_Load bits (-1) raw = Z.of_nat offset
    ∧ Z.of_nat offset ≠ kNoDexRegisterMap
    ∧ map_written s r offset num_dex_registers m start.
Proof.
  intros (offset & m & Hm & Hlt & Hext & Hraw & Hw) Hbound Hbits Hsmall.
  exists offset, m. split; [exact Hm|]. split; [exact Hlt|].
  split; [exact Hext|].
  assert (Hu : is_uint32 (Z.of_nat offset + 1)).
  { unfold is_uint32, uint32_max in *. lia. }
  split; [|split; [|exact Hw]].
  - rewrite Hraw. apply FieldEncoding_Load_Store.
    + unfold is_uint32, uint32_max in *. lia.
    + replace (Z.of_nat offset - -1) with (Z.of_nat offset + 1) by lia.
      rewrite to_uint32_small by exact Hu. lia.
  - unfold kNoDexRegisterMap. change (to_uint32 (-1)) with uint32_max. lia.
Qed.

Lemma maps_agree_weaken i k bound i' k' bound' r r' :
  maps_agree i k bound r r' →
  (i' ≤ i)%nat → (k' ≤ k)%nat → (bound' ≤ bound)%nat →
  maps_agree i' k' bound' r r'.
Proof.
  intros (H1 & H2 & H3) Hi Hk Hb.
  split; [|split]; intros; [apply H1|apply H2|apply H3];
    unfold kBitsPerByte in *; lia.
Qed.

Lemma fill_stack_maps_ok s encoding : ∀ entries i c,
  (∀ k e, entries !! k = Some e →
     stack_maps_ s !! (i + k)%nat = Some e ∧ entry_ready s (i + k) e) →
  Forall (frame_wf (dex_register_locations_ s)) (inline_infos_ s) →
  inline_starts_from (next_inline_info_index c) entries →
  (next_inline_info_index c + total_inlining_depth entries
   ≤ length (inline_infos_ s))%nat →
  (next_dex_register_map_offset c + sum_list_with (written_map_bytes s) entries
   + frames_size s (seq (next_inline_info_index c) (total_inlining_depth entries))
   ≤ cie_dex_register_map_num_bytes encoding)%nat →
  Z.of_nat (cie_dex_register_map_num_bytes encoding)
  < 2 ^ Z.of_nat (sme_dex_register_map_bits (cie_stack_map_encoding encoding)) →
  Z.of_nat (cie_dex_register_map_num_bytes encoding) ≤ uint32_max →
  (∀ j e, (j < i)%nat → stack_maps_ s !! j = Some e →
     entry_written s encoding (fc_region c) (next_dex_register_map_offset c) j e
     ∧ (sm_inline_infos_start_index e + Z.to_nat (sm_inlining_depth e)
        ≤ next_inline_info_index c)%nat) →
  ∃ c',
    fill_stack_maps s encoding i entries c = Some c'
    ∧ other_tables_kept (fc_region c) (fc_region c')
    ∧ (next_dex_register_map_offset c'
       ≤ cie_dex_register_map_num_bytes encoding)%nat
    ∧ ∀ j e, (j < i + length entries)%nat → stack_maps_ s !! j = Some e →
        entry_written s encoding (fc_region c') (next_dex_register_map_offset c') j e.
Proof.
  induction entries as [|e entries IH];
    intros i c Hentries Hframes Hstarts Hdepth Hroom Hbits Hsmall Hdone.
  - exists c. split; [reflexivity|]. split; [apply other_tables_kept_refl|].
    unfold frames_size in Hroom. simpl in Hroom. split; [lia|].
    intros j e Hj He. simpl in Hj. apply Hdone; [lia|exact He].
  - destruct (Hentries 0%nat e eq_refl) as [Hi (Hwf & Hn0 & Hd0 & Hback)].
    rewrite Nat.add_0_r in Hi, Hback.
    destruct Hstarts as [Hstart Hstarts].
    simpl total_inlining_depth in Hdepth, Hroom.
    rewrite frames_size_seq_add in Hroom. simpl sum_list_with in Hroom.
    destruct (fill_stack_map_ok s encoding i e c Hwf Hn0 Hd0 Hframes)
      as (c1 & Hc1 & Hi1 & Ho1 & Hagree & Hkept & Hw).
    { intros _. split; [congruence|]. rewrite Hstart. lia. }
    { lia. }
    { intros Hnd t Ht. destruct (Hback t Ht) as (Hlt & et & Het & Hsame).
      split; [lia|].
      destruct (Hdone t et Hlt Het) as [(_ & _ & _ & _ & Hmap & _) _].
      unfold entry_map_written in Hmap.
      rewrite bool_decide_eq_false_2 in Hmap
        by (rewrite (no_dex_map_same_map _ _ _ Hsame); exact Hnd).
      assert (Hoc : (next_dex_register_map_offset c
                     ≤ cie_dex_register_map_num_bytes encoding)%nat) by lia.
      destruct (map_laid_decode _ _ _ _ _ _ _ _ _ Hmap Hoc Hbits Hsmall)
        as (offset & mt & Emt & Hoff & Hext & Hload & _ & Hwritten).
      assert (Hnz : sm_num_dex_registers e ≠ 0) by (intros Hz; apply Hnd; left; exact Hz).
      destruct (entry_wf_mask _ _ Hwf Hnz) as [m Em].
      exists offset, m. split; [exact Em|]. split; [exact Hoff|].
      split; [eapply map_extent_same_map; eassumption|].
      split; [exact Hload|].
      eapply map_written_same_map; eassumption. }
    cbn [fill_stack_maps]. rewrite Hc1. cbn [mbind option_bind].
    destruct (IH (S i) c1) as (c' & Hc' & Hkept' & Hle' & Hall).
    { intros k e' Hk. replace (S i + k)%nat with (i + S k)%nat by lia.
      apply Hentries. exact Hk. }
    { exact Hframes. }
    { rewrite Hi1. exact Hstarts. }
    { rewrite Hi1. lia. }
    { rewrite Hi1, Ho1. lia. }
    { exact Hbits. }
    { exact Hsmall. }
    { intros j e' Hj He'. destruct (decide (j = i)) as [->|Hne].
      - rewrite Hi in He'. injection He' as <-. split; [exact Hw|].
        rewrite Hi1, Hstart. lia.
      - destruct (Hdone j e' ltac:(lia) He') as [Hwj Hkj]. split; [|lia].
        eapply entry_written_agree; [| | |exact Hwj].
        + eapply maps_agree_weaken; [exact Hagree|lia|reflexivity|reflexivity].
        + lia.
        + intros _. exact Hkj. }
    exists c'. split; [exact Hc'|].
    split; [eapply other_tables_kept_trans; eassumption|].
    split; [exact Hle'|].
    intros j e' Hj He'. apply Hall; [simpl in Hj; lia|exact He'].
Qed.

(** *** The tables of the masks *)

Lemma maps_tables_kept_refl r : maps_tables_kept r r.
Proof. repeat split. Qed.

Lemma maps_tables_kept_trans r1 r2 r3 :
  maps_tables_kept r1 r2 → maps_tables_kept r2 r3 → maps_tables_kept r1 r3.
Proof.
  intros (H1 & H2 & H3 & H4 & H5) (H1' & H2' & H3' & H4' & H5').
  repeat split; congruence.
Qed.

Lemma entry_written_kept s encoding r r' bound i e :
  maps_tables_kept r r' →
  entry_written s encoding r bound i e → entry_written s encoding r' bound i e.
Proof.
  intros (_ & _ & Hm & Hs & Hi) Hw.
  eapply (entry_written_agree s encoding r r' bound bound i e
            (sm_inline_infos_start_index e + Z.to_nat (sm_inlining_depth e))).
  - split; [|split]; intros; [rewrite Hs|rewrite Hi|rewrite Hm]; reflexivity.
  - reflexivity.
  - intros _. reflexivity.
  - exact Hw.
Qed.

Lemma fill_stack_mask_bits_ok s i stack_mask_bytes : ∀ bit_indices r,
  (∀ b, b ∈ bit_indices →
     (kBitsPerByte * (i * stack_mask_bytes) + b < length (stack_masks_ s))%nat) →
  ∃ r',
    fill_stack_mask_bits s i stack_mask_bytes bit_indices r = Some r'
    ∧ maps_tables_kept r r'
    ∧ region_register_masks r' = region_register_masks r
    ∧ (∀ j b, j ≠ i → region_stack_masks r' (j, b) = region_stack_masks r (j, b))
    ∧ (∀ b, b ∈ bit_indices →
         stack_masks_ s !! (kBitsPerByte * (i * stack_mask_bytes) + b)%nat
         = Some (region_stack_masks r' (i, b))).
Proof.
  induction bit_indices as [|b0 bit_indices IH]; intros r Hin.
  - exists r. split; [reflexivity|]. split; [apply maps_tables_kept_refl|].
    split; [reflexivity|]. split; [reflexivity|].
    intros b Hb. apply elem_of_nil in Hb. contradiction.
  - cbn [fill_stack_mask_bits].
    destruct (lookup_lt_is_Some_2 (stack_masks_ s)
                (kBitsPerByte * (i * stack_mask_bytes) + b0)%nat) as [bit Hbit];
      [apply Hin; left|].
    rewrite Hbit. cbn [mbind option_bind].
    destruct (IH (MemoryRegion_set_stack_mask_bit i b0 bit r))
      as (r' & Hr' & Hkept & Hreg & Hother & Hbits).
    { intros b Hb. apply Hin. right. exact Hb. }
    exists r'. split; [exact Hr'|].
    split; [eapply maps_tables_kept_trans; [|exact Hkept]; repeat split|].
    split; [rewrite Hreg; reflexivity|]. split.
    + intros j b Hne. rewrite Hother by exact Hne. simpl.
      apply fn_lookup_insert_ne. congruence.
    + intros b Hb. destruct (decide (b ∈ bit_indices)) as [Hb'|Hb'];
        [apply Hbits, Hb'|].
      apply elem_of_cons in Hb as [->|Hb]; [|contradiction].
      rewrite Hbit. f_equal.
      assert (Hkeep : ∀ l r1 r2, b0 ∉ l →
                fill_stack_mask_bits s i stack_mask_bytes l r1 = Some r2 →
                region_stack_masks r2 (i, b0) = region_stack_masks r1 (i, b0)).
      { clear. induction l as [|b l IH]; intros r1 r2 Hb Hf.
        - simpl in Hf. injection Hf as <-. reflexivity.
        - simpl in Hf. apply bind_Some_inv in Hf as (bit & _ & Hf).
          apply not_elem_of_cons in Hb as [Hne Hb].
          rewrite (IH _ _ Hb Hf). simpl. apply fn_lookup_insert_ne. congruence. }
      rewrite (Hkeep _ _ _ Hb' Hr'). simpl. rewrite fn_lookup_insert. reflexivity.
Qed.

Lemma fill_stack_masks_ok s stack_mask_bits : ∀ entries r,
  NoDup entries →
  (∀ i b, i ∈ entries → (b < stack_mask_bits)%nat →
     (kBitsPerByte
      * (i * (RoundUp stack_mask_bits kBitsPerByte / kBitsPerByte)) + b
      < length (stack_masks_ s))%nat) →
  ∃ r',
    fill_stack_masks s stack_mask_bits entries r = Some r'
    ∧ maps_tables_kept r r'
    ∧ region_register_masks r' = region_register_masks r
    ∧ ∀ i b, i ∈ entries → (b < stack_mask_bits)%nat →
        stack_masks_ s
          !! (kBitsPerByte
              * (i * (RoundUp stack_mask_bits kBitsPerByte / kBitsPerByte)) + b)%nat
        = Some (region_stack_masks r' (i, b)).
Proof.
  induction entries as [|i0 entries IH]; intros r Hnodup Hin.
  - exists r. split; [reflexivity|]. split; [apply maps_tables_kept_refl|].
    split; [reflexivity|]. intros i b Hi. apply elem_of_nil in Hi. contradiction.
  - apply NoDup_cons in Hnodup as [Hi0 Hnodup].
    cbn [fill_stack_masks]. cbn zeta.
    destruct (fill_stack_mask_bits_ok s i0
                (RoundUp stack_mask_bits kBitsPerByte / kBitsPerByte)
                (seq 0 stack_mask_bits) r)
      as (r1 & Hr1 & Hkept1 & Hreg1 & Hother1 & Hbits1).
    { intros b Hb. apply elem_of_seq in Hb. apply Hin; [left|lia]. }
    rewrite Hr1. cbn [mbind option_bind].
    destruct (IH r1 Hnodup) as (r' & Hr' & Hkept & Hreg & Hbits).
    { intros i b Hi Hb. apply Hin; [right; exact Hi|exact Hb]. }
    exists r'. split; [exact Hr'|].
    split; [eapply maps_tables_kept_trans; eassumption|].
    split; [congruence|].
    intros i b Hi Hb. apply elem_of_cons in Hi as [->|Hi]; [|apply Hbits; assumption].
    rewrite Hbits1 by (apply elem_of_seq; lia). f_equal.
    (* the later slots leave this one alone *)
    clear -Hr' Hi0.
    revert r1 r' Hr' Hi0. induction entries as [|i entries IH]; intros r1 r' Hr' Hi0.
    + simpl in Hr'. injection Hr' as <-. reflexivity.
    + cbn [fill_stack_masks] in Hr'. cbn zeta in Hr'.
      apply bind_Some_inv in Hr' as (r2 & Hr2 & Hr').
      apply not_elem_of_cons in Hi0 as [Hne Hi0].
      rewrite <- (IH _ _ Hr' Hi0).
      assert (Hkeep : ∀ l ra rb,
                fill_stack_mask_bits s i
                  (RoundUp stack_mask_bits kBitsPerByte / kBitsPerByte) l ra = Some rb →
                region_stack_masks rb (i0, b) = region_stack_masks ra (i0, b)).
      { clear -Hne. induction l as [|b' l IHl]; intros ra rb Hf.
        - simpl in Hf. injection Hf as <-. reflexivity.
        - simpl in Hf. apply bind_Some_inv in Hf as (bit & _ & Hf).
          rewrite (IHl _ _ Hf). simpl. apply fn_lookup_insert_ne. congruence. }
      symmetry. eapply Hkeep. exact Hr2.
Qed.

Lemma fill_register_masks_ok s bits : ∀ entries r,
  NoDup entries →
  (∀ i, i ∈ entries → (i < length (register_masks_ s))%nat) →
  ∃ r',
    fill_register_masks s bits entries r = Some r'
    ∧ maps_tables_kept r r'
    ∧ region_stack_masks r' = region_stack_masks r
    ∧ ∀ i, i ∈ entries →
        ∃ register_mask,
          register_masks_ s !! i = Some register_mask
          ∧ region_register_masks r' i = StoreBits bits register_mask.
Proof.
  induction entries as [|i0 entries IH]; intros r Hnodup Hin.
  - exists r. split; [reflexivity|]. split; [apply maps_tables_kept_refl|].
    split; [reflexivity|]. intros i Hi. apply elem_of_nil in Hi. contradiction.
  - apply NoDup_cons in Hnodup as [Hi0 Hnodup].
    cbn [fill_register_masks].
    destruct (lookup_lt_is_Some_2 (register_masks_ s) i0) as [mask Hmask];
      [apply Hin; left|].
    rewrite Hmask. cbn [mbind option_bind].
    destruct (IH (MemoryRegion_set_register_mask i0 (StoreBits bits mask) r) Hnodup)
      as (r' & Hr' & Hkept & Hsm & Hmasks).
    { intros i Hi. apply Hin. right. exact Hi. }
    exists r'. split; [exact Hr'|].
    split; [eapply maps_tables_kept_trans; [|exact Hkept]; repeat split|].
    split; [rewrite Hsm; reflexivity|].
    intros i Hi. apply elem_of_cons in Hi as [->|Hi]; [|apply Hmasks, Hi].
    exists mask. split; [exact Hmask|].
    clear -Hr' Hi0.
    assert (Hkeep : ∀ l ra rb, i0 ∉ l →
              fill_register_masks s bits l ra = Some rb →
              region_register_masks rb i0 = region_register_masks ra i0).
    { clear. induction l as [|i l IHl]; intros ra rb Hi Hf.
      - simpl in Hf. injection Hf as <-. reflexivity.
      - simpl in Hf. apply bind_Some_inv in Hf as (m & _ & Hf).
        apply not_elem_of_cons in Hi as [Hne Hi].
        rewrite (IHl _ _ Hi Hf). simpl. apply fn_lookup_insert_ne. congruence. }
    rewrite (Hkeep _ _ _ Hi0 Hr'). simpl. apply fn_lookup_insert.
Qed.

(** *** Live bits *)

Lemma live_below_S mask reg :
  live_below mask (S reg)
  = (live_below mask reg + if mask_bit mask reg then 1 else 0)%nat.
Proof.
  unfold live_below. rewrite seq_S, filter_app, length_app. simpl. f_equal.
  rewrite filter_cons. destruct (mask_bit mask reg).
  - rewrite decide_True by reflexivity. reflexivity.
  - rewrite decide_False by discriminate. reflexivity.
Qed.

Lemma live_below_take m reg :
  live_below (Some m) reg = BitVector_NumSetBits (take reg m).
Proof.
  induction reg as [|reg IH]; [reflexivity|].
  rewrite live_below_S, IH. simpl. unfold BitVector_IsBitSet.
  destruct (m !! reg) as [b|] eqn:Eb.
  - rewrite (take_S_r _ _ _ Eb), NumSetBits_app. simpl. f_equal.
    unfold BitVector_NumSetBits. destruct b; reflexivity.
  - apply lookup_ge_None in Eb. rewrite !take_ge by lia. simpl. lia.
Qed.

Lemma live_below_lt m reg :
  BitVector_IsBitSet m reg = true →
  (live_below (Some m) reg < BitVector_NumSetBits m)%nat.
Proof.
  intros Hset. unfold BitVector_IsBitSet in Hset.
  destruct (m !! reg) as [b|] eqn:Eb; [|discriminate]. simpl in Hset. subst b.
  rewrite live_below_take.
  pose proof (NumSetBits_app (take (S reg) m) (drop (S reg) m)) as Happ.
  rewrite take_drop in Happ.
  rewrite (take_S_r _ _ _ Eb), NumSetBits_app in Happ.
  change (BitVector_NumSetBits [true]) with 1%nat in Happ. lia.
Qed.

Lemma live_below_ext mask (live : nat → bool) reg :
  (∀ i, (i < reg)%nat → live i = mask_bit mask i) →
  length (filter (λ i, live i = true) (seq 0 reg)) = live_below mask reg.
Proof.
  induction reg as [|reg IH]; intros Hlive; [reflexivity|].
  rewrite live_below_S, <- IH by (intros i Hi; apply Hlive; lia).
  rewrite seq_S, filter_app, length_app. simpl. f_equal.
  rewrite filter_cons, (Hlive reg) by lia. destruct (mask_bit mask reg).
  - rewrite decide_True by reflexivity. reflexivity.
  - rewrite decide_False by discriminate. reflexivity.
Qed.

Lemma NumSetBits_no_bit m reg :
  BitVector_NumSetBits m = 0%nat → BitVector_IsBitSet m reg = false.
Proof.
  intros Hz. destruct (BitVector_IsBitSet m reg) eqn:Eb; [|reflexivity].
  apply live_below_lt in Eb. lia.
Qed.

(** *** Bits *)

Lemma LoadBits_StoreBits bits value :
  0 ≤ value < 2 ^ Z.of_nat bits → is_uint32 value →
  LoadBits bits (StoreBits bits value) = value.
Proof.
  intros Hv Hu. unfold LoadBits, StoreBits.
  rewrite to_uint32_small by exact Hu.
  rewrite (Z.mod_small value) by lia. apply Z.mod_small. lia.
Qed.

(** *** A dex register map read back *)

Lemma sentinel_reads_back s encoding r bits raw num_dex_registers mask start :
  raw = FieldEncoding_Store bits (-1) kNoDexRegisterMap →
  num_dex_registers = 0 ∨ live_count mask = 0%nat →
  dex_register_map_reads_back s encoding r (FieldEncoding_Load bits (-1) raw)
    num_dex_registers mask start.
Proof.
  intros -> Hno. unfold dex_register_map_reads_back.
  unfold kNoDexRegisterMap at 1 3. rewrite FieldEncoding_Load_Store_sentinel.
  unfold GetDexRegisterMapAt.
  rewrite bool_decide_eq_true_2 by reflexivity.
  split; [reflexivity|]. intros reg Hreg.
  assert (Hdead : mask_bit mask reg = false).
  { destruct Hno as [Hz|Hz]; [lia|].
    destruct mask as [m|]; [|reflexivity]. simpl in *.
    apply NumSetBits_no_bit, Hz. }
  unfold recorded_location. rewrite Hdead. split; reflexivity.
Qed.

Lemma map_laid_reads_back s encoding r bound raw bits num_dex_registers mask start :
  catalog_ready s encoding →
  catalog_written s r →
  map_laid s r bound raw bits num_dex_registers mask start →
  num_dex_registers ≠ 0 →
  (bound ≤ cie_dex_register_map_num_bytes encoding)%nat →
  Z.of_nat (cie_dex_register_map_num_bytes encoding) < 2 ^ Z.of_nat bits →
  Z.of_nat (cie_dex_register_map_num_bytes encoding) ≤ uint32_max →
  dex_register_map_reads_back s encoding r (FieldEncoding_Load bits (-1) raw)
    num_dex_registers mask start.
Proof.
  intros (Hnum & Hindices & _ & Hfit & Hsmallc) Hcatalog Hlaid Hnz Hbound Hbits Hsmall.
  destruct (map_laid_decode _ _ _ _ _ _ _ _ _ Hlaid Hbound Hbits Hsmall)
    as (offset & m & -> & Hlt & _ & Hload & Hvalid & Hlive & Hentries).
  unfold dex_register_map_reads_back. rewrite Hload.
  unfold GetDexRegisterMapAt. rewrite bool_decide_eq_false_2 by exact Hvalid.
  rewrite Nat2Z.id, Hnum. split; [intros Hz; contradiction|].
  intros reg Hreg. cbn [map_register_live seen_location mask_bit].
  split; [apply Hlive, Hreg|].
  unfold recorded_location, GetDexRegisterLocation. cbn [mask_bit].
  rewrite (Hlive reg Hreg).
  destruct (BitVector_IsBitSet m reg) eqn:Eb; [|reflexivity].
  assert (Hk : (live_below (Some m) reg < BitVector_NumSetBits m)%nat)
    by (apply live_below_lt, Eb).
  destruct (Hentries _ Hk) as (index & Hindex & Hentry).
  rewrite Hindex. cbn [mbind option_bind].
  assert (Hin : (index < length (location_catalog_entries_ s))%nat).
  { eapply Forall_lookup_1 in Hindices; [|exact Hindex]. exact Hindices. }
  destruct (lookup_lt_is_Some_2 _ _ Hin) as [location Hlocation].
  rewrite Hlocation. f_equal. symmetry.
  unfold GetIndexInDexRegisterMap.
  rewrite (live_below_ext (Some m)) by (intros i Hi; apply Hlive; lia).
  rewrite Hentry, Hnum.
  rewrite LoadBits_StoreBits.
  - rewrite Nat2Z.id. apply Hcatalog, Hlocation.
  - specialize (Hfit index Hin). lia.
  - unfold is_uint32. lia.
Qed.

Lemma holds_reads_back bits min_value raw value :
  raw = FieldEncoding_Store bits min_value value →
  field_fits bits min_value value →
  FieldEncoding_Load bits min_value raw = value.
Proof. intros -> [Hu Hb]. apply FieldEncoding_Load_Store; assumption. Qed.

Lemma method_halves method :
  0 ≤ method < 2 ^ 64 →
  Z.lor (Low32Bits method) (Z.shiftl (High32Bits method) 32) = method.
Proof.
  intros Hm. unfold Low32Bits, High32Bits, to_uint32, uint32_modulus.
  rewrite Z.shiftr_div_pow2 by lia.
  assert (Hhigh : 0 ≤ method / 2 ^ 32 < 2 ^ 32).
  { split; [apply Z.div_pos; lia|]. apply Z.div_lt_upper_bound; lia. }
  rewrite (Z.mod_small (method / 2 ^ 32)) by lia.
  rewrite Z.shiftl_mul_pow2 by lia.
  rewrite <- Z.land_ones by lia.
  rewrite <- (Z.shiftl_mul_pow2 _ 32) by lia.
  rewrite <- Z.shiftr_div_pow2 by lia.
  rewrite Z.lor_comm. rewrite <- Z.ldiff_ones_r by lia.
  apply Z.lor_ldiff_and.
Qed.

Lemma even_low_bit method :
  Z.even method = true → Z.land (Low32Bits method) 1 = 0.
Proof.
  intros He. unfold Low32Bits, to_uint32, uint32_modulus.
  change 1 with (Z.ones 1). rewrite Z.land_ones by lia.
  change (2 ^ 1) with 2.
  rewrite Z.mod_mod_divide by (exists (2 ^ 31); reflexivity).
  rewrite Zeven_mod in He. apply Z.eqb_eq in He. exact He.
Qed.

Lemma InlineInfo_GetDepth_ok ie r first depth : ∀ remaining acc,
  (acc < depth)%nat → (depth - acc ≤ remaining)%nat →
  (∀ d, (acc ≤ d < depth)%nat →
     InlineInfo_Get ie (first + d) kIsLast r
     = if bool_decide (d = depth - 1)%nat then 1 else 0) →
  InlineInfo_GetDepth ie r remaining first acc = Some depth.
Proof.
  induction remaining as [|remaining IH]; intros acc Hacc Hfuel Hflags; [lia|].
  cbn [InlineInfo_GetDepth]. rewrite (Hflags acc) by lia.
  destruct (decide (acc = depth - 1)%nat) as [Hlast|Hlast].
  - rewrite (bool_decide_eq_true_2 (acc = depth - 1)%nat) by exact Hlast.
    rewrite bool_decide_eq_true_2 by discriminate. f_equal. lia.
  - rewrite (bool_decide_eq_false_2 (acc = depth - 1)%nat) by exact Hlast.
    rewrite bool_decide_eq_false_2 by tauto.
    apply IH; [lia|lia|]. intros d Hd. apply Hflags. lia.
Qed.

(** *** A frame read back *)

Lemma frame_written_reads_back s encoding r bound k f :
  catalog_ready s encoding →
  catalog_written s r →
  offsets_fit s encoding →
  frame_fits encoding f →
  frame_wf (dex_register_locations_ s) f →
  (bound ≤ cie_dex_register_map_num_bytes encoding)%nat →
  frame_written s encoding r bound k f →
  frame_reads_back s encoding r k f.
Proof.
  intros Hcat Hcatw (Hsmall & _ & Hbits & _) (Hf1 & Hf2 & Hf3 & Hm64 & Heven)
    (Hmask & Hn0 & _) Hbound (Hw1 & Hw2 & Hw3 & Hw4).
  unfold frame_reads_back, InlineInfo_Get, inline_info_holds in *.
  rewrite (holds_reads_back _ _ _ _ Hw1 Hf1).
  rewrite (holds_reads_back _ _ _ _ Hw2 Hf2).
  rewrite (holds_reads_back _ _ _ _ Hw3 Hf3).
  split; [reflexivity|]. split; [reflexivity|]. split; [reflexivity|].
  split.
  - unfold frame_extra_data, frame_method_index.
    destruct (decide (ii_method f ≠ 0)) as [Hm|Hm].
    + rewrite !(bool_decide_eq_true_2 (ii_method f ≠ 0)) by exact Hm.
      rewrite bool_decide_eq_true_2 by (apply even_low_bit, Heven).
      apply method_halves, Hm64.
    + rewrite !(bool_decide_eq_false_2 (ii_method f ≠ 0)) by exact Hm.
      rewrite bool_decide_eq_false_2 by discriminate. reflexivity.
  - destruct (decide (ii_num_dex_registers f = 0)) as [Hn|Hn].
    + rewrite (bool_decide_eq_true_2 _ Hn) in Hw4.
      apply sentinel_reads_back; [exact Hw4|left; exact Hn].
    + rewrite (bool_decide_eq_false_2 _ Hn) in Hw4.
      eapply map_laid_reads_back; eassumption.
Qed.

(** *** A stack map read back *)

Lemma entry_written_reads_back s encoding r bound i e :
  catalog_ready s encoding →
  catalog_written s r →
  offsets_fit s encoding →
  masks_written s encoding r →
  entry_fits encoding e →
  masks_ready s encoding e →
  Forall (frame_fits encoding) (inline_infos_ s) →
  Forall (frame_wf (dex_register_locations_ s)) (inline_infos_ s) →
  (sm_inlining_depth e ≠ 0 →
     (sm_inline_infos_start_index e + Z.to_nat (sm_inlining_depth e)
      ≤ length (inline_infos_ s))%nat) →
  0 ≤ sm_inlining_depth e →
  (bound ≤ cie_dex_register_map_num_bytes encoding)%nat →
  entry_written s encoding r bound i e →
  stack_map_reads_back s encoding r i e.
Proof.
  intros Hcat Hcatw Hoff (Hrmasks & Hsmasks) (Hf1 & Hf2 & Hf3 & Hf4 & Hf5)
    (Hri & Hrm & Hrb & Hru & Hsi & Hsm & _) Hffits Hfwf Hlen Hd0 Hbound
    (Hw1 & Hw2 & Hw3 & Hw4 & Hwmap & Hwinline).
  pose proof Hoff as (Hsmall & Hbits & _ & Hentries).
  unfold stack_map_reads_back, StackMap_Get, stack_map_holds in *.
  rewrite (holds_reads_back _ _ _ _ Hw1 Hf1).
  rewrite (holds_reads_back _ _ _ _ Hw2 Hf2).
  rewrite (holds_reads_back _ _ _ _ Hw3 Hf3).
  rewrite (holds_reads_back _ _ _ _ Hw4 Hf4).
  split; [reflexivity|]. split; [reflexivity|]. split; [reflexivity|].
  split; [reflexivity|]. split.
  { destruct (Hrmasks _ Hri) as (mask & Hmask & ->).
    rewrite Hrm in Hmask. injection Hmask as <-.
    apply LoadBits_StoreBits; assumption. }
  split; [reflexivity|]. split.
  { intros b Hb. specialize (Hsmasks _ b Hsi Hb). rewrite (Hsm b Hb) in Hsmasks.
    injection Hsmasks as <-. reflexivity. }
  split.
  { unfold entry_map_written, stack_map_holds in Hwmap.
    destruct (decide (no_dex_map e)) as [Hnd|Hnd].
    - rewrite (bool_decide_eq_true_2 _ Hnd) in Hwmap.
      apply sentinel_reads_back; [exact Hwmap|exact Hnd].
    - rewrite (bool_decide_eq_false_2 _ Hnd) in Hwmap.
      eapply map_laid_reads_back; try eassumption.
      intros Hz. apply Hnd. left. exact Hz. }
  unfold entry_inline_written, StackMap_Get, stack_map_holds in Hwinline.
  destruct (decide (sm_inlining_depth e = 0)) as [Hd|Hd];
    [rewrite !(bool_decide_eq_true_2 _ Hd) in *; exact Hwinline|].
  rewrite !(bool_decide_eq_false_2 _ Hd) in *.
  destruct Hwinline as [Hindex Hrecords].
  destruct (Hf5 Hd) as [Hfit Hvalid]. specialize (Hlen Hd).
  rewrite (holds_reads_back _ _ _ _ Hindex Hfit).
  split; [reflexivity|]. split; [exact Hvalid|]. split.
  - apply InlineInfo_GetDepth_ok; [lia|lia|].
    intros d Hdlt. destruct (Hrecords d ltac:(lia)) as (f & _ & Hlast & _).
    unfold InlineInfo_Get. rewrite Hlast. simpl.
    apply FieldEncoding_Load_Store.
    + destruct (bool_decide _); unfold is_uint32, uint32_modulus; lia.
    + destruct (bool_decide _); reflexivity.
  - intros d Hdlt. destruct (Hrecords d Hdlt) as (f & Hf & _ & Hw).
    exists f. split; [exact Hf|].
    eapply frame_written_reads_back; try eassumption.
    + eapply Forall_lookup_1; [exact Hffits|exact Hf].
    + eapply Forall_lookup_1; [exact Hfwf|exact Hf].
Qed.

(** *** The verifier on a region that reads back *)

Tactic Notation "dcheck_by" tactic3(tac) :=
  lazymatch goal with
  | |- mbind _ (DCHECK (bool_decide ?P)) = _ =>
      rewrite (bool_decide_eq_true_2 P) by tac; cbn [DCHECK mbind option_bind]
  end.

Lemma check_dex_registers_ok s encoding r map mask start num_dex_registers :
  Forall (λ location : DexRegisterLocation, location.1 ≠ kNone)
    (location_catalog_entries_ s) →
  (mask = None → num_dex_registers = 0%nat) →
  (∀ reg, (reg < num_dex_registers)%nat →
     map_register_live map reg = mask_bit mask reg
     ∧ recorded_location s mask start reg
       = Some (seen_location encoding r map reg)) →
  ∀ n a, (a + n = num_dex_registers)%nat →
    check_dex_registers s encoding r map mask (seq a n)
      (start + live_below mask a) = Some ().
Proof.
  intros Hkinds Hmask Hregs.
  induction n as [|n IH]; intros a Han; [reflexivity|].
  cbn [seq check_dex_registers].
  destruct mask as [m|]; [|specialize (Hmask eq_refl); lia].
  cbn [mbind option_bind].
  destruct (Hregs a ltac:(lia)) as [Hlive Hloc].
  unfold recorded_location in Hloc. cbn [mask_bit] in Hlive, Hloc.
  assert (Hnext : (start + live_below (Some m) (S a))%nat
                  = if BitVector_IsBitSet m a
                    then S (start + live_below (Some m) a)
                    else (start + live_below (Some m) a)%nat).
  { rewrite live_below_S. cbn [mask_bit]. destruct (BitVector_IsBitSet m a); lia. }
  destruct (BitVector_IsBitSet m a) eqn:Eb.
  - apply bind_Some_inv in Hloc as (catalog_index & Hindex & Hentry).
    rewrite Hindex. cbn [mbind option_bind]. rewrite Hentry. cbn [mbind option_bind].
    assert (Hkind : (seen_location encoding r map a).1 ≠ kNone).
    { eapply Forall_lookup_1 in Hkinds; [|exact Hentry]. exact Hkinds. }
    rewrite bool_decide_eq_false_2 by exact Hkind.
    destruct map as [map|]; [|discriminate]. cbn [map_register_live] in Hlive.
    cbn [mbind option_bind seen_location]. rewrite Hlive. cbn [DCHECK].
    rewrite !bool_decide_eq_true_2 by reflexivity. cbn [DCHECK mbind option_bind].
    rewrite <- Hnext. apply IH. lia.
  - cbn [mbind option_bind fst]. rewrite bool_decide_eq_true_2 by reflexivity.
    assert (Hdead : match map with
                    | Some map => negb (drm_live_bit_mask map a)
                    | None => true
                    end = true).
    { destruct map as [map|]; [|reflexivity]. cbn [map_register_live] in Hlive.
      rewrite Hlive. reflexivity. }
    rewrite Hdead. cbn [DCHECK mbind option_bind].
    rewrite <- Hnext. apply IH. lia.
Qed.

Lemma CheckDexRegisterMap_ok s encoding r offset num_dex_registers mask start :
  Forall (λ location : DexRegisterLocation, location.1 ≠ kNone)
    (location_catalog_entries_ s) →
  (mask = None → num_dex_registers = 0) →
  dex_register_map_reads_back s encoding r offset num_dex_registers mask start →
  CheckDexRegisterMap s encoding r
    (GetDexRegisterMapAt encoding offset (Z.to_nat num_dex_registers) r)
    num_dex_registers mask start = Some ().
Proof.
  intros Hkinds Hmask [Habsent Hregs]. unfold CheckDexRegisterMap.
  pose proof (check_dex_registers_ok s encoding r
                (GetDexRegisterMapAt encoding offset (Z.to_nat num_dex_registers) r)
                mask start (Z.to_nat num_dex_registers) Hkinds) as Hcheck.
  specialize (Hcheck ltac:(intros Hm; rewrite (Hmask Hm); reflexivity) Hregs
                (Z.to_nat num_dex_registers) 0%nat eq_refl).
  change (live_below mask 0) with 0%nat in Hcheck. rewrite Nat.add_0_r in Hcheck.
  rewrite Hcheck. cbn [mbind option_bind].
  case_bool_decide as Hz; [|reflexivity].
  rewrite (Habsent Hz). reflexivity.
Qed.

Lemma check_inline_frames_ok s encoding r entry first : ∀ depths,
  Forall (λ location : DexRegisterLocation, location.1 ≠ kNone)
    (location_catalog_entries_ s) →
  (∀ d, d ∈ depths →
     ∃ f, inline_infos_ s !! (sm_inline_infos_start_index entry + d)%nat = Some f
       ∧ frame_wf (dex_register_locations_ s) f
       ∧ frame_reads_back s encoding r (first + d) f) →
  check_inline_frames s encoding r entry first depths = Some ().
Proof.
  intros depths Hkinds. induction depths as [|d depths IH]; intros Hframes;
    [reflexivity|].
  destruct (Hframes d ltac:(left)) as (f & Hf & (Hmask & _) & Hread).
  destruct Hread as (Hpc & Hindex & Hextra & Hmethod & Hmap).
  cbn [check_inline_frames]. cbn zeta.
  pose proof (lookup_lt_Some _ _ _ Hf) as Hlt.
  rewrite (bool_decide_eq_true_2 _ Hlt).
  cbn [DCHECK mbind option_bind]. rewrite Hf. cbn [mbind option_bind].
  rewrite (bool_decide_eq_true_2 _ Hpc). cbn [DCHECK mbind option_bind].
  assert (Hm : (if bool_decide
                     (Z.land (InlineInfo_Get (cie_inline_info_encoding encoding)
                                (first + d) kExtraData r) 1 = 0)
                then DCHECK (bool_decide
                               (Z.lor (InlineInfo_Get (cie_inline_info_encoding encoding)
                                         (first + d) kExtraData r)
                                  (Z.shiftl
                                     (InlineInfo_Get (cie_inline_info_encoding encoding)
                                        (first + d) kMethodIndex r) 32)
                                = ii_method f))
                else DCHECK (bool_decide
                               (InlineInfo_Get (cie_inline_info_encoding encoding)
                                  (first + d) kMethodIndex r
                                = ii_method_index f))) = Some ()).
  { destruct (bool_decide _); rewrite bool_decide_eq_true_2 by exact Hmethod;
      reflexivity. }
  rewrite Hm. cbn [mbind option_bind].
  rewrite CheckDexRegisterMap_ok; [|exact Hkinds|apply Hmask|exact Hmap].
  cbn [mbind option_bind]. apply IH.
  intros d' Hd'. apply Hframes. right. exact Hd'.
Qed.

Lemma forallb_seq (f : nat → bool) n :
  (∀ b, (b < n)%nat → f b = true) → forallb f (seq 0 n) = true.
Proof.
  intros Hf. apply forallb_forall. intros b Hb. apply in_seq in Hb.
  apply Hf. lia.
Qed.

Lemma check_stack_map_ok s encoding r i e :
  Forall (λ location : DexRegisterLocation, location.1 ≠ kNone)
    (location_catalog_entries_ s) →
  Forall (frame_wf (dex_register_locations_ s)) (inline_infos_ s) →
  entry_wf (dex_register_locations_ s) e →
  (∀ m, sm_sp_mask e = Some m →
     BitVector_GetHighestBitSet m + 1 ≤ Z.of_nat (cie_stack_mask_num_bits encoding)) →
  stack_map_reads_back s encoding r i e →
  check_stack_map s encoding r i e = Some ().
Proof.
  intros Hkinds Hframes [Hmask _] Hhigh
    (Hpc & Hnative & _ & Hri & Hrm & Hsi & Hsm & Hmap & Hinline).
  unfold check_stack_map. cbn zeta.
  rewrite Hnative. dcheck_by reflexivity. dcheck_by (exact Hpc).
  rewrite Hri, Hsi, !Nat2Z.id.
  dcheck_by reflexivity. dcheck_by (exact Hrm). dcheck_by reflexivity.
  assert (Hbits : match sm_sp_mask e with
                  | Some sp_mask =>
                      DCHECK (bool_decide
                                (BitVector_GetHighestBitSet sp_mask + 1
                                 ≤ Z.of_nat (cie_stack_mask_num_bits encoding)));;
                      DCHECK (forallb
                                (λ b, bool_decide
                                        (region_stack_masks r (sm_stack_mask_index e, b)
                                         = BitVector_IsBitSet sp_mask b))
                                (seq 0 (cie_stack_mask_num_bits encoding)))
                  | None =>
                      DCHECK (forallb
                                (λ b, bool_decide
                                        (region_stack_masks r (sm_stack_mask_index e, b)
                                         = false))
                                (seq 0 (cie_stack_mask_num_bits encoding)))
                  end = Some ()).
  { destruct (sm_sp_mask e) as [sp_mask|] eqn:Esp.
    - rewrite bool_decide_eq_true_2 by (apply Hhigh; reflexivity).
      cbn [DCHECK mbind option_bind]. rewrite forallb_seq; [reflexivity|].
      intros b Hb. apply bool_decide_eq_true_2. apply (Hsm b Hb).
    - rewrite forallb_seq; [reflexivity|].
      intros b Hb. apply bool_decide_eq_true_2. apply (Hsm b Hb). }
  rewrite Hbits. cbn [mbind option_bind].
  rewrite CheckDexRegisterMap_ok; [|exact Hkinds|apply Hmask|exact Hmap].
  cbn [mbind option_bind].
  destruct (decide (sm_inlining_depth e = 0)) as [Hd|Hd].
  - rewrite (bool_decide_eq_true_2 _ Hd) in Hinline. rewrite Hinline.
    rewrite (bool_decide_eq_false_2 (kNoInlineInfo ≠ kNoInlineInfo)) by tauto.
    rewrite !(bool_decide_eq_false_2 (sm_inlining_depth e ≠ 0)) by tauto.
    reflexivity.
  - rewrite (bool_decide_eq_false_2 _ Hd) in Hinline.
    destruct Hinline as (Hindex & Hvalid & Hdepth & Hrecords).
    rewrite Hindex, Nat2Z.id.
    rewrite (bool_decide_eq_true_2 (Z.of_nat _ ≠ kNoInlineInfo)) by exact Hvalid.
    rewrite !(bool_decide_eq_true_2 (sm_inlining_depth e ≠ 0)) by exact Hd.
    dcheck_by reflexivity. rewrite Hdepth. cbn [mbind option_bind].
    assert (Hd0 : 0 ≤ sm_inlining_depth e).
    { destruct (Z.to_nat (sm_inlining_depth e)) eqn:En; [|lia].
      cbn [InlineInfo_GetDepth] in Hdepth.
      destruct (cie_inline_info_num_entries encoding - sm_inline_infos_start_index e)%nat
        as [|fuel]; cbn [InlineInfo_GetDepth] in Hdepth; [discriminate|].
      destruct (bool_decide _) in Hdepth; [discriminate|].
      clear -Hdepth. exfalso. revert Hdepth. generalize 1%nat at 1.
      induction fuel as [|fuel IH]; intros acc Hdepth; cbn [InlineInfo_GetDepth] in Hdepth;
        [discriminate|].
      destruct (bool_decide _) in Hdepth; [discriminate|]. eapply IH, Hdepth. }
    dcheck_by lia.
    apply check_inline_frames_ok; [exact Hkinds|].
    intros d Hdlt. apply elem_of_seq in Hdlt.
    destruct (Hrecords d ltac:(lia)) as (f & Hf & Hread).
    exists f. split; [exact Hf|]. split; [|exact Hread].
    eapply Forall_lookup_1; [exact Hframes|exact Hf].
Qed.

Lemma check_stack_maps_ok s encoding r : ∀ entries i,
  (∀ k e, entries !! k = Some e →
     check_stack_map s encoding r (i + k) e = Some ()) →
  check_stack_maps s encoding r i entries = Some ().
Proof.
  induction entries as [|e entries IH]; intros i Hall; [reflexivity|].
  cbn [check_stack_maps].
  pose proof (Hall 0%nat e eq_refl) as He. rewrite Nat.add_0_r in He.
  rewrite He. cbn [mbind option_bind]. apply IH.
  intros k e' Hk. replace (S i + k)%nat with (i + S k)%nat by lia.
  apply Hall. exact Hk.
Qed.

Lemma inline_starts_from_lookup entries : ∀ index i e,
  inline_starts_from index entries → entries !! i = Some e →
  (sm_inline_infos_start_index e + Z.to_nat (sm_inlining_depth e)
   ≤ index + total_inlining_depth entries)%nat.
Proof.
  induction entries as [|e0 entries IH]; intros index i e Hstarts Hi;
    [rewrite lookup_nil in Hi; discriminate|].
  destruct Hstarts as [Hstart Hstarts]. destruct i as [|i].
  - injection Hi as <-. simpl. lia.
  - simpl in Hi. specialize (IH _ _ _ Hstarts Hi). simpl. lia.
Qed.

(** [FillIn] on a prepared stream returns, and the region it returns reads
    back as the entries of the stream. *)
Lemma FillIn_ready s encoding region_size region :
  fill_ready s encoding →
  region_size = needed_size_ s →
  ∃ r,
    FillIn s region_size region = Some r
    ∧ CheckCodeInfo s r = Some ()
    ∧ region_header r = code_info_encoding_ s
    ∧ ∀ i e, stack_maps_ s !! i = Some e → stack_map_reads_back s encoding r i e.
Proof.
  intros [Hclosed Hsize Hheader Hcount Hbytes Hentries Hframes Hstarts Hdepth Hroom
            Hoffsets Hcatalog Hsmasks Hrmasks Hhroom Hmroom Hcroom] ->.
  pose proof Hoffsets as (Hsmall & Hbits & _ & _).
  assert (Hfwf : Forall (frame_wf (dex_register_locations_ s)) (inline_infos_ s)).
  { eapply Forall_impl; [exact Hframes|]. intros f [Hf _]. exact Hf. }
  assert (Hffits : Forall (frame_fits encoding) (inline_infos_ s)).
  { eapply Forall_impl; [exact Hframes|]. intros f [_ Hf]. exact Hf. }
  unfold FillIn.
  rewrite (bool_decide_eq_true_2 (0 = sm_dex_pc (current_entry_ s))) by congruence.
  cbn [DCHECK mbind option_bind].
  rewrite (bool_decide_eq_true_2 (0%nat ≠ needed_size_ s)) by congruence.
  cbn [DCHECK mbind option_bind].
  rewrite (bool_decide_eq_true_2 (needed_size_ s = needed_size_ s)) by reflexivity.
  cbn [DCHECK mbind option_bind].
  rewrite (bool_decide_eq_true_2 _ Hhroom). cbn [DCHECK mbind option_bind]. cbn zeta.
  change (region_header (MemoryRegion_set_header (code_info_encoding_ s) region))
    with (code_info_encoding_ s).
  rewrite Hheader. cbn [mbind option_bind].
  rewrite (bool_decide_eq_true_2 _ Hcount). cbn [DCHECK mbind option_bind].
  rewrite (bool_decide_eq_true_2 _ Hmroom). cbn [DCHECK mbind option_bind].
  rewrite (bool_decide_eq_true_2 _ Hcroom). cbn [DCHECK mbind option_bind].
  (* the catalog *)
  destruct (fill_location_catalog 0 (location_catalog_entries_ s)
              DexRegisterLocationCatalog_kFixedSize
              (MemoryRegion_set_header (code_info_encoding_ s) region))
    as [r1 offset] eqn:Hfill.
  apply fill_location_catalog_spec in Hfill
    as (-> & Hcat1 & _ & Hh1 & _).
  fold (ComputeDexRegisterLocationCatalogSize s).
  rewrite (bool_decide_eq_true_2
             (ComputeDexRegisterLocationCatalogSize s
              = cie_location_catalog_num_bytes encoding)) by congruence.
  cbn [DCHECK mbind option_bind].
  (* the stack maps *)
  destruct (fill_stack_maps_ok s encoding (stack_maps_ s) 0
              {| fc_region := r1;
                 next_dex_register_map_offset := 0;
                 next_inline_info_index := 0 |})
    as (c & Hc & (Hh2 & Hcat2 & _ & _) & Hle & Hwritten).
  { intros k e Hk. split; [exact Hk|]. apply Hentries, Hk. }
  { exact Hfwf. }
  { exact Hstarts. }
  { simpl. lia. }
  { simpl. exact Hroom. }
  { exact Hbits. }
  { exact Hsmall. }
  { intros j e Hj. lia. }
  simpl in Hh2, Hcat2, Hwritten.
  rewrite Hc. cbn [mbind option_bind].
  (* the stack masks *)
  set (bits := cie_stack_mask_num_bits encoding) in *.
  set (bytes := (RoundUp bits kBitsPerByte / kBitsPerByte)%nat) in *.
  assert (Hmasks : ∃ r2,
            (if bool_decide (0 < bits)%nat
             then fill_stack_masks s bits
                    (seq 0 (cie_stack_mask_num_entries encoding)) (fc_region c)
             else Some (fc_region c)) = Some r2
            ∧ maps_tables_kept (fc_region c) r2
            ∧ ∀ i b, (i < cie_stack_mask_num_entries encoding)%nat → (b < bits)%nat →
                stack_masks_ s !! (kBitsPerByte * (i * bytes) + b)%nat
                = Some (region_stack_masks r2 (i, b))).
  { case_bool_decide as Hpos.
    - destruct (fill_stack_masks_ok s bits
                  (seq 0 (cie_stack_mask_num_entries encoding)) (fc_region c))
        as (r2 & Hr2 & Hkept & _ & Hbits2).
      { apply NoDup_seq. }
      { intros i b Hi Hb. apply elem_of_seq in Hi. fold bytes.
        pose proof (RoundUp_bytes bits) as Hround. fold bytes in Hround.
        unfold kBitsPerByte in *. nia. }
      exists r2. split; [exact Hr2|]. split; [exact Hkept|].
      intros i b Hi Hb. apply Hbits2; [apply elem_of_seq; lia|exact Hb].
    - exists (fc_region c). split; [reflexivity|].
      split; [apply maps_tables_kept_refl|]. intros i b _ Hb. lia. }
  destruct Hmasks as (r2 & Hr2 & Hkept2 & Hbits2).
  rewrite Hr2. cbn [mbind option_bind].
  (* the register masks *)
  destruct (fill_register_masks_ok s (cie_register_mask_num_bits encoding)
              (seq 0 (cie_register_mask_num_entries encoding)) r2)
    as (r3 & Hr3 & Hkept3 & Hsm3 & Hmasks3).
  { apply NoDup_seq. }
  { intros i Hi. apply elem_of_seq in Hi. lia. }
  rewrite Hr3. cbn [mbind option_bind].
  (* the region that [FillIn] returns *)
  assert (Hkept : maps_tables_kept (fc_region c) r3)
    by (eapply maps_tables_kept_trans; eassumption).
  pose proof Hkept as (Hh3 & Hcat3 & _).
  assert (Hheader3 : region_header r3 = code_info_encoding_ s).
  { rewrite Hh3, Hh2, Hh1. reflexivity. }
  assert (Hcatw : catalog_written s r3).
  { intros k location Hk. rewrite Hcat3, Hcat2. apply (Hcat1 k), Hk. }
  assert (Hmw : masks_written s encoding r3).
  { split.
    - intros i Hi. apply Hmasks3. apply elem_of_seq. lia.
    - intros i b Hi Hb. rewrite Hsm3. apply Hbits2; assumption. }
  assert (Hread : ∀ i e, stack_maps_ s !! i = Some e →
            stack_map_reads_back s encoding r3 i e).
  { intros i e Hi.
    destruct (Hentries i e Hi) as ((Hwf & Hn0 & Hd0 & _) & Hfits & Hmready).
    eapply (entry_written_reads_back s encoding r3
              (next_dex_register_map_offset c) i e); try eassumption.
    - intros _. pose proof (inline_starts_from_lookup _ _ _ _ Hstarts Hi). lia.
    - eapply entry_written_kept; [exact Hkept|].
      apply Hwritten; [apply lookup_lt_Some in Hi; simpl; lia|exact Hi]. }
  assert (Hcheck : CheckCodeInfo s r3 = Some ()).
  { unfold CheckCodeInfo. rewrite Hheader3, Hheader. cbn [mbind option_bind].
    rewrite (bool_decide_eq_true_2 _ Hcount). cbn [DCHECK mbind option_bind].
    apply check_stack_maps_ok. intros k e Hk.
    destruct (Hentries k e Hk) as ((Hwf & _) & _ & Hmready).
    apply check_stack_map_ok.
    - apply Hcatalog.
    - exact Hfwf.
    - exact Hwf.
    - apply Hmready.
    - apply Hread. exact Hk. }
  exists r3. rewrite Hcheck. cbn [mbind option_bind].
  split; [reflexivity|]. split; [reflexivity|]. split; [exact Hheader3|exact Hread].
Qed.

(** *** The invariant of legal sequences *)

Lemma entry_bounded_mono a b c a' b' c' e :
  a ≤ a' → b ≤ b' → c ≤ c' → entry_bounded a b c e → entry_bounded a' b' c' e.
Proof.
  intros Ha Hb Hc (H1 & H2 & H3 & H4). split; [lia|]. split; [lia|].
  split; [|exact H4]. intros m Hm. specialize (H3 m Hm). lia.
Qed.

Lemma frame_wf_app locations extra f :
  frame_wf locations f → frame_wf (locations ++ extra) f.
Proof.
  intros (H1 & H2 & H3). split; [exact H1|]. split; [exact H2|].
  rewrite length_app. lia.
Qed.

Lemma frame_recorded_app locations extra f :
  frame_recorded locations f → frame_recorded (locations ++ extra) f.
Proof. intros (H1 & H2). split; [apply frame_wf_app, H1|exact H2]. Qed.

Lemma frame_recorded_zero locations : frame_recorded locations InlineInfoEntry_zero.
Proof.
  unfold frame_recorded, frame_wf, InlineInfoEntry_zero. simpl.
  split; [|split; [reflexivity|intros _; apply is_uint32_0]].
  split; [tauto|]. split; lia.
Qed.

Lemma total_inlining_depth_app a b :
  total_inlining_depth (a ++ b)
  = (total_inlining_depth a + total_inlining_depth b)%nat.
Proof.
  induction a as [|e a IH]; [reflexivity|]. simpl. rewrite IH. lia.
Qed.

Lemma inline_starts_from_snoc entries e : ∀ index,
  inline_starts_from index entries →
  sm_inline_infos_start_index e = (index + total_inlining_depth entries)%nat →
  inline_starts_from index (entries ++ [e]).
Proof.
  induction entries as [|e0 entries IH]; intros index Hstarts He; simpl in *.
  - split; [lia|exact I].
  - destruct Hstarts as [H0 Hstarts]. split; [exact H0|]. apply IH; [exact Hstarts|lia].
Qed.

Lemma stream_legal_new isa :
  0 < GetInstructionSetInstructionAlignment isa →
  stream_legal Idle (StackMapStream_new isa).
Proof.
  intros Halign.
  assert (Hzero : ∀ a b c, 0 ≤ a → 0 ≤ b → entry_bounded a b c StackMapEntry_zero).
  { intros a b c Ha Hb. unfold entry_bounded, StackMapEntry_zero. simpl.
    split; [exact Ha|]. split; [exact Hb|]. split; [intros m Hm; discriminate|].
    unfold uint32_modulus. lia. }
  split.
  - simpl. repeat split.
  - reflexivity.
  - exact I.
  - constructor.
  - apply frame_recorded_zero.
  - constructor.
  - constructor.
  - intros location index Hl. simpl in Hl. rewrite lookup_empty in Hl. discriminate.
  - constructor.
  - apply Hzero; simpl; lia.
  - simpl. lia.
  - exact Halign.
  - repeat split.
Qed.

Lemma BeginStackMapEntry_legal dex_pc native_pc_offset register_mask sp_mask
    num_dex_registers inlining_depth s s' :
  is_uint32 native_pc_offset →
  stream_legal Idle s →
  BeginStackMapEntry dex_pc native_pc_offset register_mask sp_mask
    num_dex_registers inlining_depth s = Some s' →
  stream_legal (InEntry (Z.to_nat inlining_depth)) s'.
Proof.
  intros Hnative [Hphase Hzero Hstarts Hframes Hcur Hlocs Hcat Hind Hb Hcb Hmax
                    Halign Htab] Hcall.
  destruct Hphase as (Hentry & Hin & Hlen).
  destruct Hmax as (Hm1 & Hm2 & Hm3).
  unfold BeginStackMapEntry in Hcall.
  apply DCHECK_bind_Some in Hcall as [_ Hcall].
  apply DCHECK_bind_Some in Hcall as [_ Hcall].
  injection Hcall as <-. split; simpl; try assumption.
  - split; [exact Hin|]. split; [exact Hlen|]. lia.
  - eapply Forall_impl; [exact Hb|]. intros e He.
    eapply entry_bounded_mono; [| | |exact He]; [lia|lia|].
    destruct sp_mask; lia.
  - split; simpl; [lia|]. split; [lia|]. split.
    + intros m ->. lia.
    + unfold CodeOffset_FromOffset. unfold is_uint32 in Hnative.
      split; [apply Z.div_pos; lia|].
      apply Z.div_lt_upper_bound; [lia|]. nia.
  - split; [lia|]. split; [lia|]. destruct sp_mask; lia.
Qed.

Lemma intern_location_legal location s index catalog indices :
  intern_location location s = (index, catalog, indices) →
  IsShortLocationKind location.1 = true →
  Forall (λ index, (index < length (location_catalog_entries_ s))%nat)
    (dex_register_locations_ s) →
  Forall (λ location : DexRegisterLocation, IsShortLocationKind location.1 = true)
    (location_catalog_entries_ s) →
  (∀ location index,
     location_catalog_entries_indices_ s !! location = Some index →
     (index < length (location_catalog_entries_ s))%nat) →
  Forall (λ index, (index < length catalog)%nat) (dex_register_locations_ s ++ [index])
  ∧ Forall (λ location : DexRegisterLocation, IsShortLocationKind location.1 = true)
      catalog
  ∧ ∀ location index, indices !! location = Some index → (index < length catalog)%nat.
Proof.
  intros Hintern Hshort Hlocs Hcat Hind. unfold intern_location in Hintern.
  destruct (location_catalog_entries_indices_ s !! location) as [found|] eqn:Ef.
  - injection Hintern as <- <- <-. split; [|split; assumption].
    apply Forall_app. split; [exact Hlocs|]. constructor; [|constructor].
    eapply Hind, Ef.
  - injection Hintern as <- <- <-. rewrite length_app. simpl. split; [|split].
    + apply Forall_app. split.
      * eapply Forall_impl; [exact Hlocs|]. simpl. intros; lia.
      * constructor; [lia|constructor].
    + apply Forall_app. split; [exact Hcat|]. constructor; [exact Hshort|constructor].
    + intros location' index' Hl. destruct (decide (location' = location)) as [->|Hne].
      * rewrite lookup_insert_eq in Hl. injection Hl as <-. lia.
      * rewrite lookup_insert_ne in Hl by congruence.
        specialize (Hind _ _ Hl). lia.
Qed.

Lemma add_live_location_legal kind value p s s' :
  (∃ k, p = InEntry k ∨ p = InFrame k) →
  stream_legal p s →
  add_live_location kind value s = Some s' →
  stream_legal p s'.
Proof.
  intros Hp [Hphase Hzero Hstarts Hframes Hcur Hlocs Hcat Hind Hb Hcb Hmax
               Halign Htab] Hcall.
  unfold add_live_location in Hcall.
  apply DCHECK_bind_Some in Hcall as [Hshort Hcall].
  destruct (intern_location (kind, value) s) as [[index catalog] indices] eqn:Hintern.
  destruct (intern_location_legal _ _ _ _ _ Hintern Hshort Hlocs Hcat Hind)
    as (Hlocs' & Hcat' & Hind').
  apply bind_Some_inv in Hcall as ([entry inline_info] & Hei & Hcall).
  injection Hcall as <-.
  destruct (in_inline_frame_ s) eqn:Ein.
  - apply DCHECK_bind_Some in Hei as [Hcursor Hei].
    apply bind_Some_inv in Hei as (mask & Hmask & Hei). injection Hei as <- <-.
    split; simpl; try assumption.
    + destruct Hp as [k [-> | ->]]; unfold phase_holds in *; simpl in *;
        destruct Hphase as (Hin & Hstart & Hlen); rewrite Ein in Hin;
        first [discriminate|repeat split; assumption].
    + discriminate.
    + eapply Forall_impl; [exact Hframes|]. intros f. apply frame_recorded_app.
    + destruct Hcur as ((Hm & Hn0 & Hle) & Heven & Hidx).
      split; [|split; assumption]. split; simpl.
      * rewrite Hmask in Hm. split; [discriminate|].
        intros Hz. apply Hm in Hz. discriminate.
      * split; [exact Hn0|]. rewrite Hmask in Hle. simpl in Hle.
        rewrite length_app. simpl.
        pose proof (NumSetBits_SetBit_le mask (Z.to_nat (current_dex_register_ s))).
        lia.
  - apply DCHECK_bind_Some in Hei as [Hcursor Hei].
    apply bind_Some_inv in Hei as (mask & Hmask & Hei). injection Hei as <- <-.
    split; simpl; try assumption.
    + destruct Hp as [k [-> | ->]]; unfold phase_holds in *; simpl in *;
        destruct Hphase as (Hin & Hstart & Hlen); rewrite Ein in Hin;
        first [discriminate|repeat split; assumption].
    + eapply Forall_impl; [exact Hframes|]. intros f. apply frame_recorded_app.
    + apply frame_recorded_app, Hcur.
Qed.

Lemma AddDexRegisterEntry_legal kind value p s s' :
  (∃ k, p = InEntry k ∨ p = InFrame k) →
  stream_legal p s →
  AddDexRegisterEntry kind value s = Some s' →
  stream_legal p s'.
Proof.
  intros Hp Hlegal Hcall. unfold AddDexRegisterEntry in Hcall.
  apply bind_Some_inv in Hcall as (s1 & Hs1 & Hcall). injection Hcall as <-.
  assert (Hlegal1 : stream_legal p s1).
  { case_bool_decide; [|injection Hs1 as <-; exact Hlegal].
    eapply add_live_location_legal; eassumption. }
  destruct Hlegal1 as [Hphase Hzero Hstarts Hframes Hcur Hlocs Hcat Hind Hb Hcb Hmax
                         Halign Htab].
  split; simpl; try assumption.
Qed.

Lemma BeginInlineInfoEntry_legal method dex_pc num_dex_registers outer_dex_file
    k s s' :
  (∀ method, is_uint32 (GetDexMethodIndexUnchecked method)) →
  (EncodeArtMethodInInlineInfo method = true → Z.even method = true) →
  0 ≤ num_dex_registers →
  stream_legal (InEntry (S k)) s →
  BeginInlineInfoEntry method dex_pc num_dex_registers outer_dex_file s = Some s' →
  stream_legal (InFrame k) s'.
Proof.
  intros Hindex Haligned Hn0
    [Hphase Hzero Hstarts Hframes Hcur Hlocs Hcat Hind Hb Hcb Hmax Halign Htab] Hcall.
  destruct Hphase as (Hin & Hstart & Hlen).
  unfold BeginInlineInfoEntry in Hcall.
  apply DCHECK_bind_Some in Hcall as [_ Hcall].
  apply bind_Some_inv in Hcall as ([method_field method_index_field] & Hmm & Hcall).
  injection Hcall as <-.
  specialize (Hzero Hin).
  assert (Hfields : Z.even method_field = true
                    ∧ (method_field = 0 → is_uint32 method_index_field)).
  { destruct (EncodeArtMethodInInlineInfo method).
    - injection Hmm as <- <-. split; [apply Haligned; reflexivity|].
      intros _. rewrite Hzero. apply is_uint32_0.
    - apply bind_Some_inv in Hmm as (? & _ & Hmm). injection Hmm as <- <-.
      rewrite Hzero. split; [reflexivity|]. intros _. apply Hindex. }
  split; simpl; try assumption.
  - split; [reflexivity|]. split; [exact Hstart|exact Hlen].
  - discriminate.
  - split; [|exact Hfields]. split; simpl.
    + destruct (decide (num_dex_registers = 0)) as [Hz|Hz].
      * rewrite bool_decide_eq_false_2 by tauto. tauto.
      * rewrite bool_decide_eq_true_2 by exact Hz. split; [discriminate|tauto].
    + split; [exact Hn0|].
      destruct (decide (num_dex_registers = 0)) as [Hz|Hz].
      * rewrite (bool_decide_eq_false_2 (num_dex_registers ≠ 0)) by tauto.
        simpl. lia.
      * rewrite (bool_decide_eq_true_2 (num_dex_registers ≠ 0)) by exact Hz.
        simpl. unfold BitVector_Create. rewrite NumSetBits_replicate_false. lia.
Qed.

Lemma EndInlineInfoEntry_legal k s s' :
  stream_legal (InFrame k) s →
  EndInlineInfoEntry s = Some s' →
  stream_legal (InEntry k) s'.
Proof.
  intros [Hphase Hzero Hstarts Hframes Hcur Hlocs Hcat Hind Hb Hcb Hmax Halign Htab]
    Hcall.
  destruct Hphase as (Hin & Hstart & Hlen).
  unfold EndInlineInfoEntry in Hcall.
  apply DCHECK_bind_Some in Hcall as [_ Hcall].
  apply DCHECK_bind_Some in Hcall as [_ Hcall].
  injection Hcall as <-. split; simpl; try assumption.
  - split; [reflexivity|]. split; [exact Hstart|]. rewrite length_app. simpl. lia.
  - reflexivity.
  - apply Forall_app. split; [exact Hframes|]. constructor; [exact Hcur|constructor].
  - apply frame_recorded_zero.
Qed.

Lemma EndStackMapEntry_legal s s' :
  stream_legal (InEntry 0) s →
  EndStackMapEntry s = Some s' →
  stream_legal Idle s'.
Proof.
  intros [Hphase Hzero Hstarts Hframes Hcur Hlocs Hcat Hind Hb Hcb Hmax Halign Htab]
    Hcall.
  destruct Hphase as (Hin & Hstart & Hlen).
  destruct Hmax as (Hm1 & Hm2 & Hm3).
  unfold EndStackMapEntry in Hcall.
  apply bind_Some_inv in Hcall as ([same_as index] & _ & Hcall).
  injection Hcall as <-. split; simpl; try assumption.
  - split; [reflexivity|]. split; [exact Hin|].
    rewrite total_inlining_depth_app. simpl. lia.
  - apply inline_starts_from_snoc; [exact Hstarts|]. simpl. exact Hstart.
  - apply Forall_app. split; [exact Hb|]. constructor; [exact Hcb|constructor].
  - split; simpl; [lia|]. split; [lia|]. split; [intros m Hm; discriminate|].
    unfold uint32_modulus. lia.
  - tauto.
Qed.

Lemma call_legal c p p' s s' :
  (∀ method, is_uint32 (GetDexMethodIndexUnchecked method)) →
  StreamCall_typed c →
  StreamCall_method_aligned c →
  phase_after p c = Some p' →
  stream_legal p s →
  call c s = Some s' →
  stream_legal p' s'.
Proof.
  intros Hindex Htyped Haligned Hphase Hlegal Hcall.
  destruct c; simpl in *.
  - destruct p; try discriminate. injection Hphase as <-.
    eapply BeginStackMapEntry_legal; [|exact Hlegal|exact Hcall]. tauto.
  - destruct p; try discriminate; injection Hphase as <-;
      (eapply AddDexRegisterEntry_legal; [|exact Hlegal|exact Hcall]); eauto.
  - destruct p as [|[|k]|]; try discriminate. injection Hphase as <-.
    eapply BeginInlineInfoEntry_legal;
      [exact Hindex|exact Haligned| |exact Hlegal|exact Hcall].
    unfold is_uint32 in Htyped. lia.
  - destruct p; try discriminate. injection Hphase as <-.
    eapply EndInlineInfoEntry_legal; eassumption.
  - destruct p as [|[|k]|]; try discriminate. injection Hphase as <-.
    eapply EndStackMapEntry_legal; eassumption.
Qed.

Lemma calls_legal cs : ∀ p s s',
  (∀ method, is_uint32 (GetDexMethodIndexUnchecked method)) →
  Forall StreamCall_typed cs →
  Forall StreamCall_method_aligned cs →
  properly_nested p cs = true →
  stream_legal p s →
  calls cs s = Some s' →
  stream_legal Idle s'.
Proof.
  induction cs as [|c cs IH]; intros p s s' Hindex Htyped Haligned Hnested Hlegal Hcalls.
  - simpl in *. injection Hcalls as <-. destruct p; try discriminate. exact Hlegal.
  - simpl in *. apply Forall_cons in Htyped as [Hc Htyped].
    apply Forall_cons in Haligned as [Ha Haligned].
    destruct (phase_after p c) as [p'|] eqn:Ep; [|discriminate].
    apply bind_Some_inv in Hcalls as (s1 & Hs1 & Hcalls).
    eapply IH; try eassumption.
    eapply call_legal; eassumption.
Qed.

(** *** The sizers return *)

Lemma ComputeDexRegisterMapSize_returns s num_dex_registers mask :
  (mask = None → num_dex_registers = 0) →
  is_Some (ComputeDexRegisterMapSize s num_dex_registers mask).
Proof.
  intros Hmask. unfold ComputeDexRegisterMapSize.
  destruct (decide (num_dex_registers = 0)) as [Hz|Hz].
  - rewrite bool_decide_eq_true_2 by exact Hz. eexists. reflexivity.
  - rewrite bool_decide_eq_false_2 by exact Hz.
    destruct mask as [m|]; [eexists; reflexivity|]. tauto.
Qed.

Lemma inline_maps_size_returns s depth : ∀ size index,
  Forall (frame_wf (dex_register_locations_ s)) (inline_infos_ s) →
  (index + depth ≤ length (inline_infos_ s))%nat →
  is_Some (inline_maps_size s depth size index).
Proof.
  induction depth as [|depth IH]; intros size index Hwf Hle.
  - eexists. reflexivity.
  - simpl. destruct (lookup_lt_is_Some_2 (inline_infos_ s) index) as [f Hf]; [lia|].
    rewrite Hf. cbn [mbind option_bind].
    destruct (ComputeDexRegisterMapSize_returns s (ii_num_dex_registers f)
                (ii_live_dex_registers_mask f)) as [map_size Hsize].
    { eapply Forall_lookup_1 in Hwf; [|exact Hf]. apply Hwf. }
    rewrite Hsize. cbn [mbind option_bind]. apply IH; [exact Hwf|lia].
Qed.

Lemma maps_size_loop_returns s entries : ∀ size index,
  Forall (entry_wf (dex_register_locations_ s)) entries →
  Forall (frame_wf (dex_register_locations_ s)) (inline_infos_ s) →
  (index + total_inlining_depth entries ≤ length (inline_infos_ s))%nat →
  is_Some (maps_size_loop s entries size index).
Proof.
  induction entries as [|e entries IH]; intros size index Hwf Hfwf Hle.
  - eexists. reflexivity.
  - apply Forall_cons in Hwf as [He Hwf]. simpl in Hle. simpl.
    assert (Hown : ∃ size1,
              (if bool_decide (sm_same_dex_register_map_as_ e = kNoSameDexMapFound)
               then
                 map_size ← ComputeDexRegisterMapSize s (sm_num_dex_registers e)
                              (sm_live_dex_registers_mask e);
                 Some (size + map_size)%nat
               else Some size) = Some size1).
    { destruct (bool_decide _); [|eexists; reflexivity].
      destruct (ComputeDexRegisterMapSize_returns s (sm_num_dex_registers e)
                  (sm_live_dex_registers_mask e)) as [map_size Hsize];
        [apply He|].
      rewrite Hsize. eexists. reflexivity. }
    destruct Hown as [size1 ->]. cbn [mbind option_bind].
    destruct (inline_maps_size_returns s (Z.to_nat (sm_inlining_depth e)) size1 index)
      as [[size2 index2] Hin]; [exact Hfwf|lia|].
    rewrite Hin. cbn [mbind option_bind].
    apply inline_maps_size_spec in Hin as [-> _].
    apply IH; [exact Hwf|exact Hfwf|lia].
Qed.

(** *** The maxima of the inline frames *)

Lemma inline_maxima_frames_fold s depth : ∀ m index,
  (index + depth ≤ length (inline_infos_ s))%nat →
  inline_maxima_frames s depth m index
  = Some (foldl inline_maxima_step m (take depth (drop index (inline_infos_ s))),
          (index + depth)%nat).
Proof.
  induction depth as [|depth IH]; intros m index Hle.
  - simpl. rewrite Nat.add_0_r. reflexivity.
  - simpl. destruct (lookup_lt_is_Some_2 (inline_infos_ s) index) as [f Hf]; [lia|].
    rewrite Hf. cbn [mbind option_bind]. rewrite IH by lia.
    rewrite (drop_S _ _ _ Hf). simpl. do 2 f_equal. lia.
Qed.

Lemma inline_maxima_loop_fold s entries : ∀ m index,
  (index + total_inlining_depth entries ≤ length (inline_infos_ s))%nat →
  inline_maxima_loop s entries m index
  = Some (foldl inline_maxima_step m
            (take (total_inlining_depth entries) (drop index (inline_infos_ s))),
          (index + total_inlining_depth entries)%nat).
Proof.
  induction entries as [|e entries IH]; intros m index Hle; simpl in *.
  - rewrite Nat.add_0_r. reflexivity.
  - rewrite inline_maxima_frames_fold by lia. cbn [mbind option_bind].
    rewrite IH by lia. rewrite <- foldl_app. do 2 f_equal; [|lia].
    set (d := Z.to_nat (sm_inlining_depth e)).
    set (l := drop index (inline_infos_ s)).
    assert (Hl : (d + total_inlining_depth entries ≤ length l)%nat)
      by (subst l d; rewrite length_drop; lia).
    rewrite <- drop_drop. fold l. f_equal. apply take_take_drop.
Qed.

Lemma ComputeInlineInfoMaxima_fold s :
  total_inlining_depth (stack_maps_ s) = length (inline_infos_ s) →
  ComputeInlineInfoMaxima s
  = Some (foldl inline_maxima_step
            {| method_index_max := 0; dex_pc_max := kDexNoIndex; extra_data_max := 0 |}
            (inline_infos_ s)).
Proof.
  intros Hdepth. unfold ComputeInlineInfoMaxima.
  rewrite inline_maxima_loop_fold by (simpl; lia). cbn [mbind option_bind].
  rewrite bool_decide_eq_true_2 by (simpl; lia). cbn [DCHECK mbind option_bind].
  rewrite Hdepth, drop_0, firstn_all. reflexivity.
Qed.

Lemma maxima_bound_step m f g :
  0 ≤ dex_pc_max m ≤ kDexNoIndex →
  is_uint32 (ii_dex_pc g) →
  maxima_bound m f → maxima_bound (inline_maxima_step m g) f.
Proof.
  intros Hm Hg (Hmi & Hed & Hpc). unfold maxima_bound, inline_maxima_step. simpl.
  split; [destruct (bool_decide (ii_method g = 0)); lia|].
  split; [destruct (bool_decide (ii_method g = 0)); lia|].
  intros Hf. specialize (Hpc Hf).
  destruct (decide (ii_dex_pc g ≠ kDexNoIndex)) as [Hgn|Hgn].
  - rewrite (bool_decide_eq_true_2 (ii_dex_pc g ≠ kDexNoIndex)) by exact Hgn.
    rewrite (bool_decide_eq_false_2 (dex_pc_max m = kDexNoIndex)) by tauto.
    simpl. destruct (decide (dex_pc_max m < ii_dex_pc g)) as [Hlt|Hlt].
    + rewrite (bool_decide_eq_true_2 _ Hlt). split; [exact Hgn|lia].
    + rewrite (bool_decide_eq_false_2 _ Hlt). exact Hpc.
  - rewrite (bool_decide_eq_false_2 (ii_dex_pc g ≠ kDexNoIndex)) by exact Hgn.
    simpl. exact Hpc.
Qed.

Lemma maxima_bound_self m g :
  0 ≤ dex_pc_max m ≤ kDexNoIndex →
  maxima_bound (inline_maxima_step m g) g.
Proof.
  intros Hm. unfold maxima_bound, inline_maxima_step, frame_method_index,
    frame_extra_data. simpl.
  split; [|split].
  - destruct (decide (ii_method g = 0)) as [Hz|Hz].
    + rewrite (bool_decide_eq_true_2 _ Hz).
      rewrite (bool_decide_eq_false_2 (ii_method g ≠ 0)) by tauto. lia.
    + rewrite (bool_decide_eq_false_2 _ Hz).
      rewrite (bool_decide_eq_true_2 (ii_method g ≠ 0)) by exact Hz. lia.
  - destruct (decide (ii_method g = 0)) as [Hz|Hz].
    + rewrite (bool_decide_eq_true_2 _ Hz).
      rewrite (bool_decide_eq_false_2 (ii_method g ≠ 0)) by tauto. lia.
    + rewrite (bool_decide_eq_false_2 _ Hz).
      rewrite (bool_decide_eq_true_2 (ii_method g ≠ 0)) by exact Hz. lia.
  - intros Hgn.
    rewrite (bool_decide_eq_true_2 (ii_dex_pc g ≠ kDexNoIndex)) by exact Hgn.
    destruct (decide (dex_pc_max m = kDexNoIndex)) as [Hn|Hn].
    + rewrite (bool_decide_eq_true_2 _ Hn). simpl. split; [exact Hgn|lia].
    + rewrite (bool_decide_eq_false_2 _ Hn). simpl.
      destruct (decide (dex_pc_max m < ii_dex_pc g)) as [Hlt|Hlt].
      * rewrite (bool_decide_eq_true_2 _ Hlt). split; [exact Hgn|lia].
      * rewrite (bool_decide_eq_false_2 _ Hlt). split; [exact Hn|lia].
Qed.

Lemma inline_maxima_step_range m g :
  0 ≤ dex_pc_max m ≤ kDexNoIndex →
  is_uint32 (ii_dex_pc g) →
  0 ≤ dex_pc_max (inline_maxima_step m g) ≤ kDexNoIndex.
Proof.
  intros Hm Hg. unfold inline_maxima_step. simpl.
  unfold is_uint32, uint32_modulus in Hg. unfold kDexNoIndex in *.
  destruct (_ && _); lia.
Qed.

Lemma foldl_maxima_bound frames : ∀ m,
  0 ≤ dex_pc_max m ≤ kDexNoIndex →
  Forall (λ f, is_uint32 (ii_dex_pc f)) frames →
  0 ≤ dex_pc_max (foldl inline_maxima_step m frames) ≤ kDexNoIndex
  ∧ (∀ f, maxima_bound m f → maxima_bound (foldl inline_maxima_step m frames) f)
  ∧ Forall (maxima_bound (foldl inline_maxima_step m frames)) frames.
Proof.
  induction frames as [|g frames IH]; intros m Hm Htyped.
  - simpl. split; [exact Hm|]. split; [tauto|constructor].
  - apply Forall_cons in Htyped as [Hg Htyped]. simpl.
    destruct (IH (inline_maxima_step m g)) as (Hrange & Hkeep & Hall);
      [apply inline_maxima_step_range; assumption|exact Htyped|].
    split; [exact Hrange|]. split.
    + intros f Hf. apply Hkeep, maxima_bound_step; assumption.
    + constructor; [|exact Hall]. apply Hkeep, maxima_bound_self, Hm.
Qed.

(** *** The widths of the fields *)

Lemma ComputeMaxNativePcCodeOffset_bound s e :
  e ∈ stack_maps_ s →
  sm_native_pc_code_offset e ≤ ComputeMaxNativePcCodeOffset s.
Proof.
  unfold ComputeMaxNativePcCodeOffset. generalize 0.
  induction (stack_maps_ s) as [|e0 entries IH]; intros acc Hin;
    [apply elem_of_nil in Hin; contradiction|].
  assert (Hmono : ∀ entries acc,
            acc ≤ foldl (λ max_native_pc_offset entry,
                           Z.max max_native_pc_offset (sm_native_pc_code_offset entry))
                        acc entries).
  { clear. induction entries as [|e entries IH]; intros acc; simpl; [lia|].
    specialize (IH (Z.max acc (sm_native_pc_code_offset e))). lia. }
  simpl. apply elem_of_cons in Hin as [->|Hin].
  - specialize (Hmono entries (Z.max acc (sm_native_pc_code_offset e0))). lia.
  - apply IH, Hin.
Qed.

Lemma field_fits_bound bits_of value :
  0 ≤ value ≤ bits_of → value ≤ uint32_max →
  field_fits (MinimumBitsToStore bits_of) 0 value.
Proof.
  intros Hv Hu. unfold field_fits, is_uint32.
  unfold uint32_max in Hu. split; [lia|].
  rewrite Z.sub_0_r, to_uint32_small by (unfold is_uint32; lia).
  apply MinimumBitsToStore_bound. exact Hv.
Qed.

Lemma field_fits_sentinel_bound bound value :
  0 ≤ value → value + 1 ≤ bound → value < uint32_max →
  field_fits (MinimumBitsToStore bound) (-1) value.
Proof.
  intros Hv Hb Hu. unfold field_fits, is_uint32.
  unfold uint32_max in Hu. split; [lia|].
  replace (value - -1) with (value + 1) by lia.
  rewrite to_uint32_small by (unfold is_uint32; lia).
  apply MinimumBitsToStore_bound. lia.
Qed.

Lemma frame_fits_maxima locations encoding m bytes f :
  cie_inline_info_encoding encoding
  = InlineInfoEncoding_SetFromSizes (method_index_max m) (dex_pc_max m)
      (extra_data_max m) bytes →
  maxima_bound m f →
  frame_recorded locations f →
  inline_typed f →
  frame_fits encoding f.
Proof.
  intros Hencoding (Hmi & Hed & Hpc) (_ & Heven & Hindex) (Hpcu & _ & Hmethod).
  assert (Hfmi : 0 ≤ frame_method_index f ≤ uint32_max).
  { unfold frame_method_index, High32Bits, uint32_max.
    destruct (decide (ii_method f = 0)) as [Hz|Hz].
    - rewrite (bool_decide_eq_false_2 (ii_method f ≠ 0)) by tauto.
      specialize (Hindex Hz). unfold is_uint32 in Hindex. lia.
    - rewrite (bool_decide_eq_true_2 (ii_method f ≠ 0)) by exact Hz.
      pose proof (Z.mod_pos_bound (ii_method f ≫ 32) uint32_modulus) as Hb.
      unfold to_uint32. unfold uint32_modulus in *. lia. }
  assert (Hfed : 0 ≤ frame_extra_data f ≤ uint32_max).
  { unfold frame_extra_data, Low32Bits, uint32_max.
    destruct (bool_decide (ii_method f ≠ 0)).
    - pose proof (Z.mod_pos_bound (ii_method f) uint32_modulus) as Hb.
      unfold to_uint32. unfold uint32_modulus in *. lia.
    - unfold uint32_modulus. lia. }
  unfold frame_fits. rewrite Hencoding. simpl.
  split; [apply field_fits_bound; lia|].
  split; [apply field_fits_bound; lia|].
  split; [|split; [exact Hmethod|exact Heven]].
  destruct (decide (ii_dex_pc f = kDexNoIndex)) as [Hn|Hn].
  - unfold field_fits. split; [exact Hpcu|]. rewrite Hn.
    change (to_uint32 (kDexNoIndex - -1)) with 0. apply Z.pow_pos_nonneg; lia.
  - destruct (Hpc Hn) as [Hmn Hle].
    rewrite (bool_decide_eq_true_2 (dex_pc_max m ≠ 4294967295)) by exact Hmn.
    unfold is_uint32, uint32_modulus in Hpcu. unfold kDexNoIndex in *.
    apply field_fits_sentinel_bound; unfold uint32_max, uint32_modulus; lia.
Qed.

(** *** The tables of the masks after the interners *)

Lemma intern_all_length `{EqDecision K} (keys : list K) : ∀ table,
  (length (intern_all table keys) ≤ length table + length keys)%nat.
Proof.
  induction keys as [|k keys IH]; intros table; simpl; [lia|].
  destruct (decide (k ∈ table)).
  - specialize (IH table). lia.
  - specialize (IH (table ++ [k])). rewrite length_app in IH. simpl in IH. lia.
Qed.

Lemma stack_masks_loop_length bits bytes entries :
  ∀ dedup buffer entries' dedup' buffer',
  stack_masks_loop bits bytes entries dedup buffer = (entries', dedup', buffer') →
  length buffer' = length buffer.
Proof.
  induction entries as [|e entries IH]; intros dedup buffer entries' dedup' buffer' Hl.
  - simpl in Hl. injection Hl as _ _ <-. reflexivity.
  - simpl in Hl. destruct (emplace _ _ _) as [found d1].
    destruct (stack_masks_loop bits bytes entries d1 _) as [[es d2] b2] eqn:El.
    injection Hl as _ _ <-. apply IH in El. rewrite El.
    unfold store_stack_mask. apply store_bits_length.
Qed.

Lemma pack_stack_mask_lookup bits bytes sp_mask b :
  (b < bits)%nat →
  pack_stack_mask bits bytes sp_mask !! b = Some (mask_bit sp_mask b).
Proof.
  intros Hb. unfold pack_stack_mask.
  rewrite lookup_app_l by (rewrite length_fmap, length_seq; exact Hb).
  rewrite list_lookup_fmap, lookup_seq_lt by exact Hb. simpl.
  destruct sp_mask; reflexivity.
Qed.

Lemma region_content_lookup buffer first_byte bytes b x :
  region_content buffer first_byte bytes !! b = Some x →
  buffer !! (kBitsPerByte * first_byte + b)%nat = Some x.
Proof.
  unfold region_content. intros Hb.
  rewrite lookup_take in Hb. destruct (decide _); [|discriminate].
  rewrite lookup_drop in Hb. exact Hb.
Qed.

(** The two interners leave every entry with indices below the numbers of
    masks they return, and the tables hold, at these indices, the register
    mask of the entry and, bit by bit, its stack mask. *)
Lemma prepare_masks_spec s bits es1 d1 b1 es2 d2 t2 :
  let bytes := (RoundUp bits kBitsPerByte / kBitsPerByte)%nat in
  stack_masks_ s = [] →
  stack_masks_loop bits bytes (stack_maps_ s) ∅
    (resize (kBitsPerByte * (bytes * length (stack_maps_ s))) false (stack_masks_ s))
  = (es1, d1, b1) →
  register_masks_loop es1 ∅ (resize (length es1) 0 (register_masks_ s))
  = (es2, d2, t2) →
  (kBitsPerByte * (size d1 * bytes) ≤ length b1)%nat
  ∧ (size d2 ≤ length t2)%nat
  ∧ (size d1 ≤ length (stack_maps_ s))%nat
  ∧ (size d2 ≤ length (stack_maps_ s))%nat
  ∧ Forall2 (λ e e2,
       e2 = with_mask_indices e (sm_stack_mask_index e2) (sm_register_mask_index e2)
       ∧ (sm_stack_mask_index e2 < size d1)%nat
       ∧ (sm_register_mask_index e2 < size d2)%nat
       ∧ t2 !! sm_register_mask_index e2 = Some (sm_register_mask e)
       ∧ ∀ b, (b < bits)%nat →
           b1 !! (kBitsPerByte * (sm_stack_mask_index e2 * bytes) + b)%nat
           = Some (mask_bit (sm_sp_mask e) b))
      (stack_maps_ s) es2.
Proof.
  intros bytes Hempty Hstack Hregister.
  (* the stack masks *)
  pose proof (stack_masks_loop_length _ _ _ _ _ _ _ _ Hstack) as Hlen1.
  rewrite length_resize in Hlen1.
  destruct (stack_masks_loop_spec bits bytes (stack_maps_ s) _ _ [] _ _ _ Hstack)
    as (Hd1 & Hslots & Hall1).
  { apply RoundUp_bytes. }
  { apply dedupe_of_empty. }
  { intros j k Hj. rewrite lookup_nil in Hj. discriminate. }
  { rewrite Hempty, resize_nil. apply padding_clear_replicate. }
  { rewrite length_resize. simpl. unfold kBitsPerByte. lia. }
  set (table1 := intern_all []
                   ((λ e, pack_stack_mask bits bytes (sm_sp_mask e)) <$> stack_maps_ s))
    in *.
  assert (Hsize1 : size d1 = length table1) by apply Hd1.
  assert (Htable1 : (length table1 ≤ length (stack_maps_ s))%nat).
  { subst table1. etransitivity; [apply intern_all_length|].
    rewrite length_fmap. simpl. lia. }
  (* the register masks *)
  pose proof (Forall2_length _ _ _ Hall1) as Hlength1.
  destruct (register_masks_loop_spec es1 _ _ [] _ _ _ Hregister)
    as (Hd2 & Htake & Hlen2 & Hall2).
  { apply dedupe_of_empty. }
  { reflexivity. }
  { rewrite length_resize. simpl. lia. }
  set (table2 := intern_all [] (sm_register_mask <$> es1)) in *.
  rewrite length_resize in Hlen2.
  assert (Hsize2 : size d2 = length table2) by apply Hd2.
  assert (Htable2 : (length table2 ≤ length es1)%nat).
  { subst table2. etransitivity; [apply intern_all_length|].
    rewrite length_fmap. simpl. lia. }
  split; [rewrite Hlen1, Hsize1; unfold kBitsPerByte; nia|].
  split; [lia|]. split; [lia|]. split; [lia|].
  eapply Forall2_trans; [|exact Hall1|exact Hall2].
  intros e e1 e2 [He1 Hk1] [He2 Hk2]. simpl in *.
  assert (Hmask : sm_register_mask e1 = sm_register_mask e)
    by (rewrite He1; reflexivity).
  assert (Hindex : sm_stack_mask_index e2 = sm_stack_mask_index e1)
    by (rewrite He2; reflexivity).
  split.
  { rewrite He2 at 1. rewrite He1 at 1. rewrite Hindex. reflexivity. }
  split; [rewrite Hindex, Hsize1; eapply lookup_lt_Some, Hk1|].
  split; [rewrite Hsize2; eapply lookup_lt_Some, Hk2|].
  split.
  { rewrite <- Hmask, <- Hk2, <- Htake.
    symmetry. apply lookup_take_lt. eapply lookup_lt_Some, Hk2. }
  intros b Hb. rewrite Hindex.
  apply region_content_lookup with (bytes := bytes).
  rewrite (Hslots _ _ Hk1). apply pack_stack_mask_lookup, Hb.
Qed.

(** The stream and the descriptor that [ComputeEncoding] returns, from the
    results of its sizers and of the loops of its interners. *)
Lemma ComputeEncoding_eq s bytes m es1 d1 b1 es2 d2 t2 :
  let bits := Z.to_nat (stack_mask_max_ s + 1) in
  let mask_bytes := (RoundUp bits kBitsPerByte / kBitsPerByte)%nat in
  ComputeDexRegisterMapsSize s = Some bytes →
  ComputeInlineInfoMaxima s = Some m →
  stack_masks_loop bits mask_bytes (stack_maps_ s) ∅
    (resize (kBitsPerByte * (mask_bytes * length (stack_maps_ s))) false
       (stack_masks_ s))
  = (es1, d1, b1) →
  register_masks_loop es1 ∅ (resize (length es1) 0 (register_masks_ s))
  = (es2, d2, t2) →
  ComputeEncoding s
  = Some ({|
      cie_dex_register_map_num_bytes := bytes;
      cie_location_catalog_num_entries := length (location_catalog_entries_ s);
      cie_location_catalog_num_bytes := ComputeDexRegisterLocationCatalogSize s;
      cie_inline_info_num_entries := length (inline_infos_ s);
      cie_inline_info_encoding :=
        InlineInfoEncoding_SetFromSizes (method_index_max m) (dex_pc_max m)
          (extra_data_max m) (Z.of_nat bytes);
      cie_stack_mask_num_bits := bits;
      cie_stack_mask_num_entries := size d1;
      cie_register_mask_num_bits := MinimumBitsToStore (register_mask_max_ s);
      cie_register_mask_num_entries := size d2;
      cie_stack_map_num_entries := length es2;
      cie_stack_map_encoding :=
        StackMapEncoding_SetFromSizes
          (ComputeMaxNativePcCodeOffset s) (dex_pc_max_ s) (Z.of_nat bytes)
          (Z.of_nat (length (inline_infos_ s)))
          (Z.of_nat (size d2)) (Z.of_nat (size d1));
    |}, set_masks es2 b1 t2 s).
Proof.
  intros bits mask_bytes Hsize Hmaxima Hstack Hregister.
  unfold ComputeEncoding, ComputeInlineInfoEncoding.
  rewrite Hsize. cbn [mbind option_bind]. rewrite Hmaxima. cbn [mbind option_bind].
  unfold PrepareStackMasks. fold bits. fold mask_bytes. rewrite Hstack.
  unfold PrepareRegisterMasks. cbn [stack_maps_ register_masks_ set_masks].
  rewrite Hregister. reflexivity.
Qed.

(** *** The stream that PrepareForFillIn leaves *)

Lemma inline_starts_from_Forall2 entries entries' : ∀ index,
  Forall2 (λ e e', sm_inline_infos_start_index e' = sm_inline_infos_start_index e
                   ∧ sm_inlining_depth e' = sm_inlining_depth e) entries entries' →
  inline_starts_from index entries → inline_starts_from index entries'.
Proof.
  intros index Hall. revert index.
  induction Hall as [|e e' entries entries' [Hs Hd] _ IH]; intros index Hstarts;
    [exact I|].
  destruct Hstarts as [Hstart Hstarts]. split; [congruence|].
  rewrite Hd. apply IH, Hstarts.
Qed.

Lemma total_inlining_depth_Forall2 entries entries' :
  Forall2 (λ e e', sm_inlining_depth e' = sm_inlining_depth e) entries entries' →
  total_inlining_depth entries' = total_inlining_depth entries.
Proof.
  induction 1 as [|e e' entries entries' Hd _ IH]; [reflexivity|].
  simpl. rewrite Hd, IH. reflexivity.
Qed.

Lemma sum_list_with_Forall2 {A B} (f : A → nat) (g : B → nat) l l' :
  Forall2 (λ x y, g y = f x) l l' → sum_list_with g l' = sum_list_with f l.
Proof.
  induction 1 as [|x y l l' Hxy _ IH]; [reflexivity|].
  simpl. rewrite Hxy, IH. reflexivity.
Qed.

Lemma ComputeDexRegisterMapsSize_returns s :
  stream_legal Idle s → stream_invariant s →
  is_Some (ComputeDexRegisterMapsSize s).
Proof.
  intros Hlegal Hinv. unfold ComputeDexRegisterMapsSize.
  destruct (maps_size_loop_returns s (stack_maps_ s) 0 0) as [[size index] Hsize].
  - apply Hinv.
  - eapply Forall_impl; [apply Hlegal|]. intros f Hf. apply Hf.
  - destruct (legal_phase _ _ Hlegal) as (_ & _ & Hdepth). simpl. lia.
  - rewrite Hsize. eexists. reflexivity.
Qed.

Lemma ComputeEncoding_returns s :
  stream_legal Idle s → stream_invariant s →
  is_Some (ComputeEncoding s).
Proof.
  intros Hlegal Hinv.
  destruct (ComputeDexRegisterMapsSize_returns s Hlegal Hinv) as [bytes Hbytes].
  destruct (legal_phase _ _ Hlegal) as (_ & _ & Hdepth).
  destruct (stack_masks_loop (Z.to_nat (stack_mask_max_ s + 1))
              (RoundUp (Z.to_nat (stack_mask_max_ s + 1)) kBitsPerByte / kBitsPerByte)
              (stack_maps_ s) ∅
              (resize (kBitsPerByte
                       * (RoundUp (Z.to_nat (stack_mask_max_ s + 1)) kBitsPerByte
                          / kBitsPerByte * length (stack_maps_ s))) false
                 (stack_masks_ s)))
    as [[es1 d1] b1] eqn:Hstack.
  destruct (register_masks_loop es1 ∅ (resize (length es1) 0 (register_masks_ s)))
    as [[es2 d2] t2] eqn:Hregister.
  erewrite ComputeEncoding_eq;
    [eexists; reflexivity|exact Hbytes| |exact Hstack|exact Hregister].
  apply ComputeInlineInfoMaxima_fold. symmetry. exact Hdepth.
Qed.

(** After [PrepareForFillIn] on a stream that a legal sequence of calls
    recorded, the stream is ready for [FillIn]. *)
Lemma ComputeEncoding_fill_ready s encoding s2 header :
  (∀ k i, (i < k)%nat → Z.of_nat i < 2 ^ Z.of_nat (SingleEntrySizeInBits k)) →
  stream_legal Idle s → stream_invariant s → stream_typed s → sizes_fit s →
  ComputeEncoding s = Some (encoding, s2) →
  header ≠ [] →
  CodeInfo_ExtractEncoding header = Some encoding →
  (CodeInfoEncoding_dex_register_map_byte_offset encoding
   + cie_dex_register_map_num_bytes encoding
   ≤ length header + CodeInfoEncoding_NonHeaderSize encoding)%nat →
  (CodeInfoEncoding_location_catalog_byte_offset encoding
   + cie_location_catalog_num_bytes encoding
   ≤ length header + CodeInfoEncoding_NonHeaderSize encoding)%nat →
  fill_ready
    (set_header header (length header + CodeInfoEncoding_NonHeaderSize encoding) s2)
    encoding.
Proof.
  intros Hsingle Hlegal Hinv Htyped (Hmaps32 & Hframes32 & Hcatalog32 & Hbytes32)
    Hencoding Hheader Hextract Hmroom Hcroom.
  destruct (ComputeDexRegisterMapsSize_returns s Hlegal Hinv) as [bytes Hbytes].
  rewrite Hbytes in Hbytes32. simpl in Hbytes32.
  destruct (legal_phase _ _ Hlegal) as (Hcurrent & _ & Hdepth).
  pose proof (ComputeInlineInfoMaxima_fold s (eq_sym Hdepth)) as Hmaxima.
  set (m := foldl inline_maxima_step
              {| method_index_max := 0; dex_pc_max := kDexNoIndex;
                 extra_data_max := 0 |} (inline_infos_ s)) in *.
  set (bits := Z.to_nat (stack_mask_max_ s + 1)) in *.
  set (mask_bytes := (RoundUp bits kBitsPerByte / kBitsPerByte)%nat) in *.
  destruct (stack_masks_loop bits mask_bytes (stack_maps_ s) ∅
              (resize (kBitsPerByte * (mask_bytes * length (stack_maps_ s))) false
                 (stack_masks_ s)))
    as [[es1 d1] b1] eqn:Hstack.
  destruct (register_masks_loop es1 ∅ (resize (length es1) 0 (register_masks_ s)))
    as [[es2 d2] t2] eqn:Hregister.
  rewrite (ComputeEncoding_eq s bytes m es1 d1 b1 es2 d2 t2 Hbytes Hmaxima Hstack
             Hregister) in Hencoding.
  injection Hencoding as <- <-.
  set (encoding := {| cie_dex_register_map_num_bytes := bytes |}) in *.
  destruct (legal_tables _ _ Hlegal) as (Hsm & Hrm & Hce).
  destruct (prepare_masks_spec s bits es1 d1 b1 es2 d2 t2 Hsm Hstack Hregister)
    as (Hb1 & Ht2 & Hd1 & Hd2 & Hall).
  fold mask_bytes in Hb1, Hall.
  destruct (legal_maxima _ _ Hlegal) as (Hdexmax & Hregmax & Hstackmax).
  assert (Hbits : Z.of_nat bits = stack_mask_max_ s + 1) by (subst bits; lia).
  assert (Hsame : Forall2 (λ e e', ∃ a b, e' = with_mask_indices e a b)
                    (stack_maps_ s) es2).
  { eapply Forall2_impl; [exact Hall|]. intros e e' (He' & _). eauto. }
  assert (Hsize : bytes
            = (0 + sum_list_with (written_map_bytes s) (stack_maps_ s)
               + sum_list_with unused_map_bytes (stack_maps_ s)
               + frames_size s (seq 0 (total_inlining_depth (stack_maps_ s))))%nat).
  { unfold ComputeDexRegisterMapsSize in Hbytes.
    destruct (maps_size_loop s (stack_maps_ s) 0 0) as [[size index]|] eqn:Hloop;
      [|discriminate].
    injection Hbytes as <-. apply maps_size_loop_spec in Hloop as [_ ->]. reflexivity. }
  assert (Hdepth2 : total_inlining_depth es2 = total_inlining_depth (stack_maps_ s)).
  { apply total_inlining_depth_Forall2. eapply Forall2_impl; [exact Hsame|].
    intros e e' (a & b & ->). reflexivity. }
  split.
  - (* no entry is open *)
    simpl. rewrite Hcurrent. reflexivity.
  - simpl. destruct header; [contradiction|simpl; lia].
  - simpl. exact Hextract.
  - reflexivity.
  - reflexivity.
  - (* the entries *)
    intros i e' Hi. simpl in Hi.
    destruct (Forall2_lookup_r _ _ _ _ _ Hall Hi)
      as (e & He & He' & Ha & Hb & Hreg & Hstackbits).
    set (a := sm_stack_mask_index e') in *.
    set (b := sm_register_mask_index e') in *.
    clearbody a b. subst e'.
    assert (Het : entry_typed e)
      by (eapply Forall_lookup_1; [apply Htyped|exact He]).
    assert (Heb : entry_bounded (dex_pc_max_ s) (register_mask_max_ s)
                    (stack_mask_max_ s) e)
      by (eapply Forall_lookup_1; [apply Hlegal|exact He]).
    assert (Hwf : entry_wf (dex_register_locations_ s) e)
      by (eapply Forall_lookup_1; [apply Hinv|exact He]).
    destruct Het as (Hpc & Hpcn & Hmask & Hnum & Hdep).
    destruct Heb as (Hpcmax & Hmaskmax & Hspmax & Hnative).
    change (to_uint32 (-1)) with 4294967295 in Hpcn.
    unfold is_uint32, uint32_max, uint32_modulus in *.
    split; [|split].
    + (* ready for the loop *)
      split; [exact Hwf|]. split; [simpl; lia|]. split; [simpl; lia|].
      intros t Ht. simpl in Ht.
      destruct (br_earlier _ _ (inv_refs _ Hinv) i e t He Ht)
        as (Hlt & er & Her & _ & _ & Hsamemap).
      split; [exact Hlt|].
      destruct (Forall2_lookup_l _ _ _ _ _ Hsame Her) as (et & Het & (a' & b' & ->)).
      exists (with_mask_indices er a' b'). split; [exact Het|exact Hsamemap].
    + (* the fields *)
      unfold entry_fits. simpl.
      split; [apply field_fits_sentinel_bound; unfold uint32_max, uint32_modulus; lia|].
      split.
      { apply field_fits_bound; unfold uint32_max, uint32_modulus; [|lia].
        split; [lia|]. apply ComputeMaxNativePcCodeOffset_bound.
        eapply list_elem_of_lookup_2, He. }
      split; [apply field_fits_bound; unfold uint32_max, uint32_modulus; lia|].
      split; [apply field_fits_bound; unfold uint32_max, uint32_modulus; lia|].
      intros Hnz.
      pose proof (inline_starts_from_lookup _ _ _ _ (legal_starts _ _ Hlegal) He)
        as Hstart.
      change kNoInlineInfo with 4294967295.
      split; [|lia].
      apply field_fits_sentinel_bound; unfold uint32_max, uint32_modulus; lia.
    + (* the masks *)
      unfold masks_ready. simpl.
      split; [exact Hb|]. split; [exact Hreg|].
      split; [split; [lia|apply MinimumBitsToStore_bound; lia]|].
      split; [unfold is_uint32, uint32_modulus; lia|]. split; [exact Ha|]. split; [exact Hstackbits|].
      intros mask Hsp. specialize (Hspmax mask Hsp). lia.
  - (* the inline frames *)
    simpl. apply Forall_lookup. intros k f Hk.
    assert (Hrec : frame_recorded (dex_register_locations_ s) f)
      by (eapply Forall_lookup_1; [apply Hlegal|exact Hk]).
    assert (Hft : inline_typed f)
      by (eapply Forall_lookup_1; [apply Htyped|exact Hk]).
    split; [apply Hrec|].
    eapply (frame_fits_maxima _ encoding m (Z.of_nat bytes));
      [reflexivity| |exact Hrec|exact Hft].
    destruct (foldl_maxima_bound (inline_infos_ s)
                {| method_index_max := 0; dex_pc_max := kDexNoIndex;
                   extra_data_max := 0 |}) as (_ & _ & Hbound).
    { simpl. unfold kDexNoIndex. lia. }
    { eapply Forall_impl; [apply Htyped|]. intros g Hg. apply Hg. }
    eapply Forall_lookup_1; [exact Hbound|exact Hk].
  - (* the records of the frames *)
    simpl. eapply inline_starts_from_Forall2; [|apply Hlegal].
    eapply Forall2_impl; [exact Hsame|]. intros e e' (a & b & ->). split; reflexivity.
  - simpl. rewrite Hdepth2. symmetry. exact Hdepth.
  - (* the room for the maps *)
    simpl. rewrite Hdepth2.
    assert (Hwritten : sum_list_with
              (written_map_bytes
                 (set_header header
                    (length header + CodeInfoEncoding_NonHeaderSize encoding)
                    (set_masks es2 b1 t2 s))) es2
            = sum_list_with (written_map_bytes s) (stack_maps_ s)).
    { apply sum_list_with_Forall2. eapply Forall2_impl; [exact Hsame|].
      intros e e' (a & b & ->). reflexivity. }
    rewrite Hwritten.
    change (frames_size
              (set_header header
                 (length header + CodeInfoEncoding_NonHeaderSize encoding)
                 (set_masks es2 b1 t2 s)))
      with (frames_size s).
    lia.
  - (* the offsets *)
    unfold offsets_fit. simpl. unfold uint32_max, uint32_modulus in *.
    split; [lia|].
    split; [apply MinimumBitsToStore_bound; lia|].
    split; [apply MinimumBitsToStore_bound; lia|reflexivity].
  - (* the catalog *)
    unfold catalog_ready. simpl.
    split; [reflexivity|]. split; [apply Hlegal|]. split.
    { eapply Forall_impl; [apply Hlegal|]. intros [kind value] Hshort. simpl in *.
      destruct kind; try discriminate; congruence. }
    split; [intros index Hindex; apply Hsingle, Hindex|exact Hcatalog32].
  - simpl. exact Hb1.
  - simpl. exact Ht2.
  - simpl. lia.
  - exact Hmroom.
  - exact Hcroom.
Qed.

Lemma ComputeEncoding_header s encoding s2 :
  ComputeEncoding s = Some (encoding, s2) →
  code_info_encoding_ s2 = code_info_encoding_ s.
Proof.
  unfold ComputeEncoding. intros Hc.
  apply bind_Some_inv in Hc as (bytes & _ & Hc).
  apply bind_Some_inv in Hc as (ie & _ & Hc).
  destruct (PrepareStackMasks _ s) as [n1 s1] eqn:E1.
  destruct (PrepareRegisterMasks s1) as [n2 s3] eqn:E2.
  injection Hc as _ <-.
  unfold PrepareRegisterMasks in E2.
  destruct (register_masks_loop _ _ _) as [[? ?] ?]. injection E2 as _ <-.
  unfold PrepareStackMasks in E1.
  destruct (stack_masks_loop _ _ _ _ _) as [[? ?] ?]. injection E1 as _ <-.
  reflexivity.
Qed.

(** The stream side of the round trip.  For a properly nested sequence of
    typed calls on a fresh stream whose checks pass, [PrepareForFillIn]
    returns the needed size and [FillIn] into a region of that size returns:
    no check of [FillIn] or of the readback [CheckCodeInfo] fails, the
    header holds as many stack maps as were recorded, and every stack map of
    the region reads back as the entry that the stream recorded at its
    index.  The collaborators are as their types say: a positive
    instruction alignment, a 32-bit method index, catalog indices that fit
    the bits of a map entry, a header that the reader decodes, tables that
    lie in the bytes asked for; the tables are of 32-bit sizes, and a method
    encoded by address is aligned. *)
Lemma FillIn_reads_back (isa : InstructionSet) (cs : list StreamCall)
    (s : StackMapStream) (region : MemoryRegion) :
  0 < GetInstructionSetInstructionAlignment isa →
  (∀ method, is_uint32 (GetDexMethodIndexUnchecked method)) →
  (∀ k i, (i < k)%nat → Z.of_nat i < 2 ^ Z.of_nat (SingleEntrySizeInBits k)) →
  Forall StreamCall_typed cs →
  Forall StreamCall_method_aligned cs →
  properly_nested Idle cs = true →
  calls cs (StackMapStream_new isa) = Some s →
  sizes_fit s →
  header_decodes s →
  tables_within s →
  ∃ size s' encoding r,
    PrepareForFillIn s = Some (size, s')
    ∧ needed_size_ s' = size
    ∧ CodeInfo_ExtractEncoding (code_info_encoding_ s') = Some encoding
    ∧ FillIn s' size region = Some r
    ∧ CheckCodeInfo s' r = Some ()
    ∧ CodeInfo_ExtractEncoding (region_header r) = Some encoding
    ∧ cie_stack_map_num_entries encoding = length (stack_maps_ s)
    ∧ ∀ i e, stack_maps_ s !! i = Some e →
        ∃ stack_mask_index register_mask_index,
          let e' := with_mask_indices e stack_mask_index register_mask_index in
          stack_maps_ s' !! i = Some e'
          ∧ stack_map_reads_back s' encoding r i e'.
Proof.
  intros Halign Hindex Hsingle Htyped Haligned Hnested Hcalls Hsizes Hheader Hwithin.
  assert (Hlegal : stream_legal Idle s).
  { eapply calls_legal; [exact Hindex|exact Htyped|exact Haligned|exact Hnested|
                         |exact Hcalls].
    apply stream_legal_new, Halign. }
  assert (Hinv : stream_invariant s)
    by (eapply calls_invariant; [apply stream_invariant_new|exact Hcalls]).
  assert (Hst : stream_typed s)
    by (eapply calls_typed; [exact Htyped|apply stream_typed_new|exact Hcalls]).
  destruct (ComputeEncoding_returns s Hlegal Hinv) as [[encoding s2] Hencoding].
  destruct (Hheader encoding) as [Hne Hextract]; [rewrite Hencoding; reflexivity|].
  pose proof (ComputeEncoding_header _ _ _ Hencoding) as Hempty.
  destruct (legal_tables _ _ Hlegal) as (_ & _ & Hnone). rewrite Hnone in Hempty.
  pose proof (ComputeEncoding_prepared _ _ _ Hencoding) as Hprepared.
  set (header := CodeInfoEncoding_Compress encoding) in *.
  set (size := (length header + CodeInfoEncoding_NonHeaderSize encoding)%nat).
  set (s' := set_header header size s2).
  assert (Hprepare : PrepareForFillIn s = Some (size, s')).
  { unfold PrepareForFillIn. rewrite Hencoding. cbn [mbind option_bind].
    rewrite Hempty. cbn [length app].
    rewrite (bool_decide_eq_true_2 (0%nat = 0%nat)) by reflexivity.
    cbn [DCHECK mbind option_bind].
    rewrite bool_decide_eq_true_2 by reflexivity. reflexivity. }
  destruct (Hwithin encoding) as [Hmroom Hcroom]; [rewrite Hencoding; reflexivity|].
  assert (Hready : fill_ready s' encoding)
    by (apply ComputeEncoding_fill_ready with (s := s); assumption).
  destruct (FillIn_ready s' encoding size region Hready eq_refl)
    as (r & Hfill & Hcheck & Hregion & Hread).
  exists size, s', encoding, r.
  split; [exact Hprepare|]. split; [reflexivity|]. split; [exact Hextract|].
  split; [exact Hfill|]. split; [exact Hcheck|].
  split; [rewrite Hregion; exact Hextract|].
  split.
  { rewrite (ready_stack_maps _ _ Hready). simpl. symmetry.
    eapply Forall2_length, Hprepared. }
  intros i e Hi.
  destruct (prepared_lookup_l _ _ _ _ Hprepared Hi) as (a & b & Hi').
  exists a, b. split; [exact Hi'|]. apply Hread. exact Hi'.
Qed.

End RoundTrip.


(** ** Further properties of the stream, the sizer, the writer and the readback *)

Section Coverage.
Context `{Collaborators}.

(** *** Bits *)

Lemma IsBitSet_SetBit bv idx : BitVector_IsBitSet (BitVector_SetBit bv idx) idx = true.
Proof.
  unfold BitVector_IsBitSet, BitVector_SetBit. destruct (decide (idx < length bv)%nat).
  - rewrite list_lookup_insert_eq by exact l. reflexivity.
  - rewrite list_lookup_insert_eq; [reflexivity|].
    rewrite length_app, length_replicate. unfold kWordBits, BitsToWords.
    pose proof (Nat.div_mod (idx + 1 + 31) 32).
    pose proof (Nat.mod_upper_bound (idx + 1 + 31) 32). lia.
Qed.

(** *** The interning of a location *)

Lemma intern_location_spec location s index catalog indices :
  catalog_interned s →
  IsShortLocationKind location.1 = true →
  intern_location location s = (index, catalog, indices) →
  catalog = (if decide (location ∈ location_catalog_entries_ s)
             then location_catalog_entries_ s
             else location_catalog_entries_ s ++ [location])
  ∧ catalog !! index = Some location
  ∧ NoDup catalog
  ∧ (∀ location' index', indices !! location' = Some index'
       ↔ catalog !! index' = Some location')
  ∧ Forall (λ index, (index < length catalog)%nat) (dex_register_locations_ s ++ [index])
  ∧ Forall (λ location : DexRegisterLocation, IsShortLocationKind location.1 = true)
      catalog.
Proof.
  intros (Hnodup & Hinverse & Hlocs & Hshort) Hkind Hintern.
  unfold intern_location in Hintern.
  destruct (location_catalog_entries_indices_ s !! location) as [found|] eqn:Ef.
  - injection Hintern as <- <- <-. apply Hinverse in Ef.
    assert (Hin : location ∈ location_catalog_entries_ s)
      by (eapply list_elem_of_lookup_2, Ef).
    rewrite decide_True by exact Hin.
    split; [reflexivity|]. split; [exact Ef|]. split; [exact Hnodup|].
    split; [exact Hinverse|]. split; [|exact Hshort].
    apply Forall_app. split; [exact Hlocs|]. constructor; [|constructor].
    eapply lookup_lt_Some, Ef.
  - injection Hintern as <- <- <-.
    assert (Hnot : location ∉ location_catalog_entries_ s).
    { intros Hin. apply list_elem_of_lookup_1 in Hin as [i Hi].
      apply Hinverse in Hi. congruence. }
    rewrite decide_False by exact Hnot.
    split; [reflexivity|]. split.
    { apply lookup_snoc_Some. right. split; reflexivity. }
    split.
    { apply NoDup_app. split; [exact Hnodup|]. split; [|apply NoDup_singleton].
      intros x Hx Hx'. apply list_elem_of_singleton in Hx'. subst x. contradiction. }
    split.
    { intros location' index'. destruct (decide (location' = location)) as [->|Hne].
      - rewrite lookup_insert_eq. split.
        + intros [= <-]. apply lookup_snoc_Some. right. split; reflexivity.
        + intros Hi. apply lookup_snoc_Some in Hi as [[_ Hi]|[-> _]]; [|reflexivity].
          exfalso. apply Hnot. eapply list_elem_of_lookup_2, Hi.
      - rewrite lookup_insert_ne by congruence. rewrite Hinverse, lookup_snoc_Some.
        split; [intros Hi; left; split; [eapply lookup_lt_Some, Hi|exact Hi]|].
        intros [[_ Hi]|[_ Hk]]; [exact Hi|congruence]. }
    rewrite length_app. simpl. split.
    + apply Forall_app. split.
      * eapply Forall_impl; [exact Hlocs|]. simpl. intros; lia.
      * constructor; [lia|constructor].
    + apply Forall_app. split; [exact Hshort|]. constructor; [exact Hkind|constructor].
Qed.

(** *** The invariant, call by call *)

Lemma maxima_cover_entry_zero s :
  0 ≤ dex_pc_max_ s → 0 ≤ register_mask_max_ s →
  maxima_cover_entry s StackMapEntry_zero.
Proof.
  intros Hd Hr. unfold maxima_cover_entry, StackMapEntry_zero. simpl.
  split; [exact Hd|]. split; [exact Hr|]. intros m Hm. discriminate.
Qed.

Lemma method_or_index_zero : method_or_index InlineInfoEntry_zero.
Proof. left. reflexivity. Qed.

Lemma stream_recorded_new isa : stream_recorded (StackMapStream_new isa).
Proof.
  split.
  - split; [constructor|]. split; [|split; constructor].
    intros location index. simpl. rewrite lookup_empty, lookup_nil. split; discriminate.
  - unfold maxima_cover. simpl. split; [lia|]. split; [lia|]. split; [lia|].
    split; [apply maxima_cover_entry_zero; simpl; lia|constructor].
  - repeat split.
  - split; [reflexivity|]. split; [apply method_or_index_zero|constructor].
Qed.

Lemma BeginStackMapEntry_recorded dex_pc native_pc_offset register_mask sp_mask
    num_dex_registers inlining_depth s s' :
  stream_recorded s →
  BeginStackMapEntry dex_pc native_pc_offset register_mask sp_mask
    num_dex_registers inlining_depth s = Some s' →
  stream_recorded s'.
Proof.
  intros [Hcatalog (Hd & Hr & Hs & Hcur & Hall) Hun Hmethods] Hcall.
  unfold BeginStackMapEntry in Hcall.
  apply DCHECK_bind_Some in Hcall as [_ Hcall].
  apply DCHECK_bind_Some in Hcall as [_ Hcall].
  injection Hcall as <-. split; try assumption.
  unfold maxima_cover, maxima_cover_entry. simpl.
  split; [lia|]. split; [lia|]. split; [destruct sp_mask; lia|].
  split.
  - split; [lia|]. split; [lia|]. intros m ->. lia.
  - eapply Forall_impl; [exact Hall|]. intros e (He1 & He2 & He3). simpl.
    split; [lia|]. split; [lia|]. intros m Hm. specialize (He3 m Hm).
    destruct sp_mask; lia.
Qed.

Lemma add_live_location_recorded kind value s s' :
  stream_recorded s →
  add_live_location kind value s = Some s' →
  stream_recorded s'.
Proof.
  intros [Hcatalog (Hd & Hr & Hs & Hcur & Hall) Hun (Hblank & Hcm & Hfm)] Hcall.
  unfold add_live_location in Hcall.
  apply DCHECK_bind_Some in Hcall as [Hshort Hcall].
  destruct (intern_location (kind, value) s) as [[index catalog] indices] eqn:Hintern.
  destruct (intern_location_spec (kind, value) s index catalog indices Hcatalog Hshort Hintern)
    as (_ & _ & Hnodup' & Hinverse' & Hlocs' & Hshort').
  apply bind_Some_inv in Hcall as ([entry inline_info] & Hei & Hcall).
  injection Hcall as <-.
  destruct (in_inline_frame_ s) eqn:Ein.
  - apply DCHECK_bind_Some in Hei as [_ Hei].
    apply bind_Some_inv in Hei as (mask & Hmask & Hei). injection Hei as <- <-.
    split.
    + unfold catalog_interned. simpl. split; [exact Hnodup'|].
      split; [exact Hinverse'|]. split; [exact Hlocs'|exact Hshort'].
    + unfold maxima_cover. simpl. split; [exact Hd|]. split; [exact Hr|].
      split; [exact Hs|]. split; [exact Hcur|exact Hall].
    + exact Hun.
    + split; [simpl; discriminate|]. split; [exact Hcm|exact Hfm].
  - apply DCHECK_bind_Some in Hei as [_ Hei].
    apply bind_Some_inv in Hei as (mask & Hmask & Hei). injection Hei as <- <-.
    split.
    + unfold catalog_interned. simpl. split; [exact Hnodup'|].
      split; [exact Hinverse'|]. split; [exact Hlocs'|exact Hshort'].
    + unfold maxima_cover. simpl. split; [exact Hd|]. split; [exact Hr|].
      split; [exact Hs|]. split; [exact Hcur|exact Hall].
    + exact Hun.
    + split; [simpl; exact Hblank|]. split; [exact Hcm|exact Hfm].
Qed.

Lemma AddDexRegisterEntry_recorded kind value s s' :
  stream_recorded s →
  AddDexRegisterEntry kind value s = Some s' →
  stream_recorded s'.
Proof.
  intros Hrec Hcall. unfold AddDexRegisterEntry in Hcall.
  apply bind_Some_inv in Hcall as (s1 & Hs1 & Hcall). injection Hcall as <-.
  assert (Hrec1 : stream_recorded s1).
  { case_bool_decide; [|injection Hs1 as <-; exact Hrec].
    eapply add_live_location_recorded; eassumption. }
  destruct Hrec1 as [Hcatalog Hmaxima Hun Hmethods]. split; assumption.
Qed.

Lemma BeginInlineInfoEntry_recorded method dex_pc num_dex_registers outer_dex_file
    s s' :
  stream_recorded s →
  BeginInlineInfoEntry method dex_pc num_dex_registers outer_dex_file s = Some s' →
  stream_recorded s'.
Proof.
  intros [Hcatalog Hmaxima Hun (Hblank & Hcm & Hfm)] Hcall.
  unfold BeginInlineInfoEntry in Hcall.
  apply DCHECK_bind_Some in Hcall as [Hout Hcall].
  apply negb_true_iff in Hout. specialize (Hblank Hout).
  apply bind_Some_inv in Hcall as ([method_field method_index_field] & Hmm & Hcall).
  injection Hcall as <-. split; try assumption.
  split; [discriminate|]. split; [|exact Hfm].
  unfold method_or_index. simpl. rewrite Hblank in Hmm.
  destruct (EncodeArtMethodInInlineInfo method).
  - injection Hmm as <- <-. right. reflexivity.
  - apply bind_Some_inv in Hmm as (? & _ & Hmm). injection Hmm as <- <-.
    left. reflexivity.
Qed.

Lemma EndInlineInfoEntry_recorded s s' :
  stream_recorded s → EndInlineInfoEntry s = Some s' → stream_recorded s'.
Proof.
  intros [Hcatalog Hmaxima Hun (Hblank & Hcm & Hfm)] Hcall.
  unfold EndInlineInfoEntry in Hcall.
  apply DCHECK_bind_Some in Hcall as [_ Hcall].
  apply DCHECK_bind_Some in Hcall as [_ Hcall].
  injection Hcall as <-. split; try assumption.
  split; [reflexivity|]. split; [apply method_or_index_zero|].
  apply Forall_app. split; [exact Hfm|]. constructor; [exact Hcm|constructor].
Qed.

Lemma EndStackMapEntry_recorded s s' :
  stream_recorded s → EndStackMapEntry s = Some s' → stream_recorded s'.
Proof.
  intros [Hcatalog (Hd & Hr & Hs & Hcur & Hall) Hun Hmethods] Hcall.
  unfold EndStackMapEntry in Hcall.
  apply bind_Some_inv in Hcall as ([same_as index] & _ & Hcall).
  injection Hcall as <-. split; try assumption.
  unfold maxima_cover. simpl. split; [exact Hd|]. split; [exact Hr|].
  split; [exact Hs|]. split; [apply maxima_cover_entry_zero; assumption|].
  apply Forall_app. split; [exact Hall|]. constructor; [exact Hcur|constructor].
Qed.

Lemma call_recorded c s s' :
  stream_recorded s → call c s = Some s' → stream_recorded s'.
Proof.
  intros Hrec Hcall. destruct c; simpl in Hcall.
  - eapply BeginStackMapEntry_recorded; eassumption.
  - eapply AddDexRegisterEntry_recorded; eassumption.
  - eapply BeginInlineInfoEntry_recorded; eassumption.
  - eapply EndInlineInfoEntry_recorded; eassumption.
  - eapply EndStackMapEntry_recorded; eassumption.
Qed.

Lemma calls_recorded cs : ∀ s s',
  stream_recorded s → calls cs s = Some s' → stream_recorded s'.
Proof.
  induction cs as [|c cs IH]; intros s s' Hrec Hcalls; simpl in Hcalls.
  - injection Hcalls as <-. exact Hrec.
  - apply bind_Some_inv in Hcalls as (s1 & Hs1 & Hcalls).
    eapply IH; [|exact Hcalls]. eapply call_recorded; eassumption.
Qed.

(** X1.  After any sequence of streaming calls on a fresh stream, the
    catalog of locations holds no location twice, the companion map sends a
    location to its index in the catalog and nothing else, every index
    recorded for a live register names a catalog entry, and every catalog
    entry is of a short kind. *)
Theorem catalog_interned_after_calls (isa : InstructionSet) (cs : list StreamCall)
    (s : StackMapStream) :
  calls cs (StackMapStream_new isa) = Some s →
  catalog_interned s.
Proof.
  intros Hcalls. eapply rec_catalog, calls_recorded; [|exact Hcalls].
  apply stream_recorded_new.
Qed.

(** X2.  [AddDexRegisterEntry] with a kind other than [kNone] returns only
    for a short kind and a cursor below the number of registers of the open
    frame or entry; it then appends one index to the shared index array,
    the index at which the catalog, which grows by the location exactly
    when it did not hold it, holds the location; it sets the bit of the
    cursor in the live mask and advances the cursor by one. *)
Theorem AddDexRegisterEntry_live (kind : Kind) (value : Z) (s s' : StackMapStream) :
  catalog_interned s →
  kind ≠ kNone →
  AddDexRegisterEntry kind value s = Some s' →
  IsShortLocationKind kind = true
  ∧ current_dex_register_ s < applicable_num_dex_registers s
  ∧ current_dex_register_ s' = to_uint32 (current_dex_register_ s + 1)
  ∧ location_catalog_entries_ s'
    = (if decide ((kind, value) ∈ location_catalog_entries_ s)
       then location_catalog_entries_ s
       else location_catalog_entries_ s ++ [(kind, value)])
  ∧ mask_bit (applicable_live_mask s') (Z.to_nat (current_dex_register_ s)) = true
  ∧ ∃ index,
      dex_register_locations_ s' = dex_register_locations_ s ++ [index]
      ∧ location_catalog_entries_ s' !! index = Some (kind, value).
Proof.
  intros Hcatalog Hkind Hcall. unfold AddDexRegisterEntry in Hcall.
  rewrite bool_decide_eq_true_2 in Hcall by exact Hkind.
  apply bind_Some_inv in Hcall as (s1 & Hs1 & Hcall). injection Hcall as <-.
  unfold add_live_location in Hs1.
  apply DCHECK_bind_Some in Hs1 as [Hshort Hs1].
  destruct (intern_location (kind, value) s) as [[index catalog] indices] eqn:Hintern.
  destruct (intern_location_spec (kind, value) s index catalog indices Hcatalog Hshort Hintern)
    as (Hgrown & Hindex & _).
  apply bind_Some_inv in Hs1 as ([entry inline_info] & Hei & Hs1).
  injection Hs1 as <-.
  unfold applicable_num_dex_registers, applicable_live_mask. simpl.
  split; [exact Hshort|].
  destruct (in_inline_frame_ s) eqn:Ein.
  - apply DCHECK_bind_Some in Hei as [Hcursor Hei].
    apply bool_decide_eq_true in Hcursor.
    apply bind_Some_inv in Hei as (mask & Hmask & Hei). injection Hei as <- <-.
    split; [exact Hcursor|]. split; [reflexivity|]. split; [exact Hgrown|].
    split; [simpl; apply IsBitSet_SetBit|].
    exists index. split; [reflexivity|exact Hindex].
  - apply DCHECK_bind_Some in Hei as [Hcursor Hei].
    apply bool_decide_eq_true in Hcursor.
    apply bind_Some_inv in Hei as (mask & Hmask & Hei). injection Hei as <- <-.
    split; [exact Hcursor|]. split; [reflexivity|]. split; [exact Hgrown|].
    split; [simpl; apply IsBitSet_SetBit|].
    exists index. split; [reflexivity|exact Hindex].
Qed.

(** X3.  After any sequence of streaming calls on a fresh stream, the
    running maxima cover every recorded entry: its dex PC is at most
    [dex_pc_max_], its register mask at most [register_mask_max_], and the
    highest bit of its stack mask at most [stack_mask_max_], which is -1
    while no stack mask has a bit. *)
Theorem maxima_cover_after_calls (isa : InstructionSet) (cs : list StreamCall)
    (s : StackMapStream) :
  calls cs (StackMapStream_new isa) = Some s →
  0 ≤ dex_pc_max_ s ∧ 0 ≤ register_mask_max_ s ∧ -1 ≤ stack_mask_max_ s
  ∧ ∀ e, e ∈ stack_maps_ s →
      sm_dex_pc e ≤ dex_pc_max_ s
      ∧ sm_register_mask e ≤ register_mask_max_ s
      ∧ ∀ m, sm_sp_mask e = Some m →
          BitVector_GetHighestBitSet m ≤ stack_mask_max_ s.
Proof.
  intros Hcalls.
  destruct (rec_maxima _ (calls_recorded _ _ _ (stream_recorded_new isa) Hcalls))
    as (Hd & Hr & Hs & _ & Hall).
  split; [exact Hd|]. split; [exact Hr|]. split; [exact Hs|].
  intros e He. exact (proj1 (Forall_forall _ _) Hall e He).
Qed.

(** X4.  The streaming calls never prepare the stream: after any sequence of
    them on a fresh stream the needed size is still 0, and [FillIn] fails on
    its check that [PrepareForFillIn] was called, whatever the region. *)
Theorem FillIn_needs_PrepareForFillIn (isa : InstructionSet) (cs : list StreamCall)
    (s : StackMapStream) (region_size : nat) (region : MemoryRegion) :
  calls cs (StackMapStream_new isa) = Some s →
  needed_size_ s = 0%nat ∧ code_info_encoding_ s = []
  ∧ FillIn s region_size region = None.
Proof.
  intros Hcalls.
  destruct (rec_unprepared _ (calls_recorded _ _ _ (stream_recorded_new isa) Hcalls))
    as (Hsize & Hheader & _).
  split; [exact Hsize|]. split; [exact Hheader|].
  unfold FillIn. destruct (bool_decide (0 = sm_dex_pc (current_entry_ s)));
    [|reflexivity].
  cbn [DCHECK mbind option_bind].
  rewrite (bool_decide_eq_false_2 (0%nat ≠ needed_size_ s)) by (rewrite Hsize; tauto).
  reflexivity.
Qed.

(** X5.  After any sequence of streaming calls on a fresh stream, every
    recorded inline frame holds the address of its method or the index of
    its method, never both: [BeginInlineInfoEntry] sets one of the two
    fields of a frame that [EndInlineInfoEntry] left blank. *)
Theorem inline_frames_method_or_index (isa : InstructionSet) (cs : list StreamCall)
    (s : StackMapStream) :
  calls cs (StackMapStream_new isa) = Some s →
  (in_inline_frame_ s = false → current_inline_info_ s = InlineInfoEntry_zero)
  ∧ ∀ f, f ∈ inline_infos_ s → ii_method f = 0 ∨ ii_method_index f = 0.
Proof.
  intros Hcalls.
  destruct (rec_methods _ (calls_recorded _ _ _ (stream_recorded_new isa) Hcalls))
    as (Hblank & _ & Hall).
  split; [exact Hblank|].
  intros f Hf. exact (proj1 (Forall_forall _ _) Hall f Hf).
Qed.

(** *** The comparison of two dex register maps *)

Lemma HaveTheSameDexMaps_returns locations a b :
  entry_wf locations a → entry_wf locations b →
  is_Some (HaveTheSameDexMaps locations a b).
Proof.
  intros [Hma Hla] [Hmb Hlb]. unfold HaveTheSameDexMaps.
  destruct (sm_live_dex_registers_mask a) as [ma|] eqn:Ea,
           (sm_live_dex_registers_mask b) as [mb|] eqn:Eb;
    try (eexists; reflexivity).
  simpl in *.
  destruct (bool_decide (sm_num_dex_registers a ≠ sm_num_dex_registers b));
    [eexists; reflexivity|].
  destruct (bool_decide (sm_num_dex_registers a ≠ 0)); [|eexists; reflexivity].
  unfold BitVector_Equal. destruct (decide (ma = mb)) as [->|Hne].
  - rewrite (bool_decide_eq_true_2 (mb = mb)) by reflexivity. simpl.
    rewrite (bool_decide_eq_true_2
               (BitVector_NumSetBits mb ≤ length locations)%nat) by lia.
    cbn [DCHECK mbind option_bind].
    rewrite (bool_decide_eq_true_2
               (sm_dex_register_locations_start_index a
                ≤ length locations - BitVector_NumSetBits mb)%nat) by lia.
    cbn [DCHECK mbind option_bind].
    rewrite (bool_decide_eq_true_2
               (sm_dex_register_locations_start_index b
                ≤ length locations - BitVector_NumSetBits mb)%nat) by lia.
    cbn [DCHECK mbind option_bind].
    eexists. reflexivity.
  - rewrite (bool_decide_eq_false_2 (ma = mb)) by exact Hne. simpl.
    eexists. reflexivity.
Qed.

Lemma find_same_in_bucket_returns s bucket :
  Forall (entry_wf (dex_register_locations_ s)) (stack_maps_ s) →
  entry_wf (dex_register_locations_ s) (current_entry_ s) →
  (∀ r, r ∈ bucket → is_Some (stack_maps_ s !! r)) →
  is_Some (find_same_in_bucket s bucket).
Proof.
  intros Hwf Hcur. induction bucket as [|r bucket IH]; intros Hbucket.
  - eexists. reflexivity.
  - simpl. destruct (Hbucket r) as [a Ha]; [left|]. rewrite Ha.
    cbn [mbind option_bind].
    destruct (HaveTheSameDexMaps_returns (dex_register_locations_ s) a
                (current_entry_ s)) as [same Hsame].
    { eapply Forall_lookup_1; [exact Hwf|exact Ha]. }
    { exact Hcur. }
    rewrite Hsame. cbn [mbind option_bind]. destruct same; [eexists; reflexivity|].
    apply IH. intros r' Hr'. apply Hbucket. right. exact Hr'.
Qed.

Lemma FindEntryWithTheSameDexMap_returns s :
  stream_invariant s → is_Some (FindEntryWithTheSameDexMap s).
Proof.
  intros [Hrefs Hcur _ Hbucket]. unfold FindEntryWithTheSameDexMap.
  destruct (dex_map_hash_to_stack_map_indices_ s
              !! sm_dex_register_map_hash (current_entry_ s)) as [bucket|] eqn:Eb;
    [|eexists; reflexivity].
  destruct (find_same_in_bucket_returns s bucket) as [found Hfound].
  - apply Hrefs.
  - exact Hcur.
  - intros r Hr.
    destruct (proj1 (Hbucket (sm_dex_register_map_hash (current_entry_ s)) r))
      as (er & Her & _); [rewrite Eb; exact Hr|].
    rewrite Her. eexists. reflexivity.
  - rewrite Hfound. cbn [mbind option_bind]. destruct found; eexists; reflexivity.
Qed.

(** X6.  [HaveTheSameDexMaps] on two entries whose live masks are absent
    exactly for no register and whose slices lie in the shared index array
    trips none of its checks, and answers true exactly when the two maps
    are bit-identical: the same number of registers, the same live mask and
    the same catalog indices in order. *)
Theorem HaveTheSameDexMaps_decides (locations : list nat) (a b : StackMapEntry) :
  entry_wf locations a → entry_wf locations b →
  ∃ same,
    HaveTheSameDexMaps locations a b = Some same
    ∧ (same = true ↔
       sm_num_dex_registers a = sm_num_dex_registers b
       ∧ sm_live_dex_registers_mask a = sm_live_dex_registers_mask b
       ∧ locations_slice locations (sm_dex_register_locations_start_index a)
           (live_count (sm_live_dex_registers_mask a))
         = locations_slice locations (sm_dex_register_locations_start_index b)
             (live_count (sm_live_dex_registers_mask b))).
Proof.
  intros Ha Hb. destruct (HaveTheSameDexMaps_returns locations a b Ha Hb) as [same Hs].
  exists same. split; [exact Hs|].
  exact (HaveTheSameDexMaps_spec locations a b same Ha Hb Hs).
Qed.

(** X7.  [EndStackMapEntry] has no check of its own: on a stream that
    streaming calls left it returns, whatever the cursor, the registers
    added and the inline frames recorded.  It appends the open entry with
    its back-reference to the stack maps, blanks the open entry and leaves
    the other tables, the cursor and the inline-frame flag as they were. *)
Theorem EndStackMapEntry_returns (s : StackMapStream) :
  stream_invariant s →
  ∃ same_as s',
    EndStackMapEntry s = Some s'
    ∧ stack_maps_ s'
      = stack_maps_ s ++ [StackMapEntry_set_same_as (current_entry_ s) same_as]
    ∧ current_entry_ s' = StackMapEntry_zero
    ∧ inline_infos_ s' = inline_infos_ s
    ∧ dex_register_locations_ s' = dex_register_locations_ s
    ∧ location_catalog_entries_ s' = location_catalog_entries_ s
    ∧ current_inline_info_ s' = current_inline_info_ s
    ∧ current_dex_register_ s' = current_dex_register_ s
    ∧ in_inline_frame_ s' = in_inline_frame_ s.
Proof.
  intros Hinv.
  destruct (FindEntryWithTheSameDexMap_returns s Hinv) as [[same_as index] Hfind].
  exists same_as. unfold EndStackMapEntry. rewrite Hfind. cbn [mbind option_bind].
  eexists. split; [reflexivity|]. simpl. repeat split.
Qed.

(** X8.  After any sequence of streaming calls on a fresh stream, the
    similarity index holds, in the bucket of a hash, exactly the indices of
    the recorded entries with that hash and no back-reference, and two such
    entries of one bucket never have bit-identical maps. *)
Theorem similarity_index_after_calls (isa : InstructionSet) (cs : list StreamCall)
    (s : StackMapStream) :
  calls cs (StackMapStream_new isa) = Some s →
  (∀ hash r,
     r ∈ default [] (dex_map_hash_to_stack_map_indices_ s !! hash)
     ↔ ∃ er, stack_maps_ s !! r = Some er
         ∧ sm_dex_register_map_hash er = hash
         ∧ sm_same_dex_register_map_as_ er = kNoSameDexMapFound)
  ∧ ∀ i j ei ej,
      stack_maps_ s !! i = Some ei → stack_maps_ s !! j = Some ej → i ≠ j →
      sm_same_dex_register_map_as_ ei = kNoSameDexMapFound →
      sm_same_dex_register_map_as_ ej = kNoSameDexMapFound →
      sm_dex_register_map_hash ei = sm_dex_register_map_hash ej →
      ¬ same_dex_map (dex_register_locations_ s) ei ej.
Proof.
  intros Hcalls.
  destruct (calls_invariant cs _ _ (stream_invariant_new isa) Hcalls)
    as [[_ _ Hdistinct] _ _ Hbucket].
  split; [exact Hbucket|exact Hdistinct].
Qed.

(** *** Properly nested sequences *)

Lemma stream_nested_new isa : stream_nested Idle (StackMapStream_new isa).
Proof. split; [repeat split|exact I|reflexivity]. Qed.

Lemma call_nested c p p' s s' :
  phase_after p c = Some p' →
  stream_nested p s →
  call c s = Some s' →
  stream_nested p' s'.
Proof.
  intros Hphase [Hholds Hstarts Hcount] Hcall. unfold inline_counted in Hcount.
  destruct c; simpl in Hphase, Hcall.
  - (* BeginStackMapEntry *)
    destruct p; try discriminate. injection Hphase as <-.
    destruct Hholds as (Hentry & Hin & Hlen).
    unfold BeginStackMapEntry in Hcall.
    apply DCHECK_bind_Some in Hcall as [_ Hcall].
    apply DCHECK_bind_Some in Hcall as [_ Hcall].
    injection Hcall as <-. split; [|exact Hstarts|].
    + simpl. split; [exact Hin|]. split; [exact Hlen|]. lia.
    + unfold inline_counted. simpl. rewrite Hcount.
      destruct (bool_decide (inlining_depth > 0)); lia.
  - (* AddDexRegisterEntry *)
    assert (Hp : p' = p ∧ p ≠ Idle).
    { destruct p; try discriminate; injection Hphase as <-; split; congruence. }
    destruct Hp as [-> Hp].
    unfold AddDexRegisterEntry in Hcall.
    apply bind_Some_inv in Hcall as (s1 & Hs1 & Hcall). injection Hcall as <-.
    assert (Hsame : stack_maps_ s1 = stack_maps_ s
              ∧ inline_infos_ s1 = inline_infos_ s
              ∧ in_inline_frame_ s1 = in_inline_frame_ s
              ∧ number_of_stack_maps_with_inline_info_ s1
                = number_of_stack_maps_with_inline_info_ s
              ∧ sm_inlining_depth (current_entry_ s1)
                = sm_inlining_depth (current_entry_ s)
              ∧ sm_inline_infos_start_index (current_entry_ s1)
                = sm_inline_infos_start_index (current_entry_ s)).
    { case_bool_decide; [|injection Hs1 as <-; repeat split].
      unfold add_live_location in Hs1.
      apply DCHECK_bind_Some in Hs1 as [_ Hs1].
      destruct (intern_location (kind, value) s) as [[index catalog] indices].
      apply bind_Some_inv in Hs1 as ([entry inline_info] & Hei & Hs1).
      injection Hs1 as <-. simpl.
      destruct (in_inline_frame_ s).
      - apply DCHECK_bind_Some in Hei as [_ Hei].
        apply bind_Some_inv in Hei as (mask & _ & Hei). injection Hei as <- <-.
        repeat split.
      - apply DCHECK_bind_Some in Hei as [_ Hei].
        apply bind_Some_inv in Hei as (mask & _ & Hei). injection Hei as <- <-.
        repeat split. }
    destruct Hsame as (Hsm & Hii & Hin & Hn & Hd & Hst).
    split.
    + destruct p; [contradiction| |]; unfold phase_holds in *; simpl;
        rewrite Hsm, Hii, Hin, Hd, Hst; exact Hholds.
    + simpl. rewrite Hsm. exact Hstarts.
    + unfold inline_counted. simpl. rewrite Hsm, Hn, Hd. exact Hcount.
  - (* BeginInlineInfoEntry *)
    destruct p as [|[|k]|]; try discriminate. injection Hphase as <-.
    destruct Hholds as (Hin & Hstart & Hlen).
    unfold BeginInlineInfoEntry in Hcall.
    apply DCHECK_bind_Some in Hcall as [_ Hcall].
    apply bind_Some_inv in Hcall as ([method_field method_index_field] & _ & Hcall).
    injection Hcall as <-. split; [|exact Hstarts|exact Hcount].
    simpl. split; [reflexivity|]. split; [exact Hstart|exact Hlen].
  - (* EndInlineInfoEntry *)
    destruct p; try discriminate. injection Hphase as <-.
    destruct Hholds as (Hin & Hstart & Hlen).
    unfold EndInlineInfoEntry in Hcall.
    apply DCHECK_bind_Some in Hcall as [_ Hcall].
    apply DCHECK_bind_Some in Hcall as [_ Hcall].
    injection Hcall as <-. split; [|exact Hstarts|exact Hcount].
    simpl. split; [reflexivity|]. split; [exact Hstart|].
    rewrite length_app. simpl. lia.
  - (* EndStackMapEntry *)
    destruct p as [|[|k]|]; try discriminate. injection Hphase as <-.
    destruct Hholds as (Hin & Hstart & Hlen).
    unfold EndStackMapEntry in Hcall.
    apply bind_Some_inv in Hcall as ([same_as index] & _ & Hcall).
    injection Hcall as <-. split.
    + simpl. split; [reflexivity|]. split; [exact Hin|].
      rewrite total_inlining_depth_app. simpl. lia.
    + simpl. apply inline_starts_from_snoc; [exact Hstarts|]. simpl. exact Hstart.
    + unfold inline_counted. simpl. rewrite Hcount, filter_app, length_app.
      rewrite filter_cons, filter_nil. simpl.
      destruct (decide (sm_inlining_depth (current_entry_ s) > 0)) as [Hd|Hd].
      * rewrite (bool_decide_eq_true_2 _ Hd). simpl. lia.
      * rewrite (bool_decide_eq_false_2 _ Hd). simpl. lia.
Qed.

Lemma calls_nested cs : ∀ p s s',
  properly_nested p cs = true →
  stream_nested p s →
  calls cs s = Some s' →
  stream_nested Idle s'.
Proof.
  induction cs as [|c cs IH]; intros p s s' Hnested Hs Hcalls.
  - simpl in *. injection Hcalls as <-. destruct p; try discriminate. exact Hs.
  - simpl in *. destruct (phase_after p c) as [p'|] eqn:Ep; [|discriminate].
    apply bind_Some_inv in Hcalls as (s1 & Hs1 & Hcalls).
    eapply IH; [exact Hnested| |exact Hcalls].
    eapply call_nested; eassumption.
Qed.

(** X9.  After a properly nested sequence of streaming calls on a fresh
    stream (every entry closed after exactly the inline frames it
    declared), no entry and no frame is open, the table of the inline
    frames holds as many frames as the recorded entries declare, the frames
    of an entry lie one after the other from its start index on, entry after
    entry, and the counter of the stack maps with inline info is the number
    of recorded entries of positive inlining depth. *)
Theorem properly_nested_inline_infos (isa : InstructionSet) (cs : list StreamCall)
    (s : StackMapStream) :
  properly_nested Idle cs = true →
  calls cs (StackMapStream_new isa) = Some s →
  current_entry_ s = StackMapEntry_zero
  ∧ in_inline_frame_ s = false
  ∧ length (inline_infos_ s) = total_inlining_depth (stack_maps_ s)
  ∧ inline_starts_from 0 (stack_maps_ s)
  ∧ number_of_stack_maps_with_inline_info_ s
    = length (filter (λ e, sm_inlining_depth e > 0) (stack_maps_ s)).
Proof.
  intros Hnested Hcalls.
  destruct (calls_nested cs Idle _ _ Hnested (stream_nested_new isa) Hcalls)
    as [(Hcurrent & Hin & Hlen) Hstarts Hcount].
  split; [exact Hcurrent|]. split; [exact Hin|]. split; [exact Hlen|].
  split; [exact Hstarts|]. unfold inline_counted in Hcount. lia.
Qed.

(** *** The sizers *)

Lemma foldl_max_attained (entries : list StackMapEntry) : ∀ acc,
  let result :=
    foldl (λ max_native_pc_offset entry,
             Z.max max_native_pc_offset (sm_native_pc_code_offset entry))
          acc entries in
  acc ≤ result
  ∧ (result = acc
     ∨ ∃ e, e ∈ entries ∧ sm_native_pc_code_offset e = result).
Proof.
  induction entries as [|e entries IH]; intros acc; simpl.
  - split; [lia|left; reflexivity].
  - destruct (IH (Z.max acc (sm_native_pc_code_offset e))) as [Hle Hat].
    split; [lia|]. destruct Hat as [Heq|(e' & He' & Hoff)].
    + destruct (Z.max_spec acc (sm_native_pc_code_offset e)) as [[_ Hm]|[_ Hm]].
      * right. exists e. split; [left|]. lia.
      * left. lia.
    + right. exists e'. split; [right; exact He'|exact Hoff].
Qed.

(** X10.  [ComputeMaxNativePcCodeOffset] is the greatest native PC code
    offset of the recorded entries, and 0 when there is none or none is
    positive: it bounds the offset of every entry, and it is 0 or the offset
    of some entry. *)
Theorem ComputeMaxNativePcCodeOffset_greatest (s : StackMapStream) :
  0 ≤ ComputeMaxNativePcCodeOffset s
  ∧ (∀ e, e ∈ stack_maps_ s →
       sm_native_pc_code_offset e ≤ ComputeMaxNativePcCodeOffset s)
  ∧ (ComputeMaxNativePcCodeOffset s = 0
     ∨ ∃ e, e ∈ stack_maps_ s
         ∧ sm_native_pc_code_offset e = ComputeMaxNativePcCodeOffset s).
Proof.
  destruct (foldl_max_attained (stack_maps_ s) 0) as [Hle Hat].
  split; [exact Hle|]. split; [|exact Hat].
  intros e He. apply ComputeMaxNativePcCodeOffset_bound, He.
Qed.

Lemma inline_maxima_frames_inv s depth : ∀ m index m' index',
  inline_maxima_frames s depth m index = Some (m', index') →
  index' = (index + depth)%nat.
Proof.
  induction depth as [|depth IH]; intros m index m' index' Hf.
  - simpl in Hf. injection Hf as _ <-. lia.
  - simpl in Hf. apply bind_Some_inv in Hf as (f & _ & Hf).
    apply IH in Hf as ->. lia.
Qed.

Lemma inline_maxima_loop_inv s entries : ∀ m index m' index',
  inline_maxima_loop s entries m index = Some (m', index') →
  index' = (index + total_inlining_depth entries)%nat.
Proof.
  induction entries as [|e entries IH]; intros m index m' index' Hl.
  - simpl in Hl. injection Hl as _ <-. simpl. lia.
  - simpl in Hl. apply bind_Some_inv in Hl as ([m1 index1] & Hf & Hl).
    apply inline_maxima_frames_inv in Hf as ->.
    apply IH in Hl as ->. simpl. lia.
Qed.

Lemma ComputeInlineInfoEncoding_depth s dex_register_maps_bytes ie :
  ComputeInlineInfoEncoding s dex_register_maps_bytes = Some ie →
  total_inlining_depth (stack_maps_ s) = length (inline_infos_ s).
Proof.
  unfold ComputeInlineInfoEncoding. intros Hie.
  apply bind_Some_inv in Hie as (m & Hm & _).
  unfold ComputeInlineInfoMaxima in Hm.
  apply bind_Some_inv in Hm as ([m1 index] & Hloop & Hm).
  apply DCHECK_bind_Some in Hm as [Hindex _].
  apply bool_decide_eq_true in Hindex.
  apply inline_maxima_loop_inv in Hloop. simpl in Hloop. lia.
Qed.

(** X11.  [ComputeInlineInfoEncoding] returns exactly when the recorded
    entries declare as many inline frames as the table of the inline frames
    holds: with fewer frames recorded it reads beyond the table, with more
    its final check fails. *)
Theorem ComputeInlineInfoEncoding_returns_iff (s : StackMapStream)
    (dex_register_maps_bytes : nat) :
  is_Some (ComputeInlineInfoEncoding s dex_register_maps_bytes)
  ↔ total_inlining_depth (stack_maps_ s) = length (inline_infos_ s).
Proof.
  split.
  - intros [ie Hie]. exact (ComputeInlineInfoEncoding_depth _ _ _ Hie).
  - intros Hdepth. unfold ComputeInlineInfoEncoding.
    rewrite (ComputeInlineInfoMaxima_fold s Hdepth). eexists. reflexivity.
Qed.

Lemma foldl_maxima_method_bound frames : ∀ m,
  let m' := foldl inline_maxima_step m frames in
  method_index_max m ≤ method_index_max m'
  ∧ extra_data_max m ≤ extra_data_max m'
  ∧ ∀ f, f ∈ frames →
      frame_method_index f ≤ method_index_max m'
      ∧ frame_extra_data f ≤ extra_data_max m'.
Proof.
  induction frames as [|g frames IH]; intros m; simpl.
  - split; [lia|]. split; [lia|]. intros f Hf. apply elem_of_nil in Hf. contradiction.
  - destruct (IH (inline_maxima_step m g)) as (Hmi & Hed & Hall).
    assert (Hstep : method_index_max m ≤ method_index_max (inline_maxima_step m g)
              ∧ extra_data_max m ≤ extra_data_max (inline_maxima_step m g)
              ∧ frame_method_index g ≤ method_index_max (inline_maxima_step m g)
              ∧ frame_extra_data g ≤ extra_data_max (inline_maxima_step m g)).
    { unfold inline_maxima_step, frame_method_index, frame_extra_data. simpl.
      destruct (decide (ii_method g = 0)) as [Hz|Hz].
      - rewrite (bool_decide_eq_true_2 _ Hz).
        rewrite (bool_decide_eq_false_2 (ii_method g ≠ 0)) by tauto. lia.
      - rewrite (bool_decide_eq_false_2 _ Hz).
        rewrite (bool_decide_eq_true_2 (ii_method g ≠ 0)) by exact Hz. lia. }
    split; [lia|]. split; [lia|].
    intros f Hf. apply elem_of_cons in Hf as [->|Hf]; [lia|]. apply Hall, Hf.
Qed.

(** X12.  The widths that [ComputeInlineInfoEncoding] computes hold what
    [FillIn] stores for the method of every recorded frame: the high half
    of the address of the method, or else the method index (when it is not
    negative), in the bits of the method index, and the low half of the
    address, or else 1, in the bits of the extra data; the bits of the map
    offset hold the size of the maps. *)
Theorem ComputeInlineInfoEncoding_method_widths (s : StackMapStream)
    (dex_register_maps_bytes : nat) (ie : InlineInfoEncoding) (f : InlineInfoEntry) :
  ComputeInlineInfoEncoding s dex_register_maps_bytes = Some ie →
  f ∈ inline_infos_ s →
  0 ≤ ii_method_index f →
  0 ≤ frame_method_index f < 2 ^ Z.of_nat (iie_method_index_bits ie)
  ∧ 0 ≤ frame_extra_data f < 2 ^ Z.of_nat (iie_extra_data_bits ie)
  ∧ Z.of_nat dex_register_maps_bytes
    < 2 ^ Z.of_nat (iie_dex_register_map_bits ie).
Proof.
  intros Hie Hf Hindex.
  pose proof (ComputeInlineInfoEncoding_depth _ _ _ Hie) as Hdepth.
  unfold ComputeInlineInfoEncoding in Hie.
  rewrite (ComputeInlineInfoMaxima_fold s Hdepth) in Hie.
  cbn [mbind option_bind] in Hie. injection Hie as <-.
  destruct (foldl_maxima_method_bound (inline_infos_ s)
              {| method_index_max := 0; dex_pc_max := kDexNoIndex;
                 extra_data_max := 0 |}) as (_ & _ & Hall).
  destruct (Hall f Hf) as [Hmi Hed].
  assert (Hmi0 : 0 ≤ frame_method_index f).
  { unfold frame_method_index, High32Bits.
    destruct (bool_decide (ii_method f ≠ 0)); [apply to_uint32_nonneg|exact Hindex]. }
  assert (Hed0 : 0 ≤ frame_extra_data f).
  { unfold frame_extra_data, Low32Bits.
    destruct (bool_decide (ii_method f ≠ 0)); [apply to_uint32_nonneg|lia]. }
  simpl. split; [split; [exact Hmi0|apply MinimumBitsToStore_bound; lia]|].
  split; [split; [exact Hed0|apply MinimumBitsToStore_bound; lia]|].
  apply MinimumBitsToStore_bound. lia.
Qed.

(** *** PrepareForFillIn *)

Lemma register_masks_loop_length entries :
  ∀ dedupe masks entries' dedupe' masks',
  register_masks_loop entries dedupe masks = (entries', dedupe', masks') →
  length masks' = length masks.
Proof.
  induction entries as [|e entries IH]; intros dedupe masks entries' dedupe' masks' Hl.
  - simpl in Hl. injection Hl as _ _ <-. reflexivity.
  - simpl in Hl. destruct (emplace _ _ _) as [found d1].
    destruct (register_masks_loop entries d1 _) as [[es d2] m2] eqn:El.
    injection Hl as _ _ <-. apply IH in El. rewrite El, length_insert. reflexivity.
Qed.

Lemma ComputeEncoding_tables s encoding s2 :
  ComputeEncoding s = Some (encoding, s2) →
  length (register_masks_ s2) = length (stack_maps_ s)
  ∧ length (stack_masks_ s2)
    = (kBitsPerByte
       * (RoundUp (Z.to_nat (stack_mask_max_ s + 1)) kBitsPerByte / kBitsPerByte
          * length (stack_maps_ s)))%nat
  ∧ dex_pc_max_ s2 = dex_pc_max_ s
  ∧ register_mask_max_ s2 = register_mask_max_ s
  ∧ stack_mask_max_ s2 = stack_mask_max_ s.
Proof.
  unfold ComputeEncoding. intros Hc.
  apply bind_Some_inv in Hc as (bytes & _ & Hc).
  apply bind_Some_inv in Hc as (ie & _ & Hc).
  destruct (PrepareStackMasks _ s) as [n1 s1] eqn:E1.
  destruct (PrepareRegisterMasks s1) as [n2 s3] eqn:E2.
  injection Hc as _ <-.
  unfold PrepareStackMasks in E1.
  destruct (stack_masks_loop _ _ _ _ _) as [[es1 d1] b1] eqn:L1. injection E1 as _ <-.
  unfold PrepareRegisterMasks in E2. cbn [stack_maps_ register_masks_ set_masks] in E2.
  destruct (register_masks_loop _ _ _) as [[es2 d2] t2] eqn:L2. injection E2 as _ <-.
  cbn [register_masks_ stack_masks_ dex_pc_max_ register_mask_max_ stack_mask_max_
       set_masks].
  pose proof (Forall2_length _ _ _ (stack_masks_loop_entries _ _ _ _ _ _ _ _ L1))
    as Hlength.
  apply register_masks_loop_length in L2. apply stack_masks_loop_length in L1.
  rewrite length_resize in L1. rewrite length_resize in L2.
  split; [lia|]. split; [exact L1|]. repeat split.
Qed.

(** X13.  [PrepareForFillIn] returns only on a stream without header; it
    sets the header to the compressed descriptor and the needed size to the
    size of the header plus the size of the tables, sizes the table of the
    register masks to one slot and the buffer of the stack masks to the
    bytes of one mask per stack map, and leaves the recording as it was:
    the entries but for their two mask indices, the catalog, the shared
    index array, the inline frames, the open entry and the maxima. *)
Theorem PrepareForFillIn_keeps_recording (s s' : StackMapStream) (size : nat) :
  PrepareForFillIn s = Some (size, s') →
  code_info_encoding_ s = []
  ∧ needed_size_ s' = size
  ∧ (∃ encoding,
       fst <$> ComputeEncoding s = Some encoding
       ∧ code_info_encoding_ s' = CodeInfoEncoding_Compress encoding
       ∧ size = (length (CodeInfoEncoding_Compress encoding)
                 + CodeInfoEncoding_NonHeaderSize encoding)%nat)
  ∧ length (stack_maps_ s') = length (stack_maps_ s)
  ∧ (∀ i e, stack_maps_ s !! i = Some e →
       ∃ stack_mask_index register_mask_index,
         stack_maps_ s' !! i
         = Some (with_mask_indices e stack_mask_index register_mask_index))
  ∧ location_catalog_entries_ s' = location_catalog_entries_ s
  ∧ dex_register_locations_ s' = dex_register_locations_ s
  ∧ inline_infos_ s' = inline_infos_ s
  ∧ current_entry_ s' = current_entry_ s
  ∧ dex_pc_max_ s' = dex_pc_max_ s
  ∧ register_mask_max_ s' = register_mask_max_ s
  ∧ stack_mask_max_ s' = stack_mask_max_ s
  ∧ length (register_masks_ s') = length (stack_maps_ s)
  ∧ length (stack_masks_ s')
    = (kBitsPerByte
       * (RoundUp (Z.to_nat (stack_mask_max_ s + 1)) kBitsPerByte / kBitsPerByte
          * length (stack_maps_ s)))%nat.
Proof.
  intros Hp. unfold PrepareForFillIn in Hp.
  apply bind_Some_inv in Hp as ([encoding s2] & Hc & Hp).
  apply DCHECK_bind_Some in Hp as [Hempty Hp].
  apply DCHECK_bind_Some in Hp as [_ Hp].
  injection Hp as <- <-.
  apply bool_decide_eq_true in Hempty.
  assert (Hnil : code_info_encoding_ s2 = [])
    by (destruct (code_info_encoding_ s2); [reflexivity|discriminate]).
  pose proof (ComputeEncoding_header _ _ _ Hc) as Hheader.
  pose proof (ComputeEncoding_prepared _ _ _ Hc) as Hprepared.
  destruct (ComputeEncoding_tables _ _ _ Hc) as (Hrm & Hsm & Hd & Hr & Hs).
  rewrite Hnil. simpl.
  split; [congruence|]. split; [reflexivity|]. split.
  { exists encoding. rewrite Hc. repeat split. }
  split; [symmetry; eapply Forall2_length, Hprepared|].
  split; [intros i e Hi; eapply prepared_lookup_l; eassumption|].
  split; [apply Hprepared|]. split; [apply Hprepared|]. split; [apply Hprepared|].
  split; [apply Hprepared|]. split; [exact Hd|]. split; [exact Hr|].
  split; [exact Hs|]. split; [exact Hrm|exact Hsm].
Qed.

(** *** FillIn *)

(** X14.  [FillIn] returns a region only if no entry is open (the dex PC of
    the open entry is 0), [PrepareForFillIn] set a needed size, the region
    has exactly that size, the header decodes to a descriptor with the
    number of the recorded stack maps and with the size of the catalog that
    the loop over the catalog reaches, and the readback [CheckCodeInfo] of
    the region passes. *)
Theorem FillIn_returns_only_checked (s : StackMapStream) (region_size : nat)
    (region r : MemoryRegion) :
  FillIn s region_size region = Some r →
  sm_dex_pc (current_entry_ s) = 0
  ∧ needed_size_ s ≠ 0%nat
  ∧ region_size = needed_size_ s
  ∧ CheckCodeInfo s r = Some ()
  ∧ ∃ encoding,
      CodeInfo_ExtractEncoding (code_info_encoding_ s) = Some encoding
      ∧ cie_stack_map_num_entries encoding = length (stack_maps_ s)
      ∧ cie_location_catalog_num_bytes encoding
        = ComputeDexRegisterLocationCatalogSize s.
Proof.
  unfold FillIn. intros Hf.
  apply DCHECK_bind_Some in Hf as [Hclosed Hf].
  apply DCHECK_bind_Some in Hf as [Hneeded Hf].
  apply DCHECK_bind_Some in Hf as [Hsize Hf].
  apply DCHECK_bind_Some in Hf as [_ Hf].
  apply bind_Some_inv in Hf as (encoding & Henc & Hf).
  apply DCHECK_bind_Some in Hf as [Hcount Hf].
  apply DCHECK_bind_Some in Hf as [_ Hf].
  apply DCHECK_bind_Some in Hf as [_ Hf].
  destruct (fill_location_catalog _ _ _ _) as [r0 offset] eqn:Ecat.
  apply DCHECK_bind_Some in Hf as [Hoffset Hf].
  apply bind_Some_inv in Hf as (c & Hc & Hf).
  apply bind_Some_inv in Hf as (r1 & Hr1 & Hf).
  apply bind_Some_inv in Hf as (r2 & Hr2 & Hf).
  apply bind_Some_inv in Hf as ([] & Hcheck & Hf). injection Hf as <-.
  apply bool_decide_eq_true in Hclosed, Hneeded, Hsize, Hcount, Hoffset.
  apply fill_location_catalog_spec in Ecat as (Hreached & _).
  split; [congruence|]. split; [congruence|]. split; [exact Hsize|].
  split; [exact Hcheck|]. exists encoding.
  split; [exact Henc|]. split; [exact Hcount|].
  rewrite <- Hoffset, Hreached. reflexivity.
Qed.

(** *** What a passed readback says *)

Lemma DCHECK_Some (b : bool) : DCHECK b = Some () → b = true.
Proof. destruct b; [reflexivity|discriminate]. Qed.

Lemma check_dex_registers_sound s encoding r map mask start :
  Forall (λ location : DexRegisterLocation, location.1 ≠ kNone)
    (location_catalog_entries_ s) →
  ∀ n a,
    check_dex_registers s encoding r map mask (seq a n)
      (start + live_below mask a) = Some () →
    ∀ reg, (a ≤ reg < a + n)%nat →
      map_register_live map reg = mask_bit mask reg
      ∧ recorded_location s mask start reg
        = Some (seen_location encoding r map reg).
Proof.
  intros Hkinds. induction n as [|n IH]; intros a Hcheck reg Hreg; [lia|].
  cbn [seq check_dex_registers] in Hcheck.
  apply bind_Some_inv in Hcheck as (m & Hm & Hcheck). subst mask.
  apply bind_Some_inv in Hcheck as ([expected index'] & Hexpected & Hcheck).
  apply bind_Some_inv in Hcheck as ([] & Hseen & Hcheck).
  assert (Hindex : index' = (start + live_below (Some m) (S a))%nat
            ∧ map_register_live map a = mask_bit (Some m) a
            ∧ recorded_location s (Some m) start a
              = Some (seen_location encoding r map a)).
  { unfold recorded_location. rewrite live_below_S. simpl.
    destruct (BitVector_IsBitSet m a) eqn:Ebit.
    - apply bind_Some_inv in Hexpected as (catalog_index & Hci & Hexpected).
      apply bind_Some_inv in Hexpected as (location & Hlocation & Hexpected).
      injection Hexpected as <- <-.
      assert (Hkind : location.1 ≠ kNone)
        by (eapply Forall_lookup_1 in Hkinds; [exact Hkinds|exact Hlocation]).
      rewrite (bool_decide_eq_false_2 _ Hkind) in Hseen.
      apply bind_Some_inv in Hseen as (mm & -> & Hseen).
      apply DCHECK_bind_Some in Hseen as [Hlive Hseen].
      apply DCHECK_bind_Some in Hseen as [Hfst Hseen].
      apply DCHECK_Some in Hseen.
      apply bool_decide_eq_true in Hfst, Hseen.
      split; [lia|]. split; [exact Hlive|].
      rewrite Hci. simpl. rewrite Hlocation. f_equal.
      destruct location, (GetDexRegisterLocation encoding mm a r). simpl in *.
      congruence.
    - injection Hexpected as <- <-.
      rewrite (bool_decide_eq_true_2 ((kNone, 0).1 = kNone)) in Hseen by reflexivity.
      apply DCHECK_Some in Hseen.
      split; [lia|]. destruct map as [mm|]; simpl.
      + apply negb_true_iff in Hseen. split; [exact Hseen|].
        unfold GetDexRegisterLocation. rewrite Hseen. reflexivity.
      + split; reflexivity. }
  destruct Hindex as (-> & Hlive & Hlocation).
  destruct (decide (reg = a)) as [->|Hne]; [split; assumption|].
  apply (IH (S a) Hcheck). lia.
Qed.

Lemma CheckDexRegisterMap_sound s encoding r offset num_dex_registers mask start :
  Forall (λ location : DexRegisterLocation, location.1 ≠ kNone)
    (location_catalog_entries_ s) →
  CheckDexRegisterMap s encoding r
    (GetDexRegisterMapAt encoding offset (Z.to_nat num_dex_registers) r)
    num_dex_registers mask start = Some () →
  dex_register_map_reads_back s encoding r offset num_dex_registers mask start.
Proof.
  intros Hkinds Hcheck. unfold CheckDexRegisterMap in Hcheck.
  apply bind_Some_inv in Hcheck as ([] & Hregs & Hcheck).
  unfold dex_register_map_reads_back. cbn zeta. split.
  - intros Hz. rewrite (bool_decide_eq_true_2 _ Hz) in Hcheck.
    apply DCHECK_Some in Hcheck.
    destruct (GetDexRegisterMapAt encoding offset _ r); [discriminate|reflexivity].
  - intros reg Hreg.
    eapply (check_dex_registers_sound s encoding r _ mask start Hkinds
              (Z.to_nat num_dex_registers) 0%nat); [|lia].
    replace (start + live_below mask 0)%nat with start
      by (unfold live_below; simpl; lia).
    exact Hregs.
Qed.

Lemma check_inline_frames_sound s encoding r entry first : ∀ depths,
  Forall (λ location : DexRegisterLocation, location.1 ≠ kNone)
    (location_catalog_entries_ s) →
  check_inline_frames s encoding r entry first depths = Some () →
  ∀ d, d ∈ depths →
    ∃ f, inline_infos_ s !! (sm_inline_infos_start_index entry + d)%nat = Some f
      ∧ frame_checked s encoding r (first + d) f.
Proof.
  intros depths Hkinds. induction depths as [|d0 depths IH]; intros Hcheck d Hd;
    [apply elem_of_nil in Hd; contradiction|].
  cbn [check_inline_frames] in Hcheck. cbn zeta in Hcheck.
  apply DCHECK_bind_Some in Hcheck as [_ Hcheck].
  apply bind_Some_inv in Hcheck as (f & Hf & Hcheck).
  apply DCHECK_bind_Some in Hcheck as [Hpc Hcheck].
  apply bind_Some_inv in Hcheck as ([] & Hmethod & Hcheck).
  apply bind_Some_inv in Hcheck as ([] & Hmap & Hcheck).
  apply elem_of_cons in Hd as [->|Hd]; [|apply IH; assumption].
  exists f. split; [exact Hf|]. unfold frame_checked. cbn zeta.
  apply bool_decide_eq_true in Hpc. split; [exact Hpc|]. split.
  - destruct (bool_decide (Z.land _ 1 = 0)); apply DCHECK_Some in Hmethod;
      apply bool_decide_eq_true in Hmethod; exact Hmethod.
  - apply CheckDexRegisterMap_sound; assumption.
Qed.

Lemma check_stack_map_sound s encoding r i e :
  Forall (λ location : DexRegisterLocation, location.1 ≠ kNone)
    (location_catalog_entries_ s) →
  check_stack_map s encoding r i e = Some () →
  stack_map_checked s encoding r i e.
Proof.
  intros Hkinds Hcheck. unfold check_stack_map in Hcheck. cbn zeta in Hcheck.
  apply DCHECK_bind_Some in Hcheck as [Hnative Hcheck].
  apply DCHECK_bind_Some in Hcheck as [Hpc Hcheck].
  apply DCHECK_bind_Some in Hcheck as [Hri Hcheck].
  apply DCHECK_bind_Some in Hcheck as [Hrm Hcheck].
  apply DCHECK_bind_Some in Hcheck as [Hsi Hcheck].
  apply bind_Some_inv in Hcheck as ([] & Hsm & Hcheck).
  apply bind_Some_inv in Hcheck as ([] & Hmap & Hcheck).
  apply DCHECK_bind_Some in Hcheck as [Hhas Hcheck].
  apply bool_decide_eq_true in Hnative, Hpc, Hri, Hrm, Hsi, Hhas.
  rewrite Hri, Nat2Z.id in Hrm. rewrite Hsi in Hsm.
  unfold stack_map_checked. cbn zeta.
  split; [exact Hnative|]. split; [exact Hpc|]. split; [exact Hri|].
  split; [exact Hrm|]. split; [exact Hsi|]. split.
  { intros b Hb.
    assert (Hbits : forallb
              (λ b, bool_decide
                      (region_stack_masks r (sm_stack_mask_index e, b)
                       = mask_bit (sm_sp_mask e) b))
              (seq 0 (cie_stack_mask_num_bits encoding)) = true).
    { destruct (sm_sp_mask e) as [m|]; simpl.
      - apply DCHECK_bind_Some in Hsm as [_ Hsm]. apply DCHECK_Some in Hsm.
        rewrite (Nat2Z.id (sm_stack_mask_index e)) in Hsm. exact Hsm.
      - apply DCHECK_Some in Hsm.
        rewrite (Nat2Z.id (sm_stack_mask_index e)) in Hsm. exact Hsm. }
    rewrite forallb_forall in Hbits.
    assert (Hin : In b (seq 0 (cie_stack_mask_num_bits encoding)))
      by (apply in_seq; lia).
    specialize (Hbits b Hin). apply bool_decide_eq_true in Hbits. exact Hbits. }
  split; [apply CheckDexRegisterMap_sound; assumption|].
  assert (Hiff : StackMap_Get (cie_stack_map_encoding encoding) i kInlineInfoIndex r
                 ≠ kNoInlineInfo ↔ sm_inlining_depth e ≠ 0).
  { destruct (decide (sm_inlining_depth e ≠ 0)) as [Hd|Hd].
    - rewrite (bool_decide_eq_true_2 (sm_inlining_depth e ≠ 0)) in Hhas by exact Hd.
      apply bool_decide_eq_true in Hhas. tauto.
    - rewrite (bool_decide_eq_false_2 (sm_inlining_depth e ≠ 0)) in Hhas by exact Hd.
      apply bool_decide_eq_false in Hhas. tauto. }
  split; [exact Hiff|].
  intros Hdepth. rewrite (bool_decide_eq_true_2 _ Hdepth) in Hcheck.
  apply bind_Some_inv in Hcheck as (depth & Hget & Hcheck).
  apply DCHECK_bind_Some in Hcheck as [Heq Hcheck].
  apply bool_decide_eq_true in Heq.
  split; [exists depth; split; assumption|].
  intros d Hd.
  eapply check_inline_frames_sound; [exact Hkinds|exact Hcheck|].
  apply elem_of_seq. lia.
Qed.

Lemma check_stack_maps_sound s encoding r : ∀ entries i,
  Forall (λ location : DexRegisterLocation, location.1 ≠ kNone)
    (location_catalog_entries_ s) →
  check_stack_maps s encoding r i entries = Some () →
  ∀ k e, entries !! k = Some e → stack_map_checked s encoding r (i + k) e.
Proof.
  induction entries as [|e0 entries IH]; intros i Hkinds Hcheck k e Hk;
    [rewrite lookup_nil in Hk; discriminate|].
  cbn [check_stack_maps] in Hcheck.
  apply bind_Some_inv in Hcheck as ([] & He0 & Hcheck).
  destruct k as [|k].
  - injection Hk as <-. rewrite Nat.add_0_r.
    apply check_stack_map_sound; assumption.
  - replace (i + S k)%nat with (S i + k)%nat by lia.
    eapply IH; eassumption.
Qed.

(** X15.  A readback that passes says what it checked: when no catalog
    entry is of kind [kNone] and [CheckCodeInfo] passes on a region, the
    header of the region decodes to a descriptor with the number of the
    recorded stack maps, and every stack map of the region has the native
    PC offset of its entry under the compression of the instruction set,
    its dex PC, its mask indices with the masks at them, its dex register
    map register by register, inline info exactly for a positive depth, that
    depth, and frame by frame the dex PC, the method or the method index and
    the dex register map. *)
Theorem CheckCodeInfo_sound (s : StackMapStream) (r : MemoryRegion) :
  Forall (λ location : DexRegisterLocation, location.1 ≠ kNone)
    (location_catalog_entries_ s) →
  CheckCodeInfo s r = Some () →
  ∃ encoding,
    CodeInfo_ExtractEncoding (region_header r) = Some encoding
    ∧ cie_stack_map_num_entries encoding = length (stack_maps_ s)
    ∧ ∀ i e, stack_maps_ s !! i = Some e → stack_map_checked s encoding r i e.
Proof.
  intros Hkinds Hcheck. unfold CheckCodeInfo in Hcheck.
  apply bind_Some_inv in Hcheck as (encoding & Hencoding & Hcheck).
  apply DCHECK_bind_Some in Hcheck as [Hcount Hcheck].
  apply bool_decide_eq_true in Hcount.
  exists encoding. split; [exact Hencoding|]. split; [exact Hcount|].
  intros i e Hi.
  exact (check_stack_maps_sound s encoding r (stack_maps_ s) 0 Hkinds Hcheck i e Hi).
Qed.

(** *** FillInDexRegisterMap read back *)

(** X16.  [FillInDexRegisterMap] on the map of some registers, in the bytes
    that the sizer counts for it and with a mask whose live registers have
    their indices in the shared index array, returns, rewrites only bits of
    those bytes of the sub-region of the maps, and the map reads back: below
    the number of registers a register is live exactly when its bit of the
    mask is set, and [GetDexRegisterLocation] finds for a live register the
    catalog entry recorded for it and the location of kind [kNone] for a
    dead one. *)
Theorem FillInDexRegisterMap_reads_back (s : StackMapStream)
    (encoding : CodeInfoEncoding) (r : MemoryRegion) (offset size : nat)
    (num_dex_registers : Z) (mask : BitVector) (start : nat) :
  num_dex_registers ≠ 0 →
  ComputeDexRegisterMapSize s num_dex_registers (Some mask) = Some size →
  (start + BitVector_NumSetBits mask ≤ length (dex_register_locations_ s))%nat →
  Forall (λ index, (index < length (location_catalog_entries_ s))%nat)
    (dex_register_locations_ s) →
  Z.of_nat (length (location_catalog_entries_ s)) ≤ uint32_modulus →
  (∀ index, (index < length (location_catalog_entries_ s))%nat →
     Z.of_nat index
     < 2 ^ Z.of_nat (SingleEntrySizeInBits (length (location_catalog_entries_ s)))) →
  cie_location_catalog_num_entries encoding = length (location_catalog_entries_ s) →
  catalog_written s r →
  ∃ r',
    FillInDexRegisterMap s offset size num_dex_registers mask start r = Some r'
    ∧ (∀ p, ¬ (kBitsPerByte * offset ≤ p < kBitsPerByte * (offset + size))%nat →
         region_dex_register_maps r' p = region_dex_register_maps r p)
    ∧ region_header r' = region_header r
    ∧ region_location_catalog r' = region_location_catalog r
    ∧ region_stack_maps r' = region_stack_maps r
    ∧ region_inline_infos r' = region_inline_infos r
    ∧ region_stack_masks r' = region_stack_masks r
    ∧ region_register_masks r' = region_register_masks r
    ∧ ∀ reg, (reg < Z.to_nat num_dex_registers)%nat →
        let map := DexRegisterMap_at r' offset (Z.to_nat num_dex_registers)
                     (cie_location_catalog_num_entries encoding) in
        drm_live_bit_mask map reg = BitVector_IsBitSet mask reg
        ∧ recorded_location s (Some mask) start reg
          = Some (GetDexRegisterLocation encoding map reg r').
Proof.
  intros Hn Hsize Hslice Hindices Hsmallc Hfit Hnum Hcatalog.
  destruct (FillInDexRegisterMap_spec s offset size num_dex_registers mask start r
              Hn Hsize Hslice)
    as (r' & Hfill & (Oh & Oc & Os & Oi & Osm & Orm & Obits) & Hlive & Hentries).
  exists r'. split; [exact Hfill|]. split; [exact Obits|].
  split; [exact Oh|]. split; [exact Oc|]. split; [exact Os|]. split; [exact Oi|].
  split; [exact Osm|]. split; [exact Orm|].
  rewrite Hnum. intros reg Hreg. cbn zeta. split; [apply Hlive, Hreg|].
  unfold recorded_location, GetDexRegisterLocation. cbn [mask_bit].
  rewrite (Hlive reg Hreg).
  destruct (BitVector_IsBitSet mask reg) eqn:Eb; [|reflexivity].
  assert (Hk : (live_below (Some mask) reg < BitVector_NumSetBits mask)%nat)
    by (apply live_below_lt, Eb).
  destruct (Hentries _ Hk) as (index & Hindex & Hentry).
  rewrite Hindex. cbn [mbind option_bind].
  assert (Hin : (index < length (location_catalog_entries_ s))%nat).
  { eapply Forall_lookup_1 in Hindices; [|exact Hindex]. exact Hindices. }
  destruct (lookup_lt_is_Some_2 _ _ Hin) as [location Hlocation].
  rewrite Hlocation. f_equal. symmetry.
  unfold GetIndexInDexRegisterMap.
  rewrite (live_below_ext (Some mask)) by (intros i Hi; apply Hlive; lia).
  rewrite Hentry, Hnum.
  rewrite LoadBits_StoreBits.
  - rewrite Nat2Z.id, Oc. apply Hcatalog, Hlocation.
  - specialize (Hfit index Hin). lia.
  - unfold is_uint32. lia.
Qed.

(** *** Live masks and the number of registers *)

Lemma IsBitSet_Create n i : BitVector_IsBitSet (BitVector_Create n) i = false.
Proof.
  unfold BitVector_IsBitSet, BitVector_Create.
  destruct (replicate _ false !! i) as [b|] eqn:Eb; [|reflexivity].
  apply lookup_replicate in Eb as [-> _]. reflexivity.
Qed.

Lemma IsBitSet_SetBit_ne bv idx i :
  i ≠ idx → BitVector_IsBitSet (BitVector_SetBit bv idx) i = BitVector_IsBitSet bv i.
Proof.
  intros Hne. unfold BitVector_IsBitSet, BitVector_SetBit.
  destruct (decide (idx < length bv)%nat).
  - rewrite list_lookup_insert_ne by congruence. reflexivity.
  - rewrite list_lookup_insert_ne by congruence.
    destruct (decide (i < length bv)%nat) as [Hi|Hi].
    + rewrite lookup_app_l by exact Hi. reflexivity.
    + rewrite lookup_app_r by lia.
      rewrite (lookup_ge_None_2 bv i) by lia. simpl.
      destruct (replicate _ false !! _) as [b|] eqn:Eb; [|reflexivity].
      apply lookup_replicate in Eb as [-> _]. reflexivity.
Qed.

Lemma mask_within_None n : mask_within n None.
Proof. intros i _. reflexivity. Qed.

Lemma mask_within_Create n m : mask_within n (Some (BitVector_Create m)).
Proof. intros i _. apply IsBitSet_Create. Qed.

Lemma mask_within_SetBit n mask cursor :
  0 ≤ cursor < n →
  mask_within n (Some mask) →
  mask_within n (Some (BitVector_SetBit mask (Z.to_nat cursor))).
Proof.
  intros Hc Hw i Hi. simpl. rewrite IsBitSet_SetBit_ne by lia. apply (Hw i Hi).
Qed.

Lemma NumSetBits_all_clear (bv : list bool) :
  (∀ i, default false (bv !! i) = false) → BitVector_NumSetBits bv = 0%nat.
Proof.
  unfold BitVector_NumSetBits. induction bv as [|b bv IH]; intros Hclear; [reflexivity|].
  pose proof (Hclear 0%nat) as Hb. simpl in Hb. subst b.
  rewrite filter_cons_False by discriminate.
  apply IH. intros i. exact (Hclear (S i)).
Qed.

Lemma mask_within_count n mask :
  mask_within n mask → live_count mask = live_below mask (Z.to_nat n).
Proof.
  intros Hw. destruct mask as [m|]; simpl.
  - rewrite live_below_take.
    rewrite <- (take_drop (Z.to_nat n) m) at 1. rewrite NumSetBits_app.
    rewrite (NumSetBits_all_clear (drop (Z.to_nat n) m)); [lia|].
    intros i. rewrite lookup_drop. apply (Hw (Z.to_nat n + i)%nat). lia.
  - unfold live_below. induction (Z.to_nat n) as [|k IH]; [reflexivity|].
    rewrite seq_S, filter_app, length_app, <- IH. reflexivity.
Qed.

Lemma stream_masks_within_new isa : stream_masks_within (StackMapStream_new isa).
Proof.
  split; simpl; [lia|apply mask_within_None|apply mask_within_None| |]; constructor.
Qed.

Lemma call_masks_within c s s' :
  stream_masks_within s → call c s = Some s' → stream_masks_within s'.
Proof.
  intros [Hcursor Hcurrent Hframe Hentries Hframes] Hcall.
  destruct c as [dex_pc native_pc_offset register_mask sp_mask num_dex_registers
                   inlining_depth
                |kind value
                |method dex_pc num_dex_registers outer_dex_file| |];
    simpl in Hcall.
  - unfold BeginStackMapEntry in Hcall.
    apply DCHECK_bind_Some in Hcall as [_ Hcall].
    apply DCHECK_bind_Some in Hcall as [_ Hcall].
    injection Hcall as <-. split; try assumption; try (simpl; lia).
    unfold entry_mask_within. simpl.
    destruct (bool_decide (num_dex_registers ≠ 0));
      [apply mask_within_Create|apply mask_within_None].
  - unfold AddDexRegisterEntry in Hcall.
    apply bind_Some_inv in Hcall as (s1 & Hs1 & Hcall). injection Hcall as <-.
    assert (Hw1 : stream_masks_within s1).
    { destruct (bool_decide (kind ≠ kNone));
        [|injection Hs1 as <-; split; assumption].
      unfold add_live_location in Hs1.
      apply DCHECK_bind_Some in Hs1 as [_ Hs1].
      destruct (intern_location (kind, value) s) as [[index catalog] indices].
      apply bind_Some_inv in Hs1 as ([entry inline_info] & Hei & Hs1).
      injection Hs1 as <-.
      destruct (in_inline_frame_ s).
      - apply DCHECK_bind_Some in Hei as [Hlt Hei].
        apply bool_decide_eq_true in Hlt.
        apply bind_Some_inv in Hei as (mask & Hmask & Hei). injection Hei as <- <-.
        split; try assumption.
        unfold frame_mask_within in *. simpl. rewrite Hmask in Hframe.
        apply mask_within_SetBit; [lia|exact Hframe].
      - apply DCHECK_bind_Some in Hei as [Hlt Hei].
        apply bool_decide_eq_true in Hlt.
        apply bind_Some_inv in Hei as (mask & Hmask & Hei). injection Hei as <- <-.
        split; try assumption.
        unfold entry_mask_within in *. simpl. rewrite Hmask in Hcurrent.
        apply mask_within_SetBit; [lia|exact Hcurrent]. }
    destruct Hw1 as [Hcursor1 Hcurrent1 Hframe1 Hentries1 Hframes1].
    split; try assumption. simpl. apply to_uint32_nonneg.
  - unfold BeginInlineInfoEntry in Hcall.
    apply DCHECK_bind_Some in Hcall as [_ Hcall].
    apply bind_Some_inv in Hcall as ([method_field method_index_field] & _ & Hcall).
    injection Hcall as <-. split; try assumption; [simpl; lia|].
    unfold frame_mask_within. simpl.
    destruct (bool_decide (num_dex_registers ≠ 0));
      [apply mask_within_Create|apply mask_within_None].
  - unfold EndInlineInfoEntry in Hcall.
    apply DCHECK_bind_Some in Hcall as [_ Hcall].
    apply DCHECK_bind_Some in Hcall as [_ Hcall].
    injection Hcall as <-. split; try assumption.
    + apply mask_within_None.
    + simpl. apply Forall_app. split; [exact Hframes|].
      constructor; [exact Hframe|constructor].
  - unfold EndStackMapEntry in Hcall.
    apply bind_Some_inv in Hcall as ([same_as index] & _ & Hcall).
    injection Hcall as <-. split; try assumption.
    + apply mask_within_None.
    + simpl. apply Forall_app. split; [exact Hentries|].
      constructor; [exact Hcurrent|constructor].
Qed.

Lemma calls_masks_within cs : ∀ s s',
  stream_masks_within s → calls cs s = Some s' → stream_masks_within s'.
Proof.
  induction cs as [|c cs IH]; intros s s' Hw Hcalls; simpl in Hcalls.
  - injection Hcalls as <-. exact Hw.
  - apply bind_Some_inv in Hcalls as (s1 & Hs1 & Hcalls).
    eapply IH; [|exact Hcalls]. eapply call_masks_within; eassumption.
Qed.

(** X17.  After any sequence of streaming calls on a fresh stream, no
    recorded stack map entry and no recorded inline frame has a live bit at
    or beyond its number of dex registers, so that the live registers that
    a reader counts below that number are all the set bits of the mask. *)
Theorem live_masks_within_after_calls (isa : InstructionSet) (cs : list StreamCall)
    (s : StackMapStream) :
  calls cs (StackMapStream_new isa) = Some s →
  (∀ e, e ∈ stack_maps_ s →
     (∀ i, (Z.to_nat (sm_num_dex_registers e) ≤ i)%nat →
        mask_bit (sm_live_dex_registers_mask e) i = false)
     ∧ live_count (sm_live_dex_registers_mask e)
       = live_below (sm_live_dex_registers_mask e)
           (Z.to_nat (sm_num_dex_registers e)))
  ∧ (∀ f, f ∈ inline_infos_ s →
       (∀ i, (Z.to_nat (ii_num_dex_registers f) ≤ i)%nat →
          mask_bit (ii_live_dex_registers_mask f) i = false)
       ∧ live_count (ii_live_dex_registers_mask f)
         = live_below (ii_live_dex_registers_mask f)
             (Z.to_nat (ii_num_dex_registers f))).
Proof.
  intros Hcalls.
  destruct (calls_masks_within cs _ _ (stream_masks_within_new isa) Hcalls)
    as [_ _ _ Hentries Hframes].
  split.
  - intros e He. eapply Forall_forall in Hentries; [|exact He].
    split; [exact Hentries|apply mask_within_count, Hentries].
  - intros f Hf. eapply Forall_forall in Hframes; [|exact Hf].
    split; [exact Hframes|apply mask_within_count, Hframes].
Qed.

End Coverage.


(** ** The stream against the calls *)

Section Logical.
Context `{Collaborators}.

(** *** The locations of a list of registers *)

Lemma logical_location_snoc_old registers location reg :
  (reg < length registers)%nat →
  logical_location ((registers ++ [location]) !! reg)
  = logical_location (registers !! reg).
Proof. intros Hreg. rewrite lookup_app_l by exact Hreg. reflexivity. Qed.

Lemma logical_location_beyond registers reg :
  (length registers ≤ reg)%nat → logical_location (registers !! reg) = (kNone, 0).
Proof. intros Hreg. rewrite (lookup_ge_None_2 _ _ Hreg). reflexivity. Qed.

Lemma hash_from_snoc registers : ∀ position hash kind value,
  hash_from position hash (registers ++ [(kind, value)])
  = (if decide (kind = kNone) then hash_from position hash registers
     else hash_step (hash_from position hash registers)
            (position + Z.of_nat (length registers)) kind value).
Proof.
  induction registers as [|[k v] registers IH]; intros position hash kind value.
  - simpl. rewrite Z.add_0_r. reflexivity.
  - simpl. rewrite IH. replace (position + 1 + Z.of_nat (length registers))
      with (position + Z.of_nat (S (length registers))) by lia. reflexivity.
Qed.


(** *** What the stream holds is kept when its tables grow *)

Lemma grows_refl s : grows s s.
Proof.
  repeat split; try (exists []; rewrite app_nil_r; reflexivity).
Qed.

Lemma recorded_location_grow s s' mask start reg location :
  grows s s' →
  recorded_location s mask start reg = Some location →
  recorded_location s' mask start reg = Some location.
Proof.
  intros ([l Hl] & [c Hc] & _ & _). unfold recorded_location.
  destruct (mask_bit mask reg); [|tauto]. intros Hrec.
  apply bind_Some_inv in Hrec as (index & Hindex & Hlocation).
  rewrite Hl, Hc. rewrite (lookup_app_l_Some _ _ _ _ Hindex). simpl.
  apply lookup_app_l_Some, Hlocation.
Qed.

Lemma registers_recorded_grow s s' mask start registers :
  grows s s' →
  registers_recorded s mask start registers →
  registers_recorded s' mask start registers.
Proof.
  intros Hg Hrec reg. destruct (Hrec reg) as [Hl Hb].
  split; [eapply recorded_location_grow; eassumption|exact Hb].
Qed.

Lemma frame_records_grow s s' f lf :
  grows s s' → frame_records s f lf → frame_records s' f lf.
Proof.
  intros Hg (Hd & Hn & Hm & Hr). split; [exact Hd|]. split; [exact Hn|].
  split; [exact Hm|]. eapply registers_recorded_grow; eassumption.
Qed.

Lemma entry_records_grow s s' e m :
  grows s s' → entry_records s e m → entry_records s' e m.
Proof.
  intros Hg (H1 & H2 & H3 & H4 & H5 & H6 & Hr & Hh & Hf).
  pose proof Hg as (_ & _ & [fs Hfs] & Hisa).
  split; [exact H1|]. split; [rewrite Hisa; exact H2|]. split; [exact H3|].
  split; [exact H4|]. split; [exact H5|]. split; [exact H6|].
  split; [eapply registers_recorded_grow; eassumption|]. split; [exact Hh|].
  intros d lf Hlf. destruct (Hf d lf Hlf) as (f & Hi & Hfr).
  exists f. split; [rewrite Hfs; apply lookup_app_l_Some, Hi|].
  eapply frame_records_grow; eassumption.
Qed.

Lemma closed_records_grow s s' entries maps :
  grows s s' →
  Forall2 (closed_entry_records s) entries maps →
  Forall2 (closed_entry_records s') entries maps.
Proof.
  intros Hg Hall. eapply Forall2_impl; [exact Hall|].
  intros e m [He Hlen]. split; [eapply entry_records_grow; eassumption|exact Hlen].
Qed.

(** *** AddDexRegisterEntry, taken apart *)

Lemma AddDexRegisterEntry_inv kind value s s' :
  catalog_interned s →
  AddDexRegisterEntry kind value s = Some s' →
  stack_maps_ s' = stack_maps_ s
  ∧ inline_infos_ s' = inline_infos_ s
  ∧ instruction_set_ s' = instruction_set_ s
  ∧ in_inline_frame_ s' = in_inline_frame_ s
  ∧ current_dex_register_ s' = to_uint32 (current_dex_register_ s + 1)
  ∧ (∃ c, location_catalog_entries_ s' = location_catalog_entries_ s ++ c)
  ∧ (if decide (kind = kNone) then
       dex_register_locations_ s' = dex_register_locations_ s
       ∧ current_entry_ s' = current_entry_ s
       ∧ current_inline_info_ s' = current_inline_info_ s
     else
       ∃ index,
         dex_register_locations_ s' = dex_register_locations_ s ++ [index]
         ∧ location_catalog_entries_ s' !! index = Some (kind, value)
         ∧ (if in_inline_frame_ s then
              current_entry_ s' = current_entry_ s
              ∧ current_dex_register_ s < ii_num_dex_registers (current_inline_info_ s)
              ∧ ∃ mask,
                  ii_live_dex_registers_mask (current_inline_info_ s) = Some mask
                  ∧ current_inline_info_ s'
                    = InlineInfoEntry_set_live (current_inline_info_ s)
                        (Some (BitVector_SetBit mask
                                 (Z.to_nat (current_dex_register_ s))))
            else
              current_inline_info_ s' = current_inline_info_ s
              ∧ current_dex_register_ s < sm_num_dex_registers (current_entry_ s)
              ∧ ∃ mask,
                  sm_live_dex_registers_mask (current_entry_ s) = Some mask
                  ∧ current_entry_ s'
                    = StackMapEntry_set_live (current_entry_ s)
                        (Some (BitVector_SetBit mask
                                 (Z.to_nat (current_dex_register_ s))))
                        (hash_step (sm_dex_register_map_hash (current_entry_ s))
                           (current_dex_register_ s) kind value))).
Proof.
  intros Hcatalog Hcall. unfold AddDexRegisterEntry in Hcall.
  apply bind_Some_inv in Hcall as (s1 & Hs1 & Hcall). injection Hcall as <-.
  destruct (decide (kind = kNone)) as [->|Hkind].
  - rewrite bool_decide_eq_false_2 in Hs1 by tauto. injection Hs1 as <-.
    simpl. repeat split. exists []. rewrite app_nil_r. reflexivity.
  - rewrite bool_decide_eq_true_2 in Hs1 by exact Hkind.
    unfold add_live_location in Hs1.
    apply DCHECK_bind_Some in Hs1 as [Hshort Hs1].
    destruct (intern_location (kind, value) s) as [[index catalog] indices] eqn:Hintern.
    destruct (intern_location_spec (kind, value) s index catalog indices
                Hcatalog Hshort Hintern) as (Hgrown & Hindex & _).
    assert (Hc : ∃ c, catalog = location_catalog_entries_ s ++ c).
    { rewrite Hgrown. destruct (decide _); [exists []; rewrite app_nil_r|eexists];
        reflexivity. }
    apply bind_Some_inv in Hs1 as ([entry inline_info] & Hei & Hs1).
    injection Hs1 as <-. simpl.
    do 5 (split; [reflexivity|]). split; [exact Hc|].
    exists index. split; [reflexivity|]. split; [exact Hindex|].
    destruct (in_inline_frame_ s).
    + apply DCHECK_bind_Some in Hei as [Hlt Hei]. apply bool_decide_eq_true in Hlt.
      apply bind_Some_inv in Hei as (mask & Hmask & Hei). injection Hei as <- <-.
      split; [reflexivity|]. split; [exact Hlt|]. exists mask. split; [exact Hmask|].
      reflexivity.
    + apply DCHECK_bind_Some in Hei as [Hlt Hei]. apply bool_decide_eq_true in Hlt.
      apply bind_Some_inv in Hei as (mask & Hmask & Hei). injection Hei as <- <-.
      split; [reflexivity|]. split; [exact Hlt|]. exists mask. split; [exact Hmask|].
      reflexivity.
Qed.

(** *** One more register of a map *)

Lemma registers_recorded_within s mask start registers :
  registers_recorded s mask start registers →
  mask_within (Z.of_nat (length registers)) mask.
Proof.
  intros Hrec i Hi. destruct (Hrec i) as [_ Hb]. rewrite Hb.
  rewrite logical_location_beyond by lia. reflexivity.
Qed.

Lemma registers_recorded_count s mask start registers :
  registers_recorded s mask start registers →
  live_count mask = live_below mask (length registers).
Proof.
  intros Hrec. rewrite (mask_within_count (Z.of_nat (length registers))).
  - rewrite Nat2Z.id. reflexivity.
  - eapply registers_recorded_within, Hrec.
Qed.

Lemma live_below_agree mask mask' reg :
  (∀ i, (i < reg)%nat → mask_bit mask' i = mask_bit mask i) →
  live_below mask' reg = live_below mask reg.
Proof.
  intros Hsame. symmetry. apply (live_below_ext mask' (mask_bit mask)).
  intros i Hi. symmetry. apply Hsame, Hi.
Qed.

Lemma registers_recorded_dead s mask start registers value :
  registers_recorded s mask start registers →
  registers_recorded s mask start (registers ++ [(kNone, value)]).
Proof.
  intros Hrec reg. destruct (Hrec reg) as [Hl Hb].
  destruct (decide (reg < length registers)%nat) as [Hlt|Hge].
  - rewrite logical_location_snoc_old by exact Hlt. split; assumption.
  - rewrite (logical_location_beyond registers) in Hl, Hb by lia.
    assert (Hdead : logical_location ((registers ++ [(kNone, value)]) !! reg)
                    = (kNone, 0)).
    { destruct (decide (reg = length registers)) as [->|Hne].
      - rewrite list_lookup_middle by reflexivity. reflexivity.
      - apply logical_location_beyond. rewrite length_app. simpl. lia. }
    rewrite Hdead. split; assumption.
Qed.

Lemma registers_recorded_live s s' mask start registers kind value index :
  registers_recorded s (Some mask) start registers →
  kind ≠ kNone →
  (start + live_count (Some mask) = length (dex_register_locations_ s))%nat →
  dex_register_locations_ s' = dex_register_locations_ s ++ [index] →
  (∃ c, location_catalog_entries_ s' = location_catalog_entries_ s ++ c) →
  location_catalog_entries_ s' !! index = Some (kind, value) →
  let mask' := Some (BitVector_SetBit mask (length registers)) in
  registers_recorded s' mask' start (registers ++ [(kind, value)])
  ∧ (start + live_count mask' = length (dex_register_locations_ s'))%nat.
Proof.
  intros Hrec Hkind Hend Hlocs [c Hc] Hindex mask'.
  pose proof (registers_recorded_count _ _ _ _ Hrec) as Hcount.
  assert (Hbits : ∀ i, i ≠ length registers →
            mask_bit mask' i = mask_bit (Some mask) i).
  { intros i Hi. simpl. apply IsBitSet_SetBit_ne, Hi. }
  assert (Hset : mask_bit mask' (length registers) = true)
    by (simpl; apply IsBitSet_SetBit).
  assert (Hbelow : ∀ reg, (reg ≤ length registers)%nat →
            live_below mask' reg = live_below (Some mask) reg).
  { intros reg Hreg. apply live_below_agree. intros i Hi. apply Hbits. lia. }
  assert (Hrec' : registers_recorded s' mask' start (registers ++ [(kind, value)])).
  { intros reg. destruct (Hrec reg) as [Hl Hb].
    destruct (lt_eq_lt_dec reg (length registers)) as [[Hlt| ->]|Hgt].
    - rewrite logical_location_snoc_old by exact Hlt.
      split; [|rewrite Hbits by lia; exact Hb].
      unfold recorded_location in *. rewrite Hbits by lia.
      rewrite Hbelow by lia.
      destruct (mask_bit (Some mask) reg); [|exact Hl].
      apply bind_Some_inv in Hl as (i & Hi & Hloc).
      rewrite Hlocs, Hc, (lookup_app_l_Some _ _ _ _ Hi). simpl.
      apply lookup_app_l_Some, Hloc.
    - assert (Hnew : logical_location
                       ((registers ++ [(kind, value)]) !! length registers)
                     = (kind, value)).
      { rewrite list_lookup_middle by reflexivity. simpl.
        rewrite decide_False by exact Hkind. reflexivity. }
      rewrite Hnew, Hset. cbn [fst].
      rewrite bool_decide_eq_true_2 by exact Hkind. split; [|reflexivity].
      unfold recorded_location. rewrite Hset, Hbelow by lia.
      rewrite <- Hcount, Hend, Hlocs.
      rewrite list_lookup_middle by reflexivity. simpl. exact Hindex.
    - rewrite (logical_location_beyond registers) in Hl, Hb by lia.
      rewrite logical_location_beyond by (rewrite length_app; simpl; lia).
      split; [|rewrite Hbits by lia; exact Hb].
      unfold recorded_location in *. rewrite Hbits by lia.
      destruct (mask_bit (Some mask) reg); [|reflexivity].
      simpl in Hb. discriminate Hb. }
  split; [exact Hrec'|].
  rewrite (registers_recorded_count _ _ _ _ Hrec').
  rewrite length_app. simpl length.
  replace (length registers + 1)%nat with (S (length registers)) by lia.
  rewrite live_below_S, Hset, Hbelow by lia.
  rewrite <- Hcount, Hlocs, length_app. simpl length. lia.
Qed.

Lemma registers_recorded_nil s mask start :
  (∀ i, mask_bit mask i = false) → registers_recorded s mask start [].
Proof.
  intros Hclear reg. unfold recorded_location. rewrite Hclear.
  split; reflexivity.
Qed.

Lemma fresh_mask_clear (num_dex_registers : Z) i :
  mask_bit (if bool_decide (num_dex_registers ≠ 0)
            then Some (BitVector_Create (Z.to_nat num_dex_registers))
            else None) i = false.
Proof. destruct (bool_decide _); [apply IsBitSet_Create|reflexivity]. Qed.

Lemma fresh_mask_count (num_dex_registers : Z) :
  live_count (if bool_decide (num_dex_registers ≠ 0)
              then Some (BitVector_Create (Z.to_nat num_dex_registers))
              else None) = 0%nat.
Proof.
  destruct (bool_decide _); [|reflexivity]. simpl.
  apply NumSetBits_replicate_false.
Qed.

(** *** The stream holds what the calls say, call by call *)

Lemma stream_records_new isa :
  stream_records Closed Reading_empty (StackMapStream_new isa).
Proof. split; [constructor|]. repeat split. Qed.

Lemma BeginStackMapEntry_records dex_pc native_pc_offset register_mask sp_mask
    num_dex_registers inlining_depth p s s' :
  stream_records Closed p s →
  BeginStackMapEntry dex_pc native_pc_offset register_mask sp_mask
    num_dex_registers inlining_depth s = Some s' →
  stream_records (InMap (Z.to_nat num_dex_registers) (Z.to_nat inlining_depth))
    (read_call p (CallBeginStackMapEntry dex_pc native_pc_offset register_mask
                    sp_mask num_dex_registers inlining_depth)) s'.
Proof.
  intros [Hclosed (Hmap & Hframe & Hin)] Hcall. unfold BeginStackMapEntry in Hcall.
  apply DCHECK_bind_Some in Hcall as [_ Hcall].
  apply DCHECK_bind_Some in Hcall as [_ Hcall].
  injection Hcall as <-.
  split.
  - simpl. eapply closed_records_grow; [|exact Hclosed].
    repeat split; simpl; try (exists []; rewrite app_nil_r; reflexivity).
  - simpl. eexists. split; [reflexivity|]. split; [reflexivity|].
    split; [exact Hin|]. split.
    { unfold entry_records. simpl. do 6 (split; [reflexivity|]).
      split; [apply registers_recorded_nil, fresh_mask_clear|].
      split; [reflexivity|]. intros d lf Hlf. rewrite lookup_nil in Hlf.
      discriminate. }
    simpl. split; [lia|]. split; [lia|]. intros _.
    split; [lia|]. split; [reflexivity|]. rewrite fresh_mask_count. lia.
Qed.

Lemma uint32_succ (n : nat) (bound : Z) :
  (S n ≤ Z.to_nat bound)%nat → is_uint32 bound →
  to_uint32 (Z.of_nat n + 1) = Z.of_nat (S n).
Proof.
  intros Hn [_ Hb]. unfold to_uint32. rewrite Z.mod_small; lia.
Qed.

Lemma AddDexRegisterEntry_records_map kind value n k p s s' :
  stream_typed s → stream_recorded s →
  stream_records (InMap (S n) k) p s →
  AddDexRegisterEntry kind value s = Some s' →
  stream_records (InMap n k) (read_call p (CallAddDexRegisterEntry kind value)) s'.
Proof.
  intros [_ Htyped _ _] [Hcatalog _ _ _]
    [Hclosed (m & Hmap & Hframe & Hin & Hentry & Hfl & Hfs & Hleft)] Hcall.
  destruct (Hleft ltac:(lia)) as (Hroom & Hcursor & Hend).
  destruct Htyped as (_ & _ & _ & HN & _).
  destruct (AddDexRegisterEntry_inv _ _ _ _ Hcatalog Hcall)
    as (Hmaps & Hinfos & Hisa & Hin' & Hcursor' & [c Hc] & Hcase).
  rewrite Hcursor in Hcursor'.
  rewrite (uint32_succ _ (sm_num_dex_registers (current_entry_ s))) in Hcursor'
    by (try lia; exact HN).
  destruct Hentry as (H1 & H2 & H3 & H4 & H5 & H6 & Hr & Hh & Hf).
  assert (Hgrows : grows s s').
  { split; [|split; [exists c; exact Hc|split; [exists []; rewrite app_nil_r; exact Hinfos|exact Hisa]]].
    destruct (decide (kind = kNone)).
    - destruct Hcase as (Hl & _). exists []. rewrite app_nil_r. exact Hl.
    - destruct Hcase as (index & Hl & _). exists [index]. exact Hl. }
  assert (Hframes : ∀ d lf, lm_frames m !! d = Some lf →
            ∃ f, inline_infos_ s' !! (sm_inline_infos_start_index (current_entry_ s) + d)%nat
                 = Some f ∧ frame_records s' f lf).
  { intros d lf Hlf. destruct (Hf d lf Hlf) as (f & Hi & Hfr).
    exists f. split; [rewrite Hinfos; exact Hi|].
    eapply frame_records_grow; eassumption. }
  split.
  - simpl. rewrite Hframe. simpl. rewrite Hmaps.
    eapply closed_records_grow; eassumption.
  - simpl. rewrite Hframe, Hmap. simpl.
    exists (LogicalStackMap_add (kind, value) m).
    split; [reflexivity|]. split; [reflexivity|].
    split; [rewrite Hin'; exact Hin|].
    rewrite Hin in Hcase.
    destruct (decide (kind = kNone)) as [->|Hkind].
    + destruct Hcase as (Hl & He & _). rewrite He.
      split.
      { unfold entry_records. simpl. split; [exact H1|].
        split; [rewrite Hisa; exact H2|]. split; [exact H3|]. split; [exact H4|].
        split; [exact H5|]. split; [exact H6|].
        split; [apply registers_recorded_dead;
                eapply registers_recorded_grow; eassumption|].
        split; [rewrite hash_from_snoc, decide_True by reflexivity; exact Hh|].
        exact Hframes. }
      simpl. rewrite Hinfos. split; [exact Hfl|]. split; [exact Hfs|].
      intros Hn. rewrite length_app. simpl length.
      split; [lia|]. split; [rewrite Hcursor'; f_equal; lia|].
      rewrite Hl. exact Hend.
    + destruct Hcase as (index & Hl & Hindex & _ & _ & mask & Hmask & He).
      rewrite Hmask in Hr, Hend. rewrite Hcursor, Nat2Z.id in He.
      destruct (registers_recorded_live s s' mask _ _ kind value index
                  Hr Hkind Hend Hl (ex_intro _ c Hc) Hindex) as [Hr' Hend'].
      rewrite He. split.
      { unfold entry_records. simpl. split; [exact H1|].
        split; [rewrite Hisa; exact H2|]. split; [exact H3|]. split; [exact H4|].
        split; [exact H5|]. split; [exact H6|]. split; [exact Hr'|].
        split; [|exact Hframes].
        rewrite hash_from_snoc, decide_False by exact Hkind.
        rewrite Hh, Z.add_0_l. reflexivity. }
      simpl. rewrite Hinfos. split; [exact Hfl|]. split; [exact Hfs|].
      intros Hn. rewrite length_app. simpl length.
      split; [lia|]. split; [rewrite Hcursor'; f_equal; lia|exact Hend'].
Qed.

Lemma AddDexRegisterEntry_records_frame kind value n k p s s' :
  stream_typed s → stream_recorded s →
  stream_records (InInline (S n) k) p s →
  AddDexRegisterEntry kind value s = Some s' →
  stream_records (InInline n k) (read_call p (CallAddDexRegisterEntry kind value)) s'.
Proof.
  intros [_ _ _ Htyped] [Hcatalog _ _ _]
    [Hclosed (m & f & Hmap & Hframe & Hin & Hentry & Hfl & Hfs & Hfr & Hleft
              & Hcursor & Hend)] Hcall.
  destruct Htyped as (_ & HN & _).
  destruct (AddDexRegisterEntry_inv _ _ _ _ Hcatalog Hcall)
    as (Hmaps & Hinfos & Hisa & Hin' & Hcursor' & [c Hc] & Hcase).
  rewrite Hcursor in Hcursor'.
  rewrite (uint32_succ _ (ii_num_dex_registers (current_inline_info_ s))) in Hcursor'
    by (try lia; exact HN).
  destruct Hfr as (F1 & F2 & F3 & Fr).
  assert (Hgrows : grows s s').
  { split; [|split; [exists c; exact Hc|split; [exists []; rewrite app_nil_r; exact Hinfos|exact Hisa]]].
    destruct (decide (kind = kNone)).
    - destruct Hcase as (Hl & _). exists []. rewrite app_nil_r. exact Hl.
    - destruct Hcase as (index & Hl & _). exists [index]. exact Hl. }
  split.
  - simpl. rewrite Hframe. simpl. rewrite Hmaps.
    eapply closed_records_grow; eassumption.
  - simpl. rewrite Hframe. simpl.
    exists m, (LogicalFrame_add (kind, value) f).
    split; [exact Hmap|]. split; [reflexivity|].
    split; [rewrite Hin'; exact Hin|].
    rewrite Hin in Hcase.
    destruct (decide (kind = kNone)) as [->|Hkind].
    + destruct Hcase as (Hl & He & Hi). rewrite He, Hi, Hinfos, Hl.
      split; [eapply entry_records_grow; eassumption|].
      split; [exact Hfl|]. split; [exact Hfs|]. split.
      { split; [exact F1|]. split; [exact F2|]. split; [exact F3|].
        apply registers_recorded_dead. eapply registers_recorded_grow; eassumption. }
      simpl. rewrite length_app. simpl length.
      split; [lia|]. split; [rewrite Hcursor'; f_equal; lia|exact Hend].
    + destruct Hcase as (index & Hl & Hindex & He & _ & mask & Hmask & Hi).
      rewrite Hmask in Fr, Hend. rewrite Hcursor, Nat2Z.id in Hi.
      destruct (registers_recorded_live s s' mask _ _ kind value index
                  Fr Hkind Hend Hl (ex_intro _ c Hc) Hindex) as [Fr' Hend'].
      rewrite He, Hi, Hinfos.
      split; [eapply entry_records_grow; eassumption|].
      split; [exact Hfl|]. split; [exact Hfs|]. split.
      { split; [exact F1|]. split; [exact F2|]. split; [exact F3|exact Fr']. }
      simpl. rewrite length_app. simpl length.
      split; [lia|]. split; [rewrite Hcursor'; f_equal; lia|exact Hend'].
Qed.

Lemma BeginInlineInfoEntry_records method dex_pc num_dex_registers outer_dex_file
    n k p s s' :
  stream_recorded s →
  stream_records (InMap n (S k)) p s →
  BeginInlineInfoEntry method dex_pc num_dex_registers outer_dex_file s = Some s' →
  stream_records (InInline (Z.to_nat num_dex_registers) k)
    (read_call p (CallBeginInlineInfoEntry method dex_pc num_dex_registers
                    outer_dex_file)) s'.
Proof.
  intros [_ _ _ (Hblank & _)]
    [Hclosed (m & Hmap & Hframe & Hin & Hentry & Hfl & Hfs & _)] Hcall.
  specialize (Hblank Hin).
  unfold BeginInlineInfoEntry in Hcall.
  apply DCHECK_bind_Some in Hcall as [_ Hcall].
  apply bind_Some_inv in Hcall as ([method_field method_index_field] & Hmm & Hcall).
  injection Hcall as <-.
  assert (Hgrows : ∀ s0 : StackMapStream,
            dex_register_locations_ s0 = dex_register_locations_ s →
            location_catalog_entries_ s0 = location_catalog_entries_ s →
            inline_infos_ s0 = inline_infos_ s →
            instruction_set_ s0 = instruction_set_ s → grows s s0).
  { intros s0 E1 E2 E3 E4.
    repeat split; try (exists []; rewrite app_nil_r); assumption. }
  split.
  - simpl. eapply closed_records_grow; [|exact Hclosed].
    apply Hgrows; reflexivity.
  - simpl. eexists m, _. split; [exact Hmap|]. split; [reflexivity|].
    split; [reflexivity|].
    split; [eapply entry_records_grow; [apply Hgrows; reflexivity|exact Hentry]|].
    split; [exact Hfl|]. split; [exact Hfs|]. split.
    { unfold frame_records. simpl. split; [reflexivity|]. split; [reflexivity|].
      split; [|apply registers_recorded_nil, fresh_mask_clear].
      rewrite Hblank in Hmm. simpl in Hmm.
      destruct (EncodeArtMethodInInlineInfo method).
      - injection Hmm as <- <-. split; reflexivity.
      - apply bind_Some_inv in Hmm as (? & _ & Hmm). injection Hmm as <- <-.
        split; reflexivity. }
    simpl. split; [lia|]. split; [reflexivity|]. rewrite fresh_mask_count. lia.
Qed.

Lemma EndInlineInfoEntry_records k p s s' :
  stream_records (InInline 0 k) p s →
  EndInlineInfoEntry s = Some s' →
  stream_records (InMap 0 k) (read_call p CallEndInlineInfoEntry) s'.
Proof.
  intros [Hclosed (m & f & Hmap & Hframe & Hin & Hentry & Hfl & Hfs & Hfr & _)] Hcall.
  unfold EndInlineInfoEntry in Hcall.
  apply DCHECK_bind_Some in Hcall as [_ Hcall].
  apply DCHECK_bind_Some in Hcall as [_ Hcall].
  injection Hcall as <-.
  set (s' := {| instruction_set_ := instruction_set_ s |}) in *.
  assert (Hgrows : grows s s').
  { split; [exists []; rewrite app_nil_r; reflexivity|].
    split; [exists []; rewrite app_nil_r; reflexivity|].
    split; [eexists; reflexivity|reflexivity]. }
  split.
  - simpl. rewrite Hframe. simpl. eapply closed_records_grow; eassumption.
  - simpl. rewrite Hframe, Hmap. simpl.
    exists (LogicalStackMap_add_frame f m).
    split; [reflexivity|]. split; [reflexivity|]. split; [reflexivity|].
    destruct (entry_records_grow _ _ _ _ Hgrows Hentry)
      as (H1 & H2 & H3 & H4 & H5 & H6 & Hr & Hh & Hf).
    split.
    { unfold entry_records. simpl.
      split; [exact H1|]. split; [exact H2|]. split; [exact H3|]. split; [exact H4|].
      split; [exact H5|]. split; [exact H6|]. split; [exact Hr|]. split; [exact Hh|].
      intros d lf Hlf.
      destruct (decide (d < length (lm_frames m))%nat) as [Hd|Hd].
      - rewrite lookup_app_l in Hlf by exact Hd. exact (Hf d lf Hlf).
      - assert (d = length (lm_frames m)) as ->.
        { apply lookup_lt_Some in Hlf. rewrite length_app in Hlf. simpl in Hlf. lia. }
        rewrite list_lookup_middle in Hlf by reflexivity. injection Hlf as <-.
        exists (current_inline_info_ s). split.
        + rewrite Hfs. apply list_lookup_middle. reflexivity.
        + eapply frame_records_grow; eassumption. }
    simpl. rewrite !length_app. simpl length.
    split; [lia|]. split; [lia|]. intros Hlt. lia.
Qed.

Lemma EndStackMapEntry_records n p s s' :
  stream_records (InMap n 0) p s →
  EndStackMapEntry s = Some s' →
  stream_records Closed (read_call p CallEndStackMapEntry) s'.
Proof.
  intros [Hclosed (m & Hmap & Hframe & Hin & Hentry & Hfl & Hfs & _)] Hcall.
  unfold EndStackMapEntry in Hcall.
  apply bind_Some_inv in Hcall as ([same_as index] & _ & Hcall).
  injection Hcall as <-.
  set (s' := {| instruction_set_ := instruction_set_ s |}) in *.
  assert (Hgrows : grows s s').
  { repeat split; exists []; rewrite app_nil_r; reflexivity. }
  split.
  - simpl. rewrite Hmap. simpl. apply Forall2_app.
    + eapply closed_records_grow; eassumption.
    + constructor; [|constructor]. split.
      * destruct (entry_records_grow _ _ _ _ Hgrows Hentry)
          as (H1 & H2 & H3 & H4 & H5 & H6 & Hr & Hh & Hf).
        unfold entry_records. simpl.
        split; [exact H1|]. split; [exact H2|]. split; [exact H3|].
        split; [exact H4|]. split; [exact H5|]. split; [exact H6|].
        split; [exact Hr|]. split; [exact Hh|exact Hf].
      * simpl. lia.
  - simpl. rewrite Hmap. simpl. split; [reflexivity|]. split; [exact Hframe|exact Hin].
Qed.

Lemma call_records c st st' p s s' :
  StreamCall_typed c →
  stream_typed s → stream_recorded s →
  stage_after st c = Some st' →
  stream_records st p s →
  call c s = Some s' →
  stream_records st' (read_call p c) s'.
Proof.
  intros Hc Htyped Hrec Hstage Hrecords Hcall.
  destruct c as [dex_pc native_pc_offset register_mask sp_mask num_dex_registers
                   inlining_depth
                |kind value
                |method dex_pc num_dex_registers outer_dex_file| |];
    destruct st as [|[|n] [|k]|[|n] k]; simpl in Hstage; try discriminate;
    injection Hstage as <-; simpl in Hcall.
  - eapply BeginStackMapEntry_records; eassumption.
  - eapply AddDexRegisterEntry_records_map; eassumption.
  - eapply AddDexRegisterEntry_records_map; eassumption.
  - eapply AddDexRegisterEntry_records_frame; eassumption.
  - eapply BeginInlineInfoEntry_records; eassumption.
  - eapply BeginInlineInfoEntry_records; eassumption.
  - eapply EndInlineInfoEntry_records; eassumption.
  - eapply EndStackMapEntry_records; eassumption.
  - eapply EndStackMapEntry_records; eassumption.
Qed.

Lemma calls_records cs : ∀ st p s s',
  Forall StreamCall_typed cs →
  stream_typed s → stream_recorded s →
  registers_first st cs = true →
  stream_records st p s →
  calls cs s = Some s' →
  stream_records Closed (read_calls p cs) s'.
Proof.
  induction cs as [|c cs IH]; intros st p s s' Htyped Hts Hrec Hfirst Hrecords Hcalls.
  - simpl in *. injection Hcalls as <-. destruct st; try discriminate. exact Hrecords.
  - simpl in *. apply Forall_cons in Htyped as [Hc Htyped].
    destruct (stage_after st c) as [st'|] eqn:Est; [|discriminate].
    apply bind_Some_inv in Hcalls as (s1 & Hs1 & Hcalls).
    eapply (IH st' (read_call p c) s1); try eassumption.
    + eapply call_typed; eassumption.
    + eapply call_recorded; eassumption.
    + eapply call_records; eassumption.
Qed.

(** After a sequence of calls that adds the registers of every entry before
    its inline frames, the entries of the stream hold, one by one, the stack
    maps that the calls say. *)
Lemma calls_logical_content isa cs s :
  Forall StreamCall_typed cs →
  registers_first Closed cs = true →
  calls cs (StackMapStream_new isa) = Some s →
  Forall2 (closed_entry_records s) (stack_maps_ s) (logical_content cs).
Proof.
  intros Htyped Hfirst Hcalls.
  exact (records_closed _ _ _
           (calls_records cs Closed Reading_empty _ _ Htyped (stream_typed_new isa)
              (stream_recorded_new isa) Hfirst (stream_records_new isa) Hcalls)).
Qed.

(** *** Equal maps have equal hashes *)




(** The entries of the stream that [PrepareForFillIn] left hold what the
    calls say as those of the stream before did. *)
Lemma prepared_entry_records s s' e m a b :
  prepared s s' → entry_records s e m →
  entry_records s' (with_mask_indices e a b) m.
Proof.
  intros [_ Hl Hi Hc _ Hisa] (H1 & H2 & H3 & H4 & H5 & H6 & Hr & Hh & Hf).
  assert (Hg : grows s s').
  { split; [exists []; rewrite app_nil_r; exact Hl|].
    split; [exists []; rewrite app_nil_r; exact Hc|].
    split; [exists []; rewrite app_nil_r; exact Hi|exact Hisa]. }
  unfold entry_records. simpl.
  split; [exact H1|]. split; [rewrite Hisa; exact H2|]. split; [exact H3|].
  split; [exact H4|]. split; [exact H5|]. split; [exact H6|].
  split; [eapply registers_recorded_grow; eassumption|]. split; [exact Hh|].
  intros d lf Hlf. destruct (Hf d lf Hlf) as (f & Hif & Hfr).
  exists f. split; [rewrite Hi; exact Hif|eapply frame_records_grow; eassumption].
Qed.

Lemma prepared_logical_content isa cs s s' :
  Forall StreamCall_typed cs →
  registers_first Closed cs = true →
  calls cs (StackMapStream_new isa) = Some s →
  prepared s s' →
  Forall2 (closed_entry_records s') (stack_maps_ s') (logical_content cs).
Proof.
  intros Htyped Hfirst Hcalls Hp.
  pose proof (calls_logical_content isa cs s Htyped Hfirst Hcalls) as Hall.
  apply Forall2_same_length_lookup. split.
  - rewrite <- (Forall2_length _ _ _ Hall). symmetry.
    eapply Forall2_length, prep_maps, Hp.
  - intros i e' m Hi Hm.
    destruct (prepared_lookup _ _ _ _ Hp Hi) as (e & a & b & He & ->).
    destruct (Forall2_lookup_lr _ _ _ _ _ _ Hall He Hm) as [Hrec Hlen].
    split; [eapply prepared_entry_records; eassumption|exact Hlen].
Qed.


(** *** Registers first is properly nested *)

Lemma stage_after_phase st c st' :
  stage_after st c = Some st' →
  phase_after (stage_phase st) c = Some (stage_phase st').
Proof.
  destruct c, st as [|n k|n k]; simpl; try discriminate.
  - intros [= <-]. reflexivity.
  - destruct n; [discriminate|]. intros [= <-]. reflexivity.
  - destruct n; [discriminate|]. intros [= <-]. reflexivity.
  - destruct k; [discriminate|]. intros [= <-]. reflexivity.
  - destruct n; [|discriminate]. intros [= <-]. reflexivity.
  - destruct k; [|discriminate]. intros [= <-]. reflexivity.
Qed.

Lemma registers_first_nested cs : ∀ st,
  registers_first st cs = true → properly_nested (stage_phase st) cs = true.
Proof.
  induction cs as [|c cs IH]; intros st Hfirst.
  - destruct st; [reflexivity|discriminate|discriminate].
  - simpl in Hfirst |- *.
    destruct (stage_after st c) as [st'|] eqn:Est; [|discriminate].
    rewrite (stage_after_phase _ _ _ Est). apply IH, Hfirst.
Qed.

Lemma method_valid_aligned cs :
  Forall StreamCall_method_valid cs → Forall StreamCall_method_aligned cs.
Proof.
  intros Hcs. eapply Forall_impl; [exact Hcs|].
  intros [] Hc; simpl in *; try exact I.
  intros He. apply Hc, He.
Qed.

(** *** The instruction set of the stream *)

Lemma call_instruction_set c s s' :
  call c s = Some s' → instruction_set_ s' = instruction_set_ s.
Proof.
  destruct c; simpl; intros Hc.
  - unfold BeginStackMapEntry in Hc.
    repeat (apply DCHECK_bind_Some in Hc as [_ Hc]).
    injection Hc as <-. reflexivity.
  - unfold AddDexRegisterEntry in Hc.
    apply bind_Some_inv in Hc as (s1 & Hs1 & Hc). injection Hc as <-. simpl.
    case_bool_decide; [|injection Hs1 as <-; reflexivity].
    unfold add_live_location in Hs1.
    apply DCHECK_bind_Some in Hs1 as [_ Hs1].
    destruct (intern_location _ s) as [[index catalog] indices].
    apply bind_Some_inv in Hs1 as ([entry inline_info] & _ & Hs1).
    injection Hs1 as <-. reflexivity.
  - unfold BeginInlineInfoEntry in Hc.
    apply DCHECK_bind_Some in Hc as [_ Hc].
    apply bind_Some_inv in Hc as ([method_field index_field] & _ & Hc).
    injection Hc as <-. reflexivity.
  - unfold EndInlineInfoEntry in Hc.
    repeat (apply DCHECK_bind_Some in Hc as [_ Hc]).
    injection Hc as <-. reflexivity.
  - unfold EndStackMapEntry in Hc.
    apply bind_Some_inv in Hc as ([same_as index] & _ & Hc).
    injection Hc as <-. reflexivity.
Qed.

Lemma calls_instruction_set cs : ∀ s s',
  calls cs s = Some s' → instruction_set_ s' = instruction_set_ s.
Proof.
  induction cs as [|c cs IH]; intros s s' Hcalls; simpl in Hcalls.
  - injection Hcalls as <-. reflexivity.
  - apply bind_Some_inv in Hcalls as (s1 & Hs1 & Hcalls).
    rewrite (IH _ _ Hcalls). eapply call_instruction_set, Hs1.
Qed.

(** *** The methods of the frames of the calls *)

Lemma read_call_methods_valid p c :
  StreamCall_method_valid c →
  Reading_methods_valid p → Reading_methods_valid (read_call p c).
Proof.
  intros Hc (Hclosed & Hopen & Hframe). destruct c; simpl.
  - split; [exact Hclosed|]. split.
    + intros m [= <-]. constructor.
    + intros f Hf. discriminate.
  - destruct (open_frame p) as [f|] eqn:Ef; simpl.
    + split; [exact Hclosed|]. split; [exact Hopen|].
      intros f' [= <-]. apply (Hframe f eq_refl).
    + split; [exact Hclosed|]. split; [|intros f Hf; discriminate].
      intros m Hm. destruct (open_map p) as [m0|]; [|discriminate].
      injection Hm as <-. apply (Hopen m0 eq_refl).
  - split; [exact Hclosed|]. split; [exact Hopen|].
    intros f [= <-]. exact Hc.
  - destruct (open_frame p) as [f|] eqn:Ef; simpl.
    + split; [exact Hclosed|]. split; [|intros f' Hf'; discriminate].
      intros m Hm. destruct (open_map p) as [m0|]; [|discriminate].
      injection Hm as <-. simpl. apply Forall_app. split; [apply (Hopen m0 eq_refl)|].
      constructor; [apply (Hframe f eq_refl)|constructor].
    + split; [exact Hclosed|]. split; [exact Hopen|].
      intros f Hf. rewrite Ef in Hf. discriminate.
  - destruct (open_map p) as [m|] eqn:Em; simpl.
    + split; [|split; [intros m' Hm'; discriminate|exact Hframe]].
      apply Forall_app. split; [exact Hclosed|].
      constructor; [apply (Hopen m eq_refl)|constructor].
    + split; [exact Hclosed|]. split; [|exact Hframe].
      intros m Hm. rewrite Em in Hm. discriminate.
Qed.

Lemma read_calls_methods_valid cs : ∀ p,
  Forall StreamCall_method_valid cs →
  Reading_methods_valid p → Reading_methods_valid (read_calls p cs).
Proof.
  induction cs as [|c cs IH]; intros p Hcs Hp; [exact Hp|].
  apply Forall_cons in Hcs as [Hc Hcs]. unfold read_calls. simpl.
  apply IH; [exact Hcs|]. apply read_call_methods_valid; assumption.
Qed.

Lemma logical_content_methods_valid cs :
  Forall StreamCall_method_valid cs →
  Forall (λ m, Forall LogicalFrame_method_valid (lm_frames m)) (logical_content cs).
Proof.
  intros Hcs.
  destruct (read_calls_methods_valid cs Reading_empty Hcs) as [Hclosed _];
    [|exact Hclosed].
  split; [constructor|]. split; intros x Hx; discriminate.
Qed.

(** *** From the stream to the calls *)

Lemma map_reads_back_decodes s encoding r offset num_dex_registers mask start
    registers :
  dex_register_map_reads_back s encoding r offset num_dex_registers mask start →
  registers_recorded s mask start registers →
  map_decodes encoding r offset num_dex_registers registers.
Proof.
  intros [_ Hread] Hrec reg Hreg.
  destruct (Hread reg Hreg) as [Hlive Hseen]. destruct (Hrec reg) as [Hloc Hbit].
  rewrite Hloc in Hseen. injection Hseen as Hseen.
  split; [symmetry; exact Hseen|]. rewrite Hlive. exact Hbit.
Qed.

Lemma frame_reads_back_decodes s encoding r k f lf :
  frame_reads_back s encoding r k f →
  frame_records s f lf →
  LogicalFrame_method_valid lf →
  frame_decodes encoding r k lf.
Proof.
  intros (Hpc & Hindex & Hextra & Hmethod & Hmap) (Rpc & Rn & Rmethod & Rregs) Hvalid.
  unfold frame_decodes. cbn zeta.
  split; [rewrite Hpc; exact Rpc|].
  split; [|rewrite <- Rn; eapply map_reads_back_decodes; eassumption].
  destruct (EncodeArtMethodInInlineInfo (lf_method lf)) eqn:Ee.
  - destruct Rmethod as [Rm _]. destruct (Hvalid Ee) as [Hnz Heven].
    assert (Hx : InlineInfo_Get (cie_inline_info_encoding encoding) k kExtraData r
                 = Low32Bits (lf_method lf)).
    { rewrite Hextra. unfold frame_extra_data. rewrite Rm.
      rewrite bool_decide_eq_true_2 by exact Hnz. reflexivity. }
    pose proof (even_low_bit _ Heven) as Hlow.
    rewrite Hx in Hmethod |- *.
    rewrite bool_decide_eq_true_2 in Hmethod by exact Hlow.
    rewrite Rm in Hmethod. split; [exact Hlow|exact Hmethod].
  - destruct Rmethod as [Rm Ri].
    assert (Hx : InlineInfo_Get (cie_inline_info_encoding encoding) k kExtraData r
                 = 1).
    { rewrite Hextra. unfold frame_extra_data. rewrite Rm.
      rewrite bool_decide_eq_false_2 by tauto. reflexivity. }
    rewrite Hx in Hmethod |- *.
    rewrite bool_decide_eq_false_2 in Hmethod by discriminate.
    split; [reflexivity|]. split; [discriminate|]. rewrite Hmethod. exact Ri.
Qed.

Lemma stack_map_reads_back_decodes s encoding r i e m :
  stack_map_reads_back s encoding r i e →
  closed_entry_records s e m →
  Forall LogicalFrame_method_valid (lm_frames m) →
  stack_map_decodes (instruction_set_ s) encoding r i m.
Proof.
  intros (Hpc & Hnative & _ & Hri & Hrm & Hsi & Hsm & Hmap & Hinline)
         [(Rpc & Rnative & Rmask & Rsp & Rn & Rdepth & Rregs & _ & Rframes) Rlen]
         Hvalid.
  unfold stack_map_decodes. cbn zeta.
  split; [rewrite Hpc; exact Rpc|].
  split; [rewrite Hnative; exact Rnative|].
  split; [rewrite Hnative, Rnative; reflexivity|].
  split; [rewrite Hri, Nat2Z.id, Hrm; exact Rmask|].
  split; [intros b Hb; rewrite Hsi, Nat2Z.id, <- Rsp; apply Hsm, Hb|].
  split; [rewrite <- Rn; eapply map_reads_back_decodes; eassumption|].
  rewrite <- Rdepth.
  destruct (bool_decide (sm_inlining_depth e = 0)); [exact Hinline|].
  destruct Hinline as (Hfirst & Hvalidindex & Hdepth & Hframes).
  rewrite Hfirst, Nat2Z.id.
  split; [exact Hvalidindex|]. split; [exact Hdepth|].
  intros d Hd. destruct (Hframes d Hd) as (f & Hf & Hread).
  destruct (lookup_lt_is_Some_2 (lm_frames m) d) as [lf Hlf]; [lia|].
  exists lf. split; [exact Hlf|].
  destruct (Rframes d lf Hlf) as (f' & Hf' & Hrec).
  rewrite Hf in Hf'. injection Hf' as <-.
  eapply frame_reads_back_decodes; [exact Hread|exact Hrec|].
  eapply Forall_lookup_1; [exact Hvalid|exact Hlf].
Qed.

(** C1, amended.  For every sequence of typed streaming calls on a fresh
    stream that adds the dex registers of every entry before its inline
    frames (at most as many as the entry declares, and for a frame exactly
    as many as it declares) and whose checks pass, [PrepareForFillIn]
    returns the needed size and [FillIn] into a region of that size returns:
    no check of [FillIn] or of the readback [CheckCodeInfo] fails, the
    header of the region holds as many stack maps as the calls closed, and
    every stack map of the region decodes to the stack map that the calls
    describe at its index: the dex PC and the native PC offset under the
    compression of the instruction set as passed to [BeginStackMapEntry],
    the register mask and bit by bit the stack mask (all clear for an absent
    mask), for every register position the location passed to
    [AddDexRegisterEntry] ([kNone] for a register that was not added), the
    inlining depth and, frame by frame, the method or its index, the extra
    data, the dex PC and the locations of the registers as passed to
    [BeginInlineInfoEntry] and [AddDexRegisterEntry].  The collaborators
    are as their types say: a positive instruction alignment, a 32-bit
    method index, catalog indices that fit the bits of a map entry, a
    header that the reader decodes, tables that lie in the bytes asked for;
    the tables are of 32-bit sizes, and a method encoded by address is not
    null and is aligned. *)
Theorem FillIn_decodes_calls (isa : InstructionSet) (cs : list StreamCall)
    (s : StackMapStream) (region : MemoryRegion) :
  0 < GetInstructionSetInstructionAlignment isa →
  (∀ method, is_uint32 (GetDexMethodIndexUnchecked method)) →
  (∀ k i, (i < k)%nat → Z.of_nat i < 2 ^ Z.of_nat (SingleEntrySizeInBits k)) →
  Forall StreamCall_typed cs →
  Forall StreamCall_method_valid cs →
  registers_first Closed cs = true →
  calls cs (StackMapStream_new isa) = Some s →
  sizes_fit s →
  header_decodes s →
  tables_within s →
  ∃ size s' encoding r,
    PrepareForFillIn s = Some (size, s')
    ∧ needed_size_ s' = size
    ∧ FillIn s' size region = Some r
    ∧ CheckCodeInfo s' r = Some ()
    ∧ CodeInfo_ExtractEncoding (region_header r) = Some encoding
    ∧ cie_stack_map_num_entries encoding = length (logical_content cs)
    ∧ ∀ i m, logical_content cs !! i = Some m →
        stack_map_decodes isa encoding r i m.
Proof.
  intros Halign Hindex Hsingle Htyped Hvalid Hfirst Hcalls Hsizes Hheader Hwithin.
  destruct (FillIn_reads_back isa cs s region Halign Hindex Hsingle Htyped
              (method_valid_aligned cs Hvalid)
              (registers_first_nested cs Closed Hfirst) Hcalls Hsizes Hheader
              Hwithin)
    as (size & s' & encoding & r & Hprep & Hsize & _ & Hfill & Hcheck & Hextract
        & Hcount & Hread).
  pose proof Hprep as Hp.
  apply PrepareForFillIn_inv in Hp as (enc & s2 & _ & _ & _ & _ & _ & Hp).
  pose proof (prepared_logical_content isa cs s s' Htyped Hfirst Hcalls Hp) as Hall.
  pose proof (calls_logical_content isa cs s Htyped Hfirst Hcalls) as Hrec.
  pose proof (logical_content_methods_valid cs Hvalid) as Hmethods.
  assert (Hisa : instruction_set_ s' = isa).
  { rewrite (prep_isa _ _ Hp). apply (calls_instruction_set cs _ _ Hcalls). }
  exists size, s', encoding, r.
  split; [exact Hprep|]. split; [exact Hsize|]. split; [exact Hfill|].
  split; [exact Hcheck|]. split; [exact Hextract|].
  split; [rewrite Hcount; eapply Forall2_length, Hrec|].
  intros i m Hm.
  destruct (Forall2_lookup_r _ _ _ _ _ Hall Hm) as (e' & He' & Hclosed).
  destruct (prepared_lookup _ _ _ _ Hp He') as (e & a & b & He & ->).
  destruct (Hread i e He) as (a' & b' & He'' & Hback). cbn zeta in He'', Hback.
  assert (Heq : with_mask_indices e a' b' = with_mask_indices e a b) by congruence.
  rewrite Heq in Hback. rewrite <- Hisa.
  eapply stack_map_reads_back_decodes; [exact Hback|exact Hclosed|].
  exact (Forall_lookup_1 _ _ _ _ Hmethods Hm).
Qed.

End Logical.

(** ** Instances on the sample *)

Section Witnesses.
#[local] Existing Instance Sample.collaborators.
Import Sample.

Lemma recorded_sample : calls sample_program new_stream = Some (recorded sample_program).
Proof. apply Some_default. vm_compute. reflexivity. Qed.

Lemma prepared_sample :
  PrepareForFillIn (recorded sample_program)
  = Some ((prepared_of sample_program).1, (prepared_of sample_program).2).
Proof.
  transitivity (Some (prepared_of sample_program));
    [|destruct (prepared_of _); reflexivity].
  apply Some_default. vm_compute. reflexivity.
Qed.

Lemma filled_sample :
  FillIn (prepared_of sample_program).2 (prepared_of sample_program).1 garbage
  = Some (filled sample_program).
Proof. apply Some_default. vm_compute. reflexivity. Qed.

Lemma extracted_sample :
  CodeInfo_ExtractEncoding (code_info_encoding_ (prepared_of sample_program).2)
  = Some (encoding_of sample_program).
Proof. apply Some_default. vm_compute. reflexivity. Qed.

Lemma entry_sample i :
  (i < 4)%nat →
  stack_maps_ (prepared_of sample_program).2 !! i = Some (entry_of sample_program i).
Proof.
  intros Hi. apply Some_default.
  destruct i as [|[|[|[|i]]]]; [vm_compute; reflexivity..|lia].
Qed.

Lemma typed_sample : Forall StreamCall_typed sample_program.
Proof.
  apply (bool_decide_unpack (Forall StreamCall_typed sample_program)).
  vm_compute. exact I.
Qed.

Lemma header_sample :
  header_extracts (recorded sample_program) (prepared_of sample_program).2.
Proof. unfold header_extracts. vm_compute. reflexivity. Qed.

Lemma Compress_not_empty encoding : Compress encoding ≠ [].
Proof.
  unfold Compress, leb. simpl. destruct (bool_decide _); discriminate.
Qed.

(** C3 on the sample: the third entry refers back to the first. *)
Lemma same_dex_map_back_reference_witness :
  calls sample_program new_stream = Some (recorded sample_program)
  ∧ stack_maps_ (recorded sample_program) !! 2%nat
    = Some (recorded_entry sample_program 2)
  ∧ (sm_same_dex_register_map_as_ (recorded_entry sample_program 2)
     = kNoSameDexMapFound
     ∨ ∃ r er,
         sm_same_dex_register_map_as_ (recorded_entry sample_program 2) = Some r
         ∧ (r < 2)%nat
         ∧ stack_maps_ (recorded sample_program) !! r = Some er
         ∧ sm_num_dex_registers er
           = sm_num_dex_registers (recorded_entry sample_program 2)
         ∧ sm_live_dex_registers_mask er
           = sm_live_dex_registers_mask (recorded_entry sample_program 2)
         ∧ locations_slice (dex_register_locations_ (recorded sample_program))
             (sm_dex_register_locations_start_index er)
             (live_count (sm_live_dex_registers_mask er))
           = locations_slice (dex_register_locations_ (recorded sample_program))
               (sm_dex_register_locations_start_index (recorded_entry sample_program 2))
               (live_count (sm_live_dex_registers_mask (recorded_entry sample_program 2)))
         ∧ length (locations_slice (dex_register_locations_ (recorded sample_program))
                     (sm_dex_register_locations_start_index
                        (recorded_entry sample_program 2))
                     (live_count
                        (sm_live_dex_registers_mask (recorded_entry sample_program 2))))
           = live_count (sm_live_dex_registers_mask (recorded_entry sample_program 2))).
Proof.
  assert (Hi : stack_maps_ (recorded sample_program) !! 2%nat
               = Some (recorded_entry sample_program 2))
    by (apply Some_default; vm_compute; reflexivity).
  split; [exact recorded_sample|]. split; [exact Hi|].
  exact (same_dex_map_back_reference tt sample_program (recorded sample_program) 2
           (recorded_entry sample_program 2) recorded_sample Hi).
Defined.

(** C8 on the sample: a dead register after one live register of three. *)
Lemma AddDexRegisterEntry_kNone_frame_witness :
  0 ≤ current_dex_register_ (recorded open_program)
    < applicable_num_dex_registers (recorded open_program)
  ∧ applicable_num_dex_registers (recorded open_program) ≤ uint32_max
  ∧ ∃ s', AddDexRegisterEntry kNone 0 (recorded open_program) = Some s'
      ∧ current_dex_register_ s' = current_dex_register_ (recorded open_program) + 1
      ∧ location_catalog_entries_ s' = location_catalog_entries_ (recorded open_program)
      ∧ location_catalog_entries_indices_ s'
        = location_catalog_entries_indices_ (recorded open_program)
      ∧ dex_register_locations_ s' = dex_register_locations_ (recorded open_program)
      ∧ sm_live_dex_registers_mask (current_entry_ s')
        = sm_live_dex_registers_mask (current_entry_ (recorded open_program))
      ∧ ii_live_dex_registers_mask (current_inline_info_ s')
        = ii_live_dex_registers_mask (current_inline_info_ (recorded open_program))
      ∧ sm_dex_register_map_hash (current_entry_ s')
        = sm_dex_register_map_hash (current_entry_ (recorded open_program))
      ∧ s' = set_current_dex_register_
               (current_dex_register_ (recorded open_program) + 1)
               (recorded open_program).
Proof.
  assert (H1 : 0 ≤ current_dex_register_ (recorded open_program)
                 < applicable_num_dex_registers (recorded open_program))
    by (vm_compute; split; [discriminate|reflexivity]).
  assert (H2 : applicable_num_dex_registers (recorded open_program) ≤ uint32_max)
    by (vm_compute; discriminate).
  split; [exact H1|]. split; [exact H2|].
  exact (AddDexRegisterEntry_kNone_frame (recorded open_program) 0 H1 H2).
Defined.

(** C9 on the sample: two calls in a row on a fresh stream. *)
Lemma BeginStackMapEntry_nested_undetected_witness :
  sm_dex_pc (current_entry_ new_stream) = 0
  ∧ 7 ≠ to_uint32 (-1)
  ∧ ∃ s1 s2,
      BeginStackMapEntry 0 4 3 None 1 0 new_stream = Some s1
      ∧ BeginStackMapEntry 7 8 5 None 2 0 s1 = Some s2
      ∧ stack_maps_ s2 = stack_maps_ new_stream
      ∧ sm_dex_pc (current_entry_ s2) = 7
      ∧ sm_register_mask (current_entry_ s2) = 5
      ∧ sm_sp_mask (current_entry_ s2) = None
      ∧ sm_num_dex_registers (current_entry_ s2) = 2
      ∧ sm_inlining_depth (current_entry_ s2) = 0
      ∧ BeginStackMapEntry (to_uint32 (-1)) 4 3 None 1 0 new_stream = None.
Proof.
  assert (H1 : sm_dex_pc (current_entry_ new_stream) = 0) by reflexivity.
  assert (H2 : 7 ≠ to_uint32 (-1)) by (vm_compute; discriminate).
  split; [exact H1|]. split; [exact H2|].
  exact (BeginStackMapEntry_nested_undetected new_stream 4 3 None 1 0 7 8 5 None 2 0
           H1 H2).
Defined.

(** C6 on the sample: two frames, one without dex PC. *)
Lemma ComputeInlineInfoEncoding_max_dex_pc_witness :
  total_inlining_depth (stack_maps_ (recorded sample_program))
  = length (inline_infos_ (recorded sample_program))
  ∧ ∃ m, ComputeInlineInfoMaxima (recorded sample_program) = Some m
      ∧ dex_pc_max m = max_dex_pc_of_frames (inline_infos_ (recorded sample_program))
      ∧ ∀ dex_register_maps_bytes,
          ComputeInlineInfoEncoding (recorded sample_program) dex_register_maps_bytes
          = Some (InlineInfoEncoding_SetFromSizes (method_index_max m)
                    (max_dex_pc_of_frames (inline_infos_ (recorded sample_program)))
                    (extra_data_max m) (Z.of_nat dex_register_maps_bytes)).
Proof.
  assert (H1 : total_inlining_depth (stack_maps_ (recorded sample_program))
               = length (inline_infos_ (recorded sample_program)))
    by (vm_compute; reflexivity).
  split; [exact H1|].
  exact (ComputeInlineInfoEncoding_max_dex_pc (recorded sample_program) H1).
Defined.

(** C7 as stated fails on the sample: the second call does not return. *)
Lemma PrepareForFillIn_not_idempotent :
  PrepareForFillIn (recorded sample_program)
  = Some ((prepared_of sample_program).1, (prepared_of sample_program).2)
  ∧ PrepareForFillIn (prepared_of sample_program).2 = None.
Proof.
  split; [exact prepared_sample|]. apply None_default. vm_compute. reflexivity.
Qed.

(** C7, amended, on the sample. *)
Lemma PrepareForFillIn_one_shot_witness :
  (∀ encoding, CodeInfoEncoding_Compress encoding ≠ [])
  ∧ PrepareForFillIn (recorded sample_program)
    = Some ((prepared_of sample_program).1, (prepared_of sample_program).2)
  ∧ code_info_encoding_ (prepared_of sample_program).2 ≠ []
  ∧ PrepareForFillIn (prepared_of sample_program).2 = None.
Proof.
  split; [exact Compress_not_empty|]. split; [exact prepared_sample|].
  exact (PrepareForFillIn_one_shot (recorded sample_program)
           (prepared_of sample_program).2 (prepared_of sample_program).1
           Compress_not_empty prepared_sample).
Defined.


(** C4 on the sample: the fourth entry has two registers, none live. *)
Lemma FillIn_no_dex_register_map_sentinel_witness :
  Forall StreamCall_typed sample_program
  ∧ calls sample_program new_stream = Some (recorded sample_program)
  ∧ PrepareForFillIn (recorded sample_program)
    = Some ((prepared_of sample_program).1, (prepared_of sample_program).2)
  ∧ header_extracts (recorded sample_program) (prepared_of sample_program).2
  ∧ CodeInfo_ExtractEncoding (code_info_encoding_ (prepared_of sample_program).2)
    = Some (encoding_of sample_program)
  ∧ Z.of_nat (cie_dex_register_map_num_bytes (encoding_of sample_program))
    ≤ uint32_max
  ∧ FillIn (prepared_of sample_program).2 (prepared_of sample_program).1 garbage
    = Some (filled sample_program)
  ∧ stack_maps_ (prepared_of sample_program).2 !! 3%nat
    = Some (entry_of sample_program 3)
  ∧ (StackMap_Get (cie_stack_map_encoding (encoding_of sample_program)) 3
       kDexRegisterMapOffset (filled sample_program) = kNoDexRegisterMap
     ↔ sm_num_dex_registers (entry_of sample_program 3) = 0
       ∨ live_count (sm_live_dex_registers_mask (entry_of sample_program 3)) = 0%nat).
Proof.
  assert (Hsmall : Z.of_nat (cie_dex_register_map_num_bytes (encoding_of sample_program))
                   ≤ uint32_max)
    by (vm_compute; discriminate).
  assert (Hi : stack_maps_ (prepared_of sample_program).2 !! 3%nat
               = Some (entry_of sample_program 3))
    by (apply entry_sample; lia).
  split; [exact typed_sample|]. split; [exact recorded_sample|].
  split; [exact prepared_sample|]. split; [exact header_sample|].
  split; [exact extracted_sample|]. split; [exact Hsmall|].
  split; [exact filled_sample|]. split; [exact Hi|].
  exact (FillIn_no_dex_register_map_sentinel tt sample_program
           (recorded sample_program) (prepared_of sample_program).2
           (prepared_of sample_program).1 garbage (filled sample_program)
           (encoding_of sample_program) 3 (entry_of sample_program 3)
           typed_sample recorded_sample prepared_sample header_sample
           extracted_sample Hsmall filled_sample Hi).
Defined.

(** C5 on the sample: stack masks of five bits. *)
Lemma mask_interners_insertion_ordered_witness :
  stack_masks_ (recorded sample_program) = []
  ∧ (let keys := sm_register_mask <$> stack_maps_ (recorded sample_program) in
     let table := first_occurrences keys in
     let result := PrepareRegisterMasks (recorded sample_program) in
     NoDup table ∧ (∀ k, k ∈ table ↔ k ∈ keys)
     ∧ result.1 = length table
     ∧ take result.1 (register_masks_ result.2) = table
     ∧ Forall2 (λ e e',
          e' = StackMapEntry_set_register_mask_index e (sm_register_mask_index e')
          ∧ table !! sm_register_mask_index e' = Some (sm_register_mask e)
          ∧ register_masks_ result.2 !! sm_register_mask_index e'
            = Some (sm_register_mask e))
         (stack_maps_ (recorded sample_program)) (stack_maps_ result.2))
  ∧ (let bytes := (RoundUp 5 kBitsPerByte / kBitsPerByte)%nat in
     let key e := pack_stack_mask 5 bytes (sm_sp_mask e) in
     let keys := key <$> stack_maps_ (recorded sample_program) in
     let table := first_occurrences keys in
     let result := PrepareStackMasks 5 (recorded sample_program) in
     NoDup table ∧ (∀ k, k ∈ table ↔ k ∈ keys)
     ∧ result.1 = length table
     ∧ (∀ j k, table !! j = Some k →
          region_content (stack_masks_ result.2) (j * bytes) bytes = k)
     ∧ Forall2 (λ e e',
          e' = StackMapEntry_set_stack_mask_index e (sm_stack_mask_index e')
          ∧ table !! sm_stack_mask_index e' = Some (key e)
          ∧ region_content (stack_masks_ result.2)
              (sm_stack_mask_index e' * bytes) bytes = key e)
         (stack_maps_ (recorded sample_program)) (stack_maps_ result.2)).
Proof.
  assert (Hempty : stack_masks_ (recorded sample_program) = [])
    by (vm_compute; reflexivity).
  split; [exact Hempty|].
  exact (mask_interners_insertion_ordered (recorded sample_program) 5 Hempty).
Defined.

(** C10 on the sample: the fourth entry has two registers, none live, and
    no back-reference; 8 bytes are counted and 7 are laid. *)
Lemma ComputeDexRegisterMapsSize_counts_unused_map_witness :
  ComputeDexRegisterMapsSize (recorded sample_program) = Some 8%nat
  ∧ next_dex_register_map_offset cursor_before = 0%nat
  ∧ next_inline_info_index cursor_before = 0%nat
  ∧ fill_stack_maps (recorded sample_program) (encoding_of sample_program) 0
      (stack_maps_ (recorded sample_program)) cursor_before
    = Some (cursor_after sample_program)
  ∧ stack_maps_ (recorded sample_program) !! 3%nat
    = Some (recorded_entry sample_program 3)
  ∧ 0 < sm_num_dex_registers (recorded_entry sample_program 3)
  ∧ sm_live_dex_registers_mask (recorded_entry sample_program 3)
    = Some (BitVector_Create 2)
  ∧ BitVector_NumSetBits (BitVector_Create 2) = 0%nat
  ∧ sm_same_dex_register_map_as_ (recorded_entry sample_program 3)
    = kNoSameDexMapFound
  ∧ (let unused :=
       (DexRegisterMap_kFixedSize
        + GetLiveBitMaskSize
            (Z.to_nat (sm_num_dex_registers (recorded_entry sample_program 3))))%nat in
     ComputeDexRegisterMapSize (recorded sample_program)
       (sm_num_dex_registers (recorded_entry sample_program 3))
       (sm_live_dex_registers_mask (recorded_entry sample_program 3)) = Some unused
     ∧ unused_map_bytes (recorded_entry sample_program 3) = unused
     ∧ StackMap_Get (cie_stack_map_encoding (encoding_of sample_program)) 3
         kDexRegisterMapOffset (fc_region (cursor_after sample_program))
       = kNoDexRegisterMap
     ∧ 8%nat = (next_dex_register_map_offset (cursor_after sample_program)
                + sum_list_with unused_map_bytes
                    (stack_maps_ (recorded sample_program)))%nat
     ∧ (next_dex_register_map_offset (cursor_after sample_program) + unused ≤ 8)%nat
     ∧ (next_dex_register_map_offset (cursor_after sample_program) < 8)%nat).
Proof.
  assert (H1 : ComputeDexRegisterMapsSize (recorded sample_program) = Some 8%nat)
    by (vm_compute; reflexivity).
  assert (H2 : next_dex_register_map_offset cursor_before = 0%nat) by reflexivity.
  assert (H3 : next_inline_info_index cursor_before = 0%nat) by reflexivity.
  assert (H4 : fill_stack_maps (recorded sample_program) (encoding_of sample_program) 0
                 (stack_maps_ (recorded sample_program)) cursor_before
               = Some (cursor_after sample_program))
    by (apply Some_default; vm_compute; reflexivity).
  assert (H5 : stack_maps_ (recorded sample_program) !! 3%nat
               = Some (recorded_entry sample_program 3))
    by (apply Some_default; vm_compute; reflexivity).
  assert (H6 : 0 < sm_num_dex_registers (recorded_entry sample_program 3))
    by (vm_compute; reflexivity).
  assert (H7 : sm_live_dex_registers_mask (recorded_entry sample_program 3)
               = Some (BitVector_Create 2))
    by (vm_compute; reflexivity).
  assert (H8 : BitVector_NumSetBits (BitVector_Create 2) = 0%nat) by reflexivity.
  assert (H9 : sm_same_dex_register_map_as_ (recorded_entry sample_program 3)
               = kNoSameDexMapFound)
    by (vm_compute; reflexivity).
  split; [exact H1|]. split; [exact H2|]. split; [exact H3|]. split; [exact H4|].
  split; [exact H5|]. split; [exact H6|]. split; [exact H7|]. split; [exact H8|].
  split; [exact H9|].
  exact (ComputeDexRegisterMapsSize_counts_unused_map (recorded sample_program)
           (encoding_of sample_program) cursor_before (cursor_after sample_program)
           8 3 (recorded_entry sample_program 3) (BitVector_Create 2)
           H1 H2 H3 H4 H5 H6 H7 H8 H9).
Defined.

End Witnesses.

Section RoundTripWitnesses.
#[local] Existing Instance Sample.collaborators.
Import Sample.

Lemma method_index_sample method : is_uint32 (GetDexMethodIndexUnchecked method).
Proof. apply Z.mod_pos_bound. reflexivity. Qed.

Lemma entry_bits_sample (k i : nat) :
  (i < k)%nat → Z.of_nat i < 2 ^ Z.of_nat (SingleEntrySizeInBits k).
Proof.
  intros Hi. change (SingleEntrySizeInBits k) with (Nat.log2_up k).
  assert (Hpow : Z.of_nat (2 ^ Nat.log2_up k) = 2 ^ Z.of_nat (Nat.log2_up k))
    by (rewrite Nat2Z.inj_pow; reflexivity).
  rewrite <- Hpow. apply Nat2Z.inj_lt.
  destruct (decide (k = 1)%nat) as [->|Hk]; [simpl; lia|].
  pose proof (Nat.log2_up_spec k). lia.
Qed.

Lemma sizes_sample : sizes_fit (recorded sample_program).
Proof. repeat split; vm_compute; intros Hgt; discriminate Hgt. Qed.

Lemma tables_within_sample : tables_within (recorded sample_program).
Proof.
  intros encoding Hencoding. vm_compute in Hencoding. injection Hencoding as <-.
  split; apply Nat.leb_le; vm_compute; reflexivity.
Qed.

Lemma header_decodes_sample : header_decodes (recorded sample_program).
Proof.
  intros encoding Hencoding. split; [apply Compress_not_empty|].
  vm_compute in Hencoding. injection Hencoding as <-. vm_compute. reflexivity.
Qed.

End RoundTripWitnesses.

Section CoverageWitnesses.
#[local] Existing Instance Sample.collaborators.
Import Sample.

Lemma recorded_open : calls open_program new_stream = Some (recorded open_program).
Proof. apply Some_default. vm_compute. reflexivity. Qed.

Lemma invariant_open : stream_invariant (recorded open_program).
Proof.
  exact (calls_invariant open_program _ _ (stream_invariant_new tt) recorded_open).
Qed.

Lemma interned_open : catalog_interned (recorded open_program).
Proof.
  exact (rec_catalog _
           (calls_recorded open_program _ _ (stream_recorded_new tt) recorded_open)).
Qed.

Lemma invariant_sample : stream_invariant (recorded sample_program).
Proof.
  exact (calls_invariant sample_program _ _ (stream_invariant_new tt) recorded_sample).
Qed.

Lemma recorded_entry_sample i :
  (i < 4)%nat →
  stack_maps_ (recorded sample_program) !! i = Some (recorded_entry sample_program i).
Proof.
  intros Hi. apply Some_default.
  destruct i as [|[|[|[|i]]]]; [vm_compute; reflexivity..|lia].
Qed.

Lemma checked_sample :
  CheckCodeInfo (prepared_of sample_program).2 (filled sample_program) = Some ().
Proof.
  destruct (FillIn_inv _ _ _ _ filled_sample)
    as (encoding & c0 & c & _ & _ & _ & _ & _ & _ & Hcheck).
  exact Hcheck.
Qed.

(** X1 on the sample. *)
Lemma catalog_interned_after_calls_witness :
  calls sample_program new_stream = Some (recorded sample_program)
  ∧ catalog_interned (recorded sample_program).
Proof.
  split; [exact recorded_sample|].
  exact (@catalog_interned_after_calls collaborators tt sample_program
           (recorded sample_program) recorded_sample).
Defined.

(** X2 on the sample: the second register of an open entry of three, a
    location that the catalog does not hold yet. *)
Lemma AddDexRegisterEntry_live_witness :
  let s := recorded open_program in
  let s' := default new_stream (AddDexRegisterEntry kInStack 16 s) in
  catalog_interned s
  ∧ kInStack ≠ kNone
  ∧ AddDexRegisterEntry kInStack 16 s = Some s'
  ∧ IsShortLocationKind kInStack = true
  ∧ current_dex_register_ s < applicable_num_dex_registers s
  ∧ current_dex_register_ s' = to_uint32 (current_dex_register_ s + 1)
  ∧ location_catalog_entries_ s'
    = (if decide ((kInStack, 16) ∈ location_catalog_entries_ s)
       then location_catalog_entries_ s
       else location_catalog_entries_ s ++ [(kInStack, 16)])
  ∧ mask_bit (applicable_live_mask s') (Z.to_nat (current_dex_register_ s)) = true
  ∧ ∃ index,
      dex_register_locations_ s' = dex_register_locations_ s ++ [index]
      ∧ location_catalog_entries_ s' !! index = Some (kInStack, 16).
Proof.
  intros s s'.
  assert (Hkind : kInStack ≠ kNone) by discriminate.
  assert (Hcall : AddDexRegisterEntry kInStack 16 s = Some s')
    by (apply Some_default; vm_compute; reflexivity).
  split; [exact interned_open|]. split; [exact Hkind|]. split; [exact Hcall|].
  exact (@AddDexRegisterEntry_live collaborators kInStack 16 s s'
           interned_open Hkind Hcall).
Defined.

(** X3 on the sample. *)
Lemma maxima_cover_after_calls_witness :
  let s := recorded sample_program in
  calls sample_program new_stream = Some s
  ∧ 0 ≤ dex_pc_max_ s ∧ 0 ≤ register_mask_max_ s ∧ -1 ≤ stack_mask_max_ s
  ∧ ∀ e, e ∈ stack_maps_ s →
      sm_dex_pc e ≤ dex_pc_max_ s
      ∧ sm_register_mask e ≤ register_mask_max_ s
      ∧ ∀ m, sm_sp_mask e = Some m →
          BitVector_GetHighestBitSet m ≤ stack_mask_max_ s.
Proof.
  intros s. split; [exact recorded_sample|].
  exact (@maxima_cover_after_calls collaborators tt sample_program s recorded_sample).
Defined.

(** X4 on the sample: [FillIn] right after the streaming calls. *)
Lemma FillIn_needs_PrepareForFillIn_witness :
  let s := recorded sample_program in
  calls sample_program new_stream = Some s
  ∧ needed_size_ s = 0%nat ∧ code_info_encoding_ s = []
  ∧ FillIn s 48 garbage = None.
Proof.
  intros s. split; [exact recorded_sample|].
  exact (@FillIn_needs_PrepareForFillIn collaborators tt sample_program s 48%nat
           garbage recorded_sample).
Defined.

(** X5 on the sample: one frame by address, one by index. *)
Lemma inline_frames_method_or_index_witness :
  let s := recorded sample_program in
  calls sample_program new_stream = Some s
  ∧ (in_inline_frame_ s = false → current_inline_info_ s = InlineInfoEntry_zero)
  ∧ ∀ f, f ∈ inline_infos_ s → ii_method f = 0 ∨ ii_method_index f = 0.
Proof.
  intros s. split; [exact recorded_sample|].
  exact (@inline_frames_method_or_index collaborators tt sample_program s
           recorded_sample).
Defined.

(** X6 on the sample: the first and the third entry. *)
Lemma HaveTheSameDexMaps_decides_witness :
  let locations := dex_register_locations_ (recorded sample_program) in
  let a := recorded_entry sample_program 0 in
  let b := recorded_entry sample_program 2 in
  entry_wf locations a ∧ entry_wf locations b
  ∧ ∃ same,
      HaveTheSameDexMaps locations a b = Some same
      ∧ (same = true ↔
         sm_num_dex_registers a = sm_num_dex_registers b
         ∧ sm_live_dex_registers_mask a = sm_live_dex_registers_mask b
         ∧ locations_slice locations (sm_dex_register_locations_start_index a)
             (live_count (sm_live_dex_registers_mask a))
           = locations_slice locations (sm_dex_register_locations_start_index b)
               (live_count (sm_live_dex_registers_mask b))).
Proof.
  intros locations a b.
  pose proof (br_wf _ _ (inv_refs _ invariant_sample)) as Hwf.
  assert (Ha : entry_wf locations a).
  { exact (Forall_lookup_1 _ _ _ _ Hwf (recorded_entry_sample 0 ltac:(lia))). }
  assert (Hb : entry_wf locations b).
  { exact (Forall_lookup_1 _ _ _ _ Hwf (recorded_entry_sample 2 ltac:(lia))). }
  split; [exact Ha|]. split; [exact Hb|].
  exact (HaveTheSameDexMaps_decides locations a b Ha Hb).
Defined.

(** X7 on the sample: an entry of three registers closed after one. *)
Lemma EndStackMapEntry_returns_witness :
  let s := recorded open_program in
  stream_invariant s
  ∧ ∃ same_as s',
      EndStackMapEntry s = Some s'
      ∧ stack_maps_ s'
        = stack_maps_ s ++ [StackMapEntry_set_same_as (current_entry_ s) same_as]
      ∧ current_entry_ s' = StackMapEntry_zero
      ∧ inline_infos_ s' = inline_infos_ s
      ∧ dex_register_locations_ s' = dex_register_locations_ s
      ∧ location_catalog_entries_ s' = location_catalog_entries_ s
      ∧ current_inline_info_ s' = current_inline_info_ s
      ∧ current_dex_register_ s' = current_dex_register_ s
      ∧ in_inline_frame_ s' = in_inline_frame_ s.
Proof.
  intros s. split; [exact invariant_open|].
  exact (@EndStackMapEntry_returns collaborators s invariant_open).
Defined.

(** X8 on the sample. *)
Lemma similarity_index_after_calls_witness :
  let s := recorded sample_program in
  calls sample_program new_stream = Some s
  ∧ (∀ hash r,
       r ∈ default [] (dex_map_hash_to_stack_map_indices_ s !! hash)
       ↔ ∃ er, stack_maps_ s !! r = Some er
           ∧ sm_dex_register_map_hash er = hash
           ∧ sm_same_dex_register_map_as_ er = kNoSameDexMapFound)
  ∧ ∀ i j ei ej,
      stack_maps_ s !! i = Some ei → stack_maps_ s !! j = Some ej → i ≠ j →
      sm_same_dex_register_map_as_ ei = kNoSameDexMapFound →
      sm_same_dex_register_map_as_ ej = kNoSameDexMapFound →
      sm_dex_register_map_hash ei = sm_dex_register_map_hash ej →
      ¬ same_dex_map (dex_register_locations_ s) ei ej.
Proof.
  intros s. split; [exact recorded_sample|].
  exact (@similarity_index_after_calls collaborators tt sample_program s
           recorded_sample).
Defined.

(** X9 on the sample: four entries, the second with two inline frames. *)
Lemma properly_nested_inline_infos_witness :
  let s := recorded sample_program in
  properly_nested Idle sample_program = true
  ∧ calls sample_program new_stream = Some s
  ∧ current_entry_ s = StackMapEntry_zero
  ∧ in_inline_frame_ s = false
  ∧ length (inline_infos_ s) = total_inlining_depth (stack_maps_ s)
  ∧ inline_starts_from 0 (stack_maps_ s)
  ∧ number_of_stack_maps_with_inline_info_ s
    = length (filter (λ e, sm_inlining_depth e > 0) (stack_maps_ s)).
Proof.
  intros s.
  assert (Hnested : properly_nested Idle sample_program = true) by reflexivity.
  split; [exact Hnested|]. split; [exact recorded_sample|].
  exact (@properly_nested_inline_infos collaborators tt sample_program s Hnested
           recorded_sample).
Defined.

(** X12 on the sample: the frame recorded by the address of its method. *)
Lemma ComputeInlineInfoEncoding_method_widths_witness :
  let s := recorded sample_program in
  let ie :=
    default {| iie_method_index_bits := 0; iie_dex_pc_bits := 0;
               iie_extra_data_bits := 0; iie_dex_register_map_bits := 0 |}
      (ComputeInlineInfoEncoding s 5) in
  let f := default InlineInfoEntry_zero (inline_infos_ s !! 0%nat) in
  ComputeInlineInfoEncoding s 5 = Some ie
  ∧ f ∈ inline_infos_ s
  ∧ 0 ≤ ii_method_index f
  ∧ 0 ≤ frame_method_index f < 2 ^ Z.of_nat (iie_method_index_bits ie)
  ∧ 0 ≤ frame_extra_data f < 2 ^ Z.of_nat (iie_extra_data_bits ie)
  ∧ Z.of_nat 5 < 2 ^ Z.of_nat (iie_dex_register_map_bits ie).
Proof.
  intros s ie f.
  assert (Hie : ComputeInlineInfoEncoding s 5 = Some ie)
    by (apply Some_default; vm_compute; reflexivity).
  assert (Hf : f ∈ inline_infos_ s).
  { apply (list_elem_of_lookup_2 _ 0%nat). apply Some_default.
    vm_compute. reflexivity. }
  assert (Hindex : 0 ≤ ii_method_index f) by (vm_compute; discriminate).
  split; [exact Hie|]. split; [exact Hf|]. split; [exact Hindex|].
  exact (@ComputeInlineInfoEncoding_method_widths collaborators s 5%nat ie f
           Hie Hf Hindex).
Defined.

(** X13 on the sample. *)
Lemma PrepareForFillIn_keeps_recording_witness :
  let s := recorded sample_program in
  let s' := (prepared_of sample_program).2 in
  let size := (prepared_of sample_program).1 in
  PrepareForFillIn s = Some (size, s')
  ∧ code_info_encoding_ s = []
  ∧ needed_size_ s' = size
  ∧ (∃ encoding,
       fst <$> ComputeEncoding s = Some encoding
       ∧ code_info_encoding_ s' = CodeInfoEncoding_Compress encoding
       ∧ size = (length (CodeInfoEncoding_Compress encoding)
                 + CodeInfoEncoding_NonHeaderSize encoding)%nat)
  ∧ length (stack_maps_ s') = length (stack_maps_ s)
  ∧ (∀ i e, stack_maps_ s !! i = Some e →
       ∃ stack_mask_index register_mask_index,
         stack_maps_ s' !! i
         = Some (with_mask_indices e stack_mask_index register_mask_index))
  ∧ location_catalog_entries_ s' = location_catalog_entries_ s
  ∧ dex_register_locations_ s' = dex_register_locations_ s
  ∧ inline_infos_ s' = inline_infos_ s
  ∧ current_entry_ s' = current_entry_ s
  ∧ dex_pc_max_ s' = dex_pc_max_ s
  ∧ register_mask_max_ s' = register_mask_max_ s
  ∧ stack_mask_max_ s' = stack_mask_max_ s
  ∧ length (register_masks_ s') = length (stack_maps_ s)
  ∧ length (stack_masks_ s')
    = (kBitsPerByte
       * (RoundUp (Z.to_nat (stack_mask_max_ s + 1)) kBitsPerByte / kBitsPerByte
          * length (stack_maps_ s)))%nat.
Proof.
  intros s s' size. split; [exact prepared_sample|].
  exact (@PrepareForFillIn_keeps_recording collaborators s s' size prepared_sample).
Defined.

(** X14 on the sample. *)
Lemma FillIn_returns_only_checked_witness :
  let s := (prepared_of sample_program).2 in
  let region_size := (prepared_of sample_program).1 in
  let r := filled sample_program in
  FillIn s region_size garbage = Some r
  ∧ sm_dex_pc (current_entry_ s) = 0
  ∧ needed_size_ s ≠ 0%nat
  ∧ region_size = needed_size_ s
  ∧ CheckCodeInfo s r = Some ()
  ∧ ∃ encoding,
      CodeInfo_ExtractEncoding (code_info_encoding_ s) = Some encoding
      ∧ cie_stack_map_num_entries encoding = length (stack_maps_ s)
      ∧ cie_location_catalog_num_bytes encoding
        = ComputeDexRegisterLocationCatalogSize s.
Proof.
  intros s region_size r. split; [exact filled_sample|].
  exact (@FillIn_returns_only_checked collaborators s region_size garbage r
           filled_sample).
Defined.

(** X15 on the sample: the region that [FillIn] wrote. *)
Lemma CheckCodeInfo_sound_witness :
  let s := (prepared_of sample_program).2 in
  let r := filled sample_program in
  Forall (λ location : DexRegisterLocation, location.1 ≠ kNone)
    (location_catalog_entries_ s)
  ∧ CheckCodeInfo s r = Some ()
  ∧ ∃ encoding,
      CodeInfo_ExtractEncoding (region_header r) = Some encoding
      ∧ cie_stack_map_num_entries encoding = length (stack_maps_ s)
      ∧ ∀ i e, stack_maps_ s !! i = Some e → stack_map_checked s encoding r i e.
Proof.
  intros s r.
  assert (Hkinds : Forall (λ location : DexRegisterLocation, location.1 ≠ kNone)
                     (location_catalog_entries_ s)).
  { apply (bool_decide_unpack
             (Forall (λ location : DexRegisterLocation, location.1 ≠ kNone)
                (location_catalog_entries_ s))).
    vm_compute. exact I. }
  split; [exact Hkinds|]. split; [exact checked_sample|].
  exact (@CheckCodeInfo_sound collaborators s r Hkinds checked_sample).
Defined.

(** X16 on the sample: a map of three registers, the second dead, written
    in two bytes at offset 0 of the region that [FillIn] wrote, from the
    second index of the shared index array on. *)
Lemma FillInDexRegisterMap_reads_back_witness :
  let s := (prepared_of sample_program).2 in
  let encoding := encoding_of sample_program in
  let r := filled sample_program in
  let mask := sp_mask_of [0%nat; 2%nat] in
  3 ≠ 0
  ∧ ComputeDexRegisterMapSize s 3 (Some mask) = Some 2%nat
  ∧ (1 + BitVector_NumSetBits mask ≤ length (dex_register_locations_ s))%nat
  ∧ Forall (λ index, (index < length (location_catalog_entries_ s))%nat)
      (dex_register_locations_ s)
  ∧ Z.of_nat (length (location_catalog_entries_ s)) ≤ uint32_modulus
  ∧ (∀ index, (index < length (location_catalog_entries_ s))%nat →
       Z.of_nat index
       < 2 ^ Z.of_nat (SingleEntrySizeInBits (length (location_catalog_entries_ s))))
  ∧ cie_location_catalog_num_entries encoding = length (location_catalog_entries_ s)
  ∧ catalog_written s r
  ∧ ∃ r',
      FillInDexRegisterMap s 0 2 3 mask 1 r = Some r'
      ∧ (∀ p, ¬ (kBitsPerByte * 0 ≤ p < kBitsPerByte * (0 + 2))%nat →
           region_dex_register_maps r' p = region_dex_register_maps r p)
      ∧ region_header r' = region_header r
      ∧ region_location_catalog r' = region_location_catalog r
      ∧ region_stack_maps r' = region_stack_maps r
      ∧ region_inline_infos r' = region_inline_infos r
      ∧ region_stack_masks r' = region_stack_masks r
      ∧ region_register_masks r' = region_register_masks r
      ∧ ∀ reg, (reg < Z.to_nat 3)%nat →
          let map := DexRegisterMap_at r' 0 (Z.to_nat 3)
                       (cie_location_catalog_num_entries encoding) in
          drm_live_bit_mask map reg = BitVector_IsBitSet mask reg
          ∧ recorded_location s (Some mask) 1 reg
            = Some (GetDexRegisterLocation encoding map reg r').
Proof.
  intros s encoding r mask.
  assert (Hn : 3 ≠ 0) by discriminate.
  assert (Hsize : ComputeDexRegisterMapSize s 3 (Some mask) = Some 2%nat)
    by (vm_compute; reflexivity).
  assert (H1 : (1 + BitVector_NumSetBits mask ≤ length (dex_register_locations_ s))%nat)
    by (vm_compute; lia).
  assert (H2 : Forall (λ index, (index < length (location_catalog_entries_ s))%nat)
                 (dex_register_locations_ s)).
  { apply (bool_decide_unpack
             (Forall (λ index, (index < length (location_catalog_entries_ s))%nat)
                (dex_register_locations_ s))).
    vm_compute. exact I. }
  assert (H3 : Z.of_nat (length (location_catalog_entries_ s)) ≤ uint32_modulus)
    by (vm_compute; discriminate).
  assert (H4 : ∀ index, (index < length (location_catalog_entries_ s))%nat →
            Z.of_nat index
            < 2 ^ Z.of_nat (SingleEntrySizeInBits (length (location_catalog_entries_ s))))
    by (intros index; apply entry_bits_sample).
  assert (H5 : cie_location_catalog_num_entries encoding
               = length (location_catalog_entries_ s))
    by (vm_compute; reflexivity).
  assert (H6 : catalog_written s r).
  { intros k location Hk.
    destruct k as [|[|[|[|k]]]]; vm_compute in Hk; try discriminate Hk;
      injection Hk as <-; vm_compute; reflexivity. }
  split; [exact Hn|]. split; [exact Hsize|].
  split; [exact H1|]. split; [exact H2|]. split; [exact H3|]. split; [exact H4|].
  split; [exact H5|]. split; [exact H6|].
  exact (@FillInDexRegisterMap_reads_back collaborators s encoding r 0%nat 2%nat 3
           mask 1%nat Hn Hsize H1 H2 H3 H4 H5 H6).
Defined.

(** X17 on the sample. *)
Lemma live_masks_within_after_calls_witness :
  let s := recorded sample_program in
  calls sample_program new_stream = Some s
  ∧ (∀ e, e ∈ stack_maps_ s →
       (∀ i, (Z.to_nat (sm_num_dex_registers e) ≤ i)%nat →
          mask_bit (sm_live_dex_registers_mask e) i = false)
       ∧ live_count (sm_live_dex_registers_mask e)
         = live_below (sm_live_dex_registers_mask e)
             (Z.to_nat (sm_num_dex_registers e)))
  ∧ (∀ f, f ∈ inline_infos_ s →
       (∀ i, (Z.to_nat (ii_num_dex_registers f) ≤ i)%nat →
          mask_bit (ii_live_dex_registers_mask f) i = false)
       ∧ live_count (ii_live_dex_registers_mask f)
         = live_below (ii_live_dex_registers_mask f)
             (Z.to_nat (ii_num_dex_registers f))).
Proof.
  intros s. split; [exact recorded_sample|].
  exact (@live_masks_within_after_calls collaborators tt sample_program s
           recorded_sample).
Defined.

End CoverageWitnesses.

Section LogicalWitnesses.
#[local] Existing Instance Sample.collaborators.
Import Sample.

Lemma registers_first_sample : registers_first Closed sample_program = true.
Proof. reflexivity. Qed.


Lemma valid_sample : Forall StreamCall_method_valid sample_program.
Proof.
  apply (bool_decide_unpack (Forall StreamCall_method_valid sample_program)).
  vm_compute. exact I.
Qed.

(** C1, amended, on the sample: the four stack maps decode to what the
    calls say. *)
Lemma FillIn_decodes_calls_witness :
  Forall StreamCall_typed sample_program
  ∧ Forall StreamCall_method_valid sample_program
  ∧ registers_first Closed sample_program = true
  ∧ calls sample_program new_stream = Some (recorded sample_program)
  ∧ sizes_fit (recorded sample_program)
  ∧ header_decodes (recorded sample_program)
  ∧ tables_within (recorded sample_program)
  ∧ ∃ size s' encoding r,
      PrepareForFillIn (recorded sample_program) = Some (size, s')
      ∧ needed_size_ s' = size
      ∧ FillIn s' size garbage = Some r
      ∧ CheckCodeInfo s' r = Some ()
      ∧ CodeInfo_ExtractEncoding (region_header r) = Some encoding
      ∧ cie_stack_map_num_entries encoding = length (logical_content sample_program)
      ∧ ∀ i m, logical_content sample_program !! i = Some m →
          stack_map_decodes tt encoding r i m.
Proof.
  split; [exact typed_sample|]. split; [exact valid_sample|].
  split; [exact registers_first_sample|]. split; [exact recorded_sample|].
  split; [exact sizes_sample|]. split; [exact header_decodes_sample|].
  split; [exact tables_within_sample|].
  apply (@FillIn_decodes_calls collaborators tt sample_program
           (recorded sample_program) garbage).
  - reflexivity.
  - exact method_index_sample.
  - exact entry_bits_sample.
  - exact typed_sample.
  - exact valid_sample.
  - exact registers_first_sample.
  - exact recorded_sample.
  - exact sizes_sample.
  - exact header_decodes_sample.
  - exact tables_within_sample.
Defined.

(** C1 as stated fails: the calls of [interleaved_program] are properly
    nested and typed and every check of a call passes, [PrepareForFillIn]
    and [FillIn] return and the readback [CheckCodeInfo] passes, yet the
    second register of the stack map, which was added with the location
    [(kInStack, 4)], reads back with the location [(kConstant, 9)] that was
    added for the register of the inline frame. *)
Lemma FillIn_interleaved_register_lost :
  ∃ s size s' r encoding m,
    properly_nested Idle interleaved_program = true
    ∧ Forall StreamCall_typed interleaved_program
    ∧ Forall StreamCall_method_valid interleaved_program
    ∧ calls interleaved_program new_stream = Some s
    ∧ PrepareForFillIn s = Some (size, s')
    ∧ FillIn s' size garbage = Some r
    ∧ CheckCodeInfo s' r = Some ()
    ∧ CodeInfo_ExtractEncoding (region_header r) = Some encoding
    ∧ logical_content interleaved_program !! 0%nat = Some m
    ∧ lm_registers m !! 1%nat = Some (kInStack, 4)
    ∧ seen_location encoding r
        (GetDexRegisterMapAt encoding
           (StackMap_Get (cie_stack_map_encoding encoding) 0 kDexRegisterMapOffset r)
           2 r) 1
      = (kConstant, 9)
    ∧ ¬ stack_map_decodes tt encoding r 0 m.
Proof.
  exists (recorded interleaved_program), (prepared_of interleaved_program).1,
    (prepared_of interleaved_program).2, (filled interleaved_program),
    (encoding_of interleaved_program),
    (default
       {| lm_dex_pc := 0; lm_native_pc_offset := 0; lm_register_mask := 0;
          lm_sp_mask := None; lm_num_dex_registers := 0; lm_inlining_depth := 0;
          lm_registers := []; lm_frames := [] |}
       (logical_content interleaved_program !! 0%nat)).
  split; [reflexivity|].
  split.
  { apply (bool_decide_unpack (Forall StreamCall_typed interleaved_program)).
    vm_compute. exact I. }
  split.
  { apply (bool_decide_unpack (Forall StreamCall_method_valid interleaved_program)).
    vm_compute. exact I. }
  split; [apply Some_default; vm_compute; reflexivity|].
  split.
  { transitivity (Some (prepared_of interleaved_program));
      [|destruct (prepared_of _); reflexivity].
    apply Some_default. vm_compute. reflexivity. }
  split; [apply Some_default; vm_compute; reflexivity|].
  split; [vm_compute; reflexivity|].
  split; [vm_compute; reflexivity|].
  split; [reflexivity|].
  split; [reflexivity|].
  split; [vm_compute; reflexivity|].
  intros (_ & _ & _ & _ & _ & Hmap & _).
  destruct (Hmap 1%nat ltac:(simpl; lia)) as [Hseen _].
  vm_compute in Hseen. discriminate Hseen.
Qed.

End LogicalWitnesses.
